(** * perflock: the CPU-set helpers, the lock queue and the daemon session

    A shallow embedding of the Go sources of perflock
    ([internal/cpuset], [cmd/perflock/lock.go], [cmd/perflock/daemon.go],
    [cmd/perflock/main.go])
    together with the properties of the lock queue, the core reservation
    and the session that the specification states.

    Conventions.
    - Go [int] and [uint] are 64 bit wide (perflock is a Linux/amd64 tool).
      An [int] is a [Z]; a [uint] that is only compared and decremented
      ([wantCores]) is an [N].
    - A run-time panic, a failed [assert], and a send that would block for
      ever are results of their own ([Abort]); nothing runs after them.
    - Pointers to [Locker]s are indices into a store of lockers, so that
      the queue, the session and the wake pass all see the same object. *)

From Stdlib Require Import ZArith Lia Ascii String.
From stdpp Require Import base tactics option list list_numbers numbers strings pretty sorting.

Local Open Scope Z_scope.

(** ** Results of code that can panic *)

Inductive abort : Type :=
| IndexOutOfRange                (* run-time panic: index out of range *)
| NilDereference                 (* run-time panic: invalid pointer *)
| AssertFailed (format : string) (* panic raised by [assert] *)
| PanicMsg (msg : string)        (* explicit [panic(...)] *)
| WouldBlock                     (* send on a full channel under the mutex *)
| OutOfFuel.                     (* the loop did not finish within the fuel *)

Inductive result (A : Type) : Type :=
| Ok (a : A)
| Abort (e : abort).
Arguments Ok {A} a.
Arguments Abort {A} e.

#[global] Instance result_ret : MRet result := fun A a => Ok a.
#[global] Instance result_bind : MBind result := fun A B f m =>
  match m with
  | Ok a => f a
  | Abort e => Abort e
  end.

(** ** golang.org/x/sys/unix: the CPUSet bitmap

    The type and its methods come from the x/sys/unix package, which the
    repository imports; they are written here after that package:
    [type CPUSet [cpuSetSize]cpuMask] with [cpuSetSize = 1024 / 64] words
    of 64 bits. *)
Module unix.

Definition _NCPUBITS : Z := 64.
Definition cpuSetSize : Z := 16.

(** A CPUSet is an array of [cpuSetSize] words, word 0 first. *)
Abbreviation CPUSet := (list Z) (only parsing).

(** The zero value of the array type. *)
Definition CPUSet_Zero : CPUSet := replicate (Z.to_nat cpuSetSize) 0.

(** [cpu / _NCPUBITS]: Go's division truncates towards zero. *)
Definition cpuBitsIndex (cpu : Z) : Z := Z.quot cpu _NCPUBITS.

(** [cpuMask(1 << (uint(cpu) % _NCPUBITS))]. *)
Definition cpuBitsMask (cpu : Z) : Z :=
  Z.shiftl 1 ((cpu mod 2 ^ 64) mod _NCPUBITS).

(** [s[i]] for an array: a negative or too large index panics. *)
Definition word_at (s : CPUSet) (i : Z) : result Z :=
  if (i <? 0) then Abort IndexOutOfRange
  else match s !! Z.to_nat i with
       | Some w => Ok w
       | None => Abort IndexOutOfRange
       end.

(** [s[i] = w]. *)
Definition word_set (s : CPUSet) (i : Z) (w : Z) : CPUSet :=
  <[Z.to_nat i := w]> s.

(** [func (s *CPUSet) Set(cpu int)]:
    [i := cpuBitsIndex(cpu); if i < len(s) { s[i] |= cpuBitsMask(cpu) }]. *)
Definition CPUSet_Set (s : CPUSet) (cpu : Z) : result CPUSet :=
  let i := cpuBitsIndex cpu in
  if i <? cpuSetSize then
    w ← word_at s i; Ok (word_set s i (Z.lor w (cpuBitsMask cpu)))
  else Ok s.

(** [func (s *CPUSet) Clear(cpu int)]:
    [if i < len(s) { s[i] &^= cpuBitsMask(cpu) }]. *)
Definition CPUSet_Clear (s : CPUSet) (cpu : Z) : result CPUSet :=
  let i := cpuBitsIndex cpu in
  if i <? cpuSetSize then
    w ← word_at s i; Ok (word_set s i (Z.ldiff w (cpuBitsMask cpu)))
  else Ok s.

(** [func (s *CPUSet) IsSet(cpu int) bool]:
    [if i < len(s) { return s[i]&cpuBitsMask(cpu) != 0 }; return false]. *)
Definition CPUSet_IsSet (s : CPUSet) (cpu : Z) : result bool :=
  let i := cpuBitsIndex cpu in
  if i <? cpuSetSize then
    w ← word_at s i; Ok (negb (Z.land w (cpuBitsMask cpu) =? 0))
  else Ok false.

(** [math/bits.OnesCount64]: the number of one bits of a 64-bit word. *)
Definition OnesCount64 (w : Z) : Z :=
  Z.of_nat (length (filter (fun b => Z.testbit w b = true) (seqZ 0 64))).

(** [func (s *CPUSet) Count() int]:
    [c := 0; for _, b := range s { c += bits.OnesCount64(uint64(b)) }]. *)
Definition CPUSet_Count (s : CPUSet) : Z :=
  foldl (fun c b => c + OnesCount64 b) 0 s.

End unix.

(** ** internal/cpuset *)
Module cpuset.

(** [for i := range a { res[i] = a[i] & b[i] }] over the two arrays. *)
Definition Intersect (a b : unix.CPUSet) : unix.CPUSet := zip_with Z.land a b.

Definition Union (a b : unix.CPUSet) : unix.CPUSet := zip_with Z.lor a b.

(** [a[i] &^ b[i]] is and-not. *)
Definition Difference (a b : unix.CPUSet) : unix.CPUSet := zip_with Z.ldiff a b.

(** The loop of [Range]:
    [for i := 0; count > 0; i++ { if s.IsSet(i) { fn(i); count-- } }].
    The callback works on the variables it captures, here the state [A];
    [fuel] bounds the number of iterations. *)
Fixpoint Range_loop {A : Type} (fuel : nat) (s : unix.CPUSet)
    (fn : Z -> A -> result A) (i count : Z) (a : A) : result A :=
  if 0 <? count then
    match fuel with
    | O => Abort OutOfFuel
    | S fuel' =>
        b ← unix.CPUSet_IsSet s i;
        if (b : bool) then
          a' ← fn i a;
          Range_loop fuel' s fn (i + 1) (count - 1) a'
        else Range_loop fuel' s fn (i + 1) count a
    end
  else Ok a.

(** [func Range(s unix.CPUSet, fn func(int))]. *)
Definition Range {A : Type} (fuel : nat) (s : unix.CPUSet)
    (fn : Z -> A -> result A) (a : A) : result A :=
  Range_loop fuel s fn 0 (unix.CPUSet_Count s) a.

End cpuset.

(** ** Go's [error] values

    Only the kind of an error is observed by the code below (it is compared
    with [nil], logged, or passed on), so an error is kept structured. *)
Inductive numErr : Type := ErrSyntax | ErrRange.

Inductive error : Type :=
| errorString (msg : string)                       (* errors.New, fmt.Errorf *)
| NumError (Func Num : string) (Err : numErr)      (* *strconv.NumError *)
| invalidRange (r : string) (start end_ : Z).      (* "invalid range %q (%d > %d)" *)

(** ** strings and strconv, as far as [Parse] uses them *)
Module strings.

(** [strings.Split(s, sep)] for a separator of one byte: one piece more
    than there are separators. *)
Fixpoint Split (s : string) (sep : ascii) : list string :=
  match s with
  | EmptyString => [EmptyString]
  | String c s' =>
      if Ascii.eqb c sep then EmptyString :: Split s' sep
      else match Split s' sep with
           | p :: ps => String c p :: ps
           | [] => [String c EmptyString]
           end
  end.

(** [strings.Cut(s, sep)]: the text before and after the first [sep]. *)
Fixpoint Cut (s : string) (sep : ascii) : option (string * string) :=
  match s with
  | EmptyString => None
  | String c s' =>
      if Ascii.eqb c sep then Some (EmptyString, s')
      else match Cut s' sep with
           | Some (before, after) => Some (String c before, after)
           | None => None
           end
  end.

(** [strings.SplitN(s, sep, 2)]: split at the first separator only. *)
Definition SplitN2 (s : string) (sep : ascii) : list string :=
  match Cut s sep with
  | Some (before, after) => [before; after]
  | None => [s]
  end.

End strings.

Module strconv.

Definition maxUint64 : Z := 2 ^ 64 - 1.
Definition maxInt64 : Z := 2 ^ 63 - 1.
Definition minInt64 : Z := - 2 ^ 63.

Definition isDigit (c : ascii) : bool :=
  let n := nat_of_ascii c in (48 <=? n)%nat && (n <=? 57)%nat.

(** The digit loop of [ParseUint(s, 10, 64)]: a byte that is no decimal
    digit is a syntax error, a value beyond 64 bits a range error,
    whichever comes first from the left. *)
Fixpoint ParseUint_loop (s : string) (n : Z) : Z + numErr :=
  match s with
  | EmptyString => inl n
  | String c s' =>
      if isDigit c then
        let d := Z.of_nat (nat_of_ascii c) - 48 in
        if n >=? maxUint64 `quot` 10 + 1 then inr ErrRange      (* n*10 overflows *)
        else
          let n1 := n * 10 + d in
          if n1 >? maxUint64 then inr ErrRange                  (* n+d overflows *)
          else ParseUint_loop s' n1
      else inr ErrSyntax
  end.

(** [strconv.Atoi(s)] on a 64-bit platform: an optional sign and decimal
    digits. The fast path for short strings and [ParseInt(s, 10, 0)] agree;
    the result is the pair [(int, error)] that Go returns. *)
Definition Atoi (s : string) : Z * option error :=
  let syntax := (0, Some (NumError "Atoi" s ErrSyntax)) in
  match s with
  | EmptyString => syntax
  | String c0 rest =>
      let neg := Ascii.eqb c0 "-"%char in
      let digits := if Ascii.eqb c0 "+"%char || neg then rest else s in
      match digits with
      | EmptyString => syntax
      | _ =>
          match ParseUint_loop digits 0 with
          | inr ErrSyntax => syntax
          | inr ErrRange =>
              (if neg then minInt64 else maxInt64, Some (NumError "Atoi" s ErrRange))
          | inl un =>
              if negb neg && (un >=? 2 ^ 63) then
                (maxInt64, Some (NumError "Atoi" s ErrRange))
              else if neg && (un >? 2 ^ 63) then
                (minInt64, Some (NumError "Atoi" s ErrRange))
              else (if neg then - un else un, None)
          end
      end
  end.

End strconv.

(** [e++] on an [int]: two's complement wrap-around. *)
Definition int_incr (e : Z) : Z :=
  if e =? strconv.maxInt64 then strconv.minInt64 else e + 1.

Module cpuset_parse.

(** [for e := start; e <= end; e++ { set.Set(e) }]. *)
Fixpoint Parse_fill (fuel : nat) (e end_ : Z) (set : unix.CPUSet)
    : result unix.CPUSet :=
  if e <=? end_ then
    match fuel with
    | O => Abort OutOfFuel
    | S fuel' =>
        set' ← unix.CPUSet_Set set e;
        Parse_fill fuel' (int_incr e) end_ set'
    end
  else Ok set.

(** The body of [for _, r := range ranges] in [Parse]; the pair is Go's
    [(unix.CPUSet, error)]. The loop over a range runs [end - start + 1]
    times, and once more when [e++] wraps at the largest [int]. *)
Fixpoint Parse_ranges (ranges : list string) (set : unix.CPUSet)
    : result (unix.CPUSet * option error) :=
  match ranges with
  | [] => Ok (set, None)
  | r :: ranges' =>
      match strings.SplitN2 r "-"%char with
      | [b0] =>
          let '(elem, err) := strconv.Atoi b0 in
          match err with
          | Some e => Ok (set, Some e)
          | None => set' ← unix.CPUSet_Set set elem; Parse_ranges ranges' set'
          end
      | [b0; b1] =>
          let '(start, err) := strconv.Atoi b0 in
          match err with
          | Some e => Ok (set, Some e)
          | None =>
              let '(end_, err) := strconv.Atoi b1 in
              match err with
              | Some e => Ok (set, Some e)
              | None =>
                  if start >? end_ then Ok (set, Some (invalidRange r start end_))
                  else
                    set' ← Parse_fill (Z.to_nat (end_ - start + 2)) start end_ set;
                    Parse_ranges ranges' set'
              end
          end
      | _ => Parse_ranges ranges' set
      end
  end.

(** [func Parse(s string) (unix.CPUSet, error)]. *)
Definition Parse (s : string) : result (unix.CPUSet * option error) :=
  let set := unix.CPUSet_Zero in
  if String.eqb s "" then Ok (set, Some (errorString "cannot parse empty string"))
  else Parse_ranges (strings.Split s ","%char) set.

(** [func CPUSetOfPid(pid int) (set unix.CPUSet, err error)].
    [allowedList] reads [/proc/<pid>/status]; what it returns is an input
    from the environment. *)
Definition CPUSetOfPid (allowedList : Z -> string * option error) (pid : Z)
    : result (unix.CPUSet * option error) :=
  let '(list, err) := allowedList pid in
  match err with
  | Some e => Ok (unix.CPUSet_Zero, Some e)
  | None => Parse list
  end.

End cpuset_parse.

(** ** cmd/perflock/lock.go *)
Module lock.

(** A [*Locker]: the address of a locker in the store. *)
Abbreviation ptr := nat (only parsing).

(** [type Locker struct]. [C] and [c] are the two ends of one channel
    made with [make(chan bool, 1)]; [ch] is what that channel buffers. *)
Record Locker : Type := mkLocker {
  ch : list bool;
  wantCores : N;
  availCores : unix.CPUSet;
  assignedCores : unix.CPUSet;
  shared : bool;
  woken : bool;
  msg : string
}.

(** [theLock], a [PerfLock] ([q] and [cores]; every operation below runs
    between [l.l.Lock()] and [l.l.Unlock()], so it is one step), and the
    lockers that the pointers of the program refer to. *)
Record state : Type := mkState {
  heap : list Locker;
  q : list ptr;
  cores : unix.CPUSet
}.

Definition set_q (q' : list ptr) (st : state) : state :=
  mkState (heap st) q' (cores st).
Definition set_cores (c : unix.CPUSet) (st : state) : state :=
  mkState (heap st) (q st) c.
Definition store (p : ptr) (l : Locker) (st : state) : state :=
  mkState (<[p := l]> (heap st)) (q st) (cores st).

Definition set_assignedCores (a : unix.CPUSet) (l : Locker) : Locker :=
  mkLocker (ch l) (wantCores l) (availCores l) a (shared l) (woken l) (msg l).
Definition set_woken (b : bool) (l : Locker) : Locker :=
  mkLocker (ch l) (wantCores l) (availCores l) (assignedCores l) (shared l) b (msg l).
Definition set_ch (c : list bool) (l : Locker) : Locker :=
  mkLocker c (wantCores l) (availCores l) (assignedCores l) (shared l) (woken l) (msg l).

(** Reading through a [*Locker]. *)
Definition deref (st : state) (p : ptr) : result Locker :=
  match heap st !! p with
  | Some l => Ok l
  | None => Abort NilDereference
  end.

(** [func assert(cond bool, format string, a ...interface{})]. *)
Definition assert (cond : bool) (format : string) : result unit :=
  if cond then Ok tt else Abort (AssertFailed format).

(** The conversion [uint(x)] of an [int]. *)
Definition uint (x : Z) : N := Z.to_N (x mod 2 ^ 64).

(** The closure passed to [cpuset.Range] in [takeCores]; it works on
    [locker.assignedCores], [l.cores] and the captured [want]:
    [if want > 0 { locker.assignedCores.Set(i); l.cores.Clear(i); want-- }]. *)
Definition takeCores_fn (i : Z) (v : unix.CPUSet * unix.CPUSet * N)
    : result (unix.CPUSet * unix.CPUSet * N) :=
  let '(assigned, free, want) := v in
  if (0 <? want)%N then
    assigned' ← unix.CPUSet_Set assigned i;
    free' ← unix.CPUSet_Clear free i;
    Ok (assigned', free', N.pred want)
  else Ok v.

(** Iterations granted to [cpuset.Range]: one per bit of a [CPUSet]. *)
Definition Range_fuel : nat := 1024.

(** [func (l *PerfLock) takeCores(locker *Locker)]. What the closure does to
    [locker.assignedCores] and [l.cores] is threaded through [Range] and
    stored when [Range] returns. *)
Definition takeCores (p : ptr) (st : state) : result state :=
  locker ← deref st p;
  _ ← assert (wantCores locker <=? uint (unix.CPUSet_Count (cores st)))%N "BUG: %d < %d";
  if (wantCores locker =? 0)%N then Ok st
  else
    let cs := cpuset.Intersect (cores st) (availCores locker) in
    '(assigned, free, _) ←
      cpuset.Range Range_fuel cs takeCores_fn
        (assignedCores locker, cores st, wantCores locker);
    let st' := set_cores free (store p (set_assignedCores assigned locker) st) in
    _ ← assert (uint (unix.CPUSet_Count assigned) =? wantCores locker)%N "BUG: %d != %d";
    Ok st'.

(** [locker.c <- true] on the channel of capacity one. *)
Definition send (p : ptr) (v : bool) (st : state) : result state :=
  locker ← deref st p;
  if (length (ch locker) <? 1)%nat
  then Ok (store p (set_ch (ch locker ++ [v]) locker) st)
  else Abort WouldBlock.

(** [<-locker.C]: the session takes the value that the channel buffers;
    on an empty channel the receive waits, which is [None]. *)
Definition recv (p : ptr) (st : state) : option (bool * state) :=
  match heap st !! p with
  | Some locker =>
      match ch locker with
      | v :: rest => Some (v, store p (set_ch rest locker) st)
      | [] => None
      end
  | None => None
  end.

(** The closure [wake] of [setQ]:
    [if locker.woken == false { l.takeCores(locker); locker.woken = true; locker.c <- true }]. *)
Definition wake (p : ptr) (st : state) : result state :=
  locker ← deref st p;
  if woken locker then Ok st
  else
    st1 ← takeCores p st;
    locker1 ← deref st1 p;
    send p true (store p (set_woken true locker1) st1).

(** [for i, locker := range q] of [setQ], entered when [q[0].shared]. *)
Fixpoint setQ_loop (i : nat) (q : list ptr) (st : state) : result state :=
  match q with
  | [] => Ok st
  | p :: q' =>
      locker ← deref st p;
      if negb (shared locker) then Ok st     (* break: exclusive lock *)
      else if negb (i =? 0)%nat && negb (woken locker)
              && negb (wantCores locker =? 0)%N
              && (uint (unix.CPUSet_Count (cores st)) <? wantCores locker)%N
      then Ok st                             (* break: not enough cores *)
      else st1 ← wake p st; setQ_loop (S i) q' st1
  end.

(** [func (l *PerfLock) setQ(q []*Locker)]. *)
Definition setQ (q : list ptr) (st : state) : result state :=
  let st := set_q q st in
  match q with
  | [] => Ok st
  | p0 :: _ =>
      head ← deref st p0;
      if shared head then setQ_loop 0 q st
      else wake p0 st
  end.

(** [func (l *PerfLock) Enqueue(shared, nonblocking bool, wantCores uint,
    set unix.CPUSet, msg string) *Locker]; [None] is Go's [nil]. *)
Definition Enqueue (shared_ nonblocking : bool) (wantCores_ : N)
    (set : unix.CPUSet) (msg_ : string) (st : state)
    : result (state * option ptr) :=
  let locker := length (heap st) in
  let st := mkState (heap st ++ [mkLocker [] wantCores_ set unix.CPUSet_Zero shared_ false msg_])
                    (q st) (cores st) in
  st ← setQ (q st ++ [locker]) st;
  l ← deref st locker;
  if nonblocking && negb (woken l) then
    (* Acquire failed. Dequeue. *)
    st ← setQ (take (length (q st) - 1) (q st)) st;
    Ok (st, None)
  else Ok (st, Some locker).

(** The position [i] of [for i, o := range l.q { if locker == o ... }]. *)
Fixpoint index_of (locker : ptr) (q : list ptr) : option nat :=
  match q with
  | [] => None
  | o :: q' => if (locker =? o)%nat then Some O else S <$> index_of locker q'
  end.

(** [func (l *PerfLock) Dequeue(locker *Locker)]. [copy(l.q[i:], l.q[i+1:])]
    followed by [l.q[:len(l.q)-1]] is the queue without its entry [i]. *)
Definition Dequeue (locker : ptr) (st : state) : result state :=
  match index_of locker (q st) with
  | Some i =>
      l ← deref st locker;
      let newset := cpuset.Union (cores st) (assignedCores l) in
      let st := set_cores newset st in
      let copied := take i (q st) ++ drop (S i) (q st) ++ drop (length (q st) - 1) (q st) in
      let st := set_q copied st in
      setQ (take (length (q st) - 1) (q st)) st
  | None => Abort (PanicMsg "Dequeue of non-enqueued Locker")
  end.

(** [func (l *PerfLock) Queue() []string]. *)
Definition Queue (st : state) : result (list string) :=
  foldr (fun p r => l ← deref st p; ms ← r; Ok (msg l :: ms)) (Ok []) (q st).

(** [theLock.cores = allCores] in [doDaemon]; no locker exists yet. *)
Definition init (allCores : unix.CPUSet) : state := mkState [] [] allCores.

End lock.

(** ** cmd/perflock/protocol.go and cmd/perflock/daemon.go *)
Module daemon.

(** [type ActionAcquire struct]. *)
Record ActionAcquire : Type := mkActionAcquire {
  Pid : Z;
  Cores : N;
  Shared : bool;
  NonBlocking : bool;
  Msg : string
}.

(** [type ActionAcquireResponse struct]; its field [Cores] is
    [RespCores] here, the name [Cores] being taken above. *)
Record ActionAcquireResponse : Type := mkActionAcquireResponse {
  Acquired : bool;
  RespCores : unix.CPUSet;
  Err : string
}.

(** What a session hands to [send]. *)
Inductive message : Type :=
| MsgAcquireResponse (r : ActionAcquireResponse)
| MsgList (l : list string)
| MsgString (s : string).

(** [type PerfLockAction struct { Action interface{} }]: the three
    registered action types, and any other value. *)
Inductive PerfLockAction : Type :=
| ActAcquire (a : ActionAcquire)
| ActList
| ActSetGovernor (Percent : Z)
| ActOther.

(** How the handling of one action leaves the loop of [Serve]:
    the loop goes on, or [Serve] returns, which runs the deferred
    [s.drop()] and then the deferred [c.Close()] of the caller. *)
Inductive flow : Type := Continue | Return.

(** The tab of the format ["%s\t%s\t%s\tcores=%d"]. *)
Definition tab : string := String (ascii_of_nat 9) EmptyString.

(** [int] arithmetic wraps at 64 bits. *)
Definition int64 (z : Z) : Z := (z + 2 ^ 63) mod 2 ^ 64 - 2 ^ 63.

Section Session.

(** The package [internal/cpupower] is used through its interface:
    a [*cpupower.Domain] is a [Domain], the cpufreq files of the
    machine are a state [HW], reading leaves them as they are. *)
Variable Domain : Type.
Variable HW : Type.
(** [cpupower.Domains() ([]*Domain, error)]. *)
Variable Domains : HW -> list Domain * option error.
(** [(d *Domain) CurrentRange() (min, max int, err error)]. *)
Variable CurrentRange : Domain -> HW -> Z * Z * option error.
(** [(d *Domain) AvailableRange() (min, max int, avail []int)]. *)
Variable AvailableRange : Domain -> HW -> Z * Z * list Z.
(** [(d *Domain) SetRange(min, max int) error]. *)
Variable SetRange : Domain -> Z -> Z -> HW -> HW * option error.

(** [allowedList(pid)] of internal/cpuset reads [/proc/<pid>/status]. *)
Variable allowedList : Z -> string * option error.
(** [time.Now().Format(time.Stamp)]. *)
Variable now : string.
(** Whether [enc.Encode(a)] succeeds on the connection. *)
Variable Encode : message -> bool.
(** [var allCores unix.CPUSet], set once by [doDaemon]. *)
Variable allCores : unix.CPUSet.

(** [type governorSettings struct]. *)
Record governorSettings : Type := mkGovernorSettings {
  domain : Domain;
  min : Z;
  max : Z
}.

(** [type Server struct]; [None] is [nil]. The connection [c] is the
    list of messages a function returns. *)
Record Server : Type := mkServer {
  userName : string;
  locker : option lock.ptr;
  acquiring : bool;
  oldGovernors : option (list governorSettings)
}.

(** [func send(enc *gob.Encoder, a interface{}) bool]: the message
    given to the encoder, with the outcome. *)
Definition send (a : message) : list (message * bool) * bool :=
  ([(a, Encode a)], Encode a).

(** [case ActionAcquire:] of [Serve], from the receipt of the action
    (the test of [s.acquiring] included) to the end of the case. *)
Definition serveAcquire (action : ActionAcquire) (s : Server) (st : lock.state)
    : result (Server * lock.state * list (message * bool) * flow) :=
  if acquiring s then Ok (s, st, [], Return)      (* message while acquiring *)
  else
    match locker s with
    | Some _ => Ok (s, st, [], Return)            (* acquiring lock twice *)
    | None =>
        let msg := (userName s +:+ tab +:+ now +:+ tab +:+ Msg action
                      +:+ tab +:+ "cores=" +:+ pretty (Cores action))%string in
        let msg := if Shared action then (msg +:+ " [shared]")%string else msg in
        r ← cpuset_parse.CPUSetOfPid allowedList (Pid action);
        let '(availCores, err) := r in
        match err with
        | Some _ => Ok (s, st, [], Return)
        | None =>
            if (lock.uint (unix.CPUSet_Count availCores) <? Cores action)%N then
              let '(out, _) := send (MsgAcquireResponse
                (mkActionAcquireResponse false unix.CPUSet_Zero
                   ("requested " +:+ pretty (Cores action)
                    +:+ " cores, but process only has "
                    +:+ pretty (unix.CPUSet_Count availCores)
                    +:+ " available (system has "
                    +:+ pretty (unix.CPUSet_Count allCores) +:+ ")")%string)) in
              Ok (s, st, out, Return)
            else
              '(st', l) ← lock.Enqueue (Shared action) (NonBlocking action)
                            (Cores action) availCores msg st;
              let s' := mkServer (userName s) l (acquiring s) (oldGovernors s) in
              match l with
              | Some _ =>
                  (* Enqueued. Wait for acquire: the loop of [Serve] now also
                     selects on [s.locker.C]. *)
                  Ok (mkServer (userName s') (locker s') true (oldGovernors s'),
                      st', [], Continue)
              | None =>
                  (* Non-blocking acquire failed. *)
                  let '(out, ok) := send (MsgAcquireResponse
                    (mkActionAcquireResponse false unix.CPUSet_Zero "")) in
                  Ok (s', st', out, if ok then Continue else Return)
              end
        end
    end.

(** [func (s *Server) restoreGovernor() error]. *)
Definition restoreGovernor (s : Server) (hw : HW) : HW * option error :=
  foldl (fun '(hw, err) g =>
           (* Try to set all of the domains, even if one fails. *)
           let '(hw', err1) := SetRange (domain g) (min g) (max g) hw in
           (hw', match err1, err with
                 | Some e1, None => Some e1
                 | _, _ => err
                 end))
        (hw, None) (default [] (oldGovernors s)).

(** [func (s *Server) drop()]. *)
Definition drop (s : Server) (hw : HW) (st : lock.state)
    : result (Server * HW * lock.state) :=
  (* Restore the CPU governor before releasing the lock. *)
  let '(s, hw) :=
    match oldGovernors s with
    | Some _ =>
        (mkServer (userName s) (locker s) (acquiring s) None,
         fst (restoreGovernor s hw))
    | None => (s, hw)
    end in
  (* Release the lock. *)
  match locker s with
  | Some p =>
      st' ← lock.Dequeue p st;
      Ok (mkServer (userName s) None (acquiring s) (oldGovernors s), hw, st')
  | None => Ok (s, hw, st)
  end.

(** The first loop of [setGovernor]: save current frequency settings. *)
Fixpoint setGovernor_save (domains : list Domain) (hw : HW)
    (old : list governorSettings) : list governorSettings + error :=
  match domains with
  | [] => inl old
  | d :: domains' =>
      let '(min_, max_, err) := CurrentRange d hw in
      match err with
      | Some e => inr e
      | None => setGovernor_save domains' hw (old ++ [mkGovernorSettings d min_ max_])
      end
  end.

Definition abs (x : Z) : Z := if x <? 0 then int64 (- x) else x.

(** [closest := avail[0]; for _, a := range avail { ... }]. *)
Definition closest (target : Z) (avail : list Z) : Z :=
  foldl (fun closest a =>
           if abs (int64 (target - a)) <? abs (int64 (target - closest))
           then a else closest)
        (default 0 (head avail)) avail.

(** The second loop of [setGovernor]: set new settings. *)
Fixpoint setGovernor_apply (domains : list Domain) (percent : Z) (hw : HW)
    : HW * option error :=
  match domains with
  | [] => (hw, None)
  | d :: domains' =>
      let '(min_, max_, avail) := AvailableRange d hw in
      let target := int64 (Z.quot (int64 (int64 (max_ - min_) * percent)) 100 + min_) in
      (* Find the nearest available frequency. *)
      let target := if (length avail =? 0)%nat then target else closest target avail in
      let '(hw', err) := SetRange d target target hw in
      match err with
      | Some e => (hw', Some e)
      | None => setGovernor_apply domains' percent hw'
      end
  end.

(** [func (s *Server) setGovernor(percent int) error]. *)
Definition setGovernor (percent : Z) (s : Server) (hw : HW)
    : Server * HW * option error :=
  let '(domains, err) := Domains hw in
  match err with
  | Some e => (s, hw, Some e)
  | None =>
      if (length domains =? 0)%nat then (s, hw, Some (errorString "no power domains"))
      else
        match setGovernor_save domains hw [] with
        | inr e => (s, hw, Some e)
        | inl old =>
            let s := mkServer (userName s) (locker s) (acquiring s) (Some old) in
            let '(hw', err) := setGovernor_apply domains percent hw in
            (s, hw', err)
        end
  end.

(** [err.Error()], the text of an error value. *)
Variable Error : error -> string.

(** [case action, ok := <-actions:] of [Serve] for a received action:
    the test of [s.acquiring] and the type switch. *)
Definition serveAction (action : PerfLockAction) (s : Server) (st : lock.state) (hw : HW)
    : result (Server * lock.state * HW * list (message * bool) * flow) :=
  if acquiring s then Ok (s, st, hw, [], Return)  (* message while acquiring *)
  else
    match action with
    | ActAcquire a =>
        '(s', st', out, fl) ← serveAcquire a s st;
        Ok (s', st', hw, out, fl)
    | ActList =>
        list ← lock.Queue st;
        let '(out, ok) := send (MsgList list) in
        Ok (s, st, hw, out, if ok then Continue else Return)
    | ActSetGovernor percent =>
        match locker s with
        | None => Ok (s, st, hw, [], Return)      (* setting governor without lock *)
        | Some _ =>
            let '(s', hw', err) := setGovernor percent s hw in
            let errString := match err with Some e => Error e | None => EmptyString end in
            let '(out, ok) := send (MsgString errString) in
            Ok (s', st, hw', out, if ok then Continue else Return)
        end
    | ActOther => Ok (s, st, hw, [], Return)      (* unknown message *)
    end.

(** [case <-acquireC:] of [Serve]. [acquireC] is [s.locker.C] from the
    moment [s.acquiring] is set until this case resets both, and [nil]
    otherwise; a receive from [nil] or from an empty channel waits, which
    is [None]. *)
Definition serveGrant (s : Server) (st : lock.state)
    : option (result (Server * lock.state * list (message * bool) * flow)) :=
  if acquiring s then
    match locker s with
    | Some p =>
        match lock.recv p st with
        | Some (_, st') =>
            Some (l ← lock.deref st' p;
                  let '(out, ok) := send (MsgAcquireResponse
                    (mkActionAcquireResponse true (lock.assignedCores l) EmptyString)) in
                  Ok (mkServer (userName s) (locker s) false (oldGovernors s),
                      st', out, if ok then Continue else Return))
        | None => None
        end
    | None => None
    end
  else None.

(** What the [select] of [Serve] can pick: an action that the decoder
    goroutine delivers, the closed [actions] channel, or the grant. *)
Inductive event : Type :=
| EvAction (action : PerfLockAction)
| EvClosed
| EvGranted.

(** One turn of [for { select { ... } }] in [Serve]; [None] when the
    chosen case is not ready. *)
Definition Serve_select (ev : event) (s : Server) (st : lock.state) (hw : HW)
    : option (result (Server * lock.state * HW * list (message * bool) * flow)) :=
  match ev with
  | EvAction action => Some (serveAction action s st hw)
  | EvClosed => Some (Ok (s, st, hw, [], Return))   (* connection closed *)
  | EvGranted =>
      match serveGrant s st with
      | Some r => Some ('(s', st', out, fl) ← r; Ok (s', st', hw, out, fl))
      | None => None
      end
  end.

(** One turn of the loop together with [defer s.drop()]: when the loop
    is left, [drop] runs and the session is over ([None]). *)
Definition Serve_turn (ev : event) (s : Server) (st : lock.state) (hw : HW)
    : option (result (option Server * lock.state * HW * list (message * bool))) :=
  match Serve_select ev s st hw with
  | Some r =>
      Some ('(s', st', hw', out, fl) ← r;
            match fl with
            | Continue => Ok (Some s', st', hw', out)
            | Return =>
                '(_, hw'', st'') ← drop s' hw' st';
                Ok (None, st'', hw'', out)
            end)
  | None => None
  end.

(** The start of [Serve]: without credentials it returns at once; the
    user name is ["???"] unless the lookup gives one. *)
Definition Serve_start (cred : option (option string)) : option Server :=
  match cred with
  | Some name => Some (mkServer (default "???"%string name) None false None)
  | None => None
  end.

(** The daemon: [theLock], the cpufreq files, and one [Server] per
    connection that [doDaemon] accepted ([None] once its [Serve] has
    returned). Every session works on the same [theLock]. *)
Record daemon_state : Type := mkDaemon {
  sessions : list (option Server);
  theLock : lock.state;
  cpufreq : HW
}.

(** What happens next in the daemon: [doDaemon] accepts a connection and
    starts [NewServer(c).Serve()], or the session [sid] takes one turn. *)
Inductive daemon_event : Type :=
| Accept (cred : option (option string))
| Turn (sid : nat) (ev : event).

(** One step of the daemon. The lock operations of a turn run under the
    mutex of [theLock]; a panic in any session ends the daemon. *)
Definition daemon_step (e : daemon_event) (d : daemon_state)
    : option (result (daemon_state * list (message * bool))) :=
  match e with
  | Accept cred =>
      Some (Ok (mkDaemon (sessions d ++ [Serve_start cred]) (theLock d) (cpufreq d), []))
  | Turn sid ev =>
      match sessions d !! sid with
      | Some (Some s) =>
          match Serve_turn ev s (theLock d) (cpufreq d) with
          | Some r =>
              Some ('(s', st', hw', out) ← r;
                    Ok (mkDaemon (<[sid := s']> (sessions d)) st' hw', out))
          | None => None
          end
      | _ => None
      end
  end.

(** [doDaemon] up to its accept loop: [theLock.cores = allCores]. *)
Definition daemon_init (hw : HW) : daemon_state :=
  mkDaemon [] (lock.init allCores) hw.

End Session.

Arguments mkGovernorSettings {Domain} domain min max.
Arguments domain {Domain} g.
Arguments min {Domain} g.
Arguments max {Domain} g.
Arguments mkServer {Domain} userName locker acquiring oldGovernors.
Arguments userName {Domain} s.
Arguments locker {Domain} s.
Arguments acquiring {Domain} s.
Arguments oldGovernors {Domain} s.
Arguments serveAcquire {Domain} allowedList now Encode allCores action s st.
Arguments restoreGovernor {Domain HW} SetRange s hw.
Arguments drop {Domain HW} SetRange s hw st.
Arguments setGovernor_save {Domain HW} CurrentRange domains hw old.
Arguments setGovernor_apply {Domain HW} AvailableRange SetRange domains percent hw.
Arguments setGovernor {Domain HW} Domains CurrentRange AvailableRange SetRange percent s hw.
Arguments serveAction {Domain HW} Domains CurrentRange AvailableRange SetRange
  allowedList now Encode allCores Error action s st hw.
Arguments serveGrant {Domain} Encode s st.
Arguments Serve_select {Domain HW} Domains CurrentRange AvailableRange SetRange
  allowedList now Encode allCores Error ev s st hw.
Arguments Serve_turn {Domain HW} Domains CurrentRange AvailableRange SetRange
  allowedList now Encode allCores Error ev s st hw.
Arguments Serve_start {Domain} cred.
Arguments mkDaemon {Domain HW} sessions theLock cpufreq.
Arguments sessions {Domain HW} d.
Arguments theLock {Domain HW} d.
Arguments cpufreq {Domain HW} d.
Arguments daemon_step {Domain HW} Domains CurrentRange AvailableRange SetRange
  allowedList now Encode allCores Error e d.
Arguments daemon_init {Domain HW} allCores hw.

End daemon.

(** ** cmd/perflock/main.go: the governor flag and the shell escaping *)
Module main.

(** The double-quote byte of the Go literals below. *)
Definition dquote : ascii := ascii_of_nat 34.

(** [strings.Replace(s, old, new, -1)] for an [old] of one byte. *)
Fixpoint Replace (s : string) (old : ascii) (new : string) : string :=
  match s with
  | EmptyString => EmptyString
  | String c s' =>
      if Ascii.eqb c old then (new +:+ Replace s' old new)%string
      else String c (Replace s' old new)
  end.

(** [strings.Join(elems, sep)]. *)
Fixpoint Join (elems : list string) (sep : string) : string :=
  match elems with
  | [] => EmptyString
  | e :: elems' =>
      match elems' with
      | [] => e
      | _ :: _ => (e +:+ sep +:+ Join elems' sep)%string
      end
  end.

(** [strings.ContainsRune(s, r)] for a rune below 0x80. *)
Fixpoint ContainsRune (s : string) (r : ascii) : bool :=
  match s with
  | EmptyString => false
  | String c s' => Ascii.eqb c r || ContainsRune s' r
  end.

(** The test that the loop of [shellEscape] makes on a rune:
    ['a' <= r && r <= 'z' || 'A' <= r && r <= 'Z' || '0' <= r && r <= '9'
     || strings.ContainsRune(..., r)] with the runes [@%_-+:,./]. *)
Definition safe (r : ascii) : bool :=
  let n := nat_of_ascii r in
  (97 <=? n)%nat && (n <=? 122)%nat || (65 <=? n)%nat && (n <=? 90)%nat
  || (48 <=? n)%nat && (n <=? 57)%nat || ContainsRune "@%_-+:,./" r.

(** The replacement for a single quote in [shellEscape]: a single quote,
    a double quote, a single quote, a double quote, a single quote. *)
Definition quote_escape : string :=
  String "'" (String dquote (String "'" (String dquote (String "'" EmptyString)))).

(** [for _, r := range x] of [shellEscape]. The string is walked byte by
    byte: a byte below 0x80 is a rune of its own, and a byte from 0x80 on
    is part of a rune that is not ASCII (or of an invalid encoding, read
    as U+FFFD), which the test refuses like the byte itself. *)
Fixpoint shellEscape_loop (rest x : string) : string :=
  match rest with
  | EmptyString => x
  | String r rest' =>
      if safe r then shellEscape_loop rest' x
      else (* Unsafe character. *)
        ("'" +:+ Replace x "'" quote_escape +:+ "'")%string
  end.

(** [func shellEscape(x string) string]. *)
Definition shellEscape (x : string) : string :=
  if (String.length x =? 0)%nat then "''"%string
  else shellEscape_loop x x.

(** [func shellEscapeList(xs []string) string]. *)
Definition shellEscapeList (xs : list string) : string :=
  Join (map shellEscape xs) " ".

(** [type governorFlag struct { percent int }]. *)
Record governorFlag : Type := mkGovernorFlag { percent : Z }.

(** [func (f *governorFlag) String() string]. *)
Definition governorFlag_String (f : governorFlag) : string :=
  if percent f <? 0 then "none"%string
  else (pretty (percent f) +:+ "%")%string.

(** The text before a final [%] when only digits stand before it. *)
Fixpoint digits_percent (v : string) : option string :=
  match v with
  | EmptyString => None
  | String c v' =>
      if Ascii.eqb c "%"%char then
        match v' with EmptyString => Some EmptyString | _ => None end
      else if strconv.isDigit c then String c <$> digits_percent v'
      else None
  end.

(** [regexp.MustCompile(`^([0-9]+)%$`).FindStringSubmatch(v)]: the
    submatch [m[1]], or [None] for [nil]. *)
Definition FindStringSubmatch (v : string) : option string :=
  match digits_percent v with
  | Some (String c m) => Some (String c m)
  | _ => None
  end.

(** [func (f *governorFlag) Set(v string) error]; the error of [Atoi]
    is dropped, as in [f.percent, _ = strconv.Atoi(m[1])]. *)
Definition governorFlag_Set (v : string) (f : governorFlag) : governorFlag * option error :=
  if String.eqb v "none" then (mkGovernorFlag (-1), None)
  else
    match FindStringSubmatch v with
    | None =>
        (f, Some (errorString ("governor must be " +:+ String dquote "none" +:+ String dquote " or "
                               +:+ String dquote "N%" +:+ String dquote EmptyString)%string))
    | Some m1 => (mkGovernorFlag (fst (strconv.Atoi m1)), None)
    end.

End main.

(** * Specification vocabulary *)

(** A value of the array type [unix.CPUSet]: sixteen 64-bit words. *)
Definition wf_set (s : unix.CPUSet) : Prop :=
  length s = 16%nat /\ Forall (fun w => 0 <= w < 2 ^ 64) s.

(** Word [n] of a set. *)
Definition word (s : unix.CPUSet) (n : nat) : Z := default 0 (s !! n).

(** CPU [i] is in the set: bit [i mod 64] of word [i / 64]. *)
Definition bit (s : unix.CPUSet) (i : Z) : bool :=
  (0 <=? i) && (i <? 1024) && Z.testbit (word s (Z.to_nat (i / 64))) (i mod 64).

(** The CPUs of a set, lowest first. *)
Definition members (s : unix.CPUSet) : list Z :=
  filter (fun i => bit s i = true) (seqZ 0 1024).

(** Calling a callback on the indices of a list, one after the other. *)
Fixpoint foldM {A : Type} (fn : Z -> A -> result A) (l : list Z) (a : A) : result A :=
  match l with
  | [] => Ok a
  | i :: l' => a' ← fn i a; foldM fn l' a'
  end.

(** ** The lock queue *)

(** The flags of the locker behind a pointer. *)
Definition wokenb (st : lock.state) (p : nat) : bool :=
  match lock.heap st !! p with Some l => lock.woken l | None => false end.
Definition sharedb (st : lock.state) (p : nat) : bool :=
  match lock.heap st !! p with Some l => lock.shared l | None => false end.
Definition want_of (st : lock.state) (p : nat) : N :=
  match lock.heap st !! p with Some l => lock.wantCores l | None => 0%N end.
Definition assigned_of (st : lock.state) (p : nat) : unix.CPUSet :=
  match lock.heap st !! p with Some l => lock.assignedCores l | None => unix.CPUSet_Zero end.

(** The first [n] CPUs of a set. *)
Definition lowest (n : N) (s : unix.CPUSet) : list Z := take (N.to_nat n) (members s).

(** The CPUs that a wake of [l] takes in state [st]: the lowest
    [wantCores] ones that are free and available to it. *)
Definition taken_by (st : lock.state) (l : lock.Locker) : list Z :=
  lowest (lock.wantCores l) (cpuset.Intersect (lock.cores st) (lock.availCores l)).

(** A locker as the program keeps it: its sets are arrays, and until it is
    woken it holds no core and its channel is empty; a locker that wants
    no core never holds one. *)
Definition wf_locker (l : lock.Locker) : Prop :=
  wf_set (lock.availCores l) /\ wf_set (lock.assignedCores l) /\
  (lock.woken l = false -> lock.assignedCores l = unix.CPUSet_Zero /\ lock.ch l = []) /\
  (lock.wantCores l = 0%N -> lock.assignedCores l = unix.CPUSet_Zero).

(** The accounting of cores: every core of the daemon is either free or
    assigned to exactly one queued locker. *)
Record Inv (all : unix.CPUSet) (st : lock.state) : Prop := mkInv {
  inv_cores_wf : wf_set (lock.cores st);
  inv_nodup : NoDup (lock.q st);
  inv_heap : Forall wf_locker (lock.heap st);
  inv_valid : forall p, p ∈ lock.q st -> (p < length (lock.heap st))%nat;
  inv_free_all : forall i, bit (lock.cores st) i = true -> bit all i = true;
  inv_assigned : forall p i, p ∈ lock.q st -> bit (assigned_of st p) i = true ->
                   bit (lock.cores st) i = false /\ bit all i = true;
  inv_disjoint : forall p p' i, p ∈ lock.q st -> p' ∈ lock.q st -> p <> p' ->
                   bit (assigned_of st p) i = true -> bit (assigned_of st p') i = false;
  inv_cover : forall i, bit all i = true ->
                bit (lock.cores st) i = true \/
                exists p, p ∈ lock.q st /\ bit (assigned_of st p) i = true
}.

(** An entry at which the walk over a shared cohort stops: it is not
    shared, or it is behind the head, not yet woken, and wants more cores
    than are free. *)
Definition stop_entry (i : nat) (st : lock.state) (p : nat) : Prop :=
  sharedb st p = false \/
  (i <> 0%nat /\ wokenb st p = false /\ want_of st p <> 0%N /\
   (lock.uint (unix.CPUSet_Count (lock.cores st)) < want_of st p)%N).

(** An entry in front of which the walk is to stop, whatever its place
    in the queue: it is not shared, or it is not yet woken and wants more
    cores than are free. *)
Definition blocked_entry (st : lock.state) (p : nat) : Prop :=
  sharedb st p = false \/
  (wokenb st p = false /\ want_of st p <> 0%N /\
   (lock.uint (unix.CPUSet_Count (lock.cores st)) < want_of st p)%N).

(** Waking the entries of a list one after the other. *)
Fixpoint wake_all (ps : list nat) (st : lock.state) : result lock.state :=
  match ps with
  | [] => Ok st
  | p :: ps' => st1 ← lock.wake p st; wake_all ps' st1
  end.

(** The shape of the queue between two operations: the woken lockers are
    a prefix [ws]; behind an exclusive head nobody is woken; a shared
    cohort ends where the walk stops. *)
Record Cohort (st : lock.state) (ws us : list nat) : Prop := mkCohort {
  coh_split : lock.q st = ws ++ us;
  coh_woken : Forall (fun p => wokenb st p = true) ws;
  coh_unwoken : Forall (fun p => wokenb st p = false) us;
  coh_exclusive : forall h ws', ws = h :: ws' -> sharedb st h = false -> ws' = [];
  coh_shared : forall h ws', ws = h :: ws' -> sharedb st h = true ->
                 Forall (fun p => sharedb st p = true) ws
}.

Record Settled (st : lock.state) (ws us : list nat) : Prop := mkSettled {
  set_cohort : Cohort st ws us;
  set_head : ws = [] -> us = [];
  set_stop : forall h ws' u us', ws = h :: ws' -> sharedb st h = true -> us = u :: us' ->
               stop_entry (length ws) st u
}.

(** The states of the lock that a run of the daemon passes through:
    [Enqueue] and [Dequeue] from the initial state, as long as neither
    panics. The set given to [Enqueue] is a [unix.CPUSet]. *)
Inductive reachable (all : unix.CPUSet) : lock.state -> Prop :=
| reach_init : reachable all (lock.init all)
| reach_Enqueue st shared nonblocking want set msg st' r :
    reachable all st -> wf_set set ->
    lock.Enqueue shared nonblocking want set msg st = Ok (st', r) ->
    reachable all st'
| reach_Dequeue st p st' :
    reachable all st -> lock.Dequeue p st = Ok st' -> reachable all st'.

(** The store after [&Locker{...}] has made a new locker. *)
Definition alloc (l : lock.Locker) (st : lock.state) : lock.state :=
  lock.mkState (lock.heap st ++ [l]) (lock.q st) (lock.cores st).

(** The locker that [Enqueue] makes. *)
Definition newLocker (shared : bool) (wantCores : N) (set : unix.CPUSet)
    (msg : string) : lock.Locker :=
  lock.mkLocker [] wantCores set unix.CPUSet_Zero shared false msg.

(** A test for [wf_set] that computes. *)
Definition wf_setb (s : unix.CPUSet) : bool :=
  (length s =? 16)%nat && forallb (fun w => (0 <=? w) && (w <? 2 ^ 64)) s.

(** The union of the cores assigned to the queued lockers. *)
Definition assigned_union (st : lock.state) : unix.CPUSet :=
  foldr (fun p acc => cpuset.Union (assigned_of st p) acc) unix.CPUSet_Zero (lock.q st).

(** ** States used as examples

    Eight cores; an exclusive holder with a shared waiter behind it; two
    shared holders of three cores each. *)
Definition all8 : unix.CPUSet := [255; 0; 0; 0; 0; 0; 0; 0; 0; 0; 0; 0; 0; 0; 0; 0].

Definition cpus0_3 : unix.CPUSet := [15; 0; 0; 0; 0; 0; 0; 0; 0; 0; 0; 0; 0; 0; 0; 0].

Definition state_of (r : result (lock.state * option nat)) (d : lock.state) : lock.state :=
  match r with Ok (st, _) => st | Abort _ => d end.

Definition ex_exclusive : lock.state :=
  Eval vm_compute in
    state_of (lock.Enqueue false false 0 all8 "bench" (lock.init all8)) (lock.init all8).

Definition ex_exclusive_waiter : lock.state :=
  Eval vm_compute in
    state_of (lock.Enqueue true false 3 all8 "build" ex_exclusive) (lock.init all8).

Definition ex_shared3 : lock.state :=
  Eval vm_compute in
    state_of (lock.Enqueue true false 3 all8 "a" (lock.init all8)) (lock.init all8).

Definition ex_shared33 : lock.state :=
  Eval vm_compute in
    state_of (lock.Enqueue true false 3 all8 "b" ex_shared3) (lock.init all8).

(** ** The session and the governor *)

(** The outcomes of the calls [SetRange(g.min, g.max)] made on the saved
    settings one after the other, each on the machine the call before
    left. *)
Fixpoint restore_calls {Domain HW : Type}
    (SetRange : Domain -> Z -> Z -> HW -> HW * option error)
    (olds : list (daemon.governorSettings Domain)) (hw : HW) : list (option error) :=
  match olds with
  | [] => []
  | g :: olds' =>
      let '(hw', e) := SetRange (daemon.domain g) (daemon.min g) (daemon.max g) hw in
      e :: restore_calls SetRange olds' hw'
  end.

(** The machine after these calls. *)
Fixpoint restore_hw {Domain HW : Type}
    (SetRange : Domain -> Z -> Z -> HW -> HW * option error)
    (olds : list (daemon.governorSettings Domain)) (hw : HW) : HW :=
  match olds with
  | [] => hw
  | g :: olds' =>
      restore_hw SetRange olds'
        (fst (SetRange (daemon.domain g) (daemon.min g) (daemon.max g) hw))
  end.

(** The first error of a sequence of outcomes. *)
Fixpoint first_error (es : list (option error)) : option error :=
  match es with
  | [] => None
  | Some e :: _ => Some e
  | None :: es' => first_error es'
  end.

(** The text of the rejection of an over-large request. *)
Definition over_request (n : N) (m s : Z) : string :=
  ("requested " +:+ pretty n +:+ " cores, but process only has " +:+ pretty m
   +:+ " available (system has " +:+ pretty s +:+ ")")%string.

(** A machine for examples: three domains [0], [1], [2]; the machine is
    the list of the [SetRange] calls made so far; writing domain [1] and
    reading domain [2] fail. *)
Definition sim_Domains (hw : list (nat * Z * Z)) : list nat * option error :=
  ([0; 1; 2]%nat, None).
Definition sim_CurrentRange (d : nat) (hw : list (nat * Z * Z)) : Z * Z * option error :=
  (1000, 2000, if (d =? 2)%nat then Some (errorString "read failed") else None).
Definition sim_AvailableRange (d : nat) (hw : list (nat * Z * Z)) : Z * Z * list Z :=
  (800, 3000, []).
Definition sim_SetRange (d : nat) (mn mx : Z) (hw : list (nat * Z * Z))
    : list (nat * Z * Z) * option error :=
  (hw ++ [(d, mn, mx)], if (d =? 1)%nat then Some (errorString "write failed") else None).

(** ** The CPU-list grammar

    [list := element ("," element)*], [element := uint | uint "-" uint]
    with [lo <= hi]; a [uint] is a non-empty string of decimal digits. *)
Fixpoint all_digits (t : string) : bool :=
  match t with
  | EmptyString => true
  | String c t' => strconv.isDigit c && all_digits t'
  end.

(** The byte [c] occurs in [t]. *)
Fixpoint has_char (c : ascii) (t : string) : bool :=
  match t with
  | EmptyString => false
  | String c' t' => Ascii.eqb c' c || has_char c t'
  end.

Definition is_uint (t : string) : bool :=
  negb (String.eqb t "") && all_digits t.

(** The number a string of digits denotes, continuing from [n]. *)
Fixpoint value_from (n : Z) (t : string) : Z :=
  match t with
  | EmptyString => n
  | String c t' => value_from (n * 10 + (Z.of_nat (nat_of_ascii c) - 48)) t'
  end.

Definition value (t : string) : Z := value_from 0 t.

Inductive element : Type :=
| Single (t : string)
| Span (lo hi : string).

Definition render_elem (e : element) : string :=
  match e with
  | Single t => t
  | Span lo hi => (lo +:+ "-" +:+ hi)%string
  end.

Fixpoint render (es : list element) : string :=
  match es with
  | [] => EmptyString
  | e :: es' =>
      match es' with
      | [] => render_elem e
      | _ :: _ => (render_elem e +:+ "," +:+ render es')%string
      end
  end.

(** An element of the grammar. *)
Definition wf_elem (e : element) : bool :=
  match e with
  | Single t => is_uint t
  | Span lo hi => is_uint lo && is_uint hi && (value lo <=? value hi)
  end.

(** Its integers fit an [int], and the loop over a range does not run
    into the largest [int]. *)
Definition fits_int (e : element) : bool :=
  match e with
  | Single t => value t <? 2 ^ 63
  | Span lo hi => value hi <? 2 ^ 63 - 1
  end.

(** CPU [i] is mentioned by the element. *)
Definition covers (i : Z) (e : element) : Prop :=
  match e with
  | Single t => i = value t
  | Span lo hi => value lo <= i <= value hi
  end.

(** * More vocabulary: the whole lock, the governor, the daemon, the command line *)

(** ** [Parse] on arbitrary input *)

(** The bytes of a CPU list that [Parse] can accept. *)
Definition list_byte (c : ascii) : bool :=
  strconv.isDigit c || Ascii.eqb c "+" || Ascii.eqb c "-" || Ascii.eqb c ",".

(** A piece of the input that is a range up to the largest [int]. *)
Definition ends_at_maxInt (r : string) : Prop :=
  exists b0 b1, strings.SplitN2 r "-" = [b0; b1] /\
                strconv.Atoi b1 = (strconv.maxInt64, None).

(** A piece that [Atoi] can accept on both sides of the dash. *)
Definition piece_ok (r : string) : Prop :=
  r <> EmptyString /\
  forall c, has_char c r = true -> strconv.isDigit c = true \/ c = "+"%char \/ c = "-"%char.

(** ** The lock with sessions that take their grant *)

(** The states of [theLock] in a run of the daemon: [Enqueue] and
    [Dequeue] as before, and a session taking the grant from the channel
    of its locker. *)
Inductive running (all : unix.CPUSet) : lock.state -> Prop :=
| run_init : running all (lock.init all)
| run_Enqueue st shared nonblocking want set msg st' r :
    running all st -> wf_set set ->
    lock.Enqueue shared nonblocking want set msg st = Ok (st', r) ->
    running all st'
| run_Dequeue st p st' :
    running all st -> lock.Dequeue p st = Ok st' -> running all st'
| run_recv st p v st' :
    running all st -> lock.recv p st = Some (v, st') -> running all st'.

(** The exclusive holder of [ex_exclusive] once its session has taken
    the grant from the channel. *)
Definition ex_exclusive_held : lock.state :=
  Eval vm_compute in
    match lock.recv 0 ex_exclusive with Some (_, st) => st | None => ex_exclusive end.

(** The message of the locker behind a pointer. *)
Definition msg_of (st : lock.state) (p : nat) : string :=
  match lock.heap st !! p with Some l => lock.msg l | None => EmptyString end.

(** What a woken locker holds: as many cores as it wants, all of them
    among those available to its process. *)
Definition holds_ok (l : lock.Locker) : Prop :=
  lock.woken l = true ->
  lock.uint (unix.CPUSet_Count (lock.assignedCores l)) = lock.wantCores l /\
  forall i, bit (lock.assignedCores l) i = true -> bit (lock.availCores l) i = true.

(** The channel of a locker buffers at most the one grant, and only
    once the locker is woken. *)
Definition chan_ok (l : lock.Locker) : Prop :=
  lock.ch l = [] \/ (lock.ch l = [true] /\ lock.woken l = true).

(** ** The governor *)

(** The frequency [percent] of the way from [mn] to [mx]. *)
Definition ideal (percent mn mx : Z) : Z := Z.quot ((mx - mn) * percent) 100 + mn.

(** The frequency that [setGovernor] pins a domain to: the ideal one, or,
    when the domain lists its frequencies, the listed one nearest to the
    ideal one, the first of them when several are equally near. *)
Definition target_ok (percent mn mx : Z) (avail : list Z) (t : Z) : Prop :=
  match avail with
  | [] => t = ideal percent mn mx /\ mn <= t <= mx
  | _ :: _ =>
      exists k, avail !! k = Some t /\
        (forall a, a ∈ avail ->
           Z.abs (ideal percent mn mx - t) <= Z.abs (ideal percent mn mx - a)) /\
        (forall j a, (j < k)%nat -> avail !! j = Some a ->
           Z.abs (ideal percent mn mx - t) < Z.abs (ideal percent mn mx - a))
  end.

(** Frequencies as cpufreq reports them: in kHz, far below the range of
    an [int]. *)
Definition sane_range (r : Z * Z * list Z) : Prop :=
  0 <= fst (fst r) <= snd (fst r) /\ snd (fst r) < 2 ^ 56 /\
  Forall (fun a => 0 <= a < 2 ^ 62) (snd r).

(** The calls [SetRange(target, target)] of the second loop of
    [setGovernor] over the domains [ds], from machine [hw] to machine
    [hw'], ending with the error [err] of the first call that fails. *)
Inductive pins {Domain HW : Type}
    (AvailableRange : Domain -> HW -> Z * Z * list Z)
    (SetRange : Domain -> Z -> Z -> HW -> HW * option error)
    (percent : Z) : list Domain -> HW -> HW -> option error -> Prop :=
| pins_nil hw : pins AvailableRange SetRange percent [] hw hw None
| pins_fail d ds hw mn mx avail t hw' e :
    AvailableRange d hw = (mn, mx, avail) -> target_ok percent mn mx avail t ->
    SetRange d t t hw = (hw', Some e) ->
    pins AvailableRange SetRange percent (d :: ds) hw hw' (Some e)
| pins_step d ds hw mn mx avail t hw' hw'' err :
    AvailableRange d hw = (mn, mx, avail) -> target_ok percent mn mx avail t ->
    SetRange d t t hw = (hw', None) ->
    pins AvailableRange SetRange percent ds hw' hw'' err ->
    pins AvailableRange SetRange percent (d :: ds) hw hw'' err.

(** The settings that the first loop of [setGovernor] saves. *)
Definition saved {Domain HW : Type} (CurrentRange : Domain -> HW -> Z * Z * option error)
    (hw : HW) (d : Domain) : daemon.governorSettings Domain :=
  daemon.mkGovernorSettings d (fst (fst (CurrentRange d hw))) (snd (fst (CurrentRange d hw))).

(** A machine for examples on which writes succeed and are read back:
    two domains, the second with a list of frequencies. *)
Definition box_Domains (hw : nat -> Z * Z) : list nat * option error := ([0; 1]%nat, None).
Definition box_CurrentRange (d : nat) (hw : nat -> Z * Z) : Z * Z * option error :=
  (fst (hw d), snd (hw d), None).
Definition box_AvailableRange (d : nat) (hw : nat -> Z * Z) : Z * Z * list Z :=
  (800, 3000, if (d =? 1)%nat then [800; 1500; 2200; 3000] else []).
Definition box_SetRange (d : nat) (mn mx : Z) (hw : nat -> Z * Z)
    : (nat -> Z * Z) * option error :=
  (fun d' => if (d' =? d)%nat then (mn, mx) else hw d', None).
Definition box0 : nat -> Z * Z := fun _ => (1000, 2000).

(** ** The daemon and its sessions *)

(** Session [i] of the daemon is [s], and its [Serve] has not returned. *)
Definition live {Domain HW : Type} (d : daemon.daemon_state Domain HW)
    (i : nat) (s : daemon.Server Domain) : Prop :=
  daemon.sessions d !! i = Some (Some s).

(** The session has been granted the lock of its locker [p]: it has a
    locker and is not waiting for the grant any more. *)
Definition holding {Domain : Type} (s : daemon.Server Domain) (p : nat) : Prop :=
  daemon.locker s = Some p /\ daemon.acquiring s = false.

(** The states of the daemon in a run: from the start, one step after
    the other, as long as no session panics. *)
Inductive runs {Domain HW : Type}
    (Domains : HW -> list Domain * option error)
    (CurrentRange : Domain -> HW -> Z * Z * option error)
    (AvailableRange : Domain -> HW -> Z * Z * list Z)
    (SetRange : Domain -> Z -> Z -> HW -> HW * option error)
    (allowedList : Z -> string * option error) (now : string)
    (Encode : daemon.message -> bool) (allCores : unix.CPUSet)
    (Error : error -> string) : daemon.daemon_state Domain HW -> Prop :=
| runs_init hw :
    runs Domains CurrentRange AvailableRange SetRange allowedList now Encode allCores Error
      (daemon.daemon_init allCores hw)
| runs_step d e d' out :
    runs Domains CurrentRange AvailableRange SetRange allowedList now Encode allCores Error d ->
    daemon.daemon_step Domains CurrentRange AvailableRange SetRange allowedList now Encode
      allCores Error e d = Some (Ok (d', out)) ->
    runs Domains CurrentRange AvailableRange SetRange allowedList now Encode allCores Error d'.

(** What holds between the sessions and the lock throughout a run. *)
Definition DInv {Domain HW : Type} (all : unix.CPUSet)
    (d : daemon.daemon_state Domain HW) : Prop :=
  running all (daemon.theLock d) /\
  (forall i s p, live d i s -> daemon.locker s = Some p ->
     p ∈ lock.q (daemon.theLock d) /\
     (daemon.acquiring s = false -> wokenb (daemon.theLock d) p = true)) /\
  (forall i j s1 s2 p, live d i s1 -> live d j s2 ->
     daemon.locker s1 = Some p -> daemon.locker s2 = Some p -> i = j) /\
  (forall p, p ∈ lock.q (daemon.theLock d) ->
     exists i s, live d i s /\ daemon.locker s = Some p).

(** A run of the daemon over a list of events; [None] when an event is
    not ready or a session panics. *)
Fixpoint run_events {Domain HW : Type}
    (Domains : HW -> list Domain * option error)
    (CurrentRange : Domain -> HW -> Z * Z * option error)
    (AvailableRange : Domain -> HW -> Z * Z * list Z)
    (SetRange : Domain -> Z -> Z -> HW -> HW * option error)
    (allowedList : Z -> string * option error) (now : string)
    (Encode : daemon.message -> bool) (allCores : unix.CPUSet)
    (Error : error -> string)
    (evs : list daemon.daemon_event) (d : daemon.daemon_state Domain HW)
    : option (daemon.daemon_state Domain HW) :=
  match evs with
  | [] => Some d
  | e :: evs' =>
      match daemon.daemon_step Domains CurrentRange AvailableRange SetRange allowedList now
              Encode allCores Error e d with
      | Some (Ok (d', _)) =>
          run_events Domains CurrentRange AvailableRange SetRange allowedList now
            Encode allCores Error evs' d'
      | _ => None
      end
  end.

(** A daemon for examples: eight cores, every process may use all of
    them, every message can be sent; two connections, the first asks for
    the lock exclusively and takes its grant, the second asks for a
    shared lock with two cores. *)
Definition ex_allowedList (pid : Z) : string * option error := ("0-7"%string, None).
Definition ex_Encode (m : daemon.message) : bool := true.
Definition ex_Error (e : error) : string := "error"%string.

Definition ex_events : list daemon.daemon_event :=
  [daemon.Accept (Some (Some "alice"%string)); daemon.Accept (Some None);
   daemon.Turn 0 (daemon.EvAction (daemon.ActAcquire
     (daemon.mkActionAcquire 100 0 false true "bench")));
   daemon.Turn 0 daemon.EvGranted;
   daemon.Turn 1 (daemon.EvAction (daemon.ActAcquire
     (daemon.mkActionAcquire 200 2 true false "build")))].

Definition ex_run (evs : list daemon.daemon_event)
    : option (daemon.daemon_state nat (nat -> Z * Z)) :=
  run_events box_Domains box_CurrentRange box_AvailableRange box_SetRange
    ex_allowedList "Jan  2 15:04:05" ex_Encode all8 ex_Error evs
    (daemon.daemon_init all8 box0).

Definition ex_daemon : daemon.daemon_state nat (nat -> Z * Z) :=
  Eval vm_compute in default (daemon.daemon_init all8 box0) (ex_run ex_events).

(** The same daemon before the first session has taken its grant. *)
Definition ex_daemon_granting : daemon.daemon_state nat (nat -> Z * Z) :=
  Eval vm_compute in default (daemon.daemon_init all8 box0) (ex_run (take 3 ex_events)).

(** What a turn of the loop of [Serve] does to the session and to the
    lock: nothing to the lock; an [Enqueue]; or taking the grant. *)
Inductive turn_kind {Domain : Type} (s : daemon.Server Domain) (st : lock.state)
    (s' : daemon.Server Domain) (st' : lock.state) (fl : daemon.flow) : Prop :=
| turn_same :
    st' = st -> daemon.locker s' = daemon.locker s ->
    daemon.acquiring s' = daemon.acquiring s ->
    turn_kind s st s' st' fl
| turn_enqueue sh nb want set msg r :
    wf_set set -> daemon.locker s = None -> daemon.acquiring s = false ->
    lock.Enqueue sh nb want set msg st = Ok (st', r) ->
    daemon.locker s' = r -> (daemon.acquiring s' = true <-> r <> None) ->
    turn_kind s st s' st' fl
| turn_grant p v :
    daemon.acquiring s = true -> daemon.locker s = Some p ->
    lock.recv p st = Some (v, st') ->
    daemon.locker s' = Some p -> daemon.acquiring s' = false ->
    turn_kind s st s' st' fl.

(** ** The command line as the shell reads it

    The quoting rules of the shell, as far as the output of
    [shellEscapeList] needs them: outside quotes a space ends a word and
    a single or double quote opens a quoted part; inside quotes every
    byte up to the closing quote stands for itself. *)
Inductive quoting : Type := Unquoted | SingleQuoted | DoubleQuoted.

(** The words of a command line; [cur] is the word read so far and
    [started] tells whether a word has begun. [None] when a quote is
    left open. *)
Fixpoint sh_words (s : string) (q : quoting) (started : bool) (cur : string)
    : option (list string) :=
  match s with
  | EmptyString =>
      match q with
      | Unquoted => Some (if started then [cur] else [])
      | _ => None
      end
  | String c s' =>
      match q with
      | Unquoted =>
          if Ascii.eqb c " " then
            (if started then cons cur <$> sh_words s' Unquoted false EmptyString
             else sh_words s' Unquoted false EmptyString)
          else if Ascii.eqb c "'" then sh_words s' SingleQuoted true cur
          else if Ascii.eqb c main.dquote then sh_words s' DoubleQuoted true cur
          else sh_words s' Unquoted true (cur +:+ String c EmptyString)
      | SingleQuoted =>
          if Ascii.eqb c "'" then sh_words s' Unquoted true cur
          else sh_words s' SingleQuoted true (cur +:+ String c EmptyString)
      | DoubleQuoted =>
          if Ascii.eqb c main.dquote then sh_words s' Unquoted true cur
          else sh_words s' DoubleQuoted true (cur +:+ String c EmptyString)
      end
  end.

(** All bytes of a string pass the test of [shellEscape]. *)
Fixpoint all_safe (x : string) : bool :=
  match x with
  | EmptyString => true
  | String c x' => main.safe c && all_safe x'
  end.

(** * Lists *)

Lemma filter_ext_elem {A} (P1 P2 : A -> Prop)
    `{!forall x, Decision (P1 x), !forall x, Decision (P2 x)} (l : list A) :
  (forall x, x ∈ l -> (P1 x <-> P2 x)) -> filter P1 l = filter P2 l.
Proof.
  induction l as [|a l IH]; intros HP; [reflexivity|].
  assert (filter P1 l = filter P2 l) as El.
  { apply IH. intros x Hx. apply HP. right. exact Hx. }
  destruct (decide (P1 a)) as [Ha|Ha].
  - rewrite !filter_cons_True, El; [reflexivity| |exact Ha].
    apply HP; [left|exact Ha].
  - rewrite !filter_cons_False, El; [reflexivity| |exact Ha].
    intros H2. apply Ha. apply HP; [left|exact H2].
Qed.

Lemma filter_fmap_comp {A B} (f : A -> B) (P : B -> Prop)
    `{!forall x, Decision (P x)} (l : list A) :
  filter P (f <$> l) = f <$> filter (fun x => P (f x)) l.
Proof.
  induction l as [|a l IH]; [reflexivity|].
  rewrite fmap_cons, !filter_cons, IH.
  destruct (decide (P (f a))); reflexivity.
Qed.

(** * The CPUSet bitmap *)
Section cpuset_theory.

Import unix.

Lemma cpuBitsIndex_nonneg i : 0 <= i -> cpuBitsIndex i = i / 64.
Proof. intros. unfold cpuBitsIndex, _NCPUBITS. apply Z.quot_div_nonneg; lia. Qed.

Lemma cpuBitsMask_pow i : cpuBitsMask i = 2 ^ (i mod 64).
Proof.
  unfold cpuBitsMask, _NCPUBITS.
  rewrite Z.mod_mod_divide by (exists (2 ^ 58); reflexivity).
  apply Z.shiftl_1_l.
Qed.

Lemma mod64_range i : 0 <= i mod 64 < 64.
Proof. apply Z.mod_pos_bound. lia. Qed.

Lemma testbit_land_pow w b k :
  0 <= b -> Z.testbit (Z.land w (2 ^ b)) k = Z.testbit w k && (b =? k).
Proof. intros. rewrite Z.land_spec, Z.pow2_bits_eqb by lia. reflexivity. Qed.

Lemma land_pow_eq0 w b :
  0 <= b -> (Z.land w (2 ^ b) =? 0) = negb (Z.testbit w b).
Proof.
  intros Hb. destruct (Z.testbit w b) eqn:Hw; simpl.
  - apply Z.eqb_neq. intros H0.
    assert (Z.testbit (Z.land w (2 ^ b)) b = true) as Ht.
    { rewrite testbit_land_pow, Hw, Z.eqb_refl by lia. reflexivity. }
    rewrite H0, Z.bits_0 in Ht. discriminate.
  - apply Z.eqb_eq. apply Z.bits_inj'. intros k Hk.
    rewrite testbit_land_pow, Z.bits_0 by lia.
    destruct (Z.eqb_spec b k); subst; rewrite ?Hw, ?andb_false_r; reflexivity.
Qed.

Lemma testbit_lor_pow w b k :
  0 <= b -> Z.testbit (Z.lor w (2 ^ b)) k = Z.testbit w k || (b =? k).
Proof. intros. rewrite Z.lor_spec, Z.pow2_bits_eqb by lia. reflexivity. Qed.

Lemma testbit_ldiff_pow w b k :
  0 <= b -> Z.testbit (Z.ldiff w (2 ^ b)) k = Z.testbit w k && negb (b =? k).
Proof. intros. rewrite Z.ldiff_spec, Z.pow2_bits_eqb by lia. reflexivity. Qed.

(** A word in range has no bit from 64 on, and conversely. *)
Lemma word_range_bits w :
  0 <= w < 2 ^ 64 <-> 0 <= w /\ forall k, 64 <= k -> Z.testbit w k = false.
Proof.
  split.
  - intros [H0 H1]. split; [exact H0|]. intros k Hk.
    destruct (Z.eq_dec w 0) as [->|Hne]; [apply Z.bits_0|].
    apply Z.bits_above_log2; [lia|].
    assert (Z.log2 w < 64) by (apply Z.log2_lt_pow2; lia). lia.
  - intros [H0 H1]. split; [exact H0|].
    destruct (Z_lt_ge_dec w (2 ^ 64)) as [|Hge]; [assumption|exfalso].
    assert (64 <= Z.log2 w) as Hl by (apply Z.log2_le_pow2; lia).
    specialize (H1 _ Hl). rewrite Z.bit_log2 in H1 by lia. discriminate.
Qed.

Lemma wf_set_Zero : wf_set CPUSet_Zero.
Proof.
  split; [reflexivity|]. unfold CPUSet_Zero.
  apply Forall_replicate. lia.
Qed.

Lemma bit_Zero i : bit CPUSet_Zero i = false.
Proof.
  assert (forall n, word CPUSet_Zero n = 0) as Hw.
  { intros n. unfold word, CPUSet_Zero.
    destruct (decide (n < Z.to_nat cpuSetSize)%nat).
    - rewrite lookup_replicate_2 by assumption. reflexivity.
    - rewrite (proj1 (lookup_replicate_None _ _ n)) by lia. reflexivity. }
  unfold bit. rewrite Hw, Z.bits_0. apply andb_false_r.
Qed.

Lemma bit_range s i : bit s i = true -> 0 <= i < 1024.
Proof. unfold bit. intros H. apply andb_prop in H as [H _]. lia. Qed.

Lemma word_index_lt i : 0 <= i < 1024 -> (Z.to_nat (i / 64) < 16)%nat.
Proof.
  intros. assert (0 <= i / 64 < 16); [|lia].
  split; [apply Z.div_pos; lia | apply Z.div_lt_upper_bound; lia].
Qed.

Lemma word_at_ok s i :
  length s = 16%nat -> 0 <= i < 1024 ->
  word_at s (i / 64) = Ok (word s (Z.to_nat (i / 64))).
Proof.
  intros Hl Hi. unfold word_at, word.
  pose proof (word_index_lt i Hi) as Hn.
  assert (0 <= i / 64) by (apply Z.div_pos; lia).
  destruct (Z.ltb_spec (i / 64) 0); [lia|].
  destruct (lookup_lt_is_Some_2 s (Z.to_nat (i / 64))) as [w ->]; [lia|].
  reflexivity.
Qed.

Lemma index_in_range i : 0 <= i -> (i / 64 <? cpuSetSize) = (i <? 1024).
Proof.
  intros. unfold cpuSetSize.
  destruct (Z.ltb_spec i 1024), (Z.ltb_spec (i / 64) 16); try reflexivity.
  - assert (i / 64 < 16) by (apply Z.div_lt_upper_bound; lia). lia.
  - assert (16 <= i / 64) by (apply Z.div_le_lower_bound; lia). lia.
Qed.

(** [IsSet] reads the bit. *)
Lemma CPUSet_IsSet_bit s i :
  length s = 16%nat -> 0 <= i -> CPUSet_IsSet s i = Ok (bit s i).
Proof.
  intros Hl Hi. unfold CPUSet_IsSet, bit.
  rewrite cpuBitsIndex_nonneg, index_in_range by lia.
  destruct (Z.leb_spec 0 i); [|lia]. simpl.
  destruct (Z.ltb_spec i 1024); [|reflexivity]. simpl.
  rewrite word_at_ok by lia. simpl.
  rewrite cpuBitsMask_pow, land_pow_eq0, negb_involutive by apply mod64_range.
  reflexivity.
Qed.

Lemma word_word_set s n m w :
  (n < length s)%nat ->
  word (<[n := w]> s) m = if decide (n = m) then w else word s m.
Proof.
  intros Hn. unfold word. destruct (decide (n = m)) as [->|Hne].
  - rewrite list_lookup_insert_eq by lia. reflexivity.
  - rewrite list_lookup_insert_ne by lia. reflexivity.
Qed.

Lemma split_index i j :
  (Z.to_nat (i / 64) = Z.to_nat (j / 64) /\ i mod 64 = j mod 64) <-> i = j \/
  (Z.to_nat (i / 64) = Z.to_nat (j / 64) /\ i mod 64 = j mod 64 /\ (i < 0 \/ j < 0)).
Proof.
  split.
  - intros [Hd Hm].
    destruct (Z_lt_ge_dec i 0); [right; lia|].
    destruct (Z_lt_ge_dec j 0); [right; lia|]. left.
    assert (0 <= i / 64) by (apply Z.div_pos; lia).
    assert (0 <= j / 64) by (apply Z.div_pos; lia).
    rewrite (Z.div_mod i 64), (Z.div_mod j 64) by lia.
    assert (i / 64 = j / 64) by lia. lia.
  - intros [->|(? & ? & _)]; auto.
Qed.

(** Updating the word of CPU [i] with a function of its bit. *)
Lemma bit_word_set s i w j :
  length s = 16%nat -> 0 <= i < 1024 ->
  (forall k, 0 <= k < 64 -> k <> i mod 64 ->
     Z.testbit w k = Z.testbit (word s (Z.to_nat (i / 64))) k) ->
  bit (word_set s (i / 64) w) j =
    if decide (j = i) then Z.testbit w (i mod 64) else bit s j.
Proof.
  intros Hl Hi Hw. unfold bit, word_set.
  pose proof (word_index_lt i Hi) as Hn.
  destruct (decide (j = i)) as [->|Hne].
  - rewrite word_word_set by lia. rewrite decide_True by reflexivity.
    destruct (Z.leb_spec 0 i), (Z.ltb_spec i 1024); try lia. reflexivity.
  - destruct (Z.leb_spec 0 j); [|reflexivity].
    destruct (Z.ltb_spec j 1024); [|reflexivity]. simpl.
    rewrite word_word_set by lia.
    destruct (decide (Z.to_nat (i / 64) = Z.to_nat (j / 64))) as [Hd|Hd];
      [|reflexivity].
    rewrite <- Hd. apply Hw; [apply mod64_range|].
    intros Hm. apply Hne.
    pose proof (proj1 (split_index j i) (conj (eq_sym Hd) Hm)). lia.
Qed.

Lemma CPUSet_Set_spec s i :
  length s = 16%nat -> 0 <= i ->
  exists s', CPUSet_Set s i = Ok s' /\ length s' = 16%nat /\
    (Forall (fun w => 0 <= w < 2 ^ 64) s -> Forall (fun w => 0 <= w < 2 ^ 64) s') /\
    forall j, bit s' j = bit s j || bool_decide (j = i /\ i < 1024).
Proof.
  intros Hl Hi. unfold CPUSet_Set.
  rewrite cpuBitsIndex_nonneg, index_in_range by lia.
  destruct (Z.ltb_spec i 1024) as [Hlt|Hge].
  - rewrite word_at_ok by lia. simpl. rewrite cpuBitsMask_pow.
    pose proof (mod64_range i) as Hm.
    eexists. split; [reflexivity|]. split; [|split].
    + unfold word_set. rewrite length_insert. exact Hl.
    + intros Hf. unfold word_set. apply Forall_insert; [exact Hf|].
      apply word_range_bits.
      assert (0 <= word s (Z.to_nat (i / 64)) < 2 ^ 64) as Hw.
      { unfold word. destruct (s !! _) as [w|] eqn:E; simpl; [|lia].
        eapply Forall_lookup_1 in Hf; eauto. }
      apply word_range_bits in Hw as [Hw0 Hwb]. split.
      * apply Z.lor_nonneg. split; [lia|]. apply Z.pow_nonneg. lia.
      * intros k Hk. rewrite testbit_lor_pow, Hwb by lia.
        simpl. apply Z.eqb_neq. lia.
    + intros j. rewrite bit_word_set; [|lia|lia|].
      * destruct (decide (j = i)) as [->|Hne].
        -- rewrite testbit_lor_pow, Z.eqb_refl, orb_true_r by lia.
           rewrite bool_decide_eq_true_2 by lia. rewrite orb_true_r. reflexivity.
        -- rewrite bool_decide_eq_false_2 by lia. rewrite orb_false_r. reflexivity.
      * intros k Hk Hne. rewrite testbit_lor_pow by lia.
        destruct (Z.eqb_spec (i mod 64) k); [lia|]. apply orb_false_r.
  - exists s. split; [reflexivity|]. split; [exact Hl|]. split; [auto|].
    intros j. rewrite bool_decide_eq_false_2 by lia. rewrite orb_false_r. reflexivity.
Qed.

Lemma CPUSet_Clear_spec s i :
  length s = 16%nat -> 0 <= i ->
  exists s', CPUSet_Clear s i = Ok s' /\ length s' = 16%nat /\
    (Forall (fun w => 0 <= w < 2 ^ 64) s -> Forall (fun w => 0 <= w < 2 ^ 64) s') /\
    forall j, bit s' j = bit s j && negb (bool_decide (j = i)).
Proof.
  intros Hl Hi. unfold CPUSet_Clear.
  rewrite cpuBitsIndex_nonneg, index_in_range by lia.
  destruct (Z.ltb_spec i 1024) as [Hlt|Hge].
  - rewrite word_at_ok by lia. simpl. rewrite cpuBitsMask_pow.
    pose proof (mod64_range i) as Hm.
    eexists. split; [reflexivity|]. split; [|split].
    + unfold word_set. rewrite length_insert. exact Hl.
    + intros Hf. unfold word_set. apply Forall_insert; [exact Hf|].
      apply word_range_bits.
      assert (0 <= word s (Z.to_nat (i / 64)) < 2 ^ 64) as Hw.
      { unfold word. destruct (s !! _) as [w|] eqn:E; simpl; [|lia].
        eapply Forall_lookup_1 in Hf; eauto. }
      apply word_range_bits in Hw as [Hw0 Hwb]. split.
      * apply Z.ldiff_nonneg. left. lia.
      * intros k Hk. rewrite testbit_ldiff_pow, Hwb by lia. reflexivity.
    + intros j. rewrite bit_word_set; [|lia|lia|].
      * destruct (decide (j = i)) as [->|Hne].
        -- rewrite testbit_ldiff_pow, Z.eqb_refl by lia.
           rewrite bool_decide_eq_true_2 by lia. simpl.
           rewrite !andb_false_r. reflexivity.
        -- rewrite bool_decide_eq_false_2 by lia. rewrite andb_true_r. reflexivity.
      * intros k Hk Hne. rewrite testbit_ldiff_pow by lia.
        destruct (Z.eqb_spec (i mod 64) k); [lia|]. apply andb_true_r.
  - exists s. split; [reflexivity|]. split; [exact Hl|]. split; [auto|].
    intros j. destruct (bit s j) eqn:Hb; [|reflexivity].
    apply bit_range in Hb. rewrite bool_decide_eq_false_2 by lia. reflexivity.
Qed.

(** The word-wise operations of internal/cpuset, bit by bit. *)
Lemma word_zip_with (f : Z -> Z -> Z) a b n :
  length a = length b -> f 0 0 = 0 ->
  word (zip_with f a b) n = f (word a n) (word b n).
Proof.
  intros Hl Hf. unfold word. rewrite lookup_zip_with.
  destruct (a !! n) as [x|] eqn:Ea; simpl.
  - destruct (lookup_lt_is_Some_2 b n) as [y ->]; [|reflexivity].
    apply lookup_lt_Some in Ea. lia.
  - apply lookup_ge_None in Ea.
    rewrite (proj2 (lookup_ge_None b n)) by lia. simpl. symmetry. exact Hf.
Qed.

Lemma bit_Intersect a b i :
  length a = length b -> bit (cpuset.Intersect a b) i = bit a i && bit b i.
Proof.
  intros Hl. unfold bit, cpuset.Intersect.
  rewrite word_zip_with, Z.land_spec by auto.
  destruct (0 <=? i), (i <? 1024), (Z.testbit (word a _) _),
    (Z.testbit (word b _) _); reflexivity.
Qed.

Lemma bit_Union a b i :
  length a = length b -> bit (cpuset.Union a b) i = bit a i || bit b i.
Proof.
  intros Hl. unfold bit, cpuset.Union.
  rewrite word_zip_with, Z.lor_spec by auto.
  destruct (0 <=? i), (i <? 1024), (Z.testbit (word a _) _),
    (Z.testbit (word b _) _); reflexivity.
Qed.

Lemma bit_Difference a b i :
  length a = length b -> bit (cpuset.Difference a b) i = bit a i && negb (bit b i).
Proof.
  intros Hl. unfold bit, cpuset.Difference.
  rewrite word_zip_with, Z.ldiff_spec by auto.
  destruct (0 <=? i), (i <? 1024), (Z.testbit (word a _) _),
    (Z.testbit (word b _) _); reflexivity.
Qed.

Lemma wf_set_zip_with (f : Z -> Z -> Z) a b :
  (forall x y, 0 <= x < 2 ^ 64 -> 0 <= y < 2 ^ 64 -> 0 <= f x y < 2 ^ 64) ->
  wf_set a -> wf_set b -> wf_set (zip_with f a b).
Proof.
  intros Hf [Hla Ha] [Hlb Hb]. split.
  - rewrite length_zip_with. lia.
  - apply Forall_lookup. intros n w. rewrite lookup_zip_with.
    destruct (a !! n) as [x|] eqn:Ea; simpl; [|discriminate].
    destruct (b !! n) as [y|] eqn:Eb; simpl; [|discriminate].
    intros [= <-]. apply Hf.
    + eapply Forall_lookup_1 in Ha; eauto.
    + eapply Forall_lookup_1 in Hb; eauto.
Qed.

Lemma wf_set_Intersect a b : wf_set a -> wf_set b -> wf_set (cpuset.Intersect a b).
Proof.
  apply wf_set_zip_with. intros x y Hx Hy. apply word_range_bits.
  apply word_range_bits in Hx as [Hx0 Hx]. split.
  - apply Z.land_nonneg. left. exact Hx0.
  - intros k Hk. rewrite Z.land_spec, Hx by lia. reflexivity.
Qed.

Lemma wf_set_Union a b : wf_set a -> wf_set b -> wf_set (cpuset.Union a b).
Proof.
  apply wf_set_zip_with. intros x y Hx Hy. apply word_range_bits.
  apply word_range_bits in Hx as [Hx0 Hx].
  apply word_range_bits in Hy as [Hy0 Hy]. split.
  - apply Z.lor_nonneg. split; assumption.
  - intros k Hk. rewrite Z.lor_spec, Hx, Hy by lia. reflexivity.
Qed.

Lemma wf_set_Difference a b : wf_set a -> wf_set b -> wf_set (cpuset.Difference a b).
Proof.
  apply wf_set_zip_with. intros x y Hx Hy. apply word_range_bits.
  apply word_range_bits in Hx as [Hx0 Hx]. split.
  - apply Z.ldiff_nonneg. left. exact Hx0.
  - intros k Hk. rewrite Z.ldiff_spec, Hx by lia. reflexivity.
Qed.

(** Two sets with the same CPUs are the same array. *)
Lemma bit_ext a b :
  wf_set a -> wf_set b -> (forall i, bit a i = bit b i) -> a = b.
Proof.
  intros [Hla Ha] [Hlb Hb] Hbit. apply list_eq. intros n.
  destruct (decide (n < 16)%nat) as [Hn|Hn].
  - destruct (lookup_lt_is_Some_2 a n) as [x Ex]; [lia|].
    destruct (lookup_lt_is_Some_2 b n) as [y Ey]; [lia|].
    rewrite Ex, Ey. f_equal.
    pose proof (Forall_lookup_1 _ _ _ _ Ha Ex) as Hx.
    pose proof (Forall_lookup_1 _ _ _ _ Hb Ey) as Hy.
    apply word_range_bits in Hx as [_ Hx]. apply word_range_bits in Hy as [_ Hy].
    apply Z.bits_inj'. intros k Hk.
    destruct (Z_lt_ge_dec k 64) as [Hlt|Hge]; [|rewrite Hx, Hy by lia; reflexivity].
    specialize (Hbit (64 * Z.of_nat n + k)). unfold bit, word in Hbit.
    replace ((64 * Z.of_nat n + k) / 64) with (Z.of_nat n) in Hbit
      by (apply Z.div_unique with k; lia).
    replace ((64 * Z.of_nat n + k) mod 64) with k in Hbit
      by (apply Z.mod_unique with (Z.of_nat n); lia).
    rewrite Nat2Z.id, Ex, Ey in Hbit. simpl in Hbit.
    destruct (Z.leb_spec 0 (64 * Z.of_nat n + k)); [|lia].
    destruct (Z.ltb_spec (64 * Z.of_nat n + k) 1024); [|lia].
    exact Hbit.
  - rewrite (proj2 (lookup_ge_None a n)), (proj2 (lookup_ge_None b n)) by lia.
    reflexivity.
Qed.

(** ** Counting *)

Lemma Count_foldl s c :
  foldl (fun c b => c + OnesCount64 b) c s = c + foldr (fun b r => OnesCount64 b + r) 0 s.
Proof.
  revert c. induction s as [|w s IH]; intros c; simpl; [lia|].
  rewrite IH. lia.
Qed.

(** The set bits of the words of a list, counted from bit [64 * k]. *)
Lemma length_filter_words (s : list Z) :
  Z.of_nat (length (filter (fun i => Z.testbit (word s (Z.to_nat (i / 64))) (i mod 64) = true)
                      (seqZ 0 (64 * Z.of_nat (length s))))) =
  foldr (fun b r => OnesCount64 b + r) 0 s.
Proof.
  induction s as [|w s IH]; [reflexivity|].
  cbn [length foldr].
  replace (64 * Z.of_nat (S (length s))) with (64 + 64 * Z.of_nat (length s)) by lia.
  rewrite seqZ_app, filter_app, length_app, Nat2Z.inj_add by lia.
  rewrite <- IH. unfold OnesCount64.
  replace (seqZ (0 + 64) (64 * Z.of_nat (length s)))
    with (Z.add 64 <$> seqZ 0 (64 * Z.of_nat (length s)))
    by (rewrite fmap_add_seqZ; reflexivity).
  rewrite filter_fmap_comp, length_fmap.
  erewrite (filter_ext_elem _ _ (seqZ 0 64)).
  - erewrite (filter_ext_elem _ _ (seqZ 0 (64 * Z.of_nat (length s)))); [reflexivity|].
    intros i Hi. apply elem_of_seqZ in Hi. cbv beta.
    replace ((64 + i) / 64) with (1 + i / 64)
      by (rewrite <- (Z.div_add_l 1 64 i) by lia; f_equal; lia).
    replace ((64 + i) mod 64) with (i mod 64)
      by (rewrite <- (Z.mod_add i 1 64) by lia; f_equal; lia).
    assert (0 <= i / 64) by (apply Z.div_pos; lia).
    replace (Z.to_nat (1 + i / 64)) with (S (Z.to_nat (i / 64))) by lia.
    reflexivity.
  - intros i Hi. apply elem_of_seqZ in Hi. cbv beta.
    rewrite Z.div_small, Z.mod_small by lia. reflexivity.
Qed.

(** [Count] is the number of CPUs in the set. *)
Lemma CPUSet_Count_members s :
  length s = 16%nat -> CPUSet_Count s = Z.of_nat (length (members s)).
Proof.
  intros Hl. unfold CPUSet_Count. rewrite Count_foldl, Z.add_0_l.
  rewrite <- length_filter_words, Hl. unfold members.
  change (64 * Z.of_nat 16) with 1024.
  erewrite (filter_ext_elem _ _ (seqZ 0 1024)); [reflexivity|].
  intros i Hi. apply elem_of_seqZ in Hi. unfold bit.
  destruct (Z.leb_spec 0 i); [|lia]. destruct (Z.ltb_spec i 1024); [|lia].
  reflexivity.
Qed.

Lemma elem_of_members s i : i ∈ members s <-> bit s i = true.
Proof.
  unfold members. rewrite list_elem_of_filter, elem_of_seqZ.
  split; [tauto|]. intros H. split; [exact H|]. apply bit_range in H. lia.
Qed.

Lemma NoDup_members s : NoDup (members s).
Proof. apply NoDup_filter, NoDup_seqZ. Qed.

End cpuset_theory.

(** * Range *)
Section range_theory.

Import unix.

Lemma StronglySorted_seqZ m n : StronglySorted Z.lt (seqZ m n).
Proof.
  remember (Z.to_nat n) as k eqn:Ek. revert m n Ek.
  induction k as [|k IH]; intros m n Ek.
  - rewrite seqZ_nil by lia. constructor.
  - rewrite seqZ_cons by lia. constructor.
    + apply IH. lia.
    + apply Forall_forall. intros x Hx. apply elem_of_seqZ in Hx. lia.
Qed.

Lemma StronglySorted_filter {A} (R : A -> A -> Prop) (P : A -> Prop)
    `{!forall x, Decision (P x)} l :
  StronglySorted R l -> StronglySorted R (filter P l).
Proof.
  induction 1 as [|x l Hs IH Hf]; [constructor|].
  rewrite filter_cons. destruct (decide (P x)); [|exact IH].
  constructor; [exact IH|].
  apply Forall_forall. intros y Hy. apply list_elem_of_filter in Hy as [_ Hy].
  rewrite Forall_forall in Hf. auto.
Qed.

Lemma StronglySorted_members s : StronglySorted Z.lt (members s).
Proof. apply StronglySorted_filter, StronglySorted_seqZ. Qed.

(** The loop of [Range], started at index [i] with the number of set
    bits from [i] on as [count], calls [fn] on these bits in order. *)
Lemma Range_loop_spec {A} (s : CPUSet) (fn : Z -> A -> result A) fuel i a :
  length s = 16%nat -> 0 <= i -> (Z.to_nat (1024 - i) <= fuel)%nat ->
  cpuset.Range_loop fuel s fn i
    (Z.of_nat (length (filter (fun j => bit s j = true) (seqZ i (1024 - i))))) a =
  foldM fn (filter (fun j => bit s j = true) (seqZ i (1024 - i))) a.
Proof.
  intros Hl. revert i a. induction fuel as [|fuel IH]; intros i a Hi Hf.
  - rewrite seqZ_nil by lia. reflexivity.
  - destruct (Z_lt_ge_dec i 1024) as [Hlt|Hge];
      [|rewrite seqZ_nil by lia; reflexivity].
    rewrite seqZ_cons by lia.
    replace (Z.pred (1024 - i)) with (1024 - (i + 1)) by lia.
    replace (Z.succ i) with (i + 1) by lia.
    specialize (IH (i + 1)).
    rewrite filter_cons. destruct (decide (bit s i = true)) as [Hb|Hb].
    + cbn [length foldM cpuset.Range_loop].
      destruct (Z.ltb_spec 0 (Z.of_nat (S (length
        (filter (fun j => bit s j = true) (seqZ (i + 1) (1024 - (i + 1)))))))); [|lia].
      rewrite CPUSet_IsSet_bit, Hb by lia. cbn [mbind result_bind].
      destruct (fn i a) as [a'|e]; [|reflexivity]. cbn [mbind result_bind].
      replace (Z.of_nat (S (length (filter (fun j => bit s j = true)
                (seqZ (i + 1) (1024 - (i + 1)))))) - 1)
        with (Z.of_nat (length (filter (fun j => bit s j = true)
                (seqZ (i + 1) (1024 - (i + 1)))))) by lia.
      apply IH; lia.
    + apply not_true_is_false in Hb.
      cbn [cpuset.Range_loop].
      destruct (Z.ltb_spec 0 (Z.of_nat (length
        (filter (fun j => bit s j = true) (seqZ (i + 1) (1024 - (i + 1))))))) as [Hc|Hc].
      * rewrite CPUSet_IsSet_bit, Hb by lia. cbn [mbind result_bind].
        apply IH; lia.
      * destruct (filter (fun j => bit s j = true) (seqZ (i + 1) (1024 - (i + 1))));
          [reflexivity|]. cbn [length] in Hc. lia.
Qed.

Lemma Range_foldM {A} (s : CPUSet) (fn : Z -> A -> result A) fuel a :
  length s = 16%nat -> (1024 <= fuel)%nat ->
  cpuset.Range fuel s fn a = foldM fn (members s) a.
Proof.
  intros Hl Hf. unfold cpuset.Range. rewrite CPUSet_Count_members by exact Hl.
  unfold members. apply (Range_loop_spec s fn fuel 0 a Hl); lia.
Qed.

Lemma foldM_log (l : list Z) (log : list Z) :
  foldM (fun i log => Ok (log ++ [i])) l log = Ok (log ++ l).
Proof.
  revert log. induction l as [|i l IH]; intros log; cbn [foldM mbind result_bind].
  - rewrite app_nil_r. reflexivity.
  - rewrite IH, <- app_assoc. reflexivity.
Qed.

End range_theory.

(** C10. For every CPUSet, [Range] terminates (an iteration budget of one
    step per bit of the bitmap is never used up) and calls the callback
    exactly once per set bit, in strictly increasing index order, and
    never for an index that is not set: the calls are those of [foldM] on
    [members s], the log of a recording callback is [members s], this list
    is strictly increasing, and for an index [i >= 0] being in it is
    [IsSet(i)]. *)
Theorem C10_Range_visits_set_bits_in_order
    (A : Type) (s : unix.CPUSet) (fn : Z -> A -> result A) (a : A) (fuel : nat) :
  length s = 16%nat -> (1024 <= fuel)%nat ->
  cpuset.Range fuel s fn a = foldM fn (members s) a /\
  cpuset.Range fuel s (fun i log => Ok (log ++ [i])) [] = Ok (members s) /\
  StronglySorted Z.lt (members s) /\
  (forall i, 0 <= i -> (i ∈ members s <-> unix.CPUSet_IsSet s i = Ok true)).
Proof.
  intros Hl Hf. split; [|split; [|split]].
  - apply Range_foldM; assumption.
  - rewrite Range_foldM by assumption. apply foldM_log.
  - apply StronglySorted_members.
  - intros i Hi. rewrite elem_of_members, CPUSet_IsSet_bit by assumption.
    split; [intros ->; reflexivity | intros [= ->]; reflexivity].
Qed.

Lemma C10_witness :
  let s := [5; 0; 1; 0; 0; 0; 0; 0; 0; 0; 0; 0; 0; 0; 0; 2 ^ 63] in
  (length s = 16%nat /\ (1024 <= 1024)%nat) /\
  cpuset.Range 1024 s (fun i log => Ok (log ++ [i])) [] = Ok [0; 2; 128; 1023].
Proof.
  intros s. split; [split; [reflexivity | apply le_n]|].
  pose proof (C10_Range_visits_set_bits_in_order (list Z) s
                (fun i log => Ok (log ++ [i])) [] 1024 eq_refl (le_n _))
    as (_ & H & _).
  rewrite H. vm_compute. reflexivity.
Defined.

(** * The lock queue: one wake *)
Section wake_theory.

Import unix lock.

Local Abbreviation in_range := (fun w : Z => 0 <= w < 2 ^ 64).

(** The closure of [takeCores] run over a list of CPUs moves the first
    [want] of them from the free set to the assigned set. *)
Lemma takeCores_fn_fold (M : list Z) (asg free : CPUSet) (want : N) :
  length asg = 16%nat -> length free = 16%nat ->
  Forall (fun i => 0 <= i < 1024) M ->
  exists asg' free' want',
    foldM takeCores_fn M (asg, free, want) = Ok (asg', free', want') /\
    length asg' = 16%nat /\ length free' = 16%nat /\
    (Forall in_range asg -> Forall in_range asg') /\
    (Forall in_range free -> Forall in_range free') /\
    (forall j, bit asg' j = bit asg j || bool_decide (j ∈ take (N.to_nat want) M)) /\
    (forall j, bit free' j = bit free j && negb (bool_decide (j ∈ take (N.to_nat want) M))).
Proof.
  revert asg free want. induction M as [|i M IH]; intros asg free want Ha Hf HM.
  - exists asg, free, want. split; [reflexivity|]. repeat split; auto.
    + intros j. rewrite take_nil, bool_decide_eq_false_2 by apply not_elem_of_nil.
      apply eq_sym, orb_false_r.
    + intros j. rewrite take_nil, bool_decide_eq_false_2 by apply not_elem_of_nil.
      apply eq_sym, andb_true_r.
  - apply Forall_cons in HM as [Hi HM].
    cbn [foldM takeCores_fn].
    destruct (N.ltb_spec 0 want) as [Hw|Hw].
    + destruct (CPUSet_Set_spec asg i Ha) as (asg1 & -> & Ha1 & Hb1 & Hs1); [lia|].
      destruct (CPUSet_Clear_spec free i Hf) as (free1 & -> & Hf1 & Hc1 & Hs2); [lia|].
      cbn [mbind result_bind].
      destruct (IH asg1 free1 (N.pred want) Ha1 Hf1 HM)
        as (asg' & free' & want' & -> & Ha' & Hf' & Hb' & Hc' & Hs' & Hs'').
      exists asg', free', want'. split; [reflexivity|].
      replace (N.to_nat want) with (S (N.to_nat (N.pred want))) by lia.
      cbn [take].
      split; [exact Ha'|]. split; [exact Hf'|].
      split; [auto|]. split; [auto|]. split.
      * intros j. rewrite Hs', Hs1.
        destruct (decide (j = i)) as [->|Hne].
        -- rewrite (bool_decide_eq_true_2 (i = i /\ i < 1024)) by lia.
           rewrite (bool_decide_eq_true_2 (i ∈ i :: _)) by left.
           rewrite orb_true_r. reflexivity.
        -- rewrite (bool_decide_eq_false_2 (j = i /\ i < 1024)) by lia.
           rewrite orb_false_r. f_equal. apply bool_decide_ext.
           rewrite elem_of_cons. tauto.
      * intros j. rewrite Hs'', Hs2.
        destruct (decide (j = i)) as [->|Hne].
        -- rewrite (bool_decide_eq_true_2 (i = i)) by reflexivity.
           rewrite (bool_decide_eq_true_2 (i ∈ i :: _)) by left.
           simpl. rewrite !andb_false_r. reflexivity.
        -- rewrite (bool_decide_eq_false_2 (j = i)) by assumption.
           simpl. rewrite andb_true_r. f_equal. f_equal. apply bool_decide_ext.
           rewrite elem_of_cons. tauto.
    + cbn [mbind result_bind].
      destruct (IH asg free want Ha Hf HM)
        as (asg' & free' & want' & -> & Ha' & Hf' & Hb' & Hc' & Hs' & Hs'').
      exists asg', free', want'. split; [reflexivity|].
      replace (N.to_nat want) with 0%nat in * by lia.
      cbn [take] in *. repeat split; auto.
Qed.

Lemma Forall_members_range s : Forall (fun i => 0 <= i < 1024) (members s).
Proof.
  apply Forall_forall. intros i Hi. apply elem_of_members in Hi.
  apply bit_range in Hi. exact Hi.
Qed.

Lemma uint_nonneg x : 0 <= x < 2 ^ 64 -> uint x = Z.to_N x.
Proof. intros. unfold uint. rewrite Z.mod_small by lia. reflexivity. Qed.

Lemma Count_range s : length s = 16%nat -> 0 <= CPUSet_Count s <= 1024.
Proof.
  intros Hl. rewrite CPUSet_Count_members by exact Hl. unfold members.
  pose proof (length_filter (fun i => bit s i = true) (seqZ 0 1024)) as H.
  rewrite length_seqZ in H. lia.
Qed.

Lemma uint_Count s :
  length s = 16%nat -> uint (CPUSet_Count s) = N.of_nat (length (members s)).
Proof.
  intros Hl. pose proof (Count_range s Hl).
  rewrite uint_nonneg by lia. rewrite CPUSet_Count_members by exact Hl. lia.
Qed.

Lemma elem_of_taken_by st l j :
  length (cores st) = length (availCores l) ->
  j ∈ taken_by st l -> bit (cores st) j = true /\ bit (availCores l) j = true.
Proof.
  intros Hl Hj. unfold taken_by, lowest in Hj.
  apply elem_of_take in Hj as (n & Hj & _).
  apply list_elem_of_lookup_2, elem_of_members in Hj.
  rewrite bit_Intersect in Hj by exact Hl. apply andb_prop in Hj. exact Hj.
Qed.

Lemma set_assignedCores_same l : set_assignedCores (assignedCores l) l = l.
Proof. destruct l; reflexivity. Qed.

Lemma deref_Some st p l : heap st !! p = Some l -> deref st p = Ok l.
Proof. intros H. unfold deref. rewrite H. reflexivity. Qed.

Lemma deref_Ok st p l : deref st p = Ok l -> heap st !! p = Some l.
Proof. unfold deref. destruct (heap st !! p); [intros [= ->]; reflexivity|discriminate]. Qed.

(** What [takeCores] does when it returns. *)
Lemma takeCores_spec p st st' l :
  heap st !! p = Some l ->
  length (cores st) = 16%nat -> length (availCores l) = 16%nat ->
  length (assignedCores l) = 16%nat ->
  takeCores p st = Ok st' ->
  exists asg' cores',
    st' = mkState (<[p := set_assignedCores asg' l]> (heap st)) (q st) cores' /\
    length asg' = 16%nat /\ length cores' = 16%nat /\
    (Forall in_range (assignedCores l) -> Forall in_range asg') /\
    (Forall in_range (cores st) -> Forall in_range cores') /\
    (forall j, bit asg' j = bit (assignedCores l) j || bool_decide (j ∈ taken_by st l)) /\
    (forall j, bit cores' j = bit (cores st) j && negb (bool_decide (j ∈ taken_by st l))) /\
    (wantCores l <= uint (CPUSet_Count (cores st)))%N /\
    (wantCores l <> 0%N -> uint (CPUSet_Count asg') = wantCores l).
Proof.
  intros Hp Hc Hav Has. unfold takeCores.
  rewrite (deref_Some _ _ _ Hp). cbn [mbind result_bind].
  unfold assert at 1.
  destruct (N.leb_spec (wantCores l) (uint (CPUSet_Count (cores st)))) as [Hle|Hgt];
    [|discriminate].
  cbn [mbind result_bind].
  destruct (N.eqb_spec (wantCores l) 0) as [H0|H0].
  - intros [= <-]. exists (assignedCores l), (cores st).
    rewrite set_assignedCores_same, list_insert_id by exact Hp.
    split; [destruct st; reflexivity|]. split; [exact Has|]. split; [exact Hc|].
    split; [auto|]. split; [auto|].
    unfold taken_by, lowest. rewrite H0. cbn [N.to_nat take].
    split; [|split; [|split; [apply N.le_0_l|intros H; exfalso; apply H; reflexivity]]].
    + intros j. rewrite bool_decide_eq_false_2 by apply not_elem_of_nil.
      apply eq_sym, orb_false_r.
    + intros j. rewrite bool_decide_eq_false_2 by apply not_elem_of_nil.
      apply eq_sym, andb_true_r.
  - rewrite Range_foldM;
      [|unfold cpuset.Intersect; rewrite length_zip_with; lia|unfold Range_fuel; lia].
    destruct (takeCores_fn_fold
                (members (cpuset.Intersect (cores st) (availCores l)))
                (assignedCores l) (cores st) (wantCores l) Has Hc
                (Forall_members_range _))
      as (asg' & free' & want' & -> & Ha' & Hf' & Hb' & Hc' & Hs' & Hs'').
    cbn [mbind result_bind]. unfold assert.
    destruct (N.eqb_spec (uint (CPUSet_Count asg')) (wantCores l)) as [He|He];
      [|discriminate].
    cbn [mbind result_bind]. intros [= <-].
    exists asg', free'. split; [reflexivity|]. repeat split; auto.
Qed.

(** What [wake] does when it returns: nothing to a woken locker;
    otherwise the locker gets its cores, is marked, and is signalled. *)
Lemma wake_spec p st st' l :
  heap st !! p = Some l ->
  length (cores st) = 16%nat -> length (availCores l) = 16%nat ->
  length (assignedCores l) = 16%nat ->
  wake p st = Ok st' ->
  (woken l = true /\ st' = st) \/
  (woken l = false /\ ch l = [] /\
   exists asg' cores',
     st' = mkState (<[p := mkLocker [true] (wantCores l) (availCores l) asg'
                            (shared l) true (msg l)]> (heap st)) (q st) cores' /\
     length asg' = 16%nat /\ length cores' = 16%nat /\
     (Forall in_range (assignedCores l) -> Forall in_range asg') /\
     (Forall in_range (cores st) -> Forall in_range cores') /\
     (forall j, bit asg' j = bit (assignedCores l) j || bool_decide (j ∈ taken_by st l)) /\
     (forall j, bit cores' j = bit (cores st) j && negb (bool_decide (j ∈ taken_by st l))) /\
     (wantCores l <= uint (CPUSet_Count (cores st)))%N /\
     (wantCores l <> 0%N -> uint (CPUSet_Count asg') = wantCores l)).
Proof.
  intros Hp Hc Hav Has. unfold wake.
  rewrite (deref_Some _ _ _ Hp). cbn [mbind result_bind].
  destruct (woken l) eqn:Hw; [intros [= <-]; left; auto|].
  destruct (takeCores p st) as [st1|e] eqn:Ht; [|discriminate].
  cbn [mbind result_bind].
  destruct (takeCores_spec p st st1 l Hp Hc Hav Has Ht)
    as (asg' & cores' & -> & Ha' & Hc' & Hb' & Hb'' & Hs' & Hs'' & Hle & Hcnt).
  assert (p < length (heap st))%nat as Hlt by (eapply lookup_lt_Some; eauto).
  unfold deref, send, deref, store. cbn [heap q cores].
  rewrite list_lookup_insert_eq by exact Hlt. cbn [mbind result_bind].
  rewrite list_lookup_insert_eq by (rewrite length_insert; exact Hlt).
  cbn [mbind result_bind set_woken set_assignedCores set_ch ch wantCores availCores
         assignedCores shared woken msg].
  destruct (ch l) as [|b c] eqn:Hch; cbn [length app]; [|destruct c; discriminate].
  cbn [Nat.ltb Nat.leb]. intros [= <-]. right. split; [reflexivity|]. split; [reflexivity|].
  exists asg', cores'. rewrite !list_insert_insert_eq.
  split; [reflexivity|]. repeat split; auto.
Qed.

(** The iteration budget given to [Range] is never used up: [takeCores]
    returns or fails one of its assertions. *)
Lemma takeCores_total p st l :
  heap st !! p = Some l ->
  length (cores st) = 16%nat -> length (availCores l) = 16%nat ->
  length (assignedCores l) = 16%nat ->
  (exists st', takeCores p st = Ok st') \/
  (exists format, takeCores p st = Abort (AssertFailed format)).
Proof.
  intros Hp Hc Hav Has. unfold takeCores.
  rewrite (deref_Some _ _ _ Hp). cbn [mbind result_bind].
  unfold assert at 1.
  destruct (wantCores l <=? uint (CPUSet_Count (cores st)))%N; [|right; eauto].
  cbn [mbind result_bind].
  destruct (wantCores l =? 0)%N; [left; eauto|].
  rewrite Range_foldM;
    [|unfold cpuset.Intersect; rewrite length_zip_with; lia|unfold Range_fuel; lia].
  destruct (takeCores_fn_fold
              (members (cpuset.Intersect (cores st) (availCores l)))
              (assignedCores l) (cores st) (wantCores l) Has Hc
              (Forall_members_range _))
    as (asg' & free' & want' & -> & _).
  cbn [mbind result_bind]. unfold assert.
  destruct (uint (CPUSet_Count asg') =? wantCores l)%N; [left|right]; eauto.
Qed.

(** ** What a wake leaves alone *)

Lemma takeCores_shape p st st' l :
  heap st !! p = Some l -> takeCores p st = Ok st' ->
  st' = st \/ exists asg free,
    st' = set_cores free (store p (set_assignedCores asg l) st).
Proof.
  intros Hp. unfold takeCores.
  rewrite (deref_Some _ _ _ Hp). cbn [mbind result_bind].
  destruct (assert _ _); [|discriminate]. cbn [mbind result_bind].
  destruct (wantCores l =? 0)%N; [intros [= <-]; left; reflexivity|].
  destruct (cpuset.Range _ _ _ _) as [[[asg free] w]|]; [|discriminate].
  cbn [mbind result_bind]. destruct (assert _ _); [|discriminate].
  cbn [mbind result_bind]. intros [= <-]. right. eauto.
Qed.

Lemma wake_shape p st st' :
  wake p st = Ok st' ->
  exists l, heap st !! p = Some l /\
    ((woken l = true /\ st' = st) \/
     (woken l = false /\ exists asg free,
        st' = mkState (<[p := mkLocker (ch l ++ [true]) (wantCores l) (availCores l) asg
                               (shared l) true (msg l)]> (heap st)) (q st) free)).
Proof.
  unfold wake. destruct (deref st p) as [l|] eqn:Hd; [|discriminate].
  apply deref_Ok in Hd. cbn [mbind result_bind]. intros H.
  exists l. split; [exact Hd|].
  destruct (woken l) eqn:Hw; [injection H as <-; left; auto|].
  destruct (takeCores p st) as [st1|] eqn:Ht; [|discriminate].
  cbn [mbind result_bind] in H. right. split; [reflexivity|].
  assert (p < length (heap st))%nat as Hlt by (eapply lookup_lt_Some; eauto).
  destruct (takeCores_shape p st st1 l Hd Ht) as [->|(asg & free & ->)].
  - rewrite (deref_Some _ _ _ Hd) in H. cbn [mbind result_bind] in H.
    unfold send, deref, store in H. cbn [heap q cores] in H.
    rewrite list_lookup_insert_eq in H by exact Hlt. cbn [mbind result_bind] in H.
    destruct (length (ch (set_woken true l)) <? 1)%nat; [|discriminate].
    injection H as <-. exists (assignedCores l), (cores st).
    rewrite list_insert_insert_eq. reflexivity.
  - unfold deref, send, deref, store, set_cores in H. cbn [heap q cores] in H.
    rewrite list_lookup_insert_eq in H by exact Hlt. cbn [mbind result_bind] in H.
    rewrite list_lookup_insert_eq in H by (rewrite length_insert; exact Hlt).
    cbn [mbind result_bind] in H.
    destruct (length (ch _) <? 1)%nat; [|discriminate].
    injection H as <-. exists asg, free.
    rewrite !list_insert_insert_eq. reflexivity.
Qed.

Lemma wake_frame p st st' :
  wake p st = Ok st' ->
  q st' = q st /\ length (heap st') = length (heap st) /\
  (forall p', p' <> p -> heap st' !! p' = heap st !! p') /\
  wokenb st' p = true /\
  (forall p', sharedb st' p' = sharedb st p') /\
  (forall p', want_of st' p' = want_of st p') /\
  (forall p', wokenb st p' = true -> wokenb st' p' = true) /\
  (wokenb st p = true -> st' = st).
Proof.
  intros H. destruct (wake_shape p st st' H) as (l & Hp & [[Hw ->]|(Hw & asg & free & ->)]).
  - unfold wokenb. rewrite Hp. repeat split; auto.
  - assert (p < length (heap st))%nat as Hlt by (eapply lookup_lt_Some; eauto).
    cbn [q heap]. split; [reflexivity|]. split; [apply length_insert|].
    split; [intros p' Hne; apply list_lookup_insert_ne; congruence|].
    unfold wokenb, sharedb, want_of. cbn [heap].
    split; [rewrite list_lookup_insert_eq by exact Hlt; reflexivity|].
    split; [|split; [|split]].
    + intros p'. destruct (decide (p' = p)) as [->|Hne].
      * rewrite list_lookup_insert_eq, Hp by exact Hlt. reflexivity.
      * rewrite list_lookup_insert_ne by congruence. reflexivity.
    + intros p'. destruct (decide (p' = p)) as [->|Hne].
      * rewrite list_lookup_insert_eq, Hp by exact Hlt. reflexivity.
      * rewrite list_lookup_insert_ne by congruence. reflexivity.
    + intros p'. destruct (decide (p' = p)) as [->|Hne].
      * rewrite list_lookup_insert_eq by exact Hlt. reflexivity.
      * rewrite list_lookup_insert_ne by congruence. auto.
    + rewrite Hp, Hw. discriminate.
Qed.

End wake_theory.

(** * The lock queue: the wake pass *)
Section pass_theory.

Import unix lock.

Lemma wake_all_frame ps st st' :
  wake_all ps st = Ok st' ->
  q st' = q st /\ length (heap st') = length (heap st) /\
  (forall p, p ∉ ps -> heap st' !! p = heap st !! p) /\
  (forall p, sharedb st' p = sharedb st p) /\
  (forall p, want_of st' p = want_of st p) /\
  (forall p, wokenb st p = true -> wokenb st' p = true) /\
  Forall (fun p => wokenb st' p = true) ps /\
  (Forall (fun p => wokenb st p = true) ps -> st' = st).
Proof.
  revert st. induction ps as [|p ps IH]; intros st.
  - intros [= <-]. repeat split; auto.
  - cbn [wake_all]. destruct (wake p st) as [st1|] eqn:Hw; [|discriminate].
    cbn [mbind result_bind]. intros H.
    destruct (wake_frame _ _ _ Hw) as (Hq & Hl & Hfr & Hwk & Hsh & Hwt & Hmono & Hid).
    destruct (IH _ H) as (Hq' & Hl' & Hfr' & Hsh' & Hwt' & Hmono' & Hall & Hid').
    split; [congruence|]. split; [congruence|]. split; [|split; [|split; [|split; [|split]]]].
    + intros p' Hn. apply not_elem_of_cons in Hn as [Hne Hn].
      rewrite Hfr' by exact Hn. apply Hfr. exact Hne.
    + intros p'. rewrite Hsh'. apply Hsh.
    + intros p'. rewrite Hwt'. apply Hwt.
    + auto.
    + constructor; auto.
    + intros Hf. apply Forall_cons in Hf as [Hp Hf].
      rewrite (Hid Hp) in *. auto.
Qed.

(** The conditions under which the loop of [setQ] breaks, as [stop_entry]. *)
Lemma stop_entry_break i st p l :
  heap st !! p = Some l ->
  stop_entry i st p <->
  negb (shared l) = true \/
  negb (i =? 0)%nat && negb (woken l) && negb (wantCores l =? 0)%N
    && (uint (CPUSet_Count (cores st)) <? wantCores l)%N = true.
Proof.
  intros Hp. unfold stop_entry, sharedb, wokenb, want_of. rewrite Hp.
  rewrite !andb_true_iff, !negb_true_iff, Nat.eqb_neq, N.eqb_neq, N.ltb_lt.
  tauto.
Qed.

(** The walk over a shared cohort: it wakes a prefix of the list, entry
    by entry, and stops at the first entry where [stop_entry] holds. *)
Lemma setQ_loop_spec qs i st st' :
  setQ_loop i qs st = Ok st' ->
  exists qs1 qs2,
    qs = qs1 ++ qs2 /\
    wake_all qs1 st = Ok st' /\
    Forall (fun p => sharedb st' p = true /\ wokenb st' p = true) qs1 /\
    match qs2 with [] => True | u :: _ => stop_entry (i + length qs1) st' u end /\
    (forall a p b sa, qs1 = a ++ p :: b -> wake_all a st = Ok sa ->
                      ~ stop_entry (i + length a) sa p).
Proof.
  revert i st. induction qs as [|p qs IH]; intros i st.
  - intros [= <-]. exists [], []. repeat split; auto.
    intros a p b sa Ha. destruct a; discriminate.
  - cbn [setQ_loop]. destruct (deref st p) as [l|] eqn:Hd; [|discriminate].
    apply deref_Ok in Hd. cbn [mbind result_bind].
    pose proof (stop_entry_break i st p l Hd) as Hstop.
    destruct (negb (shared l)) eqn:Hsh.
    { intros [= <-]. exists [], (p :: qs). repeat split; auto.
      - cbn [length]. rewrite Nat.add_0_r. apply Hstop. auto.
      - intros a p0 b sa Ha. destruct a; discriminate. }
    destruct (negb (i =? 0)%nat && negb (woken l) && negb (wantCores l =? 0)%N
              && (uint (CPUSet_Count (cores st)) <? wantCores l)%N) eqn:Hblk.
    { intros [= <-]. exists [], (p :: qs). repeat split; auto.
      - cbn [length]. rewrite Nat.add_0_r. apply Hstop. auto.
      - intros a p0 b sa Ha. destruct a; discriminate. }
    destruct (wake p st) as [st1|] eqn:Hw; [|discriminate].
    cbn [mbind result_bind]. intros H.
    destruct (IH _ _ H) as (qs1 & qs2 & -> & Hall & Hf & Hst & Hfirst).
    destruct (wake_frame _ _ _ Hw) as (Hq & Hl & Hfr & Hwk & Hshp & Hwt & Hmono & Hid).
    destruct (wake_all_frame _ _ _ Hall)
      as (Hq' & Hl' & Hfr' & Hsh' & Hwt' & Hmono' & Hall' & Hid').
    exists (p :: qs1), qs2. split; [reflexivity|]. split; [|split; [|split]].
    + cbn [wake_all]. rewrite Hw. exact Hall.
    + constructor; [|exact Hf]. split.
      * rewrite Hsh', Hshp. unfold sharedb. rewrite Hd.
        apply negb_false_iff. exact Hsh.
      * auto.
    + cbn [length]. rewrite Nat.add_succ_r. exact Hst.
    + intros a p0 b sa Ha Hsa. destruct a as [|p1 a].
      * injection Ha as <- <-. injection Hsa as <-.
        rewrite Nat.add_0_r. rewrite Hstop. intros [?|?]; congruence.
      * injection Ha as <- ->. cbn [wake_all] in Hsa. rewrite Hw in Hsa.
        cbn [mbind result_bind length] in Hsa |- *.
        rewrite Nat.add_succ_r. eapply Hfirst; eauto.
Qed.

(** Waking entries that are already woken changes nothing. *)
Lemma setQ_loop_skip ws us i st :
  Forall (fun p => wokenb st p = true) ws ->
  Forall (fun p => sharedb st p = true) ws ->
  setQ_loop i (ws ++ us) st = setQ_loop (i + length ws) us st.
Proof.
  revert i. induction ws as [|p ws IH]; intros i Hw Hs.
  - cbn [app length]. rewrite Nat.add_0_r. reflexivity.
  - apply Forall_cons in Hw as [Hp Hw]. apply Forall_cons in Hs as [Hps Hs].
    cbn [app setQ_loop length]. unfold wokenb in Hp. unfold sharedb in Hps.
    unfold deref, wake, deref.
    destruct (heap st !! p) as [l|] eqn:Hl; [|discriminate].
    cbn [mbind result_bind]. rewrite Hp, Hps. cbn [negb andb].
    rewrite andb_false_r. cbn [andb mbind result_bind].
    rewrite IH by assumption. f_equal. lia.
Qed.

Lemma setQ_loop_stop i st u us :
  stop_entry i st u -> (exists l, heap st !! u = Some l) ->
  setQ_loop i (u :: us) st = Ok st.
Proof.
  intros Hs [l Hl]. cbn [setQ_loop]. rewrite (deref_Some _ _ _ Hl).
  cbn [mbind result_bind]. apply (stop_entry_break i st u l Hl) in Hs.
  destruct Hs as [->| ->]; [reflexivity|]. destruct (negb (shared l)); reflexivity.
Qed.

End pass_theory.

(** * The lock queue: the accounting of cores *)
Section accounting.

Import unix lock.

Lemma assigned_of_insert_eq st p l' free :
  (p < length (heap st))%nat ->
  assigned_of (mkState (<[p := l']> (heap st)) (q st) free) p = assignedCores l'.
Proof. intros. unfold assigned_of. cbn [heap]. rewrite list_lookup_insert_eq by lia. reflexivity. Qed.

Lemma assigned_of_insert_ne st p p' l' free :
  p' <> p ->
  assigned_of (mkState (<[p := l']> (heap st)) (q st) free) p' = assigned_of st p'.
Proof. intros. unfold assigned_of. cbn [heap]. rewrite list_lookup_insert_ne by congruence. reflexivity. Qed.

(** A wake keeps the accounting: the cores it assigns were free. *)
Lemma wake_Inv all st p st' :
  Inv all st -> p ∈ q st -> wake p st = Ok st' -> Inv all st'.
Proof.
  intros HI Hp Hw. destruct HI as [[Hcl Hcb] Hnd Hheap Hvalid Hfa Has Hdis Hcov].
  pose proof (Hvalid p Hp) as Hlt.
  destruct (lookup_lt_is_Some_2 _ _ Hlt) as [l Hl].
  pose proof (Forall_lookup_1 _ _ _ _ Hheap Hl) as ([Hal Hab] & [Hsl Hsb] & Hun & Hw0).
  destruct (wake_spec p st st' l Hl Hcl Hal Hsl Hw)
    as [[_ ->]|(Hwk & Hch & asg' & cores' & -> & Ha' & Hc' & Hb' & Hb'' & Hs' & Hs'' & Hle & Hcnt)].
  { constructor; auto. split; auto. }
  destruct (Hun Hwk) as [Hz _].
  assert (forall j, bit asg' j = bool_decide (j ∈ taken_by st l)) as Hasg.
  { intros j. rewrite Hs', Hz, bit_Zero. reflexivity. }
  assert (forall j, bit asg' j = true -> bit (cores st) j = true) as Hsub.
  { intros j Hj. rewrite Hasg in Hj. apply bool_decide_eq_true_1 in Hj.
    apply elem_of_taken_by in Hj; [tauto|lia]. }
  assert (forall j, bit cores' j = bit (cores st) j && negb (bit asg' j)) as Hfree.
  { intros j. rewrite Hs'', Hasg. reflexivity. }
  constructor; cbn [cores q heap].
  - split; auto.
  - exact Hnd.
  - apply Forall_insert; [exact Hheap|]. unfold wf_locker.
    cbn [availCores assignedCores woken wantCores ch].
    split; [split; auto|]. split; [split; auto|]. split; [discriminate|].
    intros H0. apply bit_ext; [split; auto|apply wf_set_Zero|].
    intros j. rewrite Hasg, bit_Zero. unfold taken_by, lowest. rewrite H0.
    cbn [N.to_nat take]. apply bool_decide_eq_false_2, not_elem_of_nil.
  - intros p0 Hp0. rewrite length_insert. auto.
  - intros i Hi. rewrite Hfree in Hi. apply andb_prop in Hi as [Hi _]. auto.
  - intros p0 i Hp0 Hi. destruct (decide (p0 = p)) as [->|Hne].
    + rewrite assigned_of_insert_eq in Hi by exact Hlt. cbn [assignedCores] in Hi.
      rewrite Hfree, Hi, andb_false_r. split; [reflexivity|]. auto.
    + rewrite assigned_of_insert_ne in Hi by exact Hne.
      destruct (Has p0 i Hp0 Hi) as [Hc Ha]. rewrite Hfree, Hc. auto.
  - intros p1 p2 i Hp1 Hp2 Hne Hi.
    destruct (decide (p1 = p)) as [->|Hne1].
    + rewrite assigned_of_insert_eq in Hi by exact Hlt. cbn [assignedCores] in Hi.
      rewrite assigned_of_insert_ne by congruence.
      destruct (bit (assigned_of st p2) i) eqn:E; [|reflexivity].
      destruct (Has p2 i Hp2 E) as [Hc _]. rewrite (Hsub i Hi) in Hc. discriminate.
    + rewrite assigned_of_insert_ne in Hi by exact Hne1.
      destruct (decide (p2 = p)) as [->|Hne2].
      * rewrite assigned_of_insert_eq by exact Hlt. cbn [assignedCores].
        destruct (bit asg' i) eqn:E; [|reflexivity].
        destruct (Has p1 i Hp1 Hi) as [Hc _]. rewrite (Hsub i E) in Hc. discriminate.
      * rewrite assigned_of_insert_ne by exact Hne2. eauto.
  - intros i Hi. destruct (Hcov i Hi) as [Hc|(p0 & Hp0 & Hb)].
    + destruct (bit asg' i) eqn:E.
      * right. exists p. split; [exact Hp|].
        rewrite assigned_of_insert_eq by exact Hlt. exact E.
      * left. rewrite Hfree, Hc, E. reflexivity.
    + right. exists p0. split; [exact Hp0|].
      destruct (decide (p0 = p)) as [->|Hne].
      * unfold assigned_of in Hb. rewrite Hl, Hz, bit_Zero in Hb. discriminate.
      * rewrite assigned_of_insert_ne by exact Hne. exact Hb.
Qed.

Lemma wake_all_Inv all ps st st' :
  Inv all st -> (forall p, p ∈ ps -> p ∈ q st) -> wake_all ps st = Ok st' -> Inv all st'.
Proof.
  revert st. induction ps as [|p ps IH]; intros st HI Hps.
  - intros [= <-]. exact HI.
  - cbn [wake_all]. destruct (wake p st) as [st1|] eqn:Hw; [|discriminate].
    cbn [mbind result_bind]. intros H.
    destruct (wake_frame _ _ _ Hw) as (Hq & _).
    apply (IH st1); [|rewrite Hq; intros; apply Hps; right; assumption|exact H].
    eapply wake_Inv; eauto. apply Hps. left.
Qed.

Lemma Inv_set_q all st q' :
  Inv all st -> NoDup q' -> (forall p, p ∈ q' -> p ∈ q st) ->
  (forall i p, p ∈ q st -> p ∉ q' -> bit (assigned_of st p) i = false) ->
  Inv all (set_q q' st).
Proof.
  intros [Hc Hnd Hheap Hvalid Hfa Has Hdis Hcov] Hnd' Hsub Hgone.
  constructor; cbn [set_q q heap cores]; auto.
  - intros p i Hp. apply (Has p i). auto.
  - intros p1 p2 i Hp1 Hp2. apply (Hdis p1 p2 i); auto.
  - intros i Hi. destruct (Hcov i Hi) as [?|(p & Hp & Hb)]; [auto|].
    right. exists p. split; [|exact Hb].
    destruct (decide (p ∈ q')) as [|Hn]; [assumption|].
    rewrite (Hgone i p Hp Hn) in Hb. discriminate.
Qed.

End accounting.

(** * The lock queue: the shape of the queue *)
Section cohort_theory.

Import unix lock.

Lemma setQ_unfold q0 st :
  setQ q0 st =
  match q0 with
  | [] => Ok (set_q q0 st)
  | p0 :: _ =>
      head ← deref (set_q q0 st) p0;
      if shared head then setQ_loop 0 q0 (set_q q0 st) else wake p0 (set_q q0 st)
  end.
Proof. destruct q0; reflexivity. Qed.

(** The pass keeps the accounting. *)
Lemma setQ_Inv all q0 st st' :
  Inv all (set_q q0 st) -> setQ q0 st = Ok st' -> Inv all st'.
Proof.
  intros HI. rewrite setQ_unfold. destruct q0 as [|p0 rest]; [intros [= <-]; exact HI|].
  destruct (deref (set_q (p0 :: rest) st) p0) as [hd|] eqn:Hd; [|discriminate].
  cbn [mbind result_bind]. destruct (shared hd).
  - intros H. destruct (setQ_loop_spec _ _ _ _ H) as (qs1 & qs2 & Hq & Hall & _).
    eapply wake_all_Inv; [exact HI| |exact Hall].
    intros p Hp. cbn [set_q q]. rewrite Hq. apply elem_of_app. left. exact Hp.
  - apply wake_Inv; [exact HI|]. left.
Qed.

(** The pass settles the queue: from a queue whose woken lockers are a
    prefix, it leaves one whose cohort ends where the walk stops. *)
Lemma setQ_settles all q0 st st' ws us :
  Inv all (set_q q0 st) -> Cohort (set_q q0 st) ws us ->
  setQ q0 st = Ok st' ->
  q st' = q0 /\ exists ws' us', Settled st' ws' us'.
Proof.
  intros HI [Hsplit Hwk Hun Hex Hsh]. cbn [set_q q] in Hsplit.
  pose proof (inv_nodup _ _ HI) as Hnd. cbn [set_q q] in Hnd.
  rewrite setQ_unfold. destruct q0 as [|p0 rest].
  { intros [= <-]. split; [reflexivity|]. exists [], [].
    repeat constructor; try discriminate; auto. }
  set (s0 := set_q (p0 :: rest) st) in *.
  destruct (deref s0 p0) as [hd|] eqn:Hd; [|discriminate].
  apply deref_Ok in Hd. cbn [mbind result_bind].
  apply NoDup_cons in Hnd as [Hp0 Hnd'].
  destruct (shared hd) eqn:Hshared.
  - (* a shared head: the walk *)
    intros H.
    destruct (setQ_loop_spec _ _ _ _ H) as (qs1 & qs2 & Hq & Hall & Hf & Hst & _).
    destruct (wake_all_frame _ _ _ Hall)
      as (Hq' & Hl' & Hfr' & Hsh' & Hwt' & Hmono' & _ & _).
    split; [exact Hq'|].
    assert (sharedb s0 p0 = true) as Hhead by (unfold sharedb; rewrite Hd; exact Hshared).
    assert (qs1 <> []) as Hne.
    { intros ->. cbn [app] in Hq. subst qs2. injection Hall as <-.
      cbn [length Nat.add] in Hst. destruct Hst as [Hs|[Hs _]]; [congruence|].
      apply Hs. reflexivity. }
    assert (Forall (fun p => sharedb s0 p = true) ws) as Hws.
    { destruct ws as [|h ws0]; [constructor|].
      apply (Hsh h ws0 eq_refl). cbn [app] in Hsplit. congruence. }
    assert (exists k, us = k ++ qs2) as [k Hk].
    { rewrite Hq in Hsplit. apply app_eq_inv in Hsplit
        as [(k & Hk1 & Hk2)|(k & Hk1 & Hk2)].
      - exists k. exact Hk2.
      - (* the walk stopped inside the woken prefix: impossible *)
        destruct k as [|u0 k].
        + exists []. cbn [app] in *. auto.
        + exfalso. subst qs2. subst ws.
          apply Forall_app in Hwk as [_ Hwk]. apply Forall_cons in Hwk as [Hu0 _].
          apply Forall_app in Hws as [_ Hws]. apply Forall_cons in Hws as [Hu0s _].
          rewrite Nat.add_0_l in Hst. destruct Hst as [Hs|(_ & Hs & _)].
          * rewrite Hsh' in Hs. congruence.
          * rewrite (Hmono' _ Hu0) in Hs. discriminate. }
    exists qs1, qs2. constructor; [constructor|..].
    + rewrite Hq'. exact Hq.
    + eapply Forall_impl; [exact Hf|]. cbv beta. tauto.
    + apply Forall_forall. intros u Hu.
      assert (u ∉ qs1) as Hn.
      { intros Hin.
        assert (NoDup (qs1 ++ qs2)) as Hnd2 by (rewrite <- Hq; constructor; assumption).
        apply NoDup_app in Hnd2 as (_ & Hd2 & _). exact (Hd2 u Hin Hu). }
      unfold wokenb. rewrite (Hfr' u Hn). fold (wokenb s0 u).
      subst us. apply Forall_app in Hun as [_ Hun].
      rewrite Forall_forall in Hun. auto.
    + intros h ws0 -> Hh. apply Forall_cons in Hf as [[Hhs _] _]. congruence.
    + intros h ws0 -> Hh. eapply Forall_impl; [exact Hf|]. cbv beta. tauto.
    + intros ->. contradiction.
    + intros h ws0 u us0 Hw1 Hh ->. rewrite Nat.add_0_l in Hst. exact Hst.
  - (* an exclusive head: only the head is woken *)
    intros H.
    destruct (wake_frame _ _ _ H) as (Hq & Hl & Hfr & Hwoken & Hshp & Hwt & Hmono & Hid).
    split; [exact Hq|].
    assert (sharedb s0 p0 = false) as Hhead by (unfold sharedb; rewrite Hd; exact Hshared).
    exists [p0], rest. constructor; [constructor|..].
    + exact Hq.
    + constructor; [exact Hwoken|constructor].
    + apply Forall_forall. intros u Hu.
      assert (u <> p0) as Hne by (intros ->; contradiction).
      unfold wokenb. rewrite (Hfr u Hne). fold (wokenb s0 u).
      destruct ws as [|h ws0].
      * cbn [app] in Hsplit. subst us. apply Forall_cons in Hun as [_ Hun].
        rewrite Forall_forall in Hun. auto.
      * cbn [app] in Hsplit. injection Hsplit as -> Hrest.
        rewrite (Hex h ws0 eq_refl Hhead) in Hrest. cbn [app] in Hrest. subst us.
        rewrite Forall_forall in Hun. auto.
    + intros h ws0 [= <- <-] _. reflexivity.
    + intros h ws0 [= <- <-] Hh. rewrite Hshp in Hh. congruence.
    + discriminate.
    + intros h ws0 u us0 [= <- <-] Hh. rewrite Hshp in Hh. congruence.
Qed.

End cohort_theory.

(** * The lock queue: Enqueue and Dequeue *)
Section operations.

Import unix lock.

Lemma Forall_sub {A} (P : A -> Prop) l1 l2 :
  l1 `sublist_of` l2 -> Forall P l2 -> Forall P l1.
Proof.
  intros Hs Hf. apply Forall_forall. intros x Hx.
  rewrite Forall_forall in Hf. apply Hf. eapply elem_of_sublist; eauto.
Qed.

Lemma flags_ext st st' p :
  heap st' !! p = heap st !! p ->
  wokenb st' p = wokenb st p /\ sharedb st' p = sharedb st p /\
  want_of st' p = want_of st p /\ assigned_of st' p = assigned_of st p.
Proof. intros H. unfold wokenb, sharedb, want_of, assigned_of. rewrite H. auto. Qed.

Lemma stop_entry_ext i st st' u :
  heap st' !! u = heap st !! u -> cores st' = cores st ->
  stop_entry i st u -> stop_entry i st' u.
Proof.
  intros Hh Hc. destruct (flags_ext st st' u Hh) as (Hw & Hs & Hwt & _).
  unfold stop_entry. rewrite Hw, Hs, Hwt, Hc. tauto.
Qed.

(** The shape of the queue depends on the flags of its entries only. *)
Lemma Cohort_ext st st' ws us :
  (forall p, p ∈ ws ++ us -> heap st' !! p = heap st !! p) ->
  q st' = ws ++ us -> Cohort st ws us -> Cohort st' ws us.
Proof.
  intros Hh Hq [Hsplit Hwk Hun Hex Hsh].
  assert (forall p, p ∈ ws -> heap st' !! p = heap st !! p) as Hws
    by (intros; apply Hh, elem_of_app; auto).
  assert (forall p, p ∈ us -> heap st' !! p = heap st !! p) as Hus
    by (intros; apply Hh, elem_of_app; auto).
  constructor.
  - exact Hq.
  - apply Forall_forall. intros p Hp. rewrite Forall_forall in Hwk.
    destruct (flags_ext st st' p (Hws p Hp)) as (-> & _). auto.
  - apply Forall_forall. intros p Hp. rewrite Forall_forall in Hun.
    destruct (flags_ext st st' p (Hus p Hp)) as (-> & _). auto.
  - intros h ws0 -> Hs. apply (Hex h ws0 eq_refl).
    destruct (flags_ext st st' h (Hws h ltac:(left))) as (_ & <- & _). exact Hs.
  - intros h ws0 -> Hs. apply Forall_forall. intros p Hp.
    destruct (flags_ext st st' p (Hws p Hp)) as (_ & -> & _).
    destruct (flags_ext st st' h (Hws h ltac:(left))) as (_ & Hsh' & _).
    rewrite Hsh' in Hs. specialize (Hsh h ws0 eq_refl Hs).
    rewrite Forall_forall in Hsh. auto.
Qed.

Lemma Settled_ext st st' ws us :
  (forall p, p ∈ ws ++ us -> heap st' !! p = heap st !! p) ->
  q st' = ws ++ us -> cores st' = cores st ->
  Settled st ws us -> Settled st' ws us.
Proof.
  intros Hh Hq Hc [Hco Hhead Hstop]. constructor.
  - eapply Cohort_ext; eauto.
  - exact Hhead.
  - intros h ws0 u us0 -> Hs ->.
    assert (heap st' !! h = heap st !! h) as Hh1 by (apply Hh; left).
    assert (heap st' !! u = heap st !! u) as Hh2
      by (apply Hh, elem_of_app; right; left).
    destruct (flags_ext st st' h Hh1) as (_ & Hsh' & _). rewrite Hsh' in Hs.
    eapply stop_entry_ext; eauto.
Qed.

(** Removing entries keeps the shape (not where the walk stops). *)
Lemma Cohort_sub st ws us ws' us' :
  ws' `sublist_of` ws -> us' `sublist_of` us ->
  Cohort st ws us -> Cohort (set_q (ws' ++ us') st) ws' us'.
Proof.
  intros Hsw Hsu [Hsplit Hwk Hun Hex Hsh].
  assert (forall p, wokenb (set_q (ws' ++ us') st) p = wokenb st p) as Ew by reflexivity.
  assert (forall p, sharedb (set_q (ws' ++ us') st) p = sharedb st p) as Es by reflexivity.
  constructor.
  - reflexivity.
  - eapply Forall_sub; eauto.
  - eapply Forall_sub; eauto.
  - intros h ws0 -> Hs. rewrite Es in Hs.
    destruct ws as [|h0 ws1]; [apply sublist_nil_r in Hsw; discriminate|].
    destruct (sharedb st h0) eqn:Hh0.
    + specialize (Hsh h0 ws1 eq_refl Hh0).
      assert (h ∈ h0 :: ws1) as Hin by (eapply elem_of_sublist; [left|exact Hsw]).
      rewrite Forall_forall in Hsh. rewrite (Hsh h Hin) in Hs. discriminate.
    + rewrite (Hex h0 ws1 eq_refl Hh0) in Hsw.
      apply sublist_length in Hsw. cbn [length] in Hsw.
      destruct ws0; [reflexivity|cbn [length] in Hsw; lia].
  - intros h ws0 -> Hs. rewrite Es in Hs.
    destruct ws as [|h0 ws1]; [apply sublist_nil_r in Hsw; discriminate|].
    destruct (sharedb st h0) eqn:Hh0.
    + specialize (Hsh h0 ws1 eq_refl Hh0). eapply Forall_sub; eauto.
    + rewrite (Hex h0 ws1 eq_refl Hh0) in Hsw.
      assert (h ∈ [h0]) as Hin by (eapply elem_of_sublist; [left|exact Hsw]).
      apply list_elem_of_singleton in Hin. subst h0. congruence.
Qed.

Lemma set_q_same st : set_q (q st) st = st.
Proof. destruct st; reflexivity. Qed.

Lemma wake_woken p st : wokenb st p = true -> wake p st = Ok st.
Proof.
  unfold wokenb, wake, deref. destruct (heap st !! p) as [l|]; [|discriminate].
  cbn [mbind result_bind]. intros ->. reflexivity.
Qed.

(** A settled queue is a fixed point of the wake pass. *)
Lemma Settled_stable st ws us :
  Settled st ws us -> (forall p, p ∈ q st -> is_Some (heap st !! p)) ->
  setQ (q st) st = Ok st.
Proof.
  intros [[Hsplit Hwk Hun Hex Hsh] Hhead Hstop] Hvalid.
  rewrite setQ_unfold, set_q_same. rewrite Hsplit in *.
  destruct ws as [|h ws0].
  { rewrite (Hhead eq_refl). reflexivity. }
  cbn [app]. destruct (Hvalid h ltac:(left)) as [hd Hd].
  rewrite (deref_Some _ _ _ Hd). cbn [mbind result_bind].
  destruct (shared hd) eqn:Hs.
  - assert (sharedb st h = true) as Hsb by (unfold sharedb; rewrite Hd; exact Hs).
    change (h :: ws0 ++ us) with ((h :: ws0) ++ us).
    rewrite setQ_loop_skip; [|exact Hwk|exact (Hsh h ws0 eq_refl Hsb)].
    destruct us as [|u us0]; [reflexivity|].
    apply setQ_loop_stop.
    + rewrite Nat.add_0_l. exact (Hstop h ws0 u us0 eq_refl Hsb eq_refl).
    + apply Hvalid, elem_of_app. right. left.
  - apply wake_woken. apply Forall_cons in Hwk as [Hw _]. exact Hw.
Qed.

(** ** The queue without one entry *)

Lemma index_of_Some p qs i : index_of p qs = Some i -> qs !! i = Some p.
Proof.
  revert i. induction qs as [|o qs IH]; intros i; [discriminate|].
  cbn [index_of]. destruct (Nat.eqb_spec p o) as [->|Hne].
  - intros [= <-]. reflexivity.
  - destruct (index_of p qs) as [j|]; [|discriminate].
    intros [= <-]. cbn. apply IH. reflexivity.
Qed.

Lemma index_of_None p qs : index_of p qs = None -> p ∉ qs.
Proof.
  induction qs as [|o qs IH]; [intros _; apply not_elem_of_nil|].
  cbn [index_of]. destruct (Nat.eqb_spec p o) as [->|Hne]; [discriminate|].
  destruct (index_of p qs) as [j|]; [discriminate|].
  intros _. apply not_elem_of_cons. auto.
Qed.

Lemma index_of_elem p qs : p ∈ qs -> is_Some (index_of p qs).
Proof.
  intros Hp. destruct (index_of p qs) eqn:E; [eauto|].
  apply index_of_None in E. contradiction.
Qed.

(** [copy(l.q[i:], l.q[i+1:])] and [l.q[:len(l.q)-1]] delete entry [i]. *)
Lemma copy_truncate (qs : list nat) i :
  (i < length qs)%nat ->
  take (length (take i qs ++ drop (S i) qs ++ drop (length qs - 1) qs) - 1)
       (take i qs ++ drop (S i) qs ++ drop (length qs - 1) qs) = delete i qs.
Proof.
  intros Hi. rewrite delete_take_drop, app_assoc.
  apply take_app_length'.
  rewrite !length_app, length_take, !length_drop. lia.
Qed.

Lemma delete_app_sub (ws us : list nat) i :
  exists ws' us', delete i (ws ++ us) = ws' ++ us' /\
    ws' `sublist_of` ws /\ us' `sublist_of` us.
Proof.
  destruct (decide (i < length ws)%nat) as [Hlt|Hge].
  - exists (delete i ws), us. split; [|split; [apply sublist_delete|reflexivity]].
    rewrite !delete_take_drop, take_app, drop_app.
    replace (i - length ws)%nat with 0%nat by lia.
    replace (S i - length ws)%nat with 0%nat by lia.
    rewrite take_0, drop_0, app_nil_r, app_assoc. reflexivity.
  - exists ws, (delete (i - length ws)%nat us).
    split; [|split; [reflexivity|apply sublist_delete]].
    rewrite !delete_take_drop, take_app, drop_app.
    rewrite take_ge, drop_ge by lia.
    replace (S i - length ws)%nat with (S (i - length ws))%nat by lia.
    cbn [app]. rewrite app_assoc. reflexivity.
Qed.

Lemma elem_of_delete_NoDup (qs : list nat) i p x :
  NoDup qs -> qs !! i = Some p -> (x ∈ delete i qs <-> x ∈ qs /\ x <> p).
Proof.
  intros Hnd Hi. rewrite delete_take_drop.
  pose proof (take_drop_middle qs i p Hi) as Hmid.
  assert (x ∈ qs <-> x ∈ take i qs \/ x = p \/ x ∈ drop (S i) qs) as ->.
  { rewrite <- Hmid at 1. rewrite elem_of_app, elem_of_cons. tauto. }
  rewrite <- Hmid in Hnd.
  apply NoDup_app in Hnd as (_ & Hd1 & Hnd2). apply NoDup_cons in Hnd2 as [Hd2 _].
  rewrite !elem_of_app. split.
  - intros [Hx|Hx].
    + split; [auto|]. intros ->. apply (Hd1 p Hx). left.
    + split; [auto|]. intros ->. contradiction.
  - intros [[Hx|[->|Hx]] Hne]; [auto|contradiction|auto].
Qed.

(** ** The accounting across the two operations *)

Lemma Inv_enqueue all st new :
  Inv all st -> wf_locker new -> assignedCores new = CPUSet_Zero ->
  Inv all (set_q (q st ++ [length (heap st)]) (alloc new st)).
Proof.
  intros [Hc Hnd Hheap Hvalid Hfa Has Hdis Hcov] Hnew Hz.
  assert (forall p, p ∈ q st ->
            assigned_of (set_q (q st ++ [length (heap st)]) (alloc new st)) p
            = assigned_of st p) as Eold.
  { intros p Hp. unfold assigned_of. cbn [set_q alloc heap].
    rewrite lookup_app_l by auto. reflexivity. }
  assert (assigned_of (set_q (q st ++ [length (heap st)]) (alloc new st)) (length (heap st))
          = CPUSet_Zero) as Enew.
  { unfold assigned_of. cbn [set_q alloc heap].
    rewrite list_lookup_middle by reflexivity. exact Hz. }
  assert (length (heap st) ∉ q st) as Hfresh.
  { intros Hin. apply Hvalid in Hin. lia. }
  constructor; cbn [set_q alloc q heap cores] in *.
  - exact Hc.
  - apply NoDup_app. split; [exact Hnd|]. split; [|apply NoDup_singleton].
    intros x Hx Hx'. apply list_elem_of_singleton in Hx'. subst x. contradiction.
  - apply Forall_app. split; [exact Hheap|]. constructor; [exact Hnew|constructor].
  - intros p Hp. rewrite length_app. cbn [length].
    apply elem_of_app in Hp as [Hp|Hp]; [apply Hvalid in Hp; lia|].
    apply list_elem_of_singleton in Hp. lia.
  - exact Hfa.
  - intros p i Hp Hi. apply elem_of_app in Hp as [Hp|Hp].
    + rewrite Eold in Hi by exact Hp. eauto.
    + apply list_elem_of_singleton in Hp. subst p.
      rewrite Enew, bit_Zero in Hi. discriminate.
  - intros p1 p2 i Hp1 Hp2 Hne Hi.
    apply elem_of_app in Hp2 as [Hp2|Hp2].
    + apply elem_of_app in Hp1 as [Hp1|Hp1].
      * rewrite Eold in Hi |- * by assumption. eauto.
      * apply list_elem_of_singleton in Hp1. subst p1.
        rewrite Enew, bit_Zero in Hi. discriminate.
    + apply list_elem_of_singleton in Hp2. subst p2. rewrite Enew. apply bit_Zero.
  - intros i Hi. destruct (Hcov i Hi) as [?|(p & Hp & Hb)]; [auto|].
    right. exists p. split; [apply elem_of_app; auto|].
    rewrite Eold by exact Hp. exact Hb.
Qed.

Lemma Inv_dequeue all st p i :
  Inv all st -> q st !! i = Some p ->
  Inv all (set_q (delete i (q st))
             (set_cores (cpuset.Union (cores st) (assigned_of st p)) st)).
Proof.
  intros [Hc Hnd Hheap Hvalid Hfa Has Hdis Hcov] Hi.
  pose proof (list_elem_of_lookup_2 _ _ _ Hi) as Hp.
  assert (forall x, x ∈ delete i (q st) <-> x ∈ q st /\ x <> p) as Hdel
    by (intros x; apply elem_of_delete_NoDup; assumption).
  assert (wf_set (assigned_of st p)) as Hap.
  { unfold assigned_of. destruct (heap st !! p) as [l|] eqn:Hl; [|apply wf_set_Zero].
    apply (Forall_lookup_1 _ _ _ _ Hheap Hl). }
  assert (forall j, bit (cpuset.Union (cores st) (assigned_of st p)) j
                    = bit (cores st) j || bit (assigned_of st p) j) as HU.
  { intros j. apply bit_Union. destruct Hc as [-> _], Hap as [-> _]. reflexivity. }
  constructor; cbn [set_q set_cores q heap cores].
  - apply wf_set_Union; assumption.
  - eapply sublist_NoDup; [exact Hnd|apply sublist_delete].
  - exact Hheap.
  - intros x Hx. apply Hdel in Hx as [Hx _]. auto.
  - intros j Hj. rewrite HU in Hj. apply orb_prop in Hj as [Hj|Hj]; [auto|].
    apply (Has p j Hp Hj).
  - intros x j Hx Hj. apply Hdel in Hx as [Hx Hne].
    change (assigned_of (set_q _ (set_cores _ st)) x) with (assigned_of st x) in Hj.
    destruct (Has x j Hx Hj) as [Hf Ha]. split; [|exact Ha].
    rewrite HU, Hf. cbn [orb].
    destruct (bit (assigned_of st p) j) eqn:E; [|reflexivity].
    rewrite (Hdis p x j Hp Hx (not_eq_sym Hne) E) in Hj. discriminate.
  - intros p1 p2 j Hp1 Hp2 Hne. apply Hdel in Hp1 as [Hp1 _]. apply Hdel in Hp2 as [Hp2 _].
    apply (Hdis p1 p2 j Hp1 Hp2 Hne).
  - intros j Hj. rewrite HU. destruct (Hcov j Hj) as [->|(x & Hx & Hb)]; [auto|].
    destruct (decide (x = p)) as [->|Hne].
    + left. change (assigned_of (set_q _ (set_cores _ st)) p) with (assigned_of st p) in *.
      rewrite Hb. apply orb_true_r.
    + right. exists x. split; [apply Hdel; auto|exact Hb].
Qed.

(** ** One operation *)

Lemma Enqueue_unfold sh nb want set msg st :
  Enqueue sh nb want set msg st =
  (st1 ← setQ (q st ++ [length (heap st)]) (alloc (newLocker sh want set msg) st);
   l ← deref st1 (length (heap st));
   if nb && negb (woken l) then
     st2 ← setQ (take (length (q st1) - 1) (q st1)) st1; Ok (st2, None)
   else Ok (st1, Some (length (heap st)))).
Proof. reflexivity. Qed.

Lemma wf_newLocker sh want set msg : wf_set set -> wf_locker (newLocker sh want set msg).
Proof.
  intros Hs. unfold wf_locker, newLocker. cbn.
  split; [exact Hs|]. split; [apply wf_set_Zero|]. auto.
Qed.

Lemma alloc_lookup new q' st p :
  (p < length (heap st))%nat -> heap (set_q q' (alloc new st)) !! p = heap st !! p.
Proof. intros. cbn [set_q alloc heap]. apply lookup_app_l. assumption. Qed.

Lemma Cohort_enqueue all st ws us new :
  Inv all st -> Cohort st ws us -> woken new = false ->
  Cohort (set_q (q st ++ [length (heap st)]) (alloc new st)) ws (us ++ [length (heap st)]).
Proof.
  intros HI [Hsplit Hwk Hun Hex Hsh] Hnew.
  set (s0 := set_q (q st ++ [length (heap st)]) (alloc new st)).
  assert (forall p, p ∈ q st -> heap s0 !! p = heap st !! p) as Hh.
  { intros p Hp. apply alloc_lookup. apply (inv_valid _ _ HI). exact Hp. }
  assert (forall p, p ∈ ws -> heap s0 !! p = heap st !! p) as Hws
    by (intros; apply Hh; rewrite Hsplit; apply elem_of_app; auto).
  assert (forall p, p ∈ us -> heap s0 !! p = heap st !! p) as Hus
    by (intros; apply Hh; rewrite Hsplit; apply elem_of_app; auto).
  constructor.
  - subst s0. cbn [set_q q]. rewrite Hsplit, app_assoc. reflexivity.
  - apply Forall_forall. intros p Hp. rewrite Forall_forall in Hwk.
    destruct (flags_ext st s0 p (Hws p Hp)) as (-> & _). auto.
  - apply Forall_app. split.
    + apply Forall_forall. intros p Hp. rewrite Forall_forall in Hun.
      destruct (flags_ext st s0 p (Hus p Hp)) as (-> & _). auto.
    + constructor; [|constructor]. unfold wokenb. subst s0. cbn [set_q alloc heap].
      rewrite list_lookup_middle by reflexivity. exact Hnew.
  - intros h ws0 -> Hs. apply (Hex h ws0 eq_refl).
    destruct (flags_ext st s0 h (Hws h ltac:(left))) as (_ & <- & _). exact Hs.
  - intros h ws0 -> Hs. apply Forall_forall. intros p Hp.
    destruct (flags_ext st s0 p (Hws p Hp)) as (_ & -> & _).
    destruct (flags_ext st s0 h (Hws h ltac:(left))) as (_ & Hsh' & _).
    rewrite Hsh' in Hs. specialize (Hsh h ws0 eq_refl Hs).
    rewrite Forall_forall in Hsh. auto.
Qed.

(** Taking the last entry away again, when it was not woken. *)
Lemma Inv_Cohort_retract all st1 qs pn ws1 us1 :
  Inv all st1 -> Settled st1 ws1 us1 -> q st1 = qs ++ [pn] -> wokenb st1 pn = false ->
  Inv all (set_q qs st1) /\ exists us1', us1 = us1' ++ [pn] /\ Cohort (set_q qs st1) ws1 us1'.
Proof.
  intros HI [Hco Hhead Hstop] Hq Hpn.
  pose proof (inv_nodup _ _ HI) as Hnd. rewrite Hq in Hnd.
  apply NoDup_app in Hnd as (Hnd & Hfresh & _).
  split.
  - apply Inv_set_q; [exact HI|exact Hnd| |].
    + intros p Hp. rewrite Hq. apply elem_of_app. auto.
    + intros i p Hp Hn. rewrite Hq in Hp. apply elem_of_app in Hp as [Hp|Hp]; [contradiction|].
      apply list_elem_of_singleton in Hp. subst p.
      unfold wokenb in Hpn. unfold assigned_of.
      destruct (heap st1 !! pn) as [l|] eqn:Hl; [|apply bit_Zero].
      pose proof (Forall_lookup_1 _ _ _ _ (inv_heap _ _ HI) Hl) as (_ & _ & Hun & _).
      destruct (Hun Hpn) as [-> _]. apply bit_Zero.
  - pose proof (coh_split _ _ _ Hco) as Hsplit. rewrite Hq in Hsplit.
    destruct us1 as [|x us1' _] using rev_ind.
    + exfalso. rewrite app_nil_r in Hsplit. subst ws1.
      pose proof (coh_woken _ _ _ Hco) as Hw.
      apply Forall_app in Hw as [_ Hw]. apply Forall_cons in Hw as [Hw _]. congruence.
    + rewrite app_assoc in Hsplit. apply app_inj_tail in Hsplit as [Hqs <-].
      exists us1'. split; [reflexivity|]. subst qs.
      apply (Cohort_sub st1 ws1 (us1' ++ [pn]));
        [reflexivity|apply sublist_inserts_r; reflexivity|exact Hco].
Qed.

Lemma Enqueue_step all st sh nb want set msg st' r ws us :
  Inv all st -> Settled st ws us -> wf_set set ->
  Enqueue sh nb want set msg st = Ok (st', r) ->
  Inv all st' /\ exists ws' us', Settled st' ws' us'.
Proof.
  intros HI HS Hset. rewrite Enqueue_unfold.
  set (pn := length (heap st)). set (new := newLocker sh want set msg).
  destruct (setQ (q st ++ [pn]) (alloc new st)) as [st1|] eqn:H1; [|discriminate].
  cbn [mbind result_bind].
  assert (Inv all (set_q (q st ++ [pn]) (alloc new st))) as HI0
    by (apply Inv_enqueue; [exact HI|apply wf_newLocker; exact Hset|reflexivity]).
  pose proof (Cohort_enqueue all st ws us new HI (set_cohort _ _ _ HS) eq_refl) as HC0.
  pose proof (setQ_Inv _ _ _ _ HI0 H1) as HI1.
  destruct (setQ_settles _ _ _ _ _ _ HI0 HC0 H1) as (Hq1 & ws1 & us1 & HS1).
  destruct (deref st1 pn) as [l|] eqn:Hd; [|discriminate].
  apply deref_Ok in Hd. cbn [mbind result_bind].
  destruct (nb && negb (woken l)) eqn:Hnb.
  - apply andb_prop in Hnb as [_ Hnb]. apply negb_true_iff in Hnb.
    rewrite Hq1, length_app. cbn [length].
    replace (length (q st) + 1 - 1)%nat with (length (q st)) by lia.
    rewrite take_app_length.
    destruct (setQ (q st) st1) as [st2|] eqn:H2; [|discriminate].
    cbn [mbind result_bind]. intros [= <- <-].
    assert (wokenb st1 pn = false) as Hpn by (unfold wokenb; rewrite Hd; exact Hnb).
    destruct (Inv_Cohort_retract all st1 (q st) pn ws1 us1 HI1 HS1 Hq1 Hpn)
      as (HI2 & us1' & _ & HC2).
    split; [eapply setQ_Inv; eauto|].
    destruct (setQ_settles _ _ _ _ _ _ HI2 HC2 H2) as (_ & ws2 & us2 & HS2). eauto.
  - intros [= <- <-]. split; [exact HI1|]. eauto.
Qed.

Lemma Dequeue_unfold p st :
  Dequeue p st =
  match index_of p (q st) with
  | Some i =>
      l ← deref st p;
      setQ (take (length (take i (q st) ++ drop (S i) (q st)
                            ++ drop (length (q st) - 1) (q st)) - 1)
              (take i (q st) ++ drop (S i) (q st) ++ drop (length (q st) - 1) (q st)))
           (set_q (take i (q st) ++ drop (S i) (q st) ++ drop (length (q st) - 1) (q st))
              (set_cores (cpuset.Union (cores st) (assignedCores l)) st))
  | None => Abort (PanicMsg "Dequeue of non-enqueued Locker")
  end.
Proof. reflexivity. Qed.

Lemma setQ_set_q q0 q1 st : setQ q0 (set_q q1 st) = setQ q0 st.
Proof. reflexivity. Qed.

(** [Dequeue] returns the cores of the locker, takes it out of the
    queue and runs the wake pass. *)
Lemma Dequeue_pass p st st' :
  Dequeue p st = Ok st' ->
  exists i, q st !! i = Some p /\ is_Some (heap st !! p) /\
    setQ (delete i (q st)) (set_cores (cpuset.Union (cores st) (assigned_of st p)) st) = Ok st'.
Proof.
  rewrite Dequeue_unfold. destruct (index_of p (q st)) as [i|] eqn:Hi; [|discriminate].
  apply index_of_Some in Hi. destruct (deref st p) as [l|] eqn:Hd; [|discriminate].
  apply deref_Ok in Hd. cbn [mbind result_bind].
  rewrite copy_truncate by (eapply lookup_lt_Some; eauto).
  rewrite setQ_set_q. intros H. exists i. split; [exact Hi|]. split; [eauto|].
  unfold assigned_of. rewrite Hd. exact H.
Qed.

Lemma Dequeue_step all st p st' ws us :
  Inv all st -> Settled st ws us -> Dequeue p st = Ok st' ->
  Inv all st' /\ exists ws' us', Settled st' ws' us'.
Proof.
  intros HI HS H. destruct (Dequeue_pass _ _ _ H) as (i & Hi & _ & Hpass).
  pose proof (Inv_dequeue all st p i HI Hi) as HI0.
  split; [eapply setQ_Inv; eauto|].
  pose proof (coh_split _ _ _ (set_cohort _ _ _ HS)) as Hsplit.
  destruct (delete_app_sub ws us i) as (ws' & us' & Hdel & Hsw & Hsu).
  rewrite Hsplit in Hpass, HI0. rewrite Hdel in Hpass, HI0.
  assert (Cohort (set_q (ws' ++ us')
                    (set_cores (cpuset.Union (cores st) (assigned_of st p)) st)) ws' us')
    as HC0.
  { apply (Cohort_sub (set_cores (cpuset.Union (cores st) (assigned_of st p)) st) ws us);
      [exact Hsw|exact Hsu|].
    apply (Cohort_ext st); [reflexivity|exact Hsplit|exact (set_cohort _ _ _ HS)]. }
  destruct (setQ_settles _ _ _ _ _ _ HI0 HC0 Hpass) as (_ & ws2 & us2 & HS2). eauto.
Qed.

(** The accounting and the shape hold in every reachable state. *)
Lemma reachable_Inv all st :
  wf_set all -> reachable all st ->
  Inv all st /\ exists ws us, Settled st ws us.
Proof.
  intros Hall Hr. induction Hr as [|st sh nb want set msg st' r Hr IH Hset HE
                                   |st p st' Hr IH HD].
  - split.
    + constructor; cbn [init q heap cores]; auto.
      * constructor.
      * intros p Hp. apply not_elem_of_nil in Hp. contradiction.
      * intros p i Hp. apply not_elem_of_nil in Hp. contradiction.
      * intros p p' i Hp. apply not_elem_of_nil in Hp. contradiction.
    + exists [], []. repeat constructor; try discriminate; auto.
  - destruct IH as (HI & ws & us & HS). eapply Enqueue_step; eauto.
  - destruct IH as (HI & ws & us & HS). eapply Dequeue_step; eauto.
Qed.

End operations.

(** * The lock queue: what the specification states *)
Section lock_properties.

Import unix lock.

Lemma wf_setb_true s : wf_setb s = true -> wf_set s.
Proof.
  unfold wf_setb, wf_set. intros H. apply andb_prop in H as [Hl Hf].
  apply Nat.eqb_eq in Hl. split; [exact Hl|].
  apply Forall_forall. intros w Hw. rewrite forallb_forall in Hf.
  apply list_elem_of_In in Hw. specialize (Hf w Hw). lia.
Qed.

Lemma wf_assigned_of all st p : Inv all st -> wf_set (assigned_of st p).
Proof.
  intros HI. unfold assigned_of.
  destruct (heap st !! p) as [l|] eqn:Hl; [|apply wf_set_Zero].
  apply (Forall_lookup_1 _ _ _ _ (inv_heap _ _ HI) Hl).
Qed.

Lemma assigned_union_spec all st :
  Inv all st ->
  wf_set (assigned_union st) /\
  forall i, bit (assigned_union st) i = true <->
            exists p, p ∈ q st /\ bit (assigned_of st p) i = true.
Proof.
  intros HI. unfold assigned_union. induction (q st) as [|p qs IH]; cbn [foldr].
  - split; [apply wf_set_Zero|]. intros i. rewrite bit_Zero. split; [discriminate|].
    intros (p & Hp & _). apply not_elem_of_nil in Hp. contradiction.
  - destruct IH as [Hwf IH]. pose proof (wf_assigned_of all st p HI) as Hp.
    split; [apply wf_set_Union; assumption|].
    intros i. rewrite bit_Union by (destruct Hwf as [-> _], Hp as [-> _]; reflexivity).
    rewrite orb_true_iff, IH. split.
    + intros [H|(x & Hx & H)]; [exists p; split; [left|exact H]|].
      exists x. split; [right; exact Hx|exact H].
    + intros (x & Hx & H). apply elem_of_cons in Hx as [->|Hx]; [auto|].
      right. exists x. auto.
Qed.

Lemma StronglySorted_take {A} (R : A -> A -> Prop) n (l : list A) :
  StronglySorted R l -> StronglySorted R (take n l).
Proof.
  intros H. rewrite <- (take_drop n l) in H.
  apply StronglySorted_app_1_l in H. exact H.
Qed.

Lemma members_sorted_unique s (l : list Z) :
  StronglySorted Z.lt l -> (forall x, x ∈ l <-> bit s x = true) -> members s = l.
Proof.
  intros Hs Hl. apply (StronglySorted_unique_strong Z.lt).
  - intros x1 x2 _ _ H1 H2. lia.
  - apply StronglySorted_members.
  - exact Hs.
  - apply NoDup_Permutation.
    + apply NoDup_members.
    + clear Hl. induction Hs as [|x l Hs IH Hf]; constructor; [|exact IH].
      intros Hin. rewrite Forall_forall in Hf. specialize (Hf x Hin). lia.
    + intros x. rewrite elem_of_members, Hl. reflexivity.
Qed.

(** When a wake of an unwoken locker returns in a state that satisfies
    the accounting, the locker holds exactly the lowest [wantCores] CPUs
    of [cores ∩ availCores], in ascending order, there are [wantCores]
    of them, and they are no longer free. *)
Lemma wake_assigns_lowest all st p l st' :
  Inv all st -> p ∈ q st -> heap st !! p = Some l -> woken l = false ->
  wake p st = Ok st' ->
  members (assigned_of st' p) = taken_by st l /\
  N.of_nat (length (taken_by st l)) = wantCores l /\
  (forall j, bit (cores st') j = bit (cores st) j && negb (bool_decide (j ∈ taken_by st l))).
Proof.
  intros HI Hp Hl Hw H.
  pose proof (Forall_lookup_1 _ _ _ _ (inv_heap _ _ HI) Hl) as ([Hal _] & [Hsl _] & Hun & _).
  destruct (inv_cores_wf _ _ HI) as [Hcl _].
  destruct (wake_spec p st st' l Hl Hcl Hal Hsl H)
    as [[Hw' _]|(_ & _ & asg' & cores' & -> & Ha' & Hc' & _ & _ & Hs' & Hs'' & Hle & Hcnt)];
    [congruence|].
  destruct (Hun Hw) as [Hz _].
  assert (p < length (heap st))%nat as Hlt by (eapply lookup_lt_Some; eauto).
  rewrite assigned_of_insert_eq by exact Hlt. cbn [assignedCores cores].
  assert (members asg' = taken_by st l) as Em.
  { apply members_sorted_unique.
    - apply StronglySorted_take, StronglySorted_members.
    - intros x. rewrite Hs', Hz, bit_Zero. cbn [orb].
      rewrite bool_decide_eq_true. reflexivity. }
  split; [exact Em|]. split; [|exact Hs''].
  destruct (N.eq_dec (wantCores l) 0%N) as [E0|Hne].
  - unfold taken_by, lowest. rewrite E0. reflexivity.
  - rewrite <- Em, <- uint_Count by exact Ha'. apply Hcnt. exact Hne.
Qed.

(** In a reachable state a locker that wants no core holds none. *)
Lemma reachable_want0_unassigned all st p l :
  wf_set all -> reachable all st -> heap st !! p = Some l ->
  wantCores l = 0%N -> assignedCores l = CPUSet_Zero.
Proof.
  intros Hall Hr Hl H0. destruct (reachable_Inv all st Hall Hr) as [HI _].
  pose proof (Forall_lookup_1 _ _ _ _ (inv_heap _ _ HI) Hl) as (_ & _ & _ & Hw).
  auto.
Qed.

End lock_properties.

(** C4. In every state reachable through [Enqueue] and [Dequeue], the
    [assignedCores] of the queued lockers are pairwise disjoint and
    disjoint from the free cores, and the free cores are the initial set
    of all cores minus the union of the [assignedCores] of the queued
    lockers. *)
Theorem C4_cores_accounting (all : unix.CPUSet) (st : lock.state) :
  wf_set all -> reachable all st ->
  (forall p p', p ∈ lock.q st -> p' ∈ lock.q st -> p <> p' ->
     cpuset.Intersect (assigned_of st p) (assigned_of st p') = unix.CPUSet_Zero) /\
  (forall p, p ∈ lock.q st ->
     cpuset.Intersect (assigned_of st p) (lock.cores st) = unix.CPUSet_Zero) /\
  lock.cores st = cpuset.Difference all (assigned_union st).
Proof.
  intros Hall Hr. destruct (reachable_Inv all st Hall Hr) as [HI _].
  pose proof (inv_cores_wf _ _ HI) as Hc.
  destruct (assigned_union_spec all st HI) as [HU HUb].
  assert (forall a b : unix.CPUSet, wf_set a -> wf_set b -> length a = length b) as Hlen
    by (intros a b [-> _] [-> _]; reflexivity).
  split; [|split].
  - intros p p' Hp Hp' Hne.
    pose proof (wf_assigned_of all st p HI) as Hwp.
    pose proof (wf_assigned_of all st p' HI) as Hwp'.
    apply bit_ext; [apply wf_set_Intersect; assumption|apply wf_set_Zero|].
    intros i. rewrite bit_Intersect, bit_Zero by auto.
    destruct (bit (assigned_of st p) i) eqn:E; [|reflexivity].
    rewrite (inv_disjoint _ _ HI p p' i Hp Hp' Hne E). reflexivity.
  - intros p Hp. pose proof (wf_assigned_of all st p HI) as Hwp.
    apply bit_ext; [apply wf_set_Intersect; assumption|apply wf_set_Zero|].
    intros i. rewrite bit_Intersect, bit_Zero by auto.
    destruct (bit (assigned_of st p) i) eqn:E; [|reflexivity].
    destruct (inv_assigned _ _ HI p i Hp E) as [-> _]. reflexivity.
  - apply bit_ext; [exact Hc|apply wf_set_Difference; assumption|].
    intros i. rewrite bit_Difference by auto.
    destruct (bit (lock.cores st) i) eqn:Ec.
    + rewrite (inv_free_all _ _ HI i Ec). cbn [andb].
      destruct (bit (assigned_union st) i) eqn:Eu; [|reflexivity].
      apply HUb in Eu as (p & Hp & Hb).
      destruct (inv_assigned _ _ HI p i Hp Hb) as [Hf _]. congruence.
    + destruct (bit all i) eqn:Ea; [|reflexivity]. cbn [andb].
      destruct (inv_cover _ _ HI i Ea) as [Hf|(p & Hp & Hb)]; [congruence|].
      assert (bit (assigned_union st) i = true) as -> by (apply HUb; eauto).
      reflexivity.
Qed.

Lemma C4_witness :
  (wf_set all8 /\ reachable all8 ex_shared33) /\
  lock.cores ex_shared33 = cpuset.Difference all8 (assigned_union ex_shared33).
Proof.
  assert (wf_set all8) as H1 by (apply wf_setb_true; reflexivity).
  assert (reachable all8 ex_shared33) as H2.
  { apply (reach_Enqueue all8 ex_shared3 true false 3 all8 "b" ex_shared33 (Some 1%nat));
      [|exact H1|vm_compute; reflexivity].
    apply (reach_Enqueue all8 (lock.init all8) true false 3 all8 "a" ex_shared3 (Some 0%nat));
      [apply reach_init|exact H1|vm_compute; reflexivity]. }
  split; [split; assumption|].
  apply (C4_cores_accounting all8 ex_shared33 H1 H2).
Defined.

(** C1. In every reachable state whose head is exclusive, the head is
    woken and no locker behind it is; and a wake pass over a queue with an
    exclusive head, from any state [s], wakes that head only: every other
    locker is left as it was, and when the head is already woken nothing
    changes at all. So no locker behind an exclusive head is woken as long
    as that head is in the queue. *)
Theorem C1_exclusive_head_alone
    (all : unix.CPUSet) (st : lock.state) (p0 : nat) (rest : list nat)
    (s s' : lock.state) (rest' : list nat) :
  wf_set all -> reachable all st ->
  lock.q st = p0 :: rest -> sharedb st p0 = false ->
  (wokenb st p0 = true /\ forall p, p ∈ rest -> wokenb st p = false) /\
  (sharedb s p0 = false -> lock.setQ (p0 :: rest') s = Ok s' ->
     lock.q s' = p0 :: rest' /\ wokenb s' p0 = true /\
     (forall p, p <> p0 -> lock.heap s' !! p = lock.heap s !! p) /\
     (wokenb s p0 = true -> s' = lock.set_q (p0 :: rest') s)).
Proof.
  intros Hall Hr Hq Hex. split.
  - destruct (reachable_Inv all st Hall Hr) as (HI & ws & us & [[Hsplit Hwk Hun Hx Hsh] Hhead _]).
    rewrite Hq in Hsplit. destruct ws as [|h ws0].
    + rewrite (Hhead eq_refl) in Hsplit. discriminate.
    + cbn [app] in Hsplit. injection Hsplit as <- Hrest.
      rewrite (Hx p0 ws0 eq_refl Hex) in Hrest, Hwk. cbn [app] in Hrest. subst us.
      apply Forall_cons in Hwk as [Hw _]. split; [exact Hw|].
      rewrite Forall_forall in Hun. exact Hun.
  - intros Hs. rewrite setQ_unfold. unfold lock.deref.
    change (lock.heap (lock.set_q (p0 :: rest') s)) with (lock.heap s).
    unfold sharedb in Hs. destruct (lock.heap s !! p0) as [hd|] eqn:Hd; [|discriminate].
    cbn [mbind result_bind]. rewrite Hs. intros Hw.
    destruct (wake_frame _ _ _ Hw) as (Hq' & _ & Hfr & Hwoken & _ & _ & _ & Hid).
    split; [exact Hq'|]. split; [exact Hwoken|]. split; [exact Hfr|]. exact Hid.
Qed.

Lemma C1_witness :
  (wf_set all8 /\ reachable all8 ex_exclusive_waiter /\
   lock.q ex_exclusive_waiter = [0; 1]%nat /\ sharedb ex_exclusive_waiter 0 = false) /\
  wokenb ex_exclusive_waiter 0 = true /\
  forall p, p ∈ [1%nat] -> wokenb ex_exclusive_waiter p = false.
Proof.
  assert (wf_set all8) as H1 by (apply wf_setb_true; reflexivity).
  assert (reachable all8 ex_exclusive_waiter) as H2.
  { apply (reach_Enqueue all8 ex_exclusive true false 3 all8 "build"
             ex_exclusive_waiter (Some 1%nat));
      [|exact H1|vm_compute; reflexivity].
    apply (reach_Enqueue all8 (lock.init all8) false false 0 all8 "bench"
             ex_exclusive (Some 0%nat));
      [apply reach_init|exact H1|vm_compute; reflexivity]. }
  split; [split; [exact H1|split; [exact H2|split; reflexivity]]|].
  exact (proj1 (C1_exclusive_head_alone all8 ex_exclusive_waiter 0%nat [1%nat]
                  ex_exclusive_waiter ex_exclusive_waiter [] H1 H2 eq_refl eq_refl)).
Defined.

(** A wake that returns on a locker not yet woken has passed the
    opening assertion of [takeCores]. *)
Lemma wake_Ok_enough st p st' :
  lock.wake p st = Ok st' -> wokenb st p = false ->
  (want_of st p <= lock.uint (unix.CPUSet_Count (lock.cores st)))%N.
Proof.
  unfold lock.wake, lock.takeCores, lock.deref, lock.assert, wokenb, want_of.
  destruct (lock.heap st !! p) as [l|]; [|discriminate].
  cbn [mbind result_bind]. intros H Hw. rewrite Hw in H.
  destruct (lock.wantCores l <=? lock.uint (unix.CPUSet_Count (lock.cores st)))%N eqn:E;
    [|discriminate].
  apply N.leb_le in E. exact E.
Qed.

(** What the wake pass over a queue with a shared head has done when it
    returns: it has woken a prefix [qs1] of the queue, one entry after
    the other in queue order, and stopped in front of [qs2]. Every entry
    of [qs1] is shared and woken, the head is among them, no locker
    outside [qs1] was touched, the first entry of [qs2] is non-shared or
    is an unwoken shared entry that wants more cores than
    [cores.Count()], and no entry of [qs1], the head included, was such
    an entry when its turn came. *)
Lemma setQ_shared_walk
    (st st' : lock.state) (p0 : nat) (rest : list nat) :
  sharedb st p0 = true -> lock.setQ (p0 :: rest) st = Ok st' ->
  exists qs1 qs2,
    p0 :: rest = qs1 ++ qs2 /\ qs1 <> [] /\
    wake_all qs1 (lock.set_q (p0 :: rest) st) = Ok st' /\
    Forall (fun p => sharedb st' p = true /\ wokenb st' p = true) qs1 /\
    (forall p, p ∉ qs1 -> lock.heap st' !! p = lock.heap st !! p) /\
    match qs2 with [] => True | u :: _ => blocked_entry st' u end /\
    (forall a p b sa, qs1 = a ++ p :: b ->
       wake_all a (lock.set_q (p0 :: rest) st) = Ok sa -> ~ blocked_entry sa p).
Proof.
  intros Hs0. pose proof Hs0 as Hs. rewrite setQ_unfold. unfold lock.deref.
  change (lock.heap (lock.set_q (p0 :: rest) st)) with (lock.heap st).
  unfold sharedb in Hs. destruct (lock.heap st !! p0) as [hd|] eqn:Hd; [|discriminate].
  cbn [mbind result_bind]. rewrite Hs. intros H.
  destruct (setQ_loop_spec _ _ _ _ H) as (qs1 & qs2 & Hq & Hall & Hf & Hst & Hfirst).
  destruct (wake_all_frame _ _ _ Hall) as (_ & _ & Hfr & _).
  assert (qs1 <> []) as Hne.
  { intros ->. cbn [app] in Hq. subst qs2. injection Hall as <-.
    cbn [length Nat.add] in Hst. destruct Hst as [Hx|[Hx _]].
    + unfold sharedb in Hx. cbn [lock.set_q lock.heap] in Hx. rewrite Hd in Hx. congruence.
    + apply Hx. reflexivity. }
  exists qs1, qs2. split; [exact Hq|]. split; [exact Hne|].
  split; [exact Hall|]. split; [exact Hf|]. split; [exact Hfr|]. split.
  - destruct qs2 as [|u qs2']; [exact I|].
    cbn [Nat.add] in Hst. destruct Hst as [Hx|(_ & Hx)]; [left; exact Hx|right; exact Hx].
  - intros a p b sa Ea Ha Hb.
    destruct a as [|a0 a'].
    + (* the head *)
      cbn [wake_all] in Ha. injection Ha as <-.
      cbn [app] in Ea. subst qs1. cbn [app] in Hq. injection Hq as <- _.
      destruct Hb as [Hx|(Hw & Hn & Hlt)].
      * unfold sharedb in Hx. cbn [lock.set_q lock.heap] in Hx. rewrite Hd in Hx. congruence.
      * cbn [wake_all] in Hall.
        destruct (lock.wake p0 (lock.set_q (p0 :: rest) st)) as [s1|e] eqn:Ew;
          [|discriminate].
        pose proof (wake_Ok_enough _ _ _ Ew Hw) as Hle. lia.
    + apply (Hfirst (a0 :: a') p b sa Ea Ha).
      cbn [Nat.add length]. destruct Hb as [Hx|Hx]; [left; exact Hx|].
      right. split; [discriminate|exact Hx].
Qed.

(** C2. The walk does not stop in front of a head that is an unwoken
    shared entry wanting more cores than are free: [setQ] tests the core
    count for the entries behind the head only, hands the head to [wake],
    and [takeCores] fails its opening assertion. With the four cores 0-3
    free and the queue [shared want=8, shared want=0], nobody woken, the
    pass panics instead of returning with neither woken. [Enqueue] of a
    shared request for eight cores on the idle lock of a daemon that has
    these four cores ends the same way, and so does the session that
    receives this request from a process allowed on CPUs 0-7: the request
    passes the test of [Serve] (8 <= 8) and reaches [Enqueue]. *)
Theorem C2_unwoken_head_fails_assertion :
  let cores4 : unix.CPUSet := [15; 0; 0; 0; 0; 0; 0; 0; 0; 0; 0; 0; 0; 0; 0; 0] in
  let st := alloc (newLocker true 0 all8 "second")
              (alloc (newLocker true 8 all8 "first") (lock.init cores4)) in
  let action := daemon.mkActionAcquire 42 8 true false "job" in
  let s : daemon.Server nat := daemon.mkServer "user" None false None in
  (sharedb st 0 = true /\ wokenb st 0 = false /\ want_of st 0 = 8%N /\
   lock.uint (unix.CPUSet_Count (lock.cores st)) = 4%N /\ blocked_entry st 0) /\
  lock.setQ [0; 1]%nat st <> Ok (lock.set_q [0; 1]%nat st) /\
  lock.setQ [0; 1]%nat st = Abort (AssertFailed "BUG: %d < %d") /\
  lock.Enqueue true false 8 all8 "first" (lock.init cores4)
    = Abort (AssertFailed "BUG: %d < %d") /\
  cpuset_parse.CPUSetOfPid ex_allowedList 42 = Ok (all8, None) /\
  daemon.serveAcquire ex_allowedList "Jan  2 15:04:05" ex_Encode cores4 action s
    (lock.init cores4) = Abort (AssertFailed "BUG: %d < %d").
Proof.
  cbv zeta. split.
  { split; [reflexivity|]. split; [reflexivity|]. split; [reflexivity|].
    split; [vm_compute; reflexivity|].
    right. split; [reflexivity|]. split; [vm_compute; discriminate|].
    vm_compute. reflexivity. }
  split; [vm_compute; discriminate|].
  split; [vm_compute; reflexivity|].
  split; [vm_compute; reflexivity|].
  split; vm_compute; reflexivity.
Qed.

(** C3. The closing assertion of [takeCores] can fire in a run of the
    daemon: with eight cores, after a shared request for four cores by a
    process allowed on all eight, a shared request for four cores by a
    process allowed on CPUs 0-5 passes the opening assertion (four cores
    are free) but finds only CPUs 4 and 5 among the free ones, assigns
    these two, and panics. *)
Theorem C3_takeCores_assertion_fires :
  let avail6 : unix.CPUSet := [63; 0; 0; 0; 0; 0; 0; 0; 0; 0; 0; 0; 0; 0; 0; 0] in
  exists st1,
    lock.Enqueue true false 4 all8 "first" (lock.init all8) = Ok (st1, Some 0%nat) /\
    reachable all8 st1 /\ wf_set avail6 /\
    members (lock.cores st1) = [4; 5; 6; 7] /\
    (4 <= lock.uint (unix.CPUSet_Count avail6))%N /\
    lowest 4 (cpuset.Intersect (lock.cores st1) avail6) = [4; 5] /\
    lock.Enqueue true false 4 avail6 "second" st1 = Abort (AssertFailed "BUG: %d != %d").
Proof.
  cbv zeta. eexists. split; [vm_compute; reflexivity|].
  split.
  { eapply (reach_Enqueue all8 (lock.init all8) true false 4 all8 "first");
      [apply reach_init|apply wf_setb_true; reflexivity|vm_compute; reflexivity]. }
  split; [apply wf_setb_true; reflexivity|].
  repeat split; vm_compute; try reflexivity. discriminate.
Qed.

Section nonblocking.

Import unix lock.

(** A wake pass over a settled queue with one new entry at its end
    either wakes that entry or changes nothing. *)
Lemma setQ_new_entry all st new st1 ws us :
  Inv all st -> Settled st ws us -> wf_locker new -> assignedCores new = CPUSet_Zero ->
  woken new = false ->
  setQ (q st ++ [length (heap st)]) (alloc new st) = Ok st1 ->
  wokenb st1 (length (heap st)) = false ->
  st1 = set_q (q st ++ [length (heap st)]) (alloc new st).
Proof.
  intros HI HS Hnew Hz Hnw H1 Hpn.
  set (pn := length (heap st)) in *.
  set (s0 := set_q (q st ++ [pn]) (alloc new st)) in *.
  pose proof (Inv_enqueue all st new HI Hnew Hz) as HI0. fold pn in HI0. fold s0 in HI0.
  pose proof (Cohort_enqueue all st ws us new HI (set_cohort _ _ _ HS) Hnw) as HC0.
  fold pn in HC0. fold s0 in HC0.
  destruct HS as [[Hsplit Hwk Hun Hex Hsh] Hhead Hstop].
  assert (forall p, p ∈ q st -> heap s0 !! p = heap st !! p) as Hh.
  { intros p Hp. apply alloc_lookup. apply (inv_valid _ _ HI). exact Hp. }
  destruct ws as [|h ws0].
  - (* the queue was empty: the new entry is the head and is woken *)
    exfalso. rewrite (Hhead eq_refl) in Hsplit. cbn [app] in Hsplit.
    destruct (setQ_settles _ _ _ _ _ _ HI0 HC0 H1) as (Hq1 & ws1 & us1 & [Hco1 Hhead1 _]).
    pose proof (coh_split _ _ _ Hco1) as Hsp1. rewrite Hq1, Hsplit in Hsp1.
    cbn [app] in Hsp1. destruct ws1 as [|h1 ws1].
    + rewrite (Hhead1 eq_refl) in Hsp1. discriminate.
    + injection Hsp1 as <- _. pose proof (coh_woken _ _ _ Hco1) as Hw.
      apply Forall_cons in Hw as [Hw _]. congruence.
  - assert (h ∈ q st) as Hhq by (rewrite Hsplit; left).
    assert (wokenb s0 h = true) as Hwh.
    { destruct (flags_ext st s0 h (Hh h Hhq)) as (-> & _).
      apply Forall_cons in Hwk as [Hw _]. exact Hw. }
    assert (q st ++ [pn] = h :: (ws0 ++ (us ++ [pn]))) as Eq
      by (rewrite Hsplit; cbn [app]; rewrite <- app_assoc; reflexivity).
    rewrite setQ_unfold in H1. fold s0 in H1. rewrite Eq in H1.
    destruct (deref s0 h) as [hd|] eqn:Hd; [|discriminate].
    apply deref_Ok in Hd. cbn [mbind result_bind] in H1.
    destruct (shared hd) eqn:Hs.
    + assert (sharedb st h = true) as Hsb.
      { destruct (flags_ext st s0 h (Hh h Hhq)) as (_ & <- & _).
        unfold sharedb. rewrite Hd. exact Hs. }
      change (h :: ws0 ++ us ++ [pn]) with ((h :: ws0) ++ (us ++ [pn])) in H1.
      rewrite setQ_loop_skip in H1.
      2:{ exact (coh_woken _ _ _ HC0). }
      2:{ apply (coh_shared _ _ _ HC0 h ws0 eq_refl).
          unfold sharedb. rewrite Hd. exact Hs. }
      destruct us as [|u us0].
      * cbn [app] in H1.
        destruct (setQ_loop_spec _ _ _ _ H1) as (qs1 & qs2 & Hq & Hall & Hf & _).
        destruct qs1 as [|x qs1]; [injection Hall as <-; reflexivity|].
        exfalso. cbn [app] in Hq. injection Hq as <- _.
        apply Forall_cons in Hf as [[_ Hw] _]. congruence.
      * cbn [app] in H1. rewrite setQ_loop_stop in H1.
        -- injection H1 as <-. reflexivity.
        -- rewrite Nat.add_0_l.
           apply (stop_entry_ext _ st); [|reflexivity|].
           ++ apply Hh. rewrite Hsplit. apply elem_of_app. right. left.
           ++ exact (Hstop h ws0 u us0 eq_refl Hsb eq_refl).
        -- assert (u ∈ q s0) as Hu.
           { subst s0. cbn [set_q q]. rewrite Hsplit. apply elem_of_app. left.
             apply elem_of_app. right. left. }
           apply (inv_valid _ _ HI0) in Hu. apply lookup_lt_is_Some_2. exact Hu.
    + rewrite (wake_woken _ _ Hwh) in H1. injection H1 as <-. reflexivity.
Qed.

End nonblocking.

(** * The session: governor and over-large requests *)
Section governor.

Context {Domain HW : Type}.
Variable Domains : HW -> list Domain * option error.
Variable CurrentRange : Domain -> HW -> Z * Z * option error.
Variable AvailableRange : Domain -> HW -> Z * Z * list Z.
Variable SetRange : Domain -> Z -> Z -> HW -> HW * option error.

Lemma restoreGovernor_foldl olds hw err :
  foldl (fun '(hw, err) (g : daemon.governorSettings Domain) =>
           let '(hw', err1) := SetRange (daemon.domain g) (daemon.min g) (daemon.max g) hw in
           (hw', match err1, err with
                 | Some e1, None => Some e1
                 | _, _ => err
                 end))
        (hw, err) olds
  = (restore_hw SetRange olds hw,
     match err with
     | Some e => Some e
     | None => first_error (restore_calls SetRange olds hw)
     end).
Proof.
  revert hw err. induction olds as [|g olds IH]; intros hw err.
  - destruct err; reflexivity.
  - cbn [foldl restore_hw restore_calls].
    destruct (SetRange (daemon.domain g) (daemon.min g) (daemon.max g) hw) as [hw' e1].
    rewrite IH. cbn [fst first_error].
    destruct e1, err; reflexivity.
Qed.

Lemma length_restore_calls olds hw :
  length (restore_calls SetRange olds hw) = length olds.
Proof.
  revert hw. induction olds as [|g olds IH]; intros hw; [reflexivity|].
  cbn [restore_calls].
  destruct (SetRange (daemon.domain g) (daemon.min g) (daemon.max g) hw) as [hw' e1].
  cbn [length]. rewrite IH. reflexivity.
Qed.

(** The save phase fails with the error of the first domain whose
    current range cannot be read. *)
Lemma setGovernor_save_fails ds1 d ds2 hw old mn mx e :
  Forall (fun d' => snd (CurrentRange d' hw) = None) ds1 ->
  CurrentRange d hw = (mn, mx, Some e) ->
  daemon.setGovernor_save CurrentRange (ds1 ++ d :: ds2) hw old = inr e.
Proof.
  intros Hok Hd. revert old. induction Hok as [|d' ds1 Hd' Hok IH]; intros old.
  - cbn [app daemon.setGovernor_save]. rewrite Hd. reflexivity.
  - cbn [app daemon.setGovernor_save].
    destruct (CurrentRange d' hw) as [[mn' mx'] e'] eqn:E. cbn [snd] in Hd'. subst e'.
    apply IH.
Qed.

(** The save phase succeeds only when every range could be read. *)
Lemma setGovernor_save_ok ds hw old olds :
  daemon.setGovernor_save CurrentRange ds hw old = inl olds ->
  Forall (fun d' => snd (CurrentRange d' hw) = None) ds /\
  olds = old ++ map (fun d' => daemon.mkGovernorSettings d'
                                 (fst (fst (CurrentRange d' hw)))
                                 (snd (fst (CurrentRange d' hw)))) ds.
Proof.
  revert old. induction ds as [|d ds IH]; intros old.
  - cbn. intros [= <-]. split; [constructor|]. rewrite app_nil_r. reflexivity.
  - cbn [daemon.setGovernor_save map].
    destruct (CurrentRange d hw) as [[mn mx] e] eqn:E. destruct e; [discriminate|].
    intros H. destruct (IH _ H) as [Hf ->]. split.
    + constructor; [rewrite E; reflexivity|exact Hf].
    + cbn [fst snd]. rewrite <- app_assoc. reflexivity.
Qed.

End governor.

Lemma first_error_spec (es : list (option error)) :
  (first_error es = None <-> Forall (fun e => e = None) es) /\
  (forall e, first_error es = Some e ->
     exists k, es !! k = Some (Some e) /\ forall j, (j < k)%nat -> es !! j = Some None).
Proof.
  induction es as [|[e0|] es [IH1 IH2]].
  - split; [split; [constructor|reflexivity]|discriminate].
  - split.
    + split; [discriminate|]. intros H. apply Forall_cons in H as [H _]. discriminate.
    + intros e [= <-]. exists 0%nat. split; [reflexivity|]. intros j Hj. lia.
  - cbn [first_error]. split.
    + rewrite IH1. split; [intros H; constructor; [reflexivity|exact H]|].
      intros H. apply Forall_cons in H as [_ H]. exact H.
    + intros e He. destruct (IH2 e He) as (k & Hk & Hlt). exists (S k).
      split; [exact Hk|]. intros [|j] Hj; [reflexivity|]. apply Hlt. lia.
Qed.

(** C8. For every saved list [oldGovernors], [restoreGovernor] calls
    [SetRange] with the saved [(min, max)] of each entry, in order and
    on every entry whatever the earlier calls returned, and returns the
    first error among the outcomes of these calls, [nil] when there is
    none. *)
Theorem C8_restoreGovernor_best_effort
    {Domain HW : Type} (SetRange : Domain -> Z -> Z -> HW -> HW * option error)
    (userName : string) (locker : option nat) (acquiring : bool)
    (olds : list (daemon.governorSettings Domain)) (hw : HW) :
  let calls := restore_calls SetRange olds hw in
  daemon.restoreGovernor SetRange (daemon.mkServer userName locker acquiring (Some olds)) hw
    = (restore_hw SetRange olds hw, first_error calls) /\
  length calls = length olds /\
  (first_error calls = None <-> Forall (fun e => e = None) calls) /\
  (forall e, first_error calls = Some e ->
     exists k, calls !! k = Some (Some e) /\ forall j, (j < k)%nat -> calls !! j = Some None).
Proof.
  cbv zeta. split; [|split; [apply length_restore_calls|apply first_error_spec]].
  unfold daemon.restoreGovernor. cbn [daemon.oldGovernors default from_option id].
  rewrite restoreGovernor_foldl. reflexivity.
Qed.

(** On the example machine the write to domain 1 fails; domains 0, 1 and
    2 are all written, and the error of domain 1 comes back. *)
Example restoreGovernor_example :
  daemon.restoreGovernor sim_SetRange
    (daemon.mkServer "alice" (Some 0%nat) false
       (Some [daemon.mkGovernorSettings 0%nat 1000 2000;
              daemon.mkGovernorSettings 1%nat 1100 2100;
              daemon.mkGovernorSettings 2%nat 1200 2200])) []
  = ([(0%nat, 1000, 2000); (1%nat, 1100, 2100); (2%nat, 1200, 2200)],
     Some (errorString "write failed")).
Proof. reflexivity. Qed.

(** C9. When [setGovernor] cannot read the current range of a domain
    (with the ranges of the domains before it read), it returns that
    error, leaves the machine as it was, and leaves [oldGovernors] as it
    was: a session whose [oldGovernors] was [nil] keeps it [nil], so that
    [drop] restores nothing. [oldGovernors] changes only in a call in
    which the current range of every domain was read. *)
Theorem C9_setGovernor_save_failure
    {Domain HW : Type}
    (Domains : HW -> list Domain * option error)
    (CurrentRange : Domain -> HW -> Z * Z * option error)
    (AvailableRange : Domain -> HW -> Z * Z * list Z)
    (SetRange : Domain -> Z -> Z -> HW -> HW * option error)
    (percent : Z) (s : daemon.Server Domain) (hw : HW) (st : lock.state)
    (ds1 : list Domain) (d : Domain) (ds2 : list Domain) (mn mx : Z) (e : error) :
  Domains hw = (ds1 ++ d :: ds2, None) ->
  Forall (fun d' => snd (CurrentRange d' hw) = None) ds1 ->
  CurrentRange d hw = (mn, mx, Some e) ->
  daemon.setGovernor Domains CurrentRange AvailableRange SetRange percent s hw
    = (s, hw, Some e) /\
  (daemon.oldGovernors s = None ->
     forall s1 hw1 st1, daemon.drop SetRange s hw st = Ok (s1, hw1, st1) -> hw1 = hw) /\
  (forall percent0 s0 hw0 s' hw' err,
     daemon.setGovernor Domains CurrentRange AvailableRange SetRange percent0 s0 hw0
       = (s', hw', err) ->
     daemon.oldGovernors s' <> daemon.oldGovernors s0 ->
     Forall (fun d' => snd (CurrentRange d' hw0) = None) (fst (Domains hw0))).
Proof.
  intros HD Hok Hd. split; [|split].
  - unfold daemon.setGovernor. rewrite HD.
    destruct (length (ds1 ++ d :: ds2) =? 0)%nat eqn:El.
    { apply Nat.eqb_eq in El. rewrite length_app in El. cbn [length] in El. lia. }
    rewrite (setGovernor_save_fails CurrentRange ds1 d ds2 hw [] mn mx e Hok Hd).
    reflexivity.
  - intros Hnil s1 hw1 st1. unfold daemon.drop. rewrite Hnil.
    destruct (daemon.locker s) as [p|].
    + destruct (lock.Dequeue p st); cbn [mbind result_bind]; [|discriminate].
      intros [= _ <- _]. reflexivity.
    + intros [= _ <- _]. reflexivity.
  - intros percent0 s0 hw0 s' hw' err. unfold daemon.setGovernor.
    destruct (Domains hw0) as [ds [e0|]]; [intros [= <- _ _] Hne; contradiction|].
    destruct (length ds =? 0)%nat; [intros [= <- _ _] Hne; contradiction|].
    destruct (daemon.setGovernor_save CurrentRange ds hw0 []) as [olds|e1] eqn:Es;
      [|intros [= <- _ _] Hne; contradiction].
    intros _ _. cbn [fst]. apply (setGovernor_save_ok CurrentRange ds hw0 [] olds Es).
Qed.

Lemma C9_witness :
  (sim_Domains [] = ([0; 1]%nat ++ 2%nat :: [], None) /\
   Forall (fun d' => snd (sim_CurrentRange d' []) = None) [0; 1]%nat /\
   sim_CurrentRange 2%nat [] = (1000, 2000, Some (errorString "read failed"))) /\
  daemon.setGovernor sim_Domains sim_CurrentRange sim_AvailableRange sim_SetRange 50
    (daemon.mkServer "alice" (Some 0%nat) false None) []
  = (daemon.mkServer "alice" (Some 0%nat) false None, [], Some (errorString "read failed")).
Proof.
  assert (Forall (fun d' => snd (sim_CurrentRange d' []) = None) [0; 1]%nat) as H
    by (repeat constructor).
  split; [split; [reflexivity|split; [exact H|reflexivity]]|].
  exact (proj1 (C9_setGovernor_save_failure sim_Domains sim_CurrentRange sim_AvailableRange
                  sim_SetRange 50 (daemon.mkServer "alice" (Some 0%nat) false None) []
                  ex_exclusive [0; 1]%nat 2%nat [] 1000 2000 (errorString "read failed")
                  eq_refl H eq_refl)).
Defined.

(** C6. An idle session that receives an Acquire for more cores than the
    requester's allowed set has sends exactly one message, an
    [ActionAcquireResponse] whose [Err] is the text
    "requested N cores, but process only has M available (system has S)",
    not empty, and leaves the loop of [Serve], which closes the
    connection; neither the handling of the action nor the cleanup that
    follows changes the lock: no locker is enqueued. *)
Theorem C6_over_request_rejected
    {Domain : Type} (allowedList : Z -> string * option error) (now : string)
    (Encode : daemon.message -> bool) (allCores : unix.CPUSet)
    (action : daemon.ActionAcquire) (s : daemon.Server Domain) (st : lock.state)
    (avail : unix.CPUSet) :
  daemon.acquiring s = false -> daemon.locker s = None ->
  cpuset_parse.CPUSetOfPid allowedList (daemon.Pid action) = Ok (avail, None) ->
  (lock.uint (unix.CPUSet_Count avail) < daemon.Cores action)%N ->
  let text := over_request (daemon.Cores action) (unix.CPUSet_Count avail)
                (unix.CPUSet_Count allCores) in
  let resp := daemon.MsgAcquireResponse
                (daemon.mkActionAcquireResponse false unix.CPUSet_Zero text) in
  daemon.serveAcquire allowedList now Encode allCores action s st
    = Ok (s, st, [(resp, Encode resp)], daemon.Return) /\
  text <> ""%string /\
  (forall (HW : Type) (SetRange : Domain -> Z -> Z -> HW -> HW * option error) (hw : HW),
     exists s' hw', daemon.drop SetRange s hw st = Ok (s', hw', st)).
Proof.
  intros Hacq Hlock Hcpu Hlt. cbv zeta. split; [|split].
  - unfold daemon.serveAcquire. rewrite Hacq, Hlock, Hcpu. cbn [mbind result_bind].
    apply N.ltb_lt in Hlt. rewrite Hlt. reflexivity.
  - unfold over_request. discriminate.
  - intros HW SetRange hw. unfold daemon.drop.
    destruct (daemon.oldGovernors s); cbn [daemon.locker]; rewrite Hlock; eauto.
Qed.

Lemma C6_witness :
  let allowedList := fun _ : Z => ("0-3"%string, @None error) in
  let action := daemon.mkActionAcquire 4242 8 true false "go test" in
  let s := @daemon.mkServer nat "alice" None false None in
  (cpuset_parse.CPUSetOfPid allowedList 4242 = Ok (cpus0_3, None) /\
   (lock.uint (unix.CPUSet_Count cpus0_3) < 8)%N) /\
  daemon.serveAcquire allowedList "Jan  2 15:04:05" (fun _ => true) all8 action s
    (lock.init all8)
  = Ok (s, lock.init all8,
        [(daemon.MsgAcquireResponse
            (daemon.mkActionAcquireResponse false unix.CPUSet_Zero
               "requested 8 cores, but process only has 4 available (system has 8)"),
          true)],
        daemon.Return).
Proof.
  cbv zeta.
  assert (cpuset_parse.CPUSetOfPid (fun _ : Z => ("0-3"%string, @None error)) 4242
          = Ok (cpus0_3, None)) as H1
    by (vm_compute; reflexivity).
  assert ((lock.uint (unix.CPUSet_Count cpus0_3) < 8)%N) as H2
    by (vm_compute; reflexivity).
  split; [split; [exact H1|exact H2]|].
  exact (proj1 (C6_over_request_rejected (fun _ : Z => ("0-3"%string, @None error))
                  "Jan  2 15:04:05" (fun _ => true) all8
                  (daemon.mkActionAcquire 4242 8 true false "go test")
                  (@daemon.mkServer nat "alice" None false None) (lock.init all8)
                  cpus0_3
                  eq_refl eq_refl H1 H2)).
Defined.

(** * Parse *)
Section parse_theory.

Import unix.

Lemma all_digits_no_char c t :
  strconv.isDigit c = false -> all_digits t = true -> has_char c t = false.
Proof.
  intros Hc. induction t as [|c' t IH]; [reflexivity|].
  cbn [all_digits has_char]. intros H. apply andb_prop in H as [Hd Ht].
  rewrite (IH Ht), orb_false_r.
  destruct (Ascii.eqb_spec c' c) as [->|]; [congruence|reflexivity].
Qed.

(** ** Splitting *)

Lemma append_nil_l (b : string) : ("" +:+ b)%string = b.
Proof. reflexivity. Qed.

Lemma append_cons c (a b : string) : (String c a +:+ b)%string = String c (a +:+ b).
Proof. reflexivity. Qed.

Lemma Split_no_sep c t : has_char c t = false -> strings.Split t c = [t].
Proof.
  induction t as [|c' t IH]; [reflexivity|].
  cbn [has_char strings.Split]. intros H. apply orb_false_elim in H as [Hc Ht].
  rewrite Hc, (IH Ht). reflexivity.
Qed.

Lemma Split_app c a b :
  has_char c a = false ->
  strings.Split (a +:+ String c b) c = a :: strings.Split b c.
Proof.
  induction a as [|c' a IH]; intros H.
  - rewrite append_nil_l. cbn [strings.Split]. rewrite Ascii.eqb_refl. reflexivity.
  - cbn [has_char] in H. apply orb_false_elim in H as [Hc Ha].
    rewrite append_cons. cbn [strings.Split]. rewrite Hc, (IH Ha). reflexivity.
Qed.

Lemma Cut_no_sep c t : has_char c t = false -> strings.Cut t c = None.
Proof.
  induction t as [|c' t IH]; [reflexivity|].
  cbn [has_char strings.Cut]. intros H. apply orb_false_elim in H as [Hc Ht].
  rewrite Hc, (IH Ht). reflexivity.
Qed.

Lemma Cut_app c a b :
  has_char c a = false -> strings.Cut (a +:+ String c b) c = Some (a, b).
Proof.
  induction a as [|c' a IH]; intros H.
  - rewrite append_nil_l. cbn [strings.Cut]. rewrite Ascii.eqb_refl. reflexivity.
  - cbn [has_char] in H. apply orb_false_elim in H as [Hc Ha].
    rewrite append_cons. cbn [strings.Cut]. rewrite Hc, (IH Ha). reflexivity.
Qed.

Lemma has_char_app c a b : has_char c (a +:+ b) = has_char c a || has_char c b.
Proof.
  induction a as [|c' a IH]; [reflexivity|].
  rewrite append_cons. cbn [has_char]. rewrite IH, orb_assoc. reflexivity.
Qed.

Lemma is_uint_digits t : is_uint t = true -> t <> EmptyString /\ all_digits t = true.
Proof.
  unfold is_uint. intros H. apply andb_prop in H as [Hn Hd]. split; [|exact Hd].
  intros ->. discriminate.
Qed.

Lemma render_elem_no_comma e :
  wf_elem e = true -> has_char "," (render_elem e) = false.
Proof.
  destruct e as [t|lo hi]; cbn [wf_elem render_elem]; intros H.
  - apply is_uint_digits in H as [_ H]. apply all_digits_no_char; [reflexivity|exact H].
  - apply andb_prop in H as [H _]. apply andb_prop in H as [Hlo Hhi].
    apply is_uint_digits in Hlo as [_ Hlo]. apply is_uint_digits in Hhi as [_ Hhi].
    rewrite !has_char_app. cbn [has_char].
    rewrite (all_digits_no_char "," lo), (all_digits_no_char "," hi) by auto.
    reflexivity.
Qed.

Lemma Split_render es :
  es <> [] -> forallb wf_elem es = true ->
  strings.Split (render es) "," = map render_elem es.
Proof.
  induction es as [|e es IH]; [contradiction|]. intros _ H.
  cbn [forallb] in H. apply andb_prop in H as [He Hes].
  cbn [render map]. destruct es as [|e' es].
  - apply Split_no_sep, render_elem_no_comma, He.
  - change ("," +:+ render (e' :: es))%string with (String "," (render (e' :: es))).
    rewrite Split_app by (apply render_elem_no_comma, He).
    rewrite IH by (auto; discriminate). reflexivity.
Qed.

Lemma SplitN2_render_elem e :
  wf_elem e = true ->
  strings.SplitN2 (render_elem e) "-" =
  match e with Single t => [t] | Span lo hi => [lo; hi] end.
Proof.
  unfold strings.SplitN2. destruct e as [t|lo hi]; cbn [wf_elem render_elem]; intros H.
  - apply is_uint_digits in H as [_ H].
    rewrite Cut_no_sep; [reflexivity|]. apply all_digits_no_char; [reflexivity|exact H].
  - apply andb_prop in H as [H _]. apply andb_prop in H as [Hlo _].
    apply is_uint_digits in Hlo as [_ Hlo].
    change ("-" +:+ hi)%string with (String "-" hi).
    rewrite Cut_app; [reflexivity|].
    apply all_digits_no_char; [reflexivity|exact Hlo].
Qed.

(** ** Atoi on a string of digits *)

Lemma isDigit_value c :
  strconv.isDigit c = true -> 0 <= Z.of_nat (nat_of_ascii c) - 48 <= 9.
Proof.
  unfold strconv.isDigit. intros H. apply andb_prop in H as [H1 H2].
  apply Nat.leb_le in H1, H2. lia.
Qed.

Lemma value_from_mono t n :
  all_digits t = true -> 0 <= n -> n <= value_from n t.
Proof.
  revert n. induction t as [|c t IH]; intros n Hd Hn; cbn [value_from]; [lia|].
  cbn [all_digits] in Hd. apply andb_prop in Hd as [Hc Ht].
  pose proof (isDigit_value c Hc).
  specialize (IH (n * 10 + (Z.of_nat (nat_of_ascii c) - 48)) Ht). lia.
Qed.

Lemma ParseUint_loop_digits t n :
  all_digits t = true -> 0 <= n -> value_from n t <= strconv.maxUint64 ->
  strconv.ParseUint_loop t n = inl (value_from n t).
Proof.
  revert n. induction t as [|c t IH]; intros n Hd Hn Hmax; [reflexivity|].
  cbn [all_digits] in Hd. apply andb_prop in Hd as [Hc Ht].
  cbn [strconv.ParseUint_loop value_from] in *. rewrite Hc.
  pose proof (isDigit_value c Hc) as Hv.
  pose proof (value_from_mono t (n * 10 + (Z.of_nat (nat_of_ascii c) - 48)) Ht) as Hm.
  change (strconv.maxUint64 `quot` 10 + 1) with 1844674407370955162.
  unfold strconv.maxUint64 in *.
  change (2 ^ 64 - 1) with 18446744073709551615 in *.
  destruct (Z.geb_spec n 1844674407370955162); [lia|].
  destruct (Z.gtb_spec (n * 10 + (Z.of_nat (nat_of_ascii c) - 48)) 18446744073709551615);
    [lia|].
  apply IH; [exact Ht|lia|exact Hmax].
Qed.

Lemma Atoi_uint t :
  is_uint t = true -> value t < 2 ^ 63 -> strconv.Atoi t = (value t, None).
Proof.
  intros Hu Hv. apply is_uint_digits in Hu as [Hne Hd].
  destruct t as [|c0 rest]; [contradiction|].
  assert (strconv.isDigit c0 = true) as Hc0
    by (cbn [all_digits] in Hd; apply andb_prop in Hd as [H _]; exact H).
  unfold strconv.Atoi.
  destruct (Ascii.eqb_spec c0 "-") as [->|_]; [discriminate|].
  destruct (Ascii.eqb_spec c0 "+") as [->|_]; [discriminate|].
  cbn [orb negb andb].
  pose proof (value_from_mono (String c0 rest) 0 Hd ltac:(lia)) as Hm.
  fold (value (String c0 rest)) in Hm.
  rewrite ParseUint_loop_digits; [|exact Hd|lia|].
  - fold (value (String c0 rest)).
    destruct (Z.geb_spec (value (String c0 rest)) (2 ^ 63)); [lia|]. reflexivity.
  - fold (value (String c0 rest)). unfold strconv.maxUint64. lia.
Qed.

(** ** The loop over a range *)

Local Abbreviation in_range := (fun w : Z => 0 <= w < 2 ^ 64).

Lemma Parse_fill_spec fuel e end_ set :
  length set = 16%nat -> 0 <= e -> end_ < strconv.maxInt64 ->
  (Z.to_nat (end_ - e + 1) <= fuel)%nat ->
  exists set', cpuset_parse.Parse_fill fuel e end_ set = Ok set' /\
    length set' = 16%nat /\
    (Forall in_range set -> Forall in_range set') /\
    forall j, bit set' j = bit set j || ((e <=? j) && (j <=? end_) && (j <? 1024)).
Proof.
  intros Hl He Hend. revert e set Hl He.
  induction fuel as [|fuel IH]; intros e set Hl He Hf.
  - cbn [cpuset_parse.Parse_fill]. destruct (Z.leb_spec e end_); [lia|].
    exists set. split; [reflexivity|]. split; [exact Hl|]. split; [auto|].
    intros j. destruct (Z.leb_spec e j), (Z.leb_spec j end_); try lia;
      cbn [andb]; rewrite orb_false_r; reflexivity.
  - cbn [cpuset_parse.Parse_fill]. destruct (Z.leb_spec e end_) as [Hle|Hgt].
    + destruct (CPUSet_Set_spec set e Hl He) as (set1 & -> & Hl1 & Hb1 & Hs1).
      cbn [mbind result_bind]. unfold int_incr.
      destruct (Z.eqb_spec e strconv.maxInt64); [lia|].
      destruct (IH (e + 1) set1 Hl1 ltac:(lia) ltac:(lia))
        as (set' & -> & Hl' & Hb' & Hs').
      exists set'. split; [reflexivity|]. split; [exact Hl'|]. split; [auto|].
      intros j. rewrite Hs', Hs1.
      destruct (decide (j = e)) as [->|Hne].
      * destruct (Z.ltb_spec e 1024).
        -- rewrite bool_decide_eq_true_2 by lia.
           destruct (Z.leb_spec e e); [|lia]. destruct (Z.leb_spec e end_); [|lia].
           cbn [andb]. rewrite !orb_true_r. reflexivity.
        -- rewrite bool_decide_eq_false_2 by lia. rewrite !andb_false_r, !orb_false_r.
           reflexivity.
      * rewrite bool_decide_eq_false_2 by lia. rewrite orb_false_r. f_equal.
        destruct (Z.leb_spec (e + 1) j), (Z.leb_spec e j); try lia; reflexivity.
    + exists set. split; [reflexivity|]. split; [exact Hl|]. split; [auto|].
      intros j. destruct (Z.leb_spec e j), (Z.leb_spec j end_); try lia;
        cbn [andb]; rewrite orb_false_r; reflexivity.
Qed.

(** The iteration budget that [Parse] gives to the loop over a range is
    never used up: the loop ends, or [e++] wraps at the largest [int] and
    [Set] panics on the negative index. *)
Lemma Parse_fill_total fuel e end_ set :
  length set = 16%nat -> 0 <= e -> end_ <= strconv.maxInt64 ->
  (Z.to_nat (end_ - e + 2) <= fuel)%nat ->
  (exists set', cpuset_parse.Parse_fill fuel e end_ set = Ok set') \/
  cpuset_parse.Parse_fill fuel e end_ set = Abort IndexOutOfRange.
Proof.
  intros Hl He Hend. revert e set Hl He.
  induction fuel as [|fuel IH]; intros e set Hl He Hf.
  - cbn [cpuset_parse.Parse_fill]. destruct (Z.leb_spec e end_); [lia|]. left. eauto.
  - cbn [cpuset_parse.Parse_fill]. destruct (Z.leb_spec e end_) as [Hle|Hgt]; [|left; eauto].
    destruct (CPUSet_Set_spec set e Hl He) as (set1 & -> & Hl1 & _).
    cbn [mbind result_bind]. unfold int_incr.
    destruct (Z.eqb_spec e strconv.maxInt64) as [->|Hne].
    + right. destruct fuel as [|fuel]; [lia|].
      cbn [cpuset_parse.Parse_fill].
      destruct (Z.leb_spec strconv.minInt64 end_) as [_|Hlt];
        [|unfold strconv.minInt64, strconv.maxInt64 in *; lia].
      reflexivity.
    + apply IH; [exact Hl1|lia|lia].
Qed.

Lemma value_nonneg t : all_digits t = true -> 0 <= value t.
Proof. intros H. apply (value_from_mono t 0 H). lia. Qed.

(** ** The loop over the elements *)

Lemma Parse_ranges_spec es set :
  forallb wf_elem es = true -> forallb fits_int es = true -> wf_set set ->
  exists set', cpuset_parse.Parse_ranges (map render_elem es) set = Ok (set', None) /\
    wf_set set' /\
    forall i, bit set' i = true <->
              bit set i = true \/ (0 <= i < 1024 /\ Exists (covers i) es).
Proof.
  revert set. induction es as [|e es IH]; intros set Hwf Hfit [Hl Hb].
  - exists set. split; [reflexivity|]. split; [split; assumption|].
    intros i. rewrite Exists_nil. tauto.
  - cbn [forallb] in Hwf, Hfit. apply andb_prop in Hwf as [He Hes].
    apply andb_prop in Hfit as [Hfe Hfes].
    cbn [map cpuset_parse.Parse_ranges]. rewrite (SplitN2_render_elem e He).
    destruct e as [t|lo hi]; cbn [wf_elem fits_int] in He, Hfe.
    + apply Z.ltb_lt in Hfe. rewrite (Atoi_uint t He Hfe).
      pose proof (is_uint_digits t He) as [_ Hd]. pose proof (value_nonneg t Hd) as H0.
      destruct (CPUSet_Set_spec set (value t) Hl H0) as (set1 & -> & Hl1 & Hb1 & Hs1).
      cbn [mbind result_bind].
      destruct (IH set1 Hes Hfes (conj Hl1 (Hb1 Hb))) as (set' & -> & Hwf' & Hs').
      exists set'. split; [reflexivity|]. split; [exact Hwf'|].
      intros i. rewrite Hs', Hs1, Exists_cons, orb_true_iff, bool_decide_eq_true.
      cbn [covers]. intuition lia.
    + apply andb_prop in He as [He Hle]. apply andb_prop in He as [Hlo Hhi].
      apply Z.leb_le in Hle. apply Z.ltb_lt in Hfe.
      rewrite (Atoi_uint lo Hlo) by lia. rewrite (Atoi_uint hi Hhi) by lia.
      destruct (Z.gtb_spec (value lo) (value hi)); [lia|].
      pose proof (is_uint_digits lo Hlo) as [_ Hd]. pose proof (value_nonneg lo Hd) as H0.
      destruct (Parse_fill_spec (Z.to_nat (value hi - value lo + 2)) (value lo) (value hi)
                  set Hl H0) as (set1 & -> & Hl1 & Hb1 & Hs1);
        [unfold strconv.maxInt64; lia|lia|].
      cbn [mbind result_bind].
      destruct (IH set1 Hes Hfes (conj Hl1 (Hb1 Hb))) as (set' & -> & Hwf' & Hs').
      exists set'. split; [reflexivity|]. split; [exact Hwf'|].
      intros i. rewrite Hs', Hs1, Exists_cons, orb_true_iff, !andb_true_iff.
      rewrite !Z.leb_le, Z.ltb_lt. cbn [covers]. intuition lia.
Qed.

Lemma render_nonempty es :
  es <> [] -> forallb wf_elem es = true -> String.eqb (render es) "" = false.
Proof.
  destruct es as [|e es]; [contradiction|]. intros _ H.
  cbn [forallb] in H. apply andb_prop in H as [He _].
  assert (exists c r, render_elem e = String c r) as (c & r & Er).
  { destruct e as [t|lo hi]; cbn [wf_elem render_elem] in *.
    - apply is_uint_digits in He as [Hne _]. destruct t; [contradiction|eauto].
    - apply andb_prop in He as [He _]. apply andb_prop in He as [Hlo _].
      apply is_uint_digits in Hlo as [Hne _]. destruct lo; [contradiction|].
      rewrite append_cons. eauto. }
  cbn [render]. destruct es; rewrite Er; [reflexivity|].
  rewrite append_cons. reflexivity.
Qed.

End parse_theory.

(** C7 (as the code has it). For every input that is well-formed under
    the CPU-list grammar and whose integers fit an [int] (a single integer
    below 2^63, the end of a range below 2^63 - 1), [Parse] returns no
    error, also when an integer is beyond the capacity of the bitmap: the
    set it returns holds exactly the mentioned integers below 1024, and
    the integers from 1024 on are silently dropped. *)
Theorem C7_Parse_drops_out_of_range (es : list element) :
  es <> [] -> forallb wf_elem es = true -> forallb fits_int es = true ->
  exists set,
    cpuset_parse.Parse (render es) = Ok (set, None) /\ wf_set set /\
    forall i, bit set i = true <-> 0 <= i < 1024 /\ Exists (covers i) es.
Proof.
  intros Hne Hwf Hfit. unfold cpuset_parse.Parse.
  rewrite (render_nonempty es Hne Hwf), (Split_render es Hne Hwf).
  destruct (Parse_ranges_spec es unix.CPUSet_Zero Hwf Hfit wf_set_Zero)
    as (set & -> & Hset & Hbits).
  exists set. split; [reflexivity|]. split; [exact Hset|].
  intros i. rewrite Hbits, bit_Zero. split; [intros [H|H]; [discriminate|exact H]|auto].
Qed.

Lemma C7_witness :
  let es := [Span "0" "3"; Single "64"; Single "1024"; Span "1020" "1030"] in
  (es <> [] /\ forallb wf_elem es = true /\ forallb fits_int es = true) /\
  render es = "0-3,64,1024,1020-1030"%string /\
  exists set, cpuset_parse.Parse "0-3,64,1024,1020-1030" = Ok (set, None) /\
              (bit set 1023 = true /\ bit set 1024 = false).
Proof.
  cbv zeta. split; [split; [discriminate|split; reflexivity]|]. split; [reflexivity|].
  destruct (C7_Parse_drops_out_of_range
              [Span "0" "3"; Single "64"; Single "1024"; Span "1020" "1030"]
              ltac:(discriminate) eq_refl eq_refl) as (set & HP & _ & Hb).
  exists set. split; [exact HP|]. split.
  - apply Hb. split; [lia|]. right. right. right. left.
    unfold covers. split; vm_compute; discriminate.
  - destruct (bit set 1024) eqn:E; [|reflexivity]. apply Hb in E as [E _]. lia.
Defined.

(** C7 as stated fails: ["1024"] is well-formed and names a CPU beyond
    the 1024 bits of the bitmap, and [Parse] returns the empty set with a
    [nil] error. *)
Lemma C7_counterexample_1024_is_dropped :
  wf_elem (Single "1024") = true /\
  value "1024" >= unix.cpuSetSize * unix._NCPUBITS /\
  cpuset_parse.Parse (render [Single "1024"]) = Ok (unix.CPUSet_Zero, None).
Proof. split; [reflexivity|]. split; [vm_compute; discriminate|reflexivity]. Qed.

(** * Further properties of the code *)

(** * The set operations of internal/cpuset *)

Section set_algebra.

Import unix.

Lemma length_filter_or_and {A} (P Q : A -> bool) (l : list A) :
  (length (filter (fun x => P x || Q x = true) l)
   + length (filter (fun x => P x && Q x = true) l)
   = length (filter (fun x => P x = true) l) + length (filter (fun x => Q x = true) l))%nat.
Proof.
  induction l as [|a l IH]; [reflexivity|].
  rewrite !filter_cons.
  destruct (P a) eqn:EP, (Q a) eqn:EQ; simpl;
    repeat (destruct (decide _) as [?|?]; try congruence; try (exfalso; auto; fail));
    simpl; lia.
Qed.

Lemma members_Union a b :
  length a = length b ->
  members (cpuset.Union a b) = filter (fun i => bit a i || bit b i = true) (seqZ 0 1024).
Proof.
  intros Hl. unfold members. apply filter_ext_elem. intros i _.
  rewrite bit_Union by exact Hl. reflexivity.
Qed.

Lemma members_Intersect a b :
  length a = length b ->
  members (cpuset.Intersect a b) = filter (fun i => bit a i && bit b i = true) (seqZ 0 1024).
Proof.
  intros Hl. unfold members. apply filter_ext_elem. intros i _.
  rewrite bit_Intersect by exact Hl. reflexivity.
Qed.

Lemma length_zip_with_16 (f : Z -> Z -> Z) (a b : list Z) :
  length a = 16%nat -> length b = 16%nat -> length (zip_with f a b) = 16%nat.
Proof. intros Ha Hb. rewrite length_zip_with, Ha, Hb. reflexivity. Qed.

End set_algebra.

(** X1. Membership in the result of [Intersect], [Union] and [Difference] is
    the conjunction, the disjunction and the and-not of the memberships in
    the arguments, as [IsSet] reports them, for every CPU index from 0 on. *)
Theorem X1_set_operations_membership (a b : unix.CPUSet) (i : Z) :
  length a = 16%nat -> length b = 16%nat -> 0 <= i ->
  exists x y,
    unix.CPUSet_IsSet a i = Ok x /\ unix.CPUSet_IsSet b i = Ok y /\
    unix.CPUSet_IsSet (cpuset.Intersect a b) i = Ok (x && y) /\
    unix.CPUSet_IsSet (cpuset.Union a b) i = Ok (x || y) /\
    unix.CPUSet_IsSet (cpuset.Difference a b) i = Ok (x && negb y).
Proof.
  intros Ha Hb Hi. exists (bit a i), (bit b i).
  assert (length a = length b) as Hab by congruence.
  rewrite !CPUSet_IsSet_bit by (try apply length_zip_with_16; assumption).
  rewrite bit_Intersect, bit_Union, bit_Difference by exact Hab.
  repeat split; reflexivity.
Qed.

Lemma X1_set_operations_membership_witness :
  (length all8 = 16%nat /\ length cpus0_3 = 16%nat /\ 0 <= 5) /\
  unix.CPUSet_IsSet (cpuset.Difference all8 cpus0_3) 5 = Ok true.
Proof.
  split; [split; [reflexivity|split; [reflexivity|lia]]|].
  destruct (X1_set_operations_membership all8 cpus0_3 5) as (x & y & Hx & Hy & _ & _ & Hd);
    [reflexivity|reflexivity|lia|].
  vm_compute in Hx, Hy. injection Hx as <-. injection Hy as <-. exact Hd.
Defined.

(** X2. Counting: the union and the intersection of two sets together
    have as many CPUs as the two sets together. *)
Theorem X2_Count_union_intersection (a b : unix.CPUSet) :
  length a = 16%nat -> length b = 16%nat ->
  unix.CPUSet_Count (cpuset.Union a b) + unix.CPUSet_Count (cpuset.Intersect a b)
  = unix.CPUSet_Count a + unix.CPUSet_Count b.
Proof.
  intros Ha Hb.
  assert (length a = length b) as Hab by congruence.
  rewrite !CPUSet_Count_members by (try apply length_zip_with_16; assumption).
  rewrite members_Union, members_Intersect by exact Hab.
  unfold members.
  pose proof (length_filter_or_and (bit a) (bit b) (seqZ 0 1024)) as H.
  lia.
Qed.

Lemma X2_Count_union_intersection_witness :
  (length all8 = 16%nat /\ length cpus0_3 = 16%nat) /\
  unix.CPUSet_Count (cpuset.Union all8 cpus0_3) + unix.CPUSet_Count (cpuset.Intersect all8 cpus0_3)
  = 8 + 4.
Proof.
  split; [split; reflexivity|].
  rewrite (X2_Count_union_intersection all8 cpus0_3) by reflexivity.
  reflexivity.
Defined.

(** X3. [Difference a b] and [b] have no CPU in common, [Difference a b]
    and [Intersect a b] together are [a] again, and [Union] and
    [Intersect] do not depend on the order of their arguments. *)
Theorem X3_Difference_partitions (a b : unix.CPUSet) :
  wf_set a -> wf_set b ->
  cpuset.Intersect (cpuset.Difference a b) b = unix.CPUSet_Zero /\
  cpuset.Union (cpuset.Difference a b) (cpuset.Intersect a b) = a /\
  unix.CPUSet_Count (cpuset.Difference a b) + unix.CPUSet_Count (cpuset.Intersect a b)
    = unix.CPUSet_Count a /\
  cpuset.Union a b = cpuset.Union b a /\
  cpuset.Intersect a b = cpuset.Intersect b a.
Proof.
  intros Wa Wb.
  assert (length a = 16%nat) as Ha by apply Wa.
  assert (length b = 16%nat) as Hb by apply Wb.
  assert (length a = length b) as Hab by congruence.
  assert (wf_set (cpuset.Difference a b)) as Wd by (apply wf_set_Difference; assumption).
  assert (wf_set (cpuset.Intersect a b)) as Wi by (apply wf_set_Intersect; assumption).
  assert (length (cpuset.Difference a b) = 16%nat) as Hd by apply Wd.
  assert (length (cpuset.Intersect a b) = 16%nat) as Hi by apply Wi.
  assert (cpuset.Intersect (cpuset.Difference a b) b = unix.CPUSet_Zero) as E1.
  { apply bit_ext; [apply wf_set_Intersect; assumption|apply wf_set_Zero|].
    intros i. rewrite bit_Intersect, bit_Difference, bit_Zero by congruence.
    destruct (bit a i), (bit b i); reflexivity. }
  assert (cpuset.Union (cpuset.Difference a b) (cpuset.Intersect a b) = a) as E2.
  { apply bit_ext; [apply wf_set_Union; assumption|assumption|].
    intros i. rewrite bit_Union, bit_Difference, bit_Intersect by congruence.
    destruct (bit a i), (bit b i); reflexivity. }
  split; [exact E1|]. split; [exact E2|]. split.
  - assert (unix.CPUSet_Count (cpuset.Union (cpuset.Difference a b) (cpuset.Intersect a b))
            + unix.CPUSet_Count (cpuset.Intersect (cpuset.Difference a b) (cpuset.Intersect a b))
            = unix.CPUSet_Count (cpuset.Difference a b) + unix.CPUSet_Count (cpuset.Intersect a b))
      as Hc.
    { rewrite !CPUSet_Count_members by (try apply length_zip_with_16; assumption).
      rewrite members_Union, members_Intersect by congruence.
      unfold members.
      pose proof (length_filter_or_and (bit (cpuset.Difference a b))
                    (bit (cpuset.Intersect a b)) (seqZ 0 1024)) as H.
      lia. }
    assert (cpuset.Intersect (cpuset.Difference a b) (cpuset.Intersect a b) = unix.CPUSet_Zero)
      as E3.
    { apply bit_ext; [apply wf_set_Intersect; assumption|apply wf_set_Zero|].
      intros i. rewrite !bit_Intersect, bit_Difference, bit_Zero by congruence.
      destruct (bit a i), (bit b i); reflexivity. }
    rewrite E2, E3 in Hc. change (unix.CPUSet_Count unix.CPUSet_Zero) with 0 in Hc. lia.
  - split.
    + apply bit_ext; [apply wf_set_Union; assumption|apply wf_set_Union; assumption|].
      intros i. rewrite !bit_Union by congruence. apply orb_comm.
    + apply bit_ext; [apply wf_set_Intersect; assumption|apply wf_set_Intersect; assumption|].
      intros i. rewrite !bit_Intersect by congruence. apply andb_comm.
Qed.

Lemma X3_Difference_partitions_witness :
  (wf_set all8 /\ wf_set cpus0_3) /\
  cpuset.Union (cpuset.Difference all8 cpus0_3) (cpuset.Intersect all8 cpus0_3) = all8.
Proof.
  assert (wf_set all8) as W1 by (apply wf_setb_true; reflexivity).
  assert (wf_set cpus0_3) as W2 by (apply wf_setb_true; reflexivity).
  split; [split; assumption|].
  apply (X3_Difference_partitions all8 cpus0_3 W1 W2).
Defined.

(** * [Parse] on arbitrary input *)

Section parse_more.

Import unix.

Lemma all_digits_has_char c t :
  all_digits t = true -> has_char c t = true -> strconv.isDigit c = true.
Proof.
  induction t as [|c' t IH]; cbn [all_digits has_char]; [discriminate|].
  intros Hd Hc. apply andb_prop in Hd as [Hc' Hd].
  apply orb_prop in Hc as [Hc|Hc]; [|auto].
  apply Ascii.eqb_eq in Hc as <-. exact Hc'.
Qed.

Lemma ParseUint_loop_inl t n un :
  strconv.ParseUint_loop t n = inl un -> 0 <= n ->
  all_digits t = true /\ un = value_from n t /\ n <= un.
Proof.
  revert n. induction t as [|c t IH]; intros n H Hn.
  - cbn in H. injection H as <-. cbn. split; [reflexivity|]. split; [reflexivity|lia].
  - cbn [strconv.ParseUint_loop] in H.
    destruct (strconv.isDigit c) eqn:Ec; [|discriminate].
    pose proof (isDigit_value c Ec) as Hd.
    destruct (n >=? strconv.maxUint64 `quot` 10 + 1); [discriminate|].
    destruct (n * 10 + (Z.of_nat (nat_of_ascii c) - 48) >? strconv.maxUint64); [discriminate|].
    apply IH in H as (Ha & -> & Hle); [|lia].
    cbn [all_digits value_from]. rewrite Ec, Ha. split; [reflexivity|].
    split; [reflexivity|lia].
Qed.

Lemma Atoi_ok b v :
  strconv.Atoi b = (v, None) ->
  b <> EmptyString /\
  (forall c, has_char c b = true -> strconv.isDigit c = true \/ c = "+"%char \/ c = "-"%char) /\
  strconv.minInt64 <= v <= strconv.maxInt64 /\
  (has_char "-" b = false -> 0 <= v).
Proof.
  unfold strconv.Atoi. destruct b as [|c0 rest]; [discriminate|].
  intros H. split; [discriminate|].
  destruct (Ascii.eqb_spec c0 "-") as [->|Hm].
  - cbn [orb] in H. rewrite orb_true_r in H.
    destruct rest as [|c1 rest]; [discriminate|].
    destruct (strconv.ParseUint_loop (String c1 rest) 0) as [un|[|]] eqn:EP; try discriminate.
    apply ParseUint_loop_inl in EP as (Hd & -> & Hle); [|lia].
    cbn [negb andb] in H.
    destruct (value_from 0 (String c1 rest) >? 2 ^ 63) eqn:Eg; [discriminate|].
    injection H as <-. rewrite Z.gtb_ltb in Eg. apply Z.ltb_ge in Eg.
    split.
    { intros c Hc. cbn [has_char] in Hc. apply orb_prop in Hc as [Hc|Hc].
      - apply Ascii.eqb_eq in Hc. auto.
      - left. exact (all_digits_has_char c _ Hd Hc). }
    split; [cbn [value_from] in *; unfold strconv.minInt64, strconv.maxInt64; lia|].
    cbn [has_char]. discriminate.
  - destruct (Ascii.eqb_spec c0 "+") as [->|Hp].
    + cbn [orb] in H.
      destruct rest as [|c1 rest]; [discriminate|].
      destruct (strconv.ParseUint_loop (String c1 rest) 0) as [un|[|]] eqn:EP; try discriminate.
      apply ParseUint_loop_inl in EP as (Hd & -> & Hle); [|lia].
      cbn [negb andb] in H.
      destruct (value_from 0 (String c1 rest) >=? 2 ^ 63) eqn:Eg; [discriminate|].
      injection H as <-.
      assert (value_from 0 (String c1 rest) < 2 ^ 63) as Hlt.
      { rewrite Z.geb_leb in Eg. apply Z.leb_gt in Eg. exact Eg. }
      split.
      { intros c Hc. cbn [has_char] in Hc. apply orb_prop in Hc as [Hc|Hc].
        - apply Ascii.eqb_eq in Hc. auto.
        - left. exact (all_digits_has_char c _ Hd Hc). }
      split; [cbn [value_from] in *; unfold strconv.minInt64, strconv.maxInt64; lia|].
      intros _. cbn [value_from] in *. lia.
    + cbn [orb] in H.
      destruct (strconv.ParseUint_loop (String c0 rest) 0) as [un|[|]] eqn:EP; try discriminate.
      apply ParseUint_loop_inl in EP as (Hd & -> & Hle); [|lia].
      cbn [negb andb] in H.
      destruct (value_from 0 (String c0 rest) >=? 2 ^ 63) eqn:Eg; [discriminate|].
      injection H as <-.
      assert (value_from 0 (String c0 rest) < 2 ^ 63) as Hlt.
      { rewrite Z.geb_leb in Eg. apply Z.leb_gt in Eg. exact Eg. }
      split.
      { intros c Hc. left. exact (all_digits_has_char c _ Hd Hc). }
      split; [cbn [value_from] in *; unfold strconv.minInt64, strconv.maxInt64; lia|].
      intros _. cbn [value_from] in *. lia.
Qed.

Lemma Cut_Some s sep a b :
  strings.Cut s sep = Some (a, b) ->
  s = (a +:+ String sep b)%string /\ has_char sep a = false.
Proof.
  revert a. induction s as [|c s IH]; intros a; cbn [strings.Cut]; [discriminate|].
  destruct (Ascii.eqb_spec c sep) as [->|Hne].
  - intros H. injection H as <- <-. rewrite append_nil_l. split; reflexivity.
  - destruct (strings.Cut s sep) as [[a' b']|]; [|discriminate].
    intros H. injection H as <- <-.
    destruct (IH a' eq_refl) as [-> Ha].
    rewrite append_cons. split; [reflexivity|].
    cbn [has_char]. rewrite Ha, orb_false_r. apply Ascii.eqb_neq. exact Hne.
Qed.

Lemma Cut_None s sep : strings.Cut s sep = None -> has_char sep s = false.
Proof.
  induction s as [|c s IH]; cbn [strings.Cut has_char]; [reflexivity|].
  destruct (Ascii.eqb_spec c sep) as [->|Hne]; [discriminate|].
  destruct (strings.Cut s sep) as [[a' b']|]; [discriminate|].
  intros _. rewrite IH by reflexivity. reflexivity.
Qed.

Lemma Split_nonempty s sep : strings.Split s sep <> [].
Proof.
  destruct s as [|c s]; cbn [strings.Split]; [discriminate|].
  destruct (Ascii.eqb c sep); [discriminate|].
  destruct (strings.Split s sep); discriminate.
Qed.

Lemma Split_chars c sep s :
  has_char c s = true -> c <> sep ->
  Exists (fun r => has_char c r = true) (strings.Split s sep).
Proof.
  intros Hc Hne. induction s as [|c' s IH]; [discriminate|].
  cbn [has_char] in Hc. cbn [strings.Split].
  destruct (Ascii.eqb_spec c' sep) as [->|Hs].
  - apply orb_prop in Hc as [Hc|Hc].
    + apply Ascii.eqb_eq in Hc. congruence.
    + apply Exists_cons_tl. auto.
  - pose proof (Split_nonempty s sep) as Hn.
    destruct (strings.Split s sep) as [|p ps]; [contradiction|].
    apply orb_prop in Hc as [Hc|Hc].
    + apply Exists_cons_hd. cbn [has_char]. rewrite Hc. reflexivity.
    + apply IH in Hc. apply Exists_cons in Hc as [Hc|Hc].
      * apply Exists_cons_hd. cbn [has_char]. rewrite Hc. apply orb_true_r.
      * apply Exists_cons_tl. exact Hc.
Qed.

(** ** Pieces joined by commas *)

Lemma Join_cons2 p p' ps sep :
  main.Join (p :: p' :: ps) sep = (p +:+ sep +:+ main.Join (p' :: ps) sep)%string.
Proof. reflexivity. Qed.

Lemma Split_Join ps :
  ps <> [] -> Forall (fun r => has_char "," r = false) ps ->
  strings.Split (main.Join ps ",") "," = ps.
Proof.
  induction ps as [|p ps IH]; [contradiction|]. intros _ H.
  apply Forall_cons in H as [Hp Hps].
  destruct ps as [|p' ps].
  - cbn [main.Join]. apply Split_no_sep. exact Hp.
  - rewrite Join_cons2, append_cons, append_nil_l.
    rewrite Split_app by exact Hp. f_equal. apply IH; [discriminate|exact Hps].
Qed.

Lemma render_Join es : render es = main.Join (map render_elem es) ",".
Proof.
  induction es as [|e es IH]; [reflexivity|].
  destruct es as [|e' es]; [reflexivity|].
  cbn [render] in *. rewrite IH. reflexivity.
Qed.

(** ** The loop over the pieces *)

Lemma Parse_ranges_app rs1 rs2 set set' :
  cpuset_parse.Parse_ranges rs1 set = Ok (set', None) ->
  cpuset_parse.Parse_ranges (rs1 ++ rs2) set = cpuset_parse.Parse_ranges rs2 set'.
Proof.
  revert set. induction rs1 as [|r rs1 IH]; intros set H.
  - cbn in H. injection H as <-. reflexivity.
  - cbn [app cpuset_parse.Parse_ranges] in *.
    destruct (strings.SplitN2 r "-") as [|b0 [|b1 [|b2 bs]]].
    + auto.
    + destruct (strconv.Atoi b0) as [elem [e|]]; [discriminate|].
      destruct (CPUSet_Set set elem) as [set1|a]; [|discriminate].
      cbn [mbind result_bind] in *. auto.
    + destruct (strconv.Atoi b0) as [start [e|]]; [discriminate|].
      destruct (strconv.Atoi b1) as [end_ [e|]]; [discriminate|].
      destruct (start >? end_); [discriminate|].
      destruct (cpuset_parse.Parse_fill _ start end_ set) as [set1|a]; [|discriminate].
      cbn [mbind result_bind] in *. auto.
    + auto.
Qed.

Lemma Parse_ranges_reject r set0 s0 e rest set :
  cpuset_parse.Parse_ranges [r] set0 = Ok (s0, Some e) ->
  cpuset_parse.Parse_ranges (r :: rest) set = Ok (set, Some e).
Proof.
  cbn [cpuset_parse.Parse_ranges].
  destruct (strings.SplitN2 r "-") as [|b0 [|b1 [|b2 bs]]]; try discriminate.
  - destruct (strconv.Atoi b0) as [elem [e'|]].
    + intros H. injection H as _ <-. reflexivity.
    + destruct (CPUSet_Set set0 elem); discriminate.
  - destruct (strconv.Atoi b0) as [start [e'|]].
    + intros H. injection H as _ <-. reflexivity.
    + destruct (strconv.Atoi b1) as [end_ [e'|]].
      * intros H. injection H as _ <-. reflexivity.
      * destruct (start >? end_).
        -- intros H. injection H as _ <-. reflexivity.
        -- destruct (cpuset_parse.Parse_fill _ start end_ set0); discriminate.
Qed.

Lemma Parse_fill_wraps fuel e set :
  length set = 16%nat -> 0 <= e <= strconv.maxInt64 ->
  (Z.to_nat (strconv.maxInt64 - e + 2) <= fuel)%nat ->
  cpuset_parse.Parse_fill fuel e strconv.maxInt64 set = Abort IndexOutOfRange.
Proof.
  revert e set. induction fuel as [|fuel IH]; intros e set Hl He Hf; [lia|].
  cbn [cpuset_parse.Parse_fill]. destruct (Z.leb_spec e strconv.maxInt64) as [_|]; [|lia].
  destruct (CPUSet_Set_spec set e Hl ltac:(lia)) as (set1 & -> & Hl1 & _).
  cbn [mbind result_bind]. unfold int_incr.
  destruct (Z.eqb_spec e strconv.maxInt64) as [->|Hne].
  - destruct fuel as [|fuel]; [lia|]. reflexivity.
  - apply IH; [exact Hl1|lia|lia].
Qed.

Lemma Parse_ranges_total rs set :
  length set = 16%nat ->
  (exists set' err, cpuset_parse.Parse_ranges rs set = Ok (set', err)) \/
  (cpuset_parse.Parse_ranges rs set = Abort IndexOutOfRange /\ Exists ends_at_maxInt rs).
Proof.
  revert set. induction rs as [|r rs IH]; intros set Hl; [left; cbn; eauto|].
  assert (forall set1, length set1 = 16%nat ->
            (exists set' err, cpuset_parse.Parse_ranges rs set1 = Ok (set', err)) \/
            (cpuset_parse.Parse_ranges rs set1 = Abort IndexOutOfRange /\
             Exists ends_at_maxInt (r :: rs))) as IH'.
  { intros set1 Hl1. destruct (IH set1 Hl1) as [H|[H1 H2]]; [left; exact H|right].
    split; [exact H1|apply Exists_cons_tl; exact H2]. }
  cbn [cpuset_parse.Parse_ranges]. unfold strings.SplitN2.
  destruct (strings.Cut r "-") as [[b0 b1]|] eqn:EC.
  - apply Cut_Some in EC as EC'. destruct EC' as [_ Hno].
    destruct (strconv.Atoi b0) as [start [e|]] eqn:E0; [left; eauto|].
    destruct (strconv.Atoi b1) as [end_ [e|]] eqn:E1; [left; eauto|].
    destruct (Z.gtb_spec start end_) as [|Hle]; [left; eauto|].
    apply Atoi_ok in E0 as (_ & _ & _ & H0). specialize (H0 Hno).
    pose proof (Atoi_ok _ _ E1) as (_ & _ & [_ Hmax] & _).
    destruct (decide (end_ = strconv.maxInt64)) as [->|Hne].
    + right. rewrite Parse_fill_wraps; [|exact Hl|lia|lia].
      split; [reflexivity|]. apply Exists_cons_hd. exists b0, b1.
      unfold strings.SplitN2. rewrite EC. split; [reflexivity|exact E1].
    + destruct (Parse_fill_spec (Z.to_nat (end_ - start + 2)) start end_ set Hl H0)
        as (set1 & -> & Hl1 & _); [lia|lia|].
      cbn [mbind result_bind]. apply IH'. exact Hl1.
  - apply Cut_None in EC.
    destruct (strconv.Atoi r) as [elem [e|]] eqn:E0; [left; eauto|].
    apply Atoi_ok in E0 as (_ & _ & _ & H0). specialize (H0 EC).
    destruct (CPUSet_Set_spec set elem Hl H0) as (set1 & -> & Hl1 & _).
    cbn [mbind result_bind]. apply IH'. exact Hl1.
Qed.

Lemma Parse_ranges_wf rs set set' err :
  wf_set set -> cpuset_parse.Parse_ranges rs set = Ok (set', err) -> wf_set set'.
Proof.
  revert set. induction rs as [|r rs IH]; intros set W H.
  { cbn in H. injection H as <- _. exact W. }
  cbn [cpuset_parse.Parse_ranges] in H. unfold strings.SplitN2 in H.
  destruct W as [Hl Hb].
  destruct (strings.Cut r "-") as [[b0 b1]|] eqn:EC.
  - apply Cut_Some in EC as EC'. destruct EC' as [_ Hno].
    destruct (strconv.Atoi b0) as [start [e|]] eqn:E0;
      [injection H as <- _; split; assumption|].
    destruct (strconv.Atoi b1) as [end_ [e|]] eqn:E1;
      [injection H as <- _; split; assumption|].
    destruct (Z.gtb_spec start end_) as [|Hle]; [injection H as <- _; split; assumption|].
    apply Atoi_ok in E0 as (_ & _ & _ & H0). specialize (H0 Hno).
    pose proof (Atoi_ok _ _ E1) as (_ & _ & [_ Hmax] & _).
    destruct (decide (end_ = strconv.maxInt64)) as [->|Hne].
    + rewrite Parse_fill_wraps in H; [discriminate|exact Hl|lia|lia].
    + destruct (Parse_fill_spec (Z.to_nat (end_ - start + 2)) start end_ set Hl H0)
        as (set1 & E & Hl1 & Hb1 & _); [lia|lia|].
      rewrite E in H. cbn [mbind result_bind] in H.
      apply (IH set1); [split; auto|exact H].
  - apply Cut_None in EC.
    destruct (strconv.Atoi r) as [elem [e|]] eqn:E0;
      [injection H as <- _; split; assumption|].
    apply Atoi_ok in E0 as (_ & _ & _ & H0). specialize (H0 EC).
    destruct (CPUSet_Set_spec set elem Hl H0) as (set1 & E & Hl1 & Hb1 & _).
    rewrite E in H. cbn [mbind result_bind] in H.
    apply (IH set1); [split; auto|exact H].
Qed.

(** Whatever the input, the set that [Parse] returns is an array of
    sixteen 64-bit words. *)
Lemma Parse_wf s set err : cpuset_parse.Parse s = Ok (set, err) -> wf_set set.
Proof.
  unfold cpuset_parse.Parse. destruct (String.eqb s "").
  - intros [= <- _]. apply wf_set_Zero.
  - apply Parse_ranges_wf, wf_set_Zero.
Qed.

Lemma CPUSetOfPid_wf allowedList pid set err :
  cpuset_parse.CPUSetOfPid allowedList pid = Ok (set, err) -> wf_set set.
Proof.
  unfold cpuset_parse.CPUSetOfPid. destruct (allowedList pid) as [list [e|]].
  - intros [= <- _]. apply wf_set_Zero.
  - apply Parse_wf.
Qed.

Lemma Parse_ranges_ok rs set set' :
  cpuset_parse.Parse_ranges rs set = Ok (set', None) -> Forall piece_ok rs.
Proof.
  revert set. induction rs as [|r rs IH]; intros set H; [constructor|].
  cbn [cpuset_parse.Parse_ranges] in H. unfold strings.SplitN2 in H.
  destruct (strings.Cut r "-") as [[b0 b1]|] eqn:EC.
  - apply Cut_Some in EC as [-> Hno].
    destruct (strconv.Atoi b0) as [start [e|]] eqn:E0; [discriminate|].
    destruct (strconv.Atoi b1) as [end_ [e|]] eqn:E1; [discriminate|].
    destruct (start >? end_); [discriminate|].
    destruct (cpuset_parse.Parse_fill _ start end_ set) as [set1|a]; [|discriminate].
    cbn [mbind result_bind] in H. apply IH in H. constructor; [|exact H].
    apply Atoi_ok in E0 as (_ & C0 & _). apply Atoi_ok in E1 as (_ & C1 & _).
    split.
    + destruct b0; [rewrite append_nil_l|rewrite append_cons]; discriminate.
    + intros c Hc. rewrite has_char_app in Hc. cbn [has_char] in Hc.
      apply orb_prop in Hc as [Hc|Hc]; [auto|].
      apply orb_prop in Hc as [Hc|Hc]; [|auto].
      apply Ascii.eqb_eq in Hc. auto.
  - destruct (strconv.Atoi r) as [elem [e|]] eqn:E0; [discriminate|].
    destruct (CPUSet_Set set elem) as [set1|a]; [|discriminate].
    cbn [mbind result_bind] in H. apply IH in H. constructor; [|exact H].
    apply Atoi_ok in E0 as (Hne & C0 & _). split; assumption.
Qed.

Lemma eqb_empty_false s : s <> EmptyString -> String.eqb s "" = false.
Proof. destruct s; [contradiction|reflexivity]. Qed.

Lemma no_comma_map_render es :
  forallb wf_elem es = true ->
  Forall (fun r => has_char "," r = false) (map render_elem es).
Proof.
  induction es as [|e es IH]; cbn [forallb map]; [constructor|].
  intros H. apply andb_prop in H as [He Hes].
  constructor; [apply render_elem_no_comma; exact He|auto].
Qed.

End parse_more.

(** X4. [Parse] depends only on which CPUs below 1024 the list mentions:
    two well-formed lists whose integers fit an [int] (singles below
    2^63, range ends below 2^63 - 1) and that mention the same ones give
    the same set, whatever the order and however often a CPU is named. *)
Theorem X4_Parse_order_and_repetition (es es' : list element) :
  es <> [] -> forallb wf_elem es = true -> forallb fits_int es = true ->
  es' <> [] -> forallb wf_elem es' = true -> forallb fits_int es' = true ->
  (forall i, 0 <= i < 1024 -> (Exists (covers i) es <-> Exists (covers i) es')) ->
  cpuset_parse.Parse (render es) = cpuset_parse.Parse (render es').
Proof.
  intros Hne Hwf Hfit Hne' Hwf' Hfit' Hsame.
  unfold cpuset_parse.Parse.
  rewrite !render_nonempty, !Split_render by assumption.
  destruct (Parse_ranges_spec es unix.CPUSet_Zero Hwf Hfit wf_set_Zero) as (s1 & -> & W1 & B1).
  destruct (Parse_ranges_spec es' unix.CPUSet_Zero Hwf' Hfit' wf_set_Zero) as (s2 & -> & W2 & B2).
  f_equal. f_equal. apply bit_ext; [exact W1|exact W2|].
  intros i. apply eq_true_iff_eq. rewrite B1, B2, bit_Zero.
  specialize (Hsame i). intuition.
Qed.

Lemma X4_Parse_order_and_repetition_witness :
  cpuset_parse.Parse "0-3,64,2" = cpuset_parse.Parse "64,3,0-2,64".
Proof.
  apply (X4_Parse_order_and_repetition
           [Span "0" "3"; Single "64"; Single "2"]
           [Single "64"; Single "3"; Span "0" "2"; Single "64"]);
    try discriminate; try reflexivity.
  intros i Hi. rewrite !Exists_cons, !Exists_nil. cbn [covers].
  change (value "0") with 0. change (value "3") with 3. change (value "64") with 64.
  change (value "2") with 2. lia.
Defined.

(** X5. [Parse] stops at the first element that it refuses and returns
    that element's error together with the set built from the elements
    before it (well-formed, their integers fitting an [int]), not the
    empty set. An empty element (as after a trailing comma) is refused
    with the syntax error of [Atoi]. *)
Theorem X5_Parse_first_refused_element
    (es : list element) (r : string) (others : list string) (e : error) :
  forallb wf_elem es = true -> forallb fits_int es = true ->
  has_char "," r = false -> Forall (fun o => has_char "," o = false) others ->
  (r = EmptyString /\ e = NumError "Atoi" "" ErrSyntax /\ (es <> [] \/ others <> [])) \/
  (r <> EmptyString /\ exists s0, cpuset_parse.Parse r = Ok (s0, Some e)) ->
  exists set,
    cpuset_parse.Parse (main.Join (map render_elem es ++ r :: others) ",") = Ok (set, Some e) /\
    wf_set set /\
    forall i, bit set i = true <-> 0 <= i < 1024 /\ Exists (covers i) es.
Proof.
  intros Hwf Hfit Hr Ho Hrej.
  assert (cpuset_parse.Parse_ranges [r] unix.CPUSet_Zero = Ok (unix.CPUSet_Zero, Some e) \/
          exists s0, cpuset_parse.Parse_ranges [r] unix.CPUSet_Zero = Ok (s0, Some e)) as Hone.
  { destruct Hrej as [(-> & -> & _)|(Hne & s0 & Hp)].
    - left. reflexivity.
    - right. exists s0. unfold cpuset_parse.Parse in Hp.
      rewrite eqb_empty_false, Split_no_sep in Hp by assumption. exact Hp. }
  assert (exists s0, cpuset_parse.Parse_ranges [r] unix.CPUSet_Zero = Ok (s0, Some e))
    as (s0 & Hs0) by (destruct Hone; eauto).
  assert (main.Join (map render_elem es ++ r :: others) "," <> EmptyString) as Hnonempty.
  { destruct Hrej as [(-> & _ & Hsome)|(Hne & _)].
    - destruct es as [|e1 es].
      + destruct Hsome as [?|Hsome]; [contradiction|].
        destruct others as [|o os]; [contradiction|].
        cbn [map app]. rewrite Join_cons2, append_nil_l, append_cons. discriminate.
      + cbn [forallb] in Hwf. apply andb_prop in Hwf as [He1 _].
        assert (render_elem e1 <> EmptyString) as Hne1.
        { intros E. pose proof (render_nonempty [e1] ltac:(discriminate)) as Hn.
          cbn [forallb render] in Hn. rewrite He1, E in Hn. specialize (Hn eq_refl).
          discriminate. }
        cbn [map app].
        destruct (map render_elem es ++ EmptyString :: others) as [|x xs] eqn:Ex.
        { destruct (map render_elem es); discriminate. }
        rewrite Join_cons2. destruct (render_elem e1); [contradiction|].
        rewrite append_cons. discriminate.
    - destruct es as [|e1 es].
      + cbn [map app]. destruct others as [|o os]; [exact Hne|].
        rewrite Join_cons2. destruct r; [contradiction|]. rewrite append_cons. discriminate.
      + cbn [forallb] in Hwf. apply andb_prop in Hwf as [He1 _].
        assert (render_elem e1 <> EmptyString) as Hne1.
        { intros E. pose proof (render_nonempty [e1] ltac:(discriminate)) as Hn.
          cbn [forallb render] in Hn. rewrite He1, E in Hn. specialize (Hn eq_refl).
          discriminate. }
        cbn [map app].
        destruct (map render_elem es ++ r :: others) as [|x xs] eqn:Ex.
        { destruct (map render_elem es); discriminate. }
        rewrite Join_cons2. destruct (render_elem e1); [contradiction|].
        rewrite append_cons. discriminate. }
  unfold cpuset_parse.Parse. rewrite eqb_empty_false by exact Hnonempty.
  rewrite Split_Join.
  2:{ destruct (map render_elem es); discriminate. }
  2:{ apply Forall_app. split; [apply no_comma_map_render; exact Hwf|].
      constructor; assumption. }
  destruct (Parse_ranges_spec es unix.CPUSet_Zero Hwf Hfit wf_set_Zero) as (s1 & H1 & W1 & B1).
  rewrite (Parse_ranges_app _ _ _ _ H1).
  rewrite (Parse_ranges_reject r _ _ e others s1 Hs0).
  exists s1. split; [reflexivity|]. split; [exact W1|].
  intros i. rewrite B1, bit_Zero. intuition discriminate.
Qed.

Lemma X5_Parse_first_refused_element_witness :
  exists set,
    cpuset_parse.Parse "0-3,7-5,9" = Ok (set, Some (invalidRange "7-5" 7 5)) /\
    bit set 3 = true /\ bit set 9 = false.
Proof.
  destruct (X5_Parse_first_refused_element [Span "0" "3"] "7-5" ["9"%string]
              (invalidRange "7-5" 7 5)) as (set & HP & _ & Hb).
  - reflexivity.
  - reflexivity.
  - reflexivity.
  - repeat constructor.
  - right. split; [discriminate|]. exists unix.CPUSet_Zero. reflexivity.
  - exists set. split; [exact HP|]. split.
    + apply Hb. split; [lia|]. apply Exists_cons_hd.
      unfold covers. split; vm_compute; discriminate.
    + destruct (bit set 9) eqn:E; [|reflexivity].
      apply Hb in E as [_ E]. apply Exists_cons in E as [E|E].
      * unfold covers in E. destruct E as [_ E]. vm_compute in E.
        exfalso. apply E. reflexivity.
      * apply Exists_nil in E. contradiction.
Defined.

(** X6. What [Parse] accepts: when it returns without an error, the input
    is not empty, no element between the commas is empty (no leading,
    trailing or doubled comma), and every byte is a decimal digit, a
    sign or a comma; white space is never accepted. *)
Theorem X6_Parse_accepted_bytes (s : string) (set : unix.CPUSet) :
  cpuset_parse.Parse s = Ok (set, None) ->
  s <> EmptyString /\
  Forall (fun r => r <> EmptyString) (strings.Split s ",") /\
  forall c, has_char c s = true -> list_byte c = true.
Proof.
  unfold cpuset_parse.Parse. destruct (String.eqb_spec s "") as [->|Hne]; [discriminate|].
  intros H. apply Parse_ranges_ok in H.
  split; [exact Hne|]. split.
  - eapply Forall_impl; [exact H|]. intros r [Hr _]. exact Hr.
  - intros c Hc. unfold list_byte.
    destruct (Ascii.eqb_spec c ",") as [->|Hcomma]; [apply orb_true_r|].
    rewrite orb_false_r.
    apply (Split_chars c ","%char) in Hc; [|exact Hcomma].
    apply Exists_exists in Hc as (r & Hin & Hcr).
    rewrite Forall_forall in H. destruct (H r Hin) as [_ Hall].
    destruct (Hall c Hcr) as [Hd|[->| ->]].
    + rewrite Hd. reflexivity.
    + rewrite orb_true_r. reflexivity.
    + apply orb_true_r.
Qed.

Lemma X6_Parse_accepted_bytes_witness :
  cpuset_parse.Parse "0-3,64" = Ok ([15; 1; 0; 0; 0; 0; 0; 0; 0; 0; 0; 0; 0; 0; 0; 0], None) /\
  Forall (fun r => r <> EmptyString) (strings.Split "0-3,64" ",").
Proof.
  assert (cpuset_parse.Parse "0-3,64"
          = Ok ([15; 1; 0; 0; 0; 0; 0; 0; 0; 0; 0; 0; 0; 0; 0; 0], None)) as H
    by (vm_compute; reflexivity).
  split; [exact H|].
  exact (proj1 (proj2 (X6_Parse_accepted_bytes "0-3,64" _ H))).
Defined.

(** X7. [Parse] returns for every input, with one exception: a range whose
    upper bound is the largest [int] makes the loop counter wrap, and
    [Set] panics on the negative index. No other panic is possible, and
    the loop over a range always ends. *)
Theorem X7_Parse_returns_or_wraps (s : string) :
  (exists set err, cpuset_parse.Parse s = Ok (set, err)) \/
  (cpuset_parse.Parse s = Abort IndexOutOfRange /\
   Exists ends_at_maxInt (strings.Split s ",")).
Proof.
  unfold cpuset_parse.Parse. destruct (String.eqb s ""); [left; eauto|].
  apply Parse_ranges_total. reflexivity.
Qed.

(** X8. A range that ends at the largest [int], 9223372036854775807, does
    make [Parse] panic, whatever well-formed elements with integers
    fitting an [int] stand before it and whatever follows. *)
Theorem X8_Parse_range_to_maxInt_panics
    (es : list element) (lo : string) (others : list string) :
  forallb wf_elem es = true -> forallb fits_int es = true ->
  is_uint lo = true -> value lo < 2 ^ 63 ->
  Forall (fun o => has_char "," o = false) others ->
  cpuset_parse.Parse
    (main.Join (map render_elem es ++ (lo +:+ "-9223372036854775807")%string :: others) ",")
  = Abort IndexOutOfRange.
Proof.
  intros Hwf Hfit Hlo Hv Ho.
  set (r := (lo +:+ "-9223372036854775807")%string).
  assert (wf_elem (Span lo "9223372036854775807") = true) as Hspan.
  { cbn [wf_elem]. rewrite Hlo. cbn [andb].
    change (value "9223372036854775807") with 9223372036854775807.
    apply andb_true_intro. split; [reflexivity|]. apply Z.leb_le. lia. }
  assert (has_char "," r = false) as Hr
    by exact (render_elem_no_comma (Span lo "9223372036854775807") Hspan).
  assert (exists c t, r = String c t) as (c & t & Er).
  { pose proof (is_uint_digits lo Hlo) as [Hne _]. destruct lo as [|c lo]; [contradiction|].
    unfold r. rewrite append_cons. eauto. }
  unfold cpuset_parse.Parse. rewrite eqb_empty_false.
  2:{ destruct es as [|e1 es].
      - cbn [map app]. destruct others; [rewrite Er; discriminate|].
        rewrite Join_cons2, Er, append_cons. discriminate.
      - cbn [forallb] in Hwf. apply andb_prop in Hwf as [He1 _].
        assert (render_elem e1 <> EmptyString) as Hne1.
        { intros E. pose proof (render_nonempty [e1] ltac:(discriminate)) as Hn.
          cbn [forallb render] in Hn. rewrite He1, E in Hn. specialize (Hn eq_refl).
          discriminate. }
        cbn [map app].
        destruct (map render_elem es ++ r :: others) as [|x xs] eqn:Ex.
        { destruct (map render_elem es); discriminate. }
        rewrite Join_cons2. destruct (render_elem e1); [contradiction|].
        rewrite append_cons. discriminate. }
  rewrite Split_Join.
  2:{ destruct (map render_elem es); discriminate. }
  2:{ apply Forall_app. split; [apply no_comma_map_render; exact Hwf|].
      constructor; assumption. }
  destruct (Parse_ranges_spec es unix.CPUSet_Zero Hwf Hfit wf_set_Zero) as (s1 & H1 & W1 & _).
  rewrite (Parse_ranges_app _ _ _ _ H1).
  cbn [cpuset_parse.Parse_ranges].
  change r with (render_elem (Span lo "9223372036854775807")).
  rewrite (SplitN2_render_elem _ Hspan).
  rewrite (Atoi_uint lo Hlo Hv).
  rewrite (Atoi_uint "9223372036854775807") by reflexivity.
  change (value "9223372036854775807") with strconv.maxInt64.
  pose proof (is_uint_digits lo Hlo) as [_ Hd]. pose proof (value_nonneg lo Hd) as H0.
  destruct (Z.gtb_spec (value lo) strconv.maxInt64) as [Hgt|_];
    [unfold strconv.maxInt64 in Hgt; lia|].
  rewrite Parse_fill_wraps; [reflexivity|apply W1| |lia].
  unfold strconv.maxInt64. lia.
Qed.

Lemma X8_Parse_range_to_maxInt_panics_witness :
  cpuset_parse.Parse "0-3,9223372036854775806-9223372036854775807,5" = Abort IndexOutOfRange.
Proof.
  apply (X8_Parse_range_to_maxInt_panics [Span "0" "3"] "9223372036854775806" ["5"%string]).
  - reflexivity.
  - reflexivity.
  - reflexivity.
  - vm_compute. reflexivity.
  - repeat constructor.
Defined.

(** * The lock in a run of the daemon *)

Section running_theory.

Import unix lock.

Lemma reachable_running all st : reachable all st -> running all st.
Proof.
  induction 1 as [|st sh nb want set msg st' r Hr IH Hset HE|st p st' Hr IH HD].
  - constructor.
  - eapply run_Enqueue; eauto.
  - eapply run_Dequeue; eauto.
Qed.

Lemma recv_shape p v st st' :
  recv p st = Some (v, st') ->
  exists l rest, heap st !! p = Some l /\ ch l = v :: rest /\
    st' = mkState (<[p := set_ch rest l]> (heap st)) (q st) (cores st).
Proof.
  unfold recv. destruct (heap st !! p) as [l|] eqn:Hl; [|discriminate].
  destruct (ch l) as [|v' rest] eqn:Hc; [discriminate|].
  intros H. injection H as <- <-. exists l, rest. auto.
Qed.

Lemma recv_flags p v st st' :
  Forall wf_locker (heap st) ->
  recv p st = Some (v, st') ->
  q st' = q st /\ cores st' = cores st /\ length (heap st') = length (heap st) /\
  wokenb st p = true /\
  (forall p', wokenb st' p' = wokenb st p' /\ sharedb st' p' = sharedb st p' /\
              want_of st' p' = want_of st p' /\ assigned_of st' p' = assigned_of st p' /\
              msg_of st' p' = msg_of st p') /\
  (forall p', p' <> p -> heap st' !! p' = heap st !! p').
Proof.
  intros Hwf H. apply recv_shape in H as (l & rest & Hl & Hc & ->).
  cbn [q cores heap]. split; [reflexivity|]. split; [reflexivity|].
  split; [apply length_insert|].
  assert (woken l = true) as Hw.
  { pose proof (Forall_lookup_1 _ _ _ _ Hwf Hl) as (_ & _ & Hun & _).
    destruct (woken l); [reflexivity|]. destruct (Hun eq_refl) as [_ E].
    rewrite E in Hc. discriminate. }
  split; [unfold wokenb; rewrite Hl; exact Hw|]. split.
  - intros p'. unfold wokenb, sharedb, want_of, assigned_of, msg_of. cbn [heap].
    destruct (decide (p' = p)) as [->|Hne].
    + rewrite list_lookup_insert_eq by (eapply lookup_lt_Some; eauto). rewrite Hl.
      cbn. auto.
    + rewrite list_lookup_insert_ne by congruence. auto.
  - intros p' Hne. apply list_lookup_insert_ne. congruence.
Qed.

(** The shape of the queue depends on the flags of its entries only. *)
Lemma Settled_flags st st' ws us :
  q st' = q st -> cores st' = cores st ->
  (forall p, wokenb st' p = wokenb st p /\ sharedb st' p = sharedb st p /\
             want_of st' p = want_of st p) ->
  Settled st ws us -> Settled st' ws us.
Proof.
  intros Hq Hc Hf [[Hsplit Hwk Hun Hex Hsh] Hhead Hstop].
  assert (forall p, wokenb st' p = wokenb st p) as Fw by (intros p; apply Hf).
  assert (forall p, sharedb st' p = sharedb st p) as Fs by (intros p; apply Hf).
  assert (forall p, want_of st' p = want_of st p) as Fn by (intros p; apply Hf).
  constructor; [constructor| |].
  - congruence.
  - eapply Forall_impl; [exact Hwk|]. intros p Hp. cbn. rewrite Fw. exact Hp.
  - eapply Forall_impl; [exact Hun|]. intros p Hp. cbn. rewrite Fw. exact Hp.
  - intros h ws0 E Hs. rewrite Fs in Hs. eauto.
  - intros h ws0 E Hs. rewrite Fs in Hs.
    eapply Forall_impl; [exact (Hsh h ws0 E Hs)|]. intros p Hp. cbn. rewrite Fs. exact Hp.
  - exact Hhead.
  - intros h ws0 u us0 E Hs Eu. rewrite Fs in Hs.
    pose proof (Hstop h ws0 u us0 E Hs Eu) as Hst.
    unfold stop_entry in *. rewrite Fs, Fw, Fn, Hc. exact Hst.
Qed.

Lemma recv_Inv all p v st st' :
  Inv all st -> recv p st = Some (v, st') -> Inv all st'.
Proof.
  intros HI H.
  destruct (recv_flags p v st st' (inv_heap _ _ HI) H) as (Hq & Hc & Hlen & _ & Hf & _).
  assert (forall p', assigned_of st' p' = assigned_of st p') as Fa by (intros p'; apply Hf).
  apply recv_shape in H as (l & rest & Hl & Hch & E).
  destruct HI as [Hcw Hnd Hheap Hvalid Hfa Has Hdis Hcov].
  constructor.
  - rewrite Hc. exact Hcw.
  - rewrite Hq. exact Hnd.
  - subst st'. cbn [heap]. apply Forall_insert; [exact Hheap|].
    pose proof (Forall_lookup_1 _ _ _ _ Hheap Hl) as (W1 & W2 & Hun & W4).
    unfold wf_locker. cbn [set_ch availCores assignedCores woken wantCores ch].
    split; [exact W1|]. split; [exact W2|]. split; [|exact W4].
    intros Hw. destruct (Hun Hw) as [_ E]. rewrite E in Hch. discriminate.
  - intros p'. rewrite Hq, Hlen. apply Hvalid.
  - intros i. rewrite Hc. apply Hfa.
  - intros p' i. rewrite Hq, Hc, Fa. apply Has.
  - intros p1 p2 i. rewrite Hq, !Fa. apply Hdis.
  - intros i Hi. rewrite Hc. destruct (Hcov i Hi) as [H|(p' & Hp' & Hb)]; [left; exact H|].
    right. exists p'. rewrite Hq, Fa. auto.
Qed.

(** The accounting and the shape hold in every state of a run. *)
Lemma running_Inv all st :
  wf_set all -> running all st -> Inv all st /\ exists ws us, Settled st ws us.
Proof.
  intros Hall Hr.
  induction Hr as [|st sh nb want set msg st' r Hr IH Hset HE|st p st' Hr IH HD
                   |st p v st' Hr IH HR].
  - apply reachable_Inv; [exact Hall|constructor].
  - destruct IH as (HI & ws & us & HS). eapply Enqueue_step; eauto.
  - destruct IH as (HI & ws & us & HS). eapply Dequeue_step; eauto.
  - destruct IH as (HI & ws & us & HS). split; [eapply recv_Inv; eauto|].
    exists ws, us.
    destruct (recv_flags p v st st' (inv_heap _ _ HI) HR) as (Hq & Hc & _ & _ & Hf & _).
    apply (Settled_flags st); [exact Hq|exact Hc| |exact HS].
    intros p'. destruct (Hf p') as (A & B & C & _). auto.
Qed.

(** ** What a wake pass is made of *)

Lemma setQ_wakes q0 st st' :
  setQ q0 st = Ok st' ->
  exists ps, (forall p, p ∈ ps -> p ∈ q0) /\ wake_all ps (set_q q0 st) = Ok st'.
Proof.
  rewrite setQ_unfold. destruct q0 as [|p0 q0].
  - intros H. injection H as <-. exists []. split; [|reflexivity].
    intros p Hp. exact Hp.
  - destruct (deref (set_q (p0 :: q0) st) p0) as [hd|]; [|discriminate].
    cbn [mbind result_bind]. destruct (shared hd).
    + intros H. destruct (setQ_loop_spec _ _ _ _ H) as (qs1 & qs2 & Hq & Hall & _).
      exists qs1. split; [|exact Hall]. intros p Hp. rewrite Hq. apply elem_of_app. auto.
    + intros H. exists [p0]. split.
      * intros p Hp. apply list_elem_of_singleton in Hp as ->. left.
      * cbn [wake_all]. rewrite H. reflexivity.
Qed.

Lemma wake_all_preserves (Phi : state -> Prop) all ps st st' :
  (forall st p st', Inv all st -> p ∈ q st -> Phi st -> wake p st = Ok st' -> Phi st') ->
  Inv all st -> (forall p, p ∈ ps -> p ∈ q st) -> Phi st ->
  wake_all ps st = Ok st' -> Phi st'.
Proof.
  intros Hwake. revert st. induction ps as [|p ps IH]; intros st HI Hin HP H.
  - injection H as <-. exact HP.
  - cbn [wake_all] in H. destruct (wake p st) as [st1|] eqn:Hw; [|discriminate].
    cbn [mbind result_bind] in H.
    assert (p ∈ q st) as Hp by (apply Hin; left).
    destruct (wake_frame _ _ _ Hw) as (Hq & _).
    apply (IH st1); [eapply wake_Inv; eauto| |eapply Hwake; eauto|exact H].
    intros p' Hp'. rewrite Hq. apply Hin. right. exact Hp'.
Qed.

Lemma setQ_preserves (Phi : state -> Prop) all q0 st st' :
  (forall st p st', Inv all st -> p ∈ q st -> Phi st -> wake p st = Ok st' -> Phi st') ->
  Inv all (set_q q0 st) -> Phi (set_q q0 st) -> setQ q0 st = Ok st' -> Phi st'.
Proof.
  intros Hwake HI HP H. destruct (setQ_wakes _ _ _ H) as (ps & Hps & Hall).
  eapply wake_all_preserves; eauto.
Qed.

(** A property of the lockers that allocation and the wake of a locker
    keep holds throughout a run. *)
Lemma running_heap (P : Locker -> Prop) all st :
  wf_set all ->
  (forall sh want set msg, wf_set set -> P (newLocker sh want set msg)) ->
  (forall st p st', Inv all st -> p ∈ q st -> Forall P (heap st) ->
                    wake p st = Ok st' -> Forall P (heap st')) ->
  (forall l v rest, wf_locker l -> P l -> ch l = v :: rest -> P (set_ch rest l)) ->
  running all st -> Forall P (heap st).
Proof.
  intros Hall Hnew Hwake Hrecv Hr.
  induction Hr as [|st sh nb want set msg st' r Hr IH Hset HE|st p st' Hr IH HD
                   |st p v st' Hr IH HR].
  - constructor.
  - destruct (running_Inv all st Hall Hr) as (HI & ws & us & HS).
    rewrite Enqueue_unfold in HE.
    set (pn := length (heap st)) in *. set (new := newLocker sh want set msg) in *.
    destruct (setQ (q st ++ [pn]) (alloc new st)) as [st1|] eqn:H1; [|discriminate].
    cbn [mbind result_bind] in HE.
    assert (Inv all (set_q (q st ++ [pn]) (alloc new st))) as HI0
      by (apply Inv_enqueue; [exact HI|apply wf_newLocker; exact Hset|reflexivity]).
    pose proof (Cohort_enqueue all st ws us new HI (set_cohort _ _ _ HS) eq_refl) as HC0.
    pose proof (setQ_Inv _ _ _ _ HI0 H1) as HI1.
    destruct (setQ_settles _ _ _ _ _ _ HI0 HC0 H1) as (Hq1 & ws1 & us1 & HS1).
    assert (Forall P (heap st1)) as HP1.
    { apply (setQ_preserves (fun s => Forall P (heap s)) all _ _ _ Hwake HI0); [|exact H1].
      cbn [set_q alloc heap]. apply Forall_app. split; [exact IH|].
      constructor; [apply Hnew; exact Hset|constructor]. }
    destruct (deref st1 pn) as [l|] eqn:Hd; [|discriminate].
    apply deref_Ok in Hd. cbn [mbind result_bind] in HE.
    destruct (nb && negb (woken l)) eqn:Hnb.
    + apply andb_prop in Hnb as [_ Hnb]. apply negb_true_iff in Hnb.
      rewrite Hq1, length_app in HE. cbn [length] in HE.
      replace (length (q st) + 1 - 1)%nat with (length (q st)) in HE by lia.
      rewrite take_app_length in HE.
      destruct (setQ (q st) st1) as [st2|] eqn:H2; [|discriminate].
      cbn [mbind result_bind] in HE. injection HE as <- <-.
      assert (wokenb st1 pn = false) as Hpn by (unfold wokenb; rewrite Hd; exact Hnb).
      destruct (Inv_Cohort_retract all st1 (q st) pn ws1 us1 HI1 HS1 Hq1 Hpn)
        as (HI2 & _).
      apply (setQ_preserves (fun s => Forall P (heap s)) all _ _ _ Hwake HI2); [|exact H2].
      exact HP1.
    + injection HE as <- <-. exact HP1.
  - destruct (running_Inv all st Hall Hr) as (HI & ws & us & HS).
    destruct (Dequeue_pass _ _ _ HD) as (i & Hi & _ & Hpass).
    pose proof (Inv_dequeue all st p i HI Hi) as HI0.
    apply (setQ_preserves (fun s => Forall P (heap s)) all _ _ _ Hwake) in Hpass;
      [exact Hpass|exact HI0|exact IH].
  - destruct (running_Inv all st Hall Hr) as (HI & _).
    apply recv_shape in HR as (l & rest & Hl & Hch & ->). cbn [heap].
    apply Forall_insert; [exact IH|].
    apply (Hrecv l v rest).
    + exact (Forall_lookup_1 _ _ _ _ (inv_heap _ _ HI) Hl).
    + exact (Forall_lookup_1 _ _ _ _ IH Hl).
    + exact Hch.
Qed.


(** ** What the lockers hold, and their channels *)

Lemma wake_holds_ok all st p st' :
  Inv all st -> p ∈ q st -> Forall holds_ok (heap st) ->
  wake p st = Ok st' -> Forall holds_ok (heap st').
Proof.
  intros HI Hp HP Hw.
  pose proof (wake_Inv _ _ _ _ HI Hp Hw) as HI'.
  destruct (wake_shape _ _ _ Hw) as (l & Hl & [[_ ->]|(Hun & asg & free & E)]); [exact HP|].
  destruct (wake_assigns_lowest all st p l st' HI Hp Hl Hun Hw) as (Em & Hlen & _).
  assert (p < length (heap st))%nat as Hlt by (eapply lookup_lt_Some; eauto).
  subst st'. rewrite assigned_of_insert_eq in Em by exact Hlt. cbn [assignedCores] in Em.
  cbn [heap]. apply Forall_insert; [exact HP|].
  pose proof (inv_heap _ _ HI') as Hwf. cbn [heap] in Hwf.
  assert (wf_locker (mkLocker (ch l ++ [true]) (wantCores l) (availCores l) asg
                       (shared l) true (msg l))) as Hwl.
  { eapply Forall_lookup_1; [exact Hwf|]. apply list_lookup_insert_eq. exact Hlt. }
  destruct Hwl as (_ & [Hla _] & _). cbn [assignedCores] in Hla.
  intros _. cbn [assignedCores wantCores availCores]. split.
  - rewrite uint_Count by exact Hla. rewrite Em. exact Hlen.
  - intros i Hi. apply elem_of_members in Hi. rewrite Em in Hi.
    apply elem_of_taken_by in Hi; [tauto|].
    pose proof (Forall_lookup_1 _ _ _ _ (inv_heap _ _ HI) Hl) as ([Hal _] & _).
    destruct (inv_cores_wf _ _ HI) as [Hcl _]. congruence.
Qed.

Lemma wake_chan_ok all st p st' :
  Inv all st -> p ∈ q st -> Forall chan_ok (heap st) ->
  wake p st = Ok st' -> Forall chan_ok (heap st').
Proof.
  intros HI Hp HP Hw.
  destruct (wake_shape _ _ _ Hw) as (l & Hl & [[_ ->]|(Hun & asg & free & ->)]); [exact HP|].
  cbn [heap]. apply Forall_insert; [exact HP|].
  pose proof (Forall_lookup_1 _ _ _ _ (inv_heap _ _ HI) Hl) as (_ & _ & Hu & _).
  destruct (Hu Hun) as [_ Hch]. right. cbn [ch woken]. rewrite Hch. auto.
Qed.

Lemma running_holds_ok all st :
  wf_set all -> running all st -> Forall holds_ok (heap st).
Proof.
  intros Hall. apply running_heap; [exact Hall| | |].
  - intros sh want set msg _. unfold holds_ok, newLocker. cbn [woken]. discriminate.
  - intros st0 p st' HI Hp HP Hw. eapply wake_holds_ok; eauto.
  - intros l v rest _ Hl _. exact Hl.
Qed.

Lemma running_chan_ok all st :
  wf_set all -> running all st -> Forall chan_ok (heap st).
Proof.
  intros Hall. apply running_heap; [exact Hall| | |].
  - intros sh want set msg _. left. reflexivity.
  - intros st0 p st' HI Hp HP Hw. eapply wake_chan_ok; eauto.
  - intros l v rest _ [Hl|[Hl Hw]] Hch; rewrite Hl in Hch; [discriminate|].
    injection Hch as _ <-. left. reflexivity.
Qed.

(** ** The lock operations return or fail an assertion *)

Lemma wake_total all st p :
  Inv all st -> p ∈ q st ->
  (exists st', wake p st = Ok st') \/ (exists f, wake p st = Abort (AssertFailed f)).
Proof.
  intros HI Hp.
  destruct (lookup_lt_is_Some_2 _ _ (inv_valid _ _ HI p Hp)) as [l Hl].
  pose proof (Forall_lookup_1 _ _ _ _ (inv_heap _ _ HI) Hl) as ([Hal _] & [Hsl _] & Hun & _).
  destruct (inv_cores_wf _ _ HI) as [Hcl _].
  unfold wake. rewrite (deref_Some _ _ _ Hl). cbn [mbind result_bind].
  destruct (woken l) eqn:Hw; [left; eauto|].
  destruct (takeCores_total p st l Hl Hcl Hal Hsl) as [[st1 H1]|[f H1]];
    rewrite H1; cbn [mbind result_bind]; [|right; eauto].
  destruct (Hun eq_refl) as [_ Hch].
  destruct (takeCores_shape _ _ _ _ Hl H1) as [->|(asg & free & ->)].
  - rewrite (deref_Some _ _ _ Hl). cbn [mbind result_bind].
    unfold send, deref. cbn [store heap].
    rewrite list_lookup_insert_eq by (eapply lookup_lt_Some; eauto).
    cbn [mbind result_bind set_woken ch]. rewrite Hch. left. eauto.
  - unfold deref. cbn [set_cores store heap].
    rewrite list_lookup_insert_eq by (eapply lookup_lt_Some; eauto).
    cbn [mbind result_bind]. unfold send, deref. cbn [store set_cores heap].
    rewrite list_lookup_insert_eq
      by (rewrite length_insert; eapply lookup_lt_Some; eauto).
    cbn [mbind result_bind set_woken set_assignedCores ch]. rewrite Hch. left. eauto.
Qed.

Lemma setQ_loop_total all qs i st :
  Inv all st -> (forall p, p ∈ qs -> p ∈ q st) ->
  (exists st', setQ_loop i qs st = Ok st') \/
  (exists f, setQ_loop i qs st = Abort (AssertFailed f)).
Proof.
  revert i st. induction qs as [|p qs IH]; intros i st HI Hin; [left; cbn; eauto|].
  assert (p ∈ q st) as Hp by (apply Hin; left).
  destruct (lookup_lt_is_Some_2 _ _ (inv_valid _ _ HI p Hp)) as [l Hl].
  cbn [setQ_loop]. rewrite (deref_Some _ _ _ Hl). cbn [mbind result_bind].
  destruct (negb (shared l)); [left; eauto|].
  destruct (negb (i =? 0)%nat && negb (woken l) && negb (wantCores l =? 0)%N
            && (uint (CPUSet_Count (cores st)) <? wantCores l)%N); [left; eauto|].
  destruct (wake_total all st p HI Hp) as [[st1 H1]|[f H1]];
    rewrite H1; cbn [mbind result_bind]; [|right; eauto].
  destruct (wake_frame _ _ _ H1) as (Hq & _).
  apply IH; [eapply wake_Inv; eauto|].
  intros p' Hp'. rewrite Hq. apply Hin. right. exact Hp'.
Qed.

Lemma setQ_total all q0 st :
  Inv all (set_q q0 st) ->
  (exists st', setQ q0 st = Ok st') \/ (exists f, setQ q0 st = Abort (AssertFailed f)).
Proof.
  intros HI. rewrite setQ_unfold. destruct q0 as [|p0 q0]; [left; eauto|].
  assert (p0 ∈ q (set_q (p0 :: q0) st)) as Hp by (cbn [set_q q]; left).
  destruct (lookup_lt_is_Some_2 _ _ (inv_valid _ _ HI p0 Hp)) as [l Hl].
  rewrite (deref_Some _ _ _ Hl). cbn [mbind result_bind].
  destruct (shared l).
  - apply (setQ_loop_total all); [exact HI|]. intros p H. exact H.
  - apply (wake_total all); assumption.
Qed.

Lemma Enqueue_total all st sh nb want set msg ws us :
  Inv all st -> Settled st ws us -> wf_set set ->
  (exists st' r, Enqueue sh nb want set msg st = Ok (st', r)) \/
  (exists f, Enqueue sh nb want set msg st = Abort (AssertFailed f)).
Proof.
  intros HI HS Hset. rewrite Enqueue_unfold.
  set (pn := length (heap st)). set (new := newLocker sh want set msg).
  assert (Inv all (set_q (q st ++ [pn]) (alloc new st))) as HI0
    by (apply Inv_enqueue; [exact HI|apply wf_newLocker; exact Hset|reflexivity]).
  pose proof (Cohort_enqueue all st ws us new HI (set_cohort _ _ _ HS) eq_refl) as HC0.
  destruct (setQ_total all _ _ HI0) as [[st1 H1]|[f H1]];
    rewrite H1; cbn [mbind result_bind]; [|right; eauto].
  pose proof (setQ_Inv _ _ _ _ HI0 H1) as HI1.
  destruct (setQ_settles _ _ _ _ _ _ HI0 HC0 H1) as (Hq1 & ws1 & us1 & HS1).
  assert (pn ∈ q st1) as Hpn by (rewrite Hq1; apply elem_of_app; right; left).
  destruct (lookup_lt_is_Some_2 _ _ (inv_valid _ _ HI1 pn Hpn)) as [l Hl].
  rewrite (deref_Some _ _ _ Hl). cbn [mbind result_bind].
  destruct (nb && negb (woken l)) eqn:Hnb; [|left; eauto].
  apply andb_prop in Hnb as [_ Hnb]. apply negb_true_iff in Hnb.
  rewrite Hq1, length_app. cbn [length].
  replace (length (q st) + 1 - 1)%nat with (length (q st)) by lia.
  rewrite take_app_length.
  assert (wokenb st1 pn = false) as Hw by (unfold wokenb; rewrite Hl; exact Hnb).
  destruct (Inv_Cohort_retract all st1 (q st) pn ws1 us1 HI1 HS1 Hq1 Hw) as (HI2 & _).
  destruct (setQ_total all _ _ HI2) as [[st2 H2]|[f H2]];
    rewrite H2; cbn [mbind result_bind]; [left|right]; eauto.
Qed.

Lemma Dequeue_total all st p :
  Inv all st -> p ∈ q st ->
  (exists st', Dequeue p st = Ok st') \/ (exists f, Dequeue p st = Abort (AssertFailed f)).
Proof.
  intros HI Hp. rewrite Dequeue_unfold.
  destruct (index_of_elem p (q st) Hp) as [i Hi]. rewrite Hi.
  apply index_of_Some in Hi.
  destruct (lookup_lt_is_Some_2 _ _ (inv_valid _ _ HI p Hp)) as [l Hl].
  rewrite (deref_Some _ _ _ Hl). cbn [mbind result_bind].
  rewrite copy_truncate by (eapply lookup_lt_Some; eauto).
  rewrite setQ_set_q. apply (setQ_total all).
  pose proof (Inv_dequeue all st p i HI Hi) as HI0.
  unfold assigned_of in HI0. rewrite Hl in HI0. exact HI0.
Qed.

(** ** What a wake pass leaves as it is *)

Lemma wake_msg p st st' :
  wake p st = Ok st' ->
  (forall p', msg_of st' p' = msg_of st p') /\
  (forall p', wokenb st p' = true -> heap st' !! p' = heap st !! p').
Proof.
  intros Hw. destruct (wake_shape _ _ _ Hw) as (l & Hl & [[_ ->]|(Hun & asg & free & ->)]);
    [auto|].
  split.
  - intros p'. unfold msg_of. cbn [heap]. destruct (decide (p' = p)) as [->|Hne].
    + rewrite list_lookup_insert_eq by (eapply lookup_lt_Some; eauto). rewrite Hl. reflexivity.
    + rewrite list_lookup_insert_ne by congruence. reflexivity.
  - intros p' Hp'. cbn [heap]. apply list_lookup_insert_ne. intros ->.
    unfold wokenb in Hp'. rewrite Hl in Hp'. congruence.
Qed.

Lemma wake_all_msg ps st st' :
  wake_all ps st = Ok st' ->
  (forall p', msg_of st' p' = msg_of st p') /\
  (forall p', wokenb st p' = true -> heap st' !! p' = heap st !! p').
Proof.
  revert st. induction ps as [|p ps IH]; intros st H.
  - injection H as <-. auto.
  - cbn [wake_all] in H. destruct (wake p st) as [st1|] eqn:Hw; [|discriminate].
    cbn [mbind result_bind] in H.
    destruct (wake_msg _ _ _ Hw) as [M1 K1]. destruct (IH _ H) as [M2 K2].
    destruct (wake_frame _ _ _ Hw) as (_ & _ & _ & _ & _ & _ & Hmono & _).
    split.
    + intros p'. rewrite M2. apply M1.
    + intros p' Hp'. rewrite K2 by (apply Hmono; exact Hp'). apply K1. exact Hp'.
Qed.

(** A wake pass changes lockers of its queue only, and of them only the
    ones it wakes; the flags and messages of all lockers stay. *)
Lemma setQ_frame q0 st st' :
  setQ q0 st = Ok st' ->
  q st' = q0 /\ length (heap st') = length (heap st) /\
  (forall p, p ∉ q0 -> heap st' !! p = heap st !! p) /\
  (forall p, wokenb st p = true -> heap st' !! p = heap st !! p) /\
  (forall p, sharedb st' p = sharedb st p) /\
  (forall p, want_of st' p = want_of st p) /\
  (forall p, msg_of st' p = msg_of st p) /\
  (forall p, wokenb st p = true -> wokenb st' p = true).
Proof.
  intros H. destruct (setQ_wakes _ _ _ H) as (ps & Hps & Hall).
  destruct (wake_all_frame _ _ _ Hall) as (Hq & Hlen & Hout & Hsh & Hwant & Hmono & _).
  destruct (wake_all_msg _ _ _ Hall) as (Hmsg & Hkeep).
  cbn [set_q q heap] in *.
  split; [exact Hq|]. split; [exact Hlen|]. split.
  { intros p Hp. apply Hout. intros Hin. apply Hp, Hps, Hin. }
  split; [exact Hkeep|]. split; [exact Hsh|]. split; [exact Hwant|].
  split; [exact Hmsg|exact Hmono].
Qed.

(** ** [Enqueue] on a settled queue *)

Lemma index_of_app_last (qs : list nat) pn :
  pn ∉ qs -> index_of pn (qs ++ [pn]) = Some (length qs).
Proof.
  induction qs as [|o qs IH]; intros Hn.
  - cbn. rewrite Nat.eqb_refl. reflexivity.
  - cbn [app index_of length]. apply not_elem_of_cons in Hn as [Hne Hn].
    destruct (Nat.eqb_spec pn o); [contradiction|]. rewrite IH by exact Hn. reflexivity.
Qed.

Lemma delete_app_last (qs : list nat) pn : delete (length qs) (qs ++ [pn]) = qs.
Proof.
  induction qs as [|o qs IH]; [reflexivity|]. cbn [app length delete list_delete].
  f_equal. exact IH.
Qed.

Lemma fresh_not_queued all st : Inv all st -> length (heap st) ∉ q st.
Proof. intros HI Hin. apply (inv_valid _ _ HI) in Hin. lia. Qed.

(** A wake pass over a settled queue with one new entry at its end
    changes nothing, or is the wake of the new entry. *)
Lemma setQ_new_entry_cases all st new st1 ws us :
  Inv all st -> Settled st ws us -> wf_locker new -> assignedCores new = CPUSet_Zero ->
  woken new = false ->
  setQ (q st ++ [length (heap st)]) (alloc new st) = Ok st1 ->
  st1 = set_q (q st ++ [length (heap st)]) (alloc new st) \/
  wake (length (heap st)) (set_q (q st ++ [length (heap st)]) (alloc new st)) = Ok st1.
Proof.
  intros HI HS Hnew Hz Hnw H1.
  set (pn := length (heap st)) in *.
  set (s0 := set_q (q st ++ [pn]) (alloc new st)) in *.
  pose proof (Inv_enqueue all st new HI Hnew Hz) as HI0. fold pn in HI0. fold s0 in HI0.
  pose proof (Cohort_enqueue all st ws us new HI (set_cohort _ _ _ HS) Hnw) as HC0.
  fold pn in HC0. fold s0 in HC0.
  destruct HS as [[Hsplit Hwk Hun Hex Hsh] Hhead Hstop].
  assert (forall p, p ∈ q st -> heap s0 !! p = heap st !! p) as Hh.
  { intros p Hp. apply alloc_lookup. apply (inv_valid _ _ HI). exact Hp. }
  assert (heap s0 !! pn = Some new) as Hpn.
  { subst s0. cbn [set_q alloc heap]. apply list_lookup_middle. reflexivity. }
  assert (forall i stx, setQ_loop i [pn] s0 = Ok stx -> stx = s0 \/ wake pn s0 = Ok stx)
    as Hone.
  { intros i stx. cbn [setQ_loop]. rewrite (deref_Some _ _ _ Hpn). cbn [mbind result_bind].
    destruct (negb (shared new)); [intros [= <-]; auto|].
    destruct (negb (i =? 0)%nat && negb (woken new) && negb (wantCores new =? 0)%N
              && (uint (CPUSet_Count (cores s0)) <? wantCores new)%N); [intros [= <-]; auto|].
    destruct (wake pn s0) as [sx|]; [|discriminate]. cbn [mbind result_bind].
    intros [= <-]. auto. }
  rewrite setQ_unfold in H1. fold s0 in H1.
  destruct ws as [|h ws0].
  - rewrite (Hhead eq_refl) in Hsplit. cbn [app] in Hsplit. rewrite Hsplit in H1.
    cbn [app] in H1. rewrite (deref_Some _ _ _ Hpn) in H1. cbn [mbind result_bind] in H1.
    destruct (shared new); [apply (Hone 0%nat); exact H1|right; exact H1].
  - assert (h ∈ q st) as Hhq by (rewrite Hsplit; left).
    assert (wokenb s0 h = true) as Hwh.
    { destruct (flags_ext st s0 h (Hh h Hhq)) as (-> & _).
      apply Forall_cons in Hwk as [Hw _]. exact Hw. }
    assert (q st ++ [pn] = h :: (ws0 ++ (us ++ [pn]))) as Eq
      by (rewrite Hsplit; cbn [app]; rewrite <- app_assoc; reflexivity).
    rewrite Eq in H1.
    destruct (deref s0 h) as [hd|] eqn:Hd; [|discriminate].
    apply deref_Ok in Hd. cbn [mbind result_bind] in H1.
    destruct (shared hd) eqn:Hs.
    + assert (sharedb st h = true) as Hsb.
      { destruct (flags_ext st s0 h (Hh h Hhq)) as (_ & <- & _).
        unfold sharedb. rewrite Hd. exact Hs. }
      change (h :: ws0 ++ us ++ [pn]) with ((h :: ws0) ++ (us ++ [pn])) in H1.
      rewrite setQ_loop_skip in H1.
      2:{ exact (coh_woken _ _ _ HC0). }
      2:{ apply (coh_shared _ _ _ HC0 h ws0 eq_refl).
          unfold sharedb. rewrite Hd. exact Hs. }
      destruct us as [|u us0].
      * cbn [app] in H1. eapply Hone; eauto.
      * cbn [app] in H1. rewrite setQ_loop_stop in H1.
        -- injection H1 as <-. left. reflexivity.
        -- rewrite Nat.add_0_l.
           apply (stop_entry_ext _ st); [|reflexivity|].
           ++ apply Hh. rewrite Hsplit. apply elem_of_app. right. left.
           ++ exact (Hstop h ws0 u us0 eq_refl Hsb eq_refl).
        -- assert (u ∈ q s0) as Hu.
           { subst s0. cbn [set_q q]. rewrite Hsplit. apply elem_of_app. left.
             apply elem_of_app. right. left. }
           apply (inv_valid _ _ HI0) in Hu. apply lookup_lt_is_Some_2. exact Hu.
    + rewrite (wake_woken _ _ Hwh) in H1. injection H1 as <-. left. reflexivity.
Qed.

(** The three outcomes of [Enqueue] on a settled queue. *)
Lemma Enqueue_cases all st sh nb want set msg st' r ws us :
  Inv all st -> Settled st ws us -> wf_set set ->
  Enqueue sh nb want set msg st = Ok (st', r) ->
  (nb = true /\ r = None /\ st' = alloc (newLocker sh want set msg) st) \/
  (nb = false /\ r = Some (length (heap st)) /\
   st' = set_q (q st ++ [length (heap st)]) (alloc (newLocker sh want set msg) st)) \/
  (r = Some (length (heap st)) /\
   wake (length (heap st))
     (set_q (q st ++ [length (heap st)]) (alloc (newLocker sh want set msg) st)) = Ok st').
Proof.
  intros HI HS Hset. rewrite Enqueue_unfold.
  set (pn := length (heap st)). set (new := newLocker sh want set msg).
  set (s0 := set_q (q st ++ [pn]) (alloc new st)).
  destruct (setQ (q st ++ [pn]) (alloc new st)) as [st1|] eqn:H1; [|discriminate].
  cbn [mbind result_bind].
  assert (heap s0 !! pn = Some new) as Hpn.
  { subst s0. cbn [set_q alloc heap]. apply list_lookup_middle. reflexivity. }
  destruct (setQ_new_entry_cases all st new st1 ws us HI HS
              (wf_newLocker _ _ _ _ Hset) eq_refl eq_refl H1) as [E|Hw].
  - fold pn in E. fold s0 in E. subst st1.
    rewrite (deref_Some _ _ _ Hpn). cbn [mbind result_bind].
    change (woken new) with false. cbn [negb]. rewrite andb_true_r.
    destruct nb.
    + subst s0. cbn [set_q q]. rewrite length_app. cbn [length].
      replace (length (q st) + 1 - 1)%nat with (length (q st)) by lia.
      rewrite take_app_length, setQ_set_q.
      change (setQ (q st) (alloc new st)) with (setQ (q (alloc new st)) (alloc new st)).
      rewrite (Settled_stable _ ws us).
      * cbn [mbind result_bind]. intros [= <- <-]. left. auto.
      * apply (Settled_ext st);
          [|exact (coh_split _ _ _ (set_cohort _ _ _ HS))|reflexivity|exact HS].
        intros p Hp. cbn [alloc heap]. apply lookup_app_l.
        apply (inv_valid _ _ HI). rewrite (coh_split _ _ _ (set_cohort _ _ _ HS)). exact Hp.
      * intros p Hp. cbn [alloc q heap] in *. apply lookup_lt_is_Some_2.
        rewrite length_app. apply (inv_valid _ _ HI) in Hp. lia.
    + intros [= <- <-]. right. left. auto.
  - fold pn in Hw. fold s0 in Hw.
    destruct (wake_frame _ _ _ Hw) as (_ & Hlen & _ & Hwk & _).
    assert (pn < length (heap st1))%nat as Hlt.
    { rewrite Hlen. eapply lookup_lt_Some; eauto. }
    destruct (lookup_lt_is_Some_2 _ _ Hlt) as [l Hl].
    rewrite (deref_Some _ _ _ Hl). cbn [mbind result_bind].
    unfold wokenb in Hwk. rewrite Hl in Hwk. rewrite Hwk. cbn [negb]. rewrite andb_false_r.
    intros [= <- <-]. right. right. auto.
Qed.

End running_theory.

Section lock_theorems_aux.

Import unix lock.

Lemma woken_in_prefix st ws us p :
  Cohort st ws us -> p ∈ q st -> wokenb st p = true -> p ∈ ws.
Proof.
  intros [Hsplit _ Hun _ _] Hp Hw. rewrite Hsplit in Hp.
  apply elem_of_app in Hp as [Hp|Hp]; [exact Hp|].
  rewrite Forall_forall in Hun. rewrite (Hun p Hp) in Hw. discriminate.
Qed.

Lemma index_of_not_elem p (qs : list nat) : p ∉ qs -> index_of p qs = None.
Proof.
  intros Hn. destruct (index_of p qs) as [i|] eqn:E; [|reflexivity].
  apply index_of_Some in E. apply list_elem_of_lookup_2 in E. contradiction.
Qed.

Lemma Queue_msgs st :
  (forall p, p ∈ q st -> is_Some (heap st !! p)) ->
  Queue st = Ok (map (msg_of st) (q st)).
Proof.
  unfold Queue. generalize (q st) as qs.
  induction qs as [|p qs IH]; intros Hv; [reflexivity|].
  cbn [foldr map]. destruct (Hv p ltac:(left)) as [l Hl].
  rewrite (deref_Some _ _ _ Hl). cbn [mbind result_bind].
  rewrite IH by (intros p' Hp'; apply Hv; right; exact Hp').
  cbn [mbind result_bind]. unfold msg_of at 2. rewrite Hl. reflexivity.
Qed.

Lemma map_ext_elem {A B} (f g : A -> B) (l : list A) :
  (forall x, x ∈ l -> f x = g x) -> map f l = map g l.
Proof.
  induction l as [|a l IH]; intros H; [reflexivity|].
  cbn [map]. rewrite (H a) by left. rewrite IH; [reflexivity|].
  intros x Hx. apply H. right. exact Hx.
Qed.

Lemma map_delete {A B} (f : A -> B) i (l : list A) :
  map f (delete i l) = delete i (map f l).
Proof.
  revert i. induction l as [|a l IH]; intros [|i]; cbn; try reflexivity.
  f_equal. apply IH.
Qed.

Lemma Union_Zero_r s : wf_set s -> cpuset.Union s CPUSet_Zero = s.
Proof.
  intros W. apply bit_ext; [apply wf_set_Union; [exact W|apply wf_set_Zero]|exact W|].
  intros i. rewrite bit_Union, bit_Zero, orb_false_r; [reflexivity|].
  destruct W as [-> _]. reflexivity.
Qed.

(** Taking the last entry off again: the queue and the free cores are
    as before when the cores of that entry go back. *)
Lemma Dequeue_last all st ws us st1 l1 :
  Inv all st -> Settled st ws us ->
  q st1 = q st ++ [length (heap st)] ->
  (forall p, (p < length (heap st))%nat -> heap st1 !! p = heap st !! p) ->
  heap st1 !! length (heap st) = Some l1 ->
  cpuset.Union (cores st1) (assignedCores l1) = cores st ->
  Dequeue (length (heap st)) st1 = Ok (mkState (heap st1) (q st) (cores st)).
Proof.
  intros HI HS Hq Hh Hl1 Hu.
  rewrite Dequeue_unfold, Hq.
  rewrite index_of_app_last by (eapply fresh_not_queued; eauto).
  rewrite (deref_Some _ _ _ Hl1). cbn [mbind result_bind].
  rewrite copy_truncate by (rewrite length_app; cbn [length]; lia).
  rewrite delete_app_last, setQ_set_q, Hu.
  rewrite <- (setQ_set_q (q st) (q st)).
  change (set_q (q st) (set_cores (cores st) st1))
    with (mkState (heap st1) (q st) (cores st)).
  change (setQ (q st) (mkState (heap st1) (q st) (cores st)))
    with (setQ (q (mkState (heap st1) (q st) (cores st)))
            (mkState (heap st1) (q st) (cores st))).
  pose proof (coh_split _ _ _ (set_cohort _ _ _ HS)) as Hsplit.
  apply (Settled_stable _ ws us).
  - apply (Settled_ext st); [|exact Hsplit|reflexivity|exact HS].
    intros p Hp. cbn [heap]. apply Hh. apply (inv_valid _ _ HI). rewrite Hsplit. exact Hp.
  - intros p Hp. cbn [q heap] in *. rewrite Hh by (apply (inv_valid _ _ HI); exact Hp).
    apply lookup_lt_is_Some_2. apply (inv_valid _ _ HI). exact Hp.
Qed.

Lemma exclusive_alone all st p :
  wf_set all -> running all st ->
  p ∈ q st -> wokenb st p = true -> sharedb st p = false ->
  (exists rest, q st = p :: rest) /\
  forall p', p' ∈ q st -> wokenb st p' = true -> p' = p.
Proof.
  intros Hall Hr Hp Hw Hs.
  destruct (running_Inv all st Hall Hr) as (HI & ws & us & [HC _ _]).
  pose proof (woken_in_prefix st ws us p HC Hp Hw) as Hpw.
  destruct HC as [Hsplit Hwk Hun Hex Hsh].
  destruct ws as [|h ws0]; [apply not_elem_of_nil in Hpw; contradiction|].
  destruct (sharedb st h) eqn:Hh.
  - pose proof (Hsh h ws0 eq_refl Hh) as Hall_sh. rewrite Forall_forall in Hall_sh.
    rewrite (Hall_sh p Hpw) in Hs. discriminate.
  - pose proof (Hex h ws0 eq_refl Hh) as ->.
    apply list_elem_of_singleton in Hpw as ->. split.
    + exists us. exact Hsplit.
    + intros p' Hp' Hw'.
      pose proof (woken_in_prefix st [h] us p'
                    (mkCohort st [h] us Hsplit Hwk Hun Hex Hsh) Hp' Hw') as Hin.
      apply list_elem_of_singleton in Hin. exact Hin.
Qed.

Lemma wf_all8 : wf_set all8.
Proof. apply wf_setb_true. reflexivity. Qed.

Lemma running_ex_exclusive_waiter : running all8 ex_exclusive_waiter.
Proof.
  apply (run_Enqueue all8 ex_exclusive true false 3 all8 "build"
           ex_exclusive_waiter (Some 1%nat));
    [|exact wf_all8|vm_compute; reflexivity].
  apply (run_Enqueue all8 (init all8) false false 0 all8 "bench"
           ex_exclusive (Some 0%nat));
    [apply run_init|exact wf_all8|vm_compute; reflexivity].
Qed.

Lemma running_ex_shared3 : running all8 ex_shared3.
Proof.
  apply (run_Enqueue all8 (init all8) true false 3 all8 "a" ex_shared3 (Some 0%nat));
    [apply run_init|exact wf_all8|vm_compute; reflexivity].
Qed.

Lemma running_ex_shared33 : running all8 ex_shared33.
Proof.
  apply (run_Enqueue all8 ex_shared3 true false 3 all8 "b" ex_shared33 (Some 1%nat));
    [exact running_ex_shared3|exact wf_all8|vm_compute; reflexivity].
Qed.

End lock_theorems_aux.

(** C5. In every state of the lock in a run of the daemon (sessions may
    have taken their grants from the channels), a non-blocking [Enqueue]
    whose wake pass leaves the newly appended locker unwoken returns
    [nil] (here [None]), and afterwards the queue, the free cores and
    every locker that existed before the call are what they were. *)
Theorem C5_nonblocking_Enqueue_leaves_no_trace
    (all : unix.CPUSet) (st st1 : lock.state)
    (shared : bool) (want : N) (set : unix.CPUSet) (msg : string) :
  wf_set all -> running all st -> wf_set set ->
  lock.setQ (lock.q st ++ [length (lock.heap st)])
            (alloc (newLocker shared want set msg) st) = Ok st1 ->
  wokenb st1 (length (lock.heap st)) = false ->
  exists st',
    lock.Enqueue shared true want set msg st = Ok (st', None) /\
    lock.q st' = lock.q st /\ lock.cores st' = lock.cores st /\
    (forall p l, lock.heap st !! p = Some l -> lock.heap st' !! p = Some l).
Proof.
  intros Hall Hr Hset H1 Hpn.
  destruct (running_Inv all st Hall Hr) as (HI & ws & us & HS).
  pose proof (setQ_new_entry all st (newLocker shared want set msg) st1 ws us
                HI HS (wf_newLocker _ _ _ _ Hset) eq_refl eq_refl H1 Hpn) as E.
  exists (alloc (newLocker shared want set msg) st).
  split; [|split; [reflexivity|split; [reflexivity|]]].
  - rewrite Enqueue_unfold, H1. cbn [mbind result_bind]. subst st1.
    unfold lock.deref. cbn [lock.set_q alloc lock.heap lock.q].
    rewrite list_lookup_middle by reflexivity. cbn [mbind result_bind].
    cbn [newLocker lock.woken negb andb].
    rewrite length_app. cbn [length].
    replace (length (lock.q st) + 1 - 1)%nat with (length (lock.q st)) by lia.
    rewrite take_app_length.
    change (lock.setQ (lock.q st) _)
      with (lock.setQ (lock.q (alloc (newLocker shared want set msg) st))
              (alloc (newLocker shared want set msg) st)).
    rewrite (Settled_stable _ ws us); [reflexivity| |].
    + apply (Settled_ext st); [|exact (coh_split _ _ _ (set_cohort _ _ _ HS))|reflexivity|exact HS].
      intros p Hp. cbn [alloc lock.heap]. apply lookup_app_l.
      apply (inv_valid _ _ HI). rewrite (coh_split _ _ _ (set_cohort _ _ _ HS)). exact Hp.
    + intros p Hp. cbn [alloc lock.q lock.heap] in *. apply lookup_lt_is_Some_2.
      rewrite length_app. apply (inv_valid _ _ HI) in Hp. lia.
  - intros p l Hl. cbn [alloc lock.heap]. rewrite lookup_app_l; [exact Hl|].
    eapply lookup_lt_Some; eauto.
Qed.

Lemma C5_witness :
  (wf_set all8 /\ running all8 ex_exclusive_held /\
   lock.recv 0 ex_exclusive = Some (true, ex_exclusive_held) /\
   lock.setQ (lock.q ex_exclusive_held ++ [length (lock.heap ex_exclusive_held)])
     (alloc (newLocker true 3 all8 "build") ex_exclusive_held)
   = Ok (lock.set_q [0; 1]%nat (alloc (newLocker true 3 all8 "build") ex_exclusive_held))) /\
  exists st', lock.Enqueue true true 3 all8 "build" ex_exclusive_held = Ok (st', None) /\
              lock.q st' = [0%nat] /\ lock.cores st' = all8.
Proof.
  assert (wf_set all8) as H1 by (apply wf_setb_true; reflexivity).
  assert (lock.recv 0 ex_exclusive = Some (true, ex_exclusive_held)) as HR
    by (vm_compute; reflexivity).
  assert (running all8 ex_exclusive_held) as H2.
  { apply (run_recv all8 ex_exclusive 0%nat true ex_exclusive_held); [|exact HR].
    apply (run_Enqueue all8 (lock.init all8) false false 0 all8 "bench"
             ex_exclusive (Some 0%nat));
      [apply run_init|exact H1|vm_compute; reflexivity]. }
  assert (lock.setQ (lock.q ex_exclusive_held ++ [length (lock.heap ex_exclusive_held)])
            (alloc (newLocker true 3 all8 "build") ex_exclusive_held)
          = Ok (lock.set_q [0; 1]%nat
                  (alloc (newLocker true 3 all8 "build") ex_exclusive_held)))
    as H3 by (vm_compute; reflexivity).
  split; [split; [exact H1|split; [exact H2|split; [exact HR|exact H3]]]|].
  destruct (C5_nonblocking_Enqueue_leaves_no_trace all8 ex_exclusive_held _ true 3 all8
              "build" H1 H2 H1 H3 eq_refl) as (st' & HE & Hq & Hc & _).
  exists st'. split; [exact HE|]. split; [exact Hq|exact Hc].
Defined.

(** X9. Mutual exclusion. In every state of a run, a woken locker in the
    queue that is not shared is the head of the queue and the only woken
    locker in it. *)
Theorem X9_exclusive_holder_is_alone (all : unix.CPUSet) (st : lock.state) (p : nat) :
  wf_set all -> running all st ->
  p ∈ lock.q st -> wokenb st p = true -> sharedb st p = false ->
  (exists rest, lock.q st = p :: rest) /\
  forall p', p' ∈ lock.q st -> wokenb st p' = true -> p' = p.
Proof. apply exclusive_alone. Qed.

Lemma X9_exclusive_holder_is_alone_witness :
  (wf_set all8 /\ running all8 ex_exclusive_waiter /\
   0%nat ∈ lock.q ex_exclusive_waiter /\ wokenb ex_exclusive_waiter 0 = true /\
   sharedb ex_exclusive_waiter 0 = false) /\
  exists rest, lock.q ex_exclusive_waiter = 0%nat :: rest.
Proof.
  assert (0%nat ∈ lock.q ex_exclusive_waiter) as Hin by (vm_compute; left).
  split.
  - split; [exact wf_all8|]. split; [exact running_ex_exclusive_waiter|].
    split; [exact Hin|]. split; reflexivity.
  - exact (proj1 (X9_exclusive_holder_is_alone all8 ex_exclusive_waiter 0%nat wf_all8
                    running_ex_exclusive_waiter Hin eq_refl eq_refl)).
Defined.

(** X10. No overtaking, and no idle lock. In every state of a run the woken
    lockers are a prefix of the queue: nobody is woken behind a locker
    that still waits, and the head of a queue that is not empty is
    woken. *)
Theorem X10_woken_lockers_are_a_prefix (all : unix.CPUSet) (st : lock.state) :
  wf_set all -> running all st ->
  exists ws us,
    lock.q st = ws ++ us /\
    Forall (fun p => wokenb st p = true) ws /\
    Forall (fun p => wokenb st p = false) us /\
    (lock.q st <> [] -> ws <> []).
Proof.
  intros Hall Hr.
  destruct (running_Inv all st Hall Hr) as (HI & ws & us & [[Hsplit Hwk Hun _ _] Hhead _]).
  exists ws, us. split; [exact Hsplit|]. split; [exact Hwk|]. split; [exact Hun|].
  intros Hne ->. rewrite (Hhead eq_refl) in Hsplit. contradiction.
Qed.

Lemma X10_woken_lockers_are_a_prefix_witness :
  (wf_set all8 /\ running all8 ex_exclusive_waiter) /\
  exists ws us, lock.q ex_exclusive_waiter = ws ++ us /\
    (lock.q ex_exclusive_waiter <> [] -> ws <> []).
Proof.
  split; [split; [exact wf_all8|exact running_ex_exclusive_waiter]|].
  destruct (X10_woken_lockers_are_a_prefix all8 ex_exclusive_waiter wf_all8
              running_ex_exclusive_waiter) as (ws & us & H1 & _ & _ & H2).
  exists ws, us. split; assumption.
Defined.

(** X11. What a woken locker holds. In every state of a run a woken locker
    has exactly [wantCores] cores assigned, all of them available to its
    process; while it is queued they are cores of the daemon, and none
    of them is free. *)
Theorem X11_woken_locker_holds_its_cores
    (all : unix.CPUSet) (st : lock.state) (p : nat) (l : lock.Locker) :
  wf_set all -> running all st ->
  lock.heap st !! p = Some l -> lock.woken l = true ->
  lock.uint (unix.CPUSet_Count (lock.assignedCores l)) = lock.wantCores l /\
  (forall i, bit (lock.assignedCores l) i = true -> bit (lock.availCores l) i = true) /\
  (p ∈ lock.q st ->
   forall i, bit (lock.assignedCores l) i = true ->
             bit all i = true /\ bit (lock.cores st) i = false).
Proof.
  intros Hall Hr Hl Hw.
  pose proof (running_holds_ok all st Hall Hr) as HP.
  destruct (Forall_lookup_1 _ _ _ _ HP Hl Hw) as [H1 H2].
  split; [exact H1|]. split; [exact H2|].
  intros Hp i Hi. destruct (running_Inv all st Hall Hr) as (HI & _).
  destruct (inv_assigned _ _ HI p i Hp) as [Hc Ha]; [|auto].
  unfold assigned_of. rewrite Hl. exact Hi.
Qed.

Lemma X11_woken_locker_holds_its_cores_witness :
  let l := lock.mkLocker [true] 3 all8 [56; 0; 0; 0; 0; 0; 0; 0; 0; 0; 0; 0; 0; 0; 0; 0]
             true true "b" in
  (wf_set all8 /\ running all8 ex_shared33 /\
   lock.heap ex_shared33 !! 1%nat = Some l /\ lock.woken l = true) /\
  lock.uint (unix.CPUSet_Count (lock.assignedCores l)) = 3%N.
Proof.
  intros l. split.
  - split; [exact wf_all8|]. split; [exact running_ex_shared33|]. split; reflexivity.
  - exact (proj1 (X11_woken_locker_holds_its_cores all8 ex_shared33 1%nat l wf_all8
                    running_ex_shared33 eq_refl eq_refl)).
Defined.

(** X12. The failures of the lock. In every state of a run [Enqueue], and
    [Dequeue] of a queued locker, return or fail one of the two
    assertions of [takeCores]; [Dequeue] of a locker that is not queued
    panics; [Queue] returns. The send of a grant never finds the channel
    full, no pointer is invalid, and the loop of [Range] ends. *)
Theorem X12_lock_operations_return_or_assert
    (all : unix.CPUSet) (st : lock.state)
    (shared nonblocking : bool) (want : N) (set : unix.CPUSet) (msg : string) (p : nat) :
  wf_set all -> running all st -> wf_set set ->
  ((exists st' r, lock.Enqueue shared nonblocking want set msg st = Ok (st', r)) \/
   (exists f, lock.Enqueue shared nonblocking want set msg st = Abort (AssertFailed f))) /\
  (p ∈ lock.q st ->
   (exists st', lock.Dequeue p st = Ok st') \/
   (exists f, lock.Dequeue p st = Abort (AssertFailed f))) /\
  (p ∉ lock.q st ->
   lock.Dequeue p st = Abort (PanicMsg "Dequeue of non-enqueued Locker")) /\
  (exists ms, lock.Queue st = Ok ms).
Proof.
  intros Hall Hr Hset.
  destruct (running_Inv all st Hall Hr) as (HI & ws & us & HS).
  split; [eapply Enqueue_total; eauto|].
  split; [intros Hp; eapply Dequeue_total; eauto|].
  split.
  - intros Hp. unfold lock.Dequeue. rewrite index_of_not_elem by exact Hp. reflexivity.
  - eexists. apply Queue_msgs. intros p' Hp'. apply lookup_lt_is_Some_2.
    apply (inv_valid _ _ HI). exact Hp'.
Qed.

Lemma X12_lock_operations_return_or_assert_witness :
  (wf_set all8 /\ running all8 ex_shared33 /\ wf_set cpus0_3) /\
  exists ms, lock.Queue ex_shared33 = Ok ms.
Proof.
  assert (wf_set cpus0_3) as W by (apply wf_setb_true; reflexivity).
  split; [split; [exact wf_all8|split; [exact running_ex_shared33|exact W]]|].
  exact (proj2 (proj2 (proj2 (X12_lock_operations_return_or_assert all8 ex_shared33
                  true false 2 cpus0_3 "c" 0%nat wf_all8 running_ex_shared33 W)))).
Defined.

Lemma Enqueue_effect
    (all : unix.CPUSet) (st st' : lock.state) (shared nonblocking : bool)
    (want : N) (set : unix.CPUSet) (msg : string) (r : option nat) :
  wf_set all -> running all st -> wf_set set ->
  lock.Enqueue shared nonblocking want set msg st = Ok (st', r) ->
  (forall p l, lock.heap st !! p = Some l -> lock.heap st' !! p = Some l) /\
  match r with
  | Some p =>
      p = length (lock.heap st) /\ lock.q st' = lock.q st ++ [p] /\
      (nonblocking = true -> wokenb st' p = true) /\
      sharedb st' p = shared /\ want_of st' p = want /\ msg_of st' p = msg
  | None =>
      nonblocking = true /\ lock.q st' = lock.q st /\ lock.cores st' = lock.cores st
  end.
Proof.
  intros Hall Hr Hset HE.
  destruct (running_Inv all st Hall Hr) as (HI & ws & us & HS).
  set (pn := length (lock.heap st)).
  set (new := newLocker shared want set msg).
  set (s0 := lock.set_q (lock.q st ++ [pn]) (alloc new st)).
  assert (lock.heap s0 !! pn = Some new) as Hpn.
  { subst s0. cbn [lock.set_q alloc lock.heap]. apply list_lookup_middle. reflexivity. }
  assert (forall p l, lock.heap st !! p = Some l -> lock.heap s0 !! p = Some l) as Hold.
  { intros p l Hl. subst s0. cbn [lock.set_q alloc lock.heap].
    rewrite lookup_app_l; [exact Hl|]. eapply lookup_lt_Some; eauto. }
  destruct (Enqueue_cases all st shared nonblocking want set msg st' r ws us HI HS Hset HE)
    as [(Hnb & -> & ->)|[(Hnb & -> & ->)|(-> & Hw)]].
  - split; [exact Hold|]. auto.
  - fold pn new s0. split; [exact Hold|].
    split; [reflexivity|]. split; [reflexivity|].
    split; [rewrite Hnb; discriminate|].
    unfold sharedb, want_of, msg_of. rewrite Hpn. auto.
  - fold pn new s0 in Hw.
    destruct (wake_frame _ _ _ Hw) as (Hq & _ & Hout & Hwk & Hsh & Hwant & _).
    destruct (wake_msg _ _ _ Hw) as [Hmsg _].
    split.
    + intros p l Hl. rewrite Hout; [exact (Hold p l Hl)|].
      apply lookup_lt_Some in Hl. fold pn. lia.
    + fold pn. split; [reflexivity|]. split; [exact Hq|]. split; [auto|].
      rewrite Hsh, Hwant, Hmsg. unfold sharedb, want_of, msg_of. rewrite Hpn. auto.
Qed.

(** X13. The outcome of [Enqueue]. In every state of a run, an [Enqueue]
    that returns leaves every locker that existed as it was. If it
    returns a locker, this is a new one at the end of the queue, with
    the mode, the core count and the message of the call, and for a
    non-blocking call it is already woken. It returns [nil] only for a
    non-blocking call, and then the queue and the free cores are as
    before. *)
Theorem X13_Enqueue_outcome
    (all : unix.CPUSet) (st st' : lock.state) (shared nonblocking : bool)
    (want : N) (set : unix.CPUSet) (msg : string) (r : option nat) :
  wf_set all -> running all st -> wf_set set ->
  lock.Enqueue shared nonblocking want set msg st = Ok (st', r) ->
  (forall p l, lock.heap st !! p = Some l -> lock.heap st' !! p = Some l) /\
  match r with
  | Some p =>
      p = length (lock.heap st) /\ lock.q st' = lock.q st ++ [p] /\
      (nonblocking = true -> wokenb st' p = true) /\
      sharedb st' p = shared /\ want_of st' p = want /\ msg_of st' p = msg
  | None =>
      nonblocking = true /\ lock.q st' = lock.q st /\ lock.cores st' = lock.cores st
  end.
Proof. apply Enqueue_effect. Qed.

Lemma X13_Enqueue_outcome_witness :
  (wf_set all8 /\ running all8 ex_shared3 /\ wf_set all8 /\
   lock.Enqueue true false 3 all8 "b" ex_shared3 = Ok (ex_shared33, Some 1%nat)) /\
  lock.q ex_shared33 = lock.q ex_shared3 ++ [1%nat].
Proof.
  assert (lock.Enqueue true false 3 all8 "b" ex_shared3 = Ok (ex_shared33, Some 1%nat))
    as HE by (vm_compute; reflexivity).
  split; [split; [exact wf_all8|split; [exact running_ex_shared3|split;
            [exact wf_all8|exact HE]]]|].
  exact (proj1 (proj2 (proj2 (X13_Enqueue_outcome all8 ex_shared3 ex_shared33 true false 3
                  all8 "b" (Some 1%nat) wf_all8 running_ex_shared3 wf_all8 HE)))).
Defined.

(** X14. Which cores a request gets. When [Enqueue] returns a locker that
    is woken, the locker holds the lowest [wantCores] CPUs that were free
    and are available to it, and exactly these have left the free set. *)
Theorem X14_Enqueue_grants_lowest_free_cores
    (all : unix.CPUSet) (st st' : lock.state) (shared nonblocking : bool)
    (want : N) (set : unix.CPUSet) (msg : string) (p : nat) :
  wf_set all -> running all st -> wf_set set ->
  lock.Enqueue shared nonblocking want set msg st = Ok (st', Some p) ->
  wokenb st' p = true ->
  members (assigned_of st' p) = lowest want (cpuset.Intersect (lock.cores st) set) /\
  N.of_nat (length (members (assigned_of st' p))) = want /\
  lock.cores st' = cpuset.Difference (lock.cores st) (assigned_of st' p).
Proof.
  intros Hall Hr Hset HE Hwk.
  destruct (running_Inv all st Hall Hr) as (HI & ws & us & HS).
  set (pn := length (lock.heap st)).
  set (new := newLocker shared want set msg).
  set (s0 := lock.set_q (lock.q st ++ [pn]) (alloc new st)).
  assert (lock.heap s0 !! pn = Some new) as Hpn.
  { subst s0. cbn [lock.set_q alloc lock.heap]. apply list_lookup_middle. reflexivity. }
  destruct (Enqueue_cases all st shared nonblocking want set msg st' (Some p) ws us
              HI HS Hset HE) as [(_ & Hn & _)|[(_ & [= ->] & ->)|([= ->] & Hw)]];
    [discriminate| |].
  - exfalso. change (wokenb s0 pn = true) in Hwk. unfold wokenb in Hwk.
    rewrite Hpn in Hwk. discriminate.
  - fold pn new s0 in Hw. fold pn in Hwk. fold pn.
    assert (Inv all s0) as HI0
      by (apply Inv_enqueue; [exact HI|apply wf_newLocker; exact Hset|reflexivity]).
    assert (pn ∈ lock.q s0) as Hin
      by (subst s0; cbn [lock.set_q lock.q]; apply elem_of_app; right; left).
    destruct (wake_assigns_lowest all s0 pn new st' HI0 Hin Hpn eq_refl Hw)
      as (Em & Hlen & Hbits).
    change (taken_by s0 new) with (lowest want (cpuset.Intersect (lock.cores st) set))
      in Em, Hlen, Hbits.
    split; [exact Em|]. split; [rewrite Em; exact Hlen|].
    pose proof (wake_Inv _ _ _ _ HI0 Hin Hw) as HI1.
    apply bit_ext.
    + exact (inv_cores_wf _ _ HI1).
    + apply wf_set_Difference; [exact (inv_cores_wf _ _ HI)|].
      apply (wf_assigned_of all). exact HI1.
    + intros j. rewrite Hbits, bit_Difference.
      2:{ destruct (inv_cores_wf _ _ HI) as [-> _].
          destruct (wf_assigned_of all st' pn HI1) as [-> _]. reflexivity. }
      change (lock.cores s0) with (lock.cores st). f_equal. f_equal.
      rewrite <- Em. apply eq_true_iff_eq.
      rewrite bool_decide_eq_true, elem_of_members. reflexivity.
Qed.

Lemma X14_Enqueue_grants_lowest_free_cores_witness :
  (wf_set all8 /\ running all8 ex_shared3 /\ wf_set all8 /\
   lock.Enqueue true false 3 all8 "b" ex_shared3 = Ok (ex_shared33, Some 1%nat) /\
   wokenb ex_shared33 1 = true) /\
  members (assigned_of ex_shared33 1) = [3; 4; 5].
Proof.
  assert (lock.Enqueue true false 3 all8 "b" ex_shared3 = Ok (ex_shared33, Some 1%nat))
    as HE by (vm_compute; reflexivity).
  split; [split; [exact wf_all8|split; [exact running_ex_shared3|split;
            [exact wf_all8|split; [exact HE|reflexivity]]]]|].
  rewrite (proj1 (X14_Enqueue_grants_lowest_free_cores all8 ex_shared3 ex_shared33 true false 3
                    all8 "b" 1%nat wf_all8 running_ex_shared3 wf_all8 HE eq_refl)).
  vm_compute. reflexivity.
Defined.

(** X15. Round trip. In every state of a run, the locker that [Enqueue]
    returns can be dequeued at once, and then the queue, the free cores
    and every locker that existed before are as they were. *)
Theorem X15_Enqueue_Dequeue_round_trip
    (all : unix.CPUSet) (st st1 : lock.state) (shared nonblocking : bool)
    (want : N) (set : unix.CPUSet) (msg : string) (p : nat) :
  wf_set all -> running all st -> wf_set set ->
  lock.Enqueue shared nonblocking want set msg st = Ok (st1, Some p) ->
  exists st2,
    lock.Dequeue p st1 = Ok st2 /\
    lock.q st2 = lock.q st /\ lock.cores st2 = lock.cores st /\
    forall p' l, lock.heap st !! p' = Some l -> lock.heap st2 !! p' = Some l.
Proof.
  intros Hall Hr Hset HE.
  destruct (running_Inv all st Hall Hr) as (HI & ws & us & HS).
  set (pn := length (lock.heap st)).
  set (new := newLocker shared want set msg).
  set (s0 := lock.set_q (lock.q st ++ [pn]) (alloc new st)).
  assert (lock.heap s0 !! pn = Some new) as Hpn.
  { subst s0. cbn [lock.set_q alloc lock.heap]. apply list_lookup_middle. reflexivity. }
  assert (forall p', (p' < pn)%nat -> lock.heap s0 !! p' = lock.heap st !! p') as Hold.
  { intros p' Hp'. subst s0. cbn [lock.set_q alloc lock.heap]. apply lookup_app_l. exact Hp'. }
  assert (exists l1,
            lock.q st1 = lock.q st ++ [pn] /\
            (forall p', (p' < pn)%nat -> lock.heap st1 !! p' = lock.heap st !! p') /\
            lock.heap st1 !! pn = Some l1 /\
            cpuset.Union (lock.cores st1) (lock.assignedCores l1) = lock.cores st /\
            p = pn) as (l1 & Hq1 & Hh1 & Hl1 & Hu & ->).
  { destruct (Enqueue_cases all st shared nonblocking want set msg st1 (Some p) ws us
                HI HS Hset HE) as [(_ & Hn & _)|[(_ & [= ->] & ->)|([= ->] & Hw)]];
      [discriminate| |].
    - exists new. fold pn new s0. split; [reflexivity|]. split; [exact Hold|].
      split; [exact Hpn|]. split; [|reflexivity].
      apply Union_Zero_r. exact (inv_cores_wf _ _ HI).
    - fold pn new s0 in Hw.
      assert (Inv all s0) as HI0
        by (apply Inv_enqueue; [exact HI|apply wf_newLocker; exact Hset|reflexivity]).
      assert (pn ∈ lock.q s0) as Hin
        by (subst s0; cbn [lock.set_q lock.q]; apply elem_of_app; right; left).
      pose proof (wake_Inv _ _ _ _ HI0 Hin Hw) as HI1.
      destruct (wake_frame _ _ _ Hw) as (Hq & Hlen & Hout & _).
      destruct (wake_assigns_lowest all s0 pn new st1 HI0 Hin Hpn eq_refl Hw)
        as (Em & _ & Hbits).
      assert (pn < length (lock.heap st1))%nat as Hlt
        by (rewrite Hlen; eapply lookup_lt_Some; eauto).
      destruct (lookup_lt_is_Some_2 _ _ Hlt) as [l1 Hl1].
      exists l1. split; [exact Hq|]. split.
      { intros p' Hp'. rewrite Hout by lia. apply Hold. exact Hp'. }
      split; [exact Hl1|]. split; [|reflexivity].
      assert (assigned_of st1 pn = lock.assignedCores l1) as Ea
        by (unfold assigned_of; rewrite Hl1; reflexivity).
      rewrite <- Ea.
      pose proof (wf_assigned_of all st1 pn HI1) as Wa.
      apply bit_ext.
      + apply wf_set_Union; [exact (inv_cores_wf _ _ HI1)|exact Wa].
      + exact (inv_cores_wf _ _ HI).
      + intros j. rewrite bit_Union.
        2:{ destruct (inv_cores_wf _ _ HI1) as [-> _]. destruct Wa as [-> _]. reflexivity. }
        rewrite Hbits. change (lock.cores s0) with (lock.cores st).
        destruct (bit (assigned_of st1 pn) j) eqn:Ej.
        * apply elem_of_members in Ej. rewrite Em in Ej.
          rewrite (bool_decide_eq_true_2 _ Ej). cbn [negb]. rewrite andb_false_r. cbn [orb].
          apply elem_of_taken_by in Ej as [Hc _]; [symmetry; exact Hc|].
          destruct (inv_cores_wf _ _ HI0) as [-> _]. subst new.
          cbn [newLocker lock.availCores]. destruct Hset as [-> _]. reflexivity.
        * rewrite orb_false_r.
          assert (j ∉ taken_by s0 new) as Hn.
          { intros Hj. rewrite <- Em in Hj. apply elem_of_members in Hj. congruence. }
          rewrite (bool_decide_eq_false_2 _ Hn). cbn [negb]. apply andb_true_r. }
  exists (lock.mkState (lock.heap st1) (lock.q st) (lock.cores st)).
  split; [apply (Dequeue_last all st ws us st1 l1); assumption|].
  split; [reflexivity|]. split; [reflexivity|].
  intros p' l Hl. cbn [lock.heap]. rewrite Hh1; [exact Hl|].
  eapply lookup_lt_Some; eauto.
Qed.

Lemma X15_Enqueue_Dequeue_round_trip_witness :
  (wf_set all8 /\ running all8 ex_shared3 /\ wf_set all8 /\
   lock.Enqueue true false 3 all8 "b" ex_shared3 = Ok (ex_shared33, Some 1%nat)) /\
  exists st2, lock.Dequeue 1 ex_shared33 = Ok st2 /\
              lock.q st2 = lock.q ex_shared3 /\ lock.cores st2 = lock.cores ex_shared3.
Proof.
  assert (lock.Enqueue true false 3 all8 "b" ex_shared3 = Ok (ex_shared33, Some 1%nat))
    as HE by (vm_compute; reflexivity).
  split; [split; [exact wf_all8|split; [exact running_ex_shared3|split;
            [exact wf_all8|exact HE]]]|].
  destruct (X15_Enqueue_Dequeue_round_trip all8 ex_shared3 ex_shared33 true false 3
              all8 "b" 1%nat wf_all8 running_ex_shared3 wf_all8 HE)
    as (st2 & H1 & H2 & H3 & _).
  exists st2. auto.
Defined.

Lemma Dequeue_effect
    (all : unix.CPUSet) (st st' : lock.state) (p : nat) :
  wf_set all -> running all st -> lock.Dequeue p st = Ok st' ->
  (exists i, lock.q st !! i = Some p /\ lock.q st' = delete i (lock.q st)) /\
  (p ∉ lock.q st') /\
  lock.Dequeue p st' = Abort (PanicMsg "Dequeue of non-enqueued Locker") /\
  (forall p', wokenb st p' = true -> lock.heap st' !! p' = lock.heap st !! p') /\
  (forall p', sharedb st' p' = sharedb st p' /\ want_of st' p' = want_of st p' /\
              msg_of st' p' = msg_of st p').
Proof.
  intros Hall Hr HD.
  destruct (running_Inv all st Hall Hr) as (HI & _).
  destruct (Dequeue_pass _ _ _ HD) as (i & Hi & _ & Hpass).
  destruct (setQ_frame _ _ _ Hpass) as (Hq & _ & _ & Hkeep & Hsh & Hwant & Hmsg & _).
  assert (p ∉ lock.q st') as Hnot.
  { rewrite Hq. intros Hin.
    apply (elem_of_delete_NoDup _ i p p (inv_nodup _ _ HI) Hi) in Hin as [_ Hne].
    contradiction. }
  split; [exists i; auto|]. split; [exact Hnot|]. split.
  - unfold lock.Dequeue. rewrite index_of_not_elem by exact Hnot. reflexivity.
  - split.
    + intros p' Hp'. apply Hkeep. exact Hp'.
    + intros p'. rewrite Hsh, Hwant, Hmsg. auto.
Qed.

(** X16. [Dequeue]. In every state of a run, a [Dequeue] that returns has
    removed the locker from the queue and kept the order of the others;
    a second [Dequeue] of the same locker panics. The lockers that were
    woken keep what they hold, and no mode, core count or message has
    changed. *)
Theorem X16_Dequeue_removes_the_locker
    (all : unix.CPUSet) (st st' : lock.state) (p : nat) :
  wf_set all -> running all st -> lock.Dequeue p st = Ok st' ->
  (exists i, lock.q st !! i = Some p /\ lock.q st' = delete i (lock.q st)) /\
  (p ∉ lock.q st') /\
  lock.Dequeue p st' = Abort (PanicMsg "Dequeue of non-enqueued Locker") /\
  (forall p', wokenb st p' = true -> lock.heap st' !! p' = lock.heap st !! p') /\
  (forall p', sharedb st' p' = sharedb st p' /\ want_of st' p' = want_of st p' /\
              msg_of st' p' = msg_of st p').
Proof. apply Dequeue_effect. Qed.

Lemma X16_Dequeue_removes_the_locker_witness :
  let st' := lock.mkState (lock.heap ex_shared33) [1%nat]
               [199; 0; 0; 0; 0; 0; 0; 0; 0; 0; 0; 0; 0; 0; 0; 0] in
  (wf_set all8 /\ running all8 ex_shared33 /\ lock.Dequeue 0 ex_shared33 = Ok st') /\
  lock.Dequeue 0 st' = Abort (PanicMsg "Dequeue of non-enqueued Locker").
Proof.
  intros st'.
  assert (lock.Dequeue 0 ex_shared33 = Ok st') as HD by (vm_compute; reflexivity).
  split; [split; [exact wf_all8|split; [exact running_ex_shared33|exact HD]]|].
  exact (proj1 (proj2 (proj2 (X16_Dequeue_removes_the_locker all8 ex_shared33 st' 0%nat
                  wf_all8 running_ex_shared33 HD)))).
Defined.

(** X17. [Queue]. In every state of a run [Queue] returns the messages of
    the queued lockers in queue order; an [Enqueue] that returns a locker
    appends its message to this list, and a [Dequeue] removes the message
    at the position of the locker. *)
Theorem X17_Queue_lists_the_messages (all : unix.CPUSet) (st : lock.state) :
  wf_set all -> running all st ->
  lock.Queue st = Ok (map (msg_of st) (lock.q st)) /\
  (forall shared nonblocking want set msg st' p,
     wf_set set ->
     lock.Enqueue shared nonblocking want set msg st = Ok (st', Some p) ->
     lock.Queue st' = Ok (map (msg_of st) (lock.q st) ++ [msg])) /\
  (forall p st',
     lock.Dequeue p st = Ok st' ->
     exists i, lock.q st !! i = Some p /\
               lock.Queue st' = Ok (delete i (map (msg_of st) (lock.q st)))).
Proof.
  intros Hall Hr.
  destruct (running_Inv all st Hall Hr) as (HI & ws & us & HS).
  assert (forall s, running all s -> lock.Queue s = Ok (map (msg_of s) (lock.q s))) as HQ.
  { intros s Hs. destruct (running_Inv all s Hall Hs) as (HIs & _).
    apply Queue_msgs. intros p' Hp'. apply lookup_lt_is_Some_2.
    apply (inv_valid _ _ HIs). exact Hp'. }
  split; [apply HQ; exact Hr|]. split.
  - intros sh nb want set msg st' p Hset HE.
    rewrite (HQ st') by (eapply run_Enqueue; eauto).
    destruct (Enqueue_cases all st sh nb want set msg st' (Some p) ws us HI HS Hset HE)
      as [(_ & Hn & _)|[(_ & [= ->] & ->)|([= ->] & Hw)]]; [discriminate| |].
    + cbn [lock.set_q lock.q]. rewrite map_app. cbn [map]. f_equal. f_equal.
      * apply map_ext_elem. intros x Hx. unfold msg_of. cbn [lock.set_q alloc lock.heap].
        rewrite lookup_app_l by (apply (inv_valid _ _ HI); exact Hx). reflexivity.
      * unfold msg_of. cbn [lock.set_q alloc lock.heap].
        rewrite list_lookup_middle by reflexivity. reflexivity.
    + destruct (wake_frame _ _ _ Hw) as (Hq & _).
      destruct (wake_msg _ _ _ Hw) as [Hmsg _].
      rewrite Hq. cbn [lock.set_q lock.q]. rewrite map_app. cbn [map]. f_equal. f_equal.
      * apply map_ext_elem. intros x Hx. rewrite Hmsg. unfold msg_of.
        cbn [lock.set_q alloc lock.heap].
        rewrite lookup_app_l by (apply (inv_valid _ _ HI); exact Hx). reflexivity.
      * rewrite Hmsg. unfold msg_of. cbn [lock.set_q alloc lock.heap].
        rewrite list_lookup_middle by reflexivity. reflexivity.
  - intros p st' HD.
    rewrite (HQ st') by (eapply run_Dequeue; eauto).
    destruct (Dequeue_pass _ _ _ HD) as (i & Hi & _ & Hpass).
    destruct (setQ_frame _ _ _ Hpass) as (Hq & _ & _ & _ & _ & _ & Hmsg & _).
    exists i. split; [exact Hi|]. rewrite Hq, <- map_delete. f_equal.
    apply map_ext_elem. intros x _. rewrite Hmsg. reflexivity.
Qed.

Lemma X17_Queue_lists_the_messages_witness :
  (wf_set all8 /\ running all8 ex_shared33) /\
  lock.Queue ex_shared33 = Ok ["a"; "b"]%string.
Proof.
  split; [split; [exact wf_all8|exact running_ex_shared33]|].
  rewrite (proj1 (X17_Queue_lists_the_messages all8 ex_shared33 wf_all8 running_ex_shared33)).
  reflexivity.
Defined.

(** * The governor: targets, saving and restoring *)

Section governor_more.

Context {Domain HW : Type}.
Variable Domains : HW -> list Domain * option error.
Variable CurrentRange : Domain -> HW -> Z * Z * option error.
Variable AvailableRange : Domain -> HW -> Z * Z * list Z.
Variable SetRange : Domain -> Z -> Z -> HW -> HW * option error.

Lemma int64_small z : - 2 ^ 63 <= z < 2 ^ 63 -> daemon.int64 z = z.
Proof. intros H. unfold daemon.int64. rewrite Z.mod_small by lia. lia. Qed.

Lemma abs_small z : - 2 ^ 63 < z < 2 ^ 63 -> daemon.abs z = Z.abs z.
Proof.
  intros H. unfold daemon.abs. destruct (Z.ltb_spec z 0).
  - rewrite int64_small by lia. lia.
  - lia.
Qed.

Lemma closest_fold t c0 l :
  - 2 ^ 62 < t < 2 ^ 62 -> 0 <= c0 < 2 ^ 62 -> Forall (fun a => 0 <= a < 2 ^ 62) l ->
  let c := foldl (fun closest a =>
                    if daemon.abs (daemon.int64 (t - a)) <? daemon.abs (daemon.int64 (t - closest))
                    then a else closest) c0 l in
  (c = c0 /\ forall a, a ∈ l -> Z.abs (t - c0) <= Z.abs (t - a)) \/
  (exists k, l !! k = Some c /\ Z.abs (t - c) < Z.abs (t - c0) /\
     (forall a, a ∈ l -> Z.abs (t - c) <= Z.abs (t - a)) /\
     (forall j a, (j < k)%nat -> l !! j = Some a -> Z.abs (t - c) < Z.abs (t - a))).
Proof.
  intros Ht. revert c0. induction l as [|a l IH]; intros c0 Hc0 Hl.
  - left. split; [reflexivity|]. intros a Ha. apply not_elem_of_nil in Ha. contradiction.
  - apply Forall_cons in Hl as [Ha Hl]. cbn [foldl].
    rewrite !int64_small, !abs_small by lia.
    destruct (Z.ltb_spec (Z.abs (t - a)) (Z.abs (t - c0))) as [Hlt|Hge].
    + destruct (IH a Ha Hl) as [[E Hmin]|(k & Hk & Hs & Hmin & Hpre)].
      * right. exists 0%nat. cbn zeta in E. rewrite E.
        split; [reflexivity|]. split; [exact Hlt|]. split.
        -- intros x Hx. apply elem_of_cons in Hx as [->|Hx]; [lia|auto].
        -- intros j x Hj. lia.
      * right. exists (S k). split; [exact Hk|]. split; [lia|]. split.
        -- intros x Hx. apply elem_of_cons in Hx as [->|Hx]; [lia|auto].
        -- intros [|j] x Hj Hx; [injection Hx as <-; lia|].
           apply (Hpre j x); [lia|exact Hx].
    + destruct (IH c0 Hc0 Hl) as [[E Hmin]|(k & Hk & Hs & Hmin & Hpre)].
      * left. split; [exact E|].
        intros x Hx. apply elem_of_cons in Hx as [->|Hx]; [lia|auto].
      * right. exists (S k). split; [exact Hk|]. split; [exact Hs|]. split.
        -- intros x Hx. apply elem_of_cons in Hx as [->|Hx]; [lia|auto].
        -- intros [|j] x Hj Hx; [injection Hx as <-; lia|].
           apply (Hpre j x); [lia|exact Hx].
Qed.

Lemma closest_nearest t h l :
  - 2 ^ 62 < t < 2 ^ 62 -> Forall (fun a => 0 <= a < 2 ^ 62) (h :: l) ->
  exists k, (h :: l) !! k = Some (daemon.closest t (h :: l)) /\
    (forall a, a ∈ h :: l ->
       Z.abs (t - daemon.closest t (h :: l)) <= Z.abs (t - a)) /\
    (forall j a, (j < k)%nat -> (h :: l) !! j = Some a ->
       Z.abs (t - daemon.closest t (h :: l)) < Z.abs (t - a)).
Proof.
  intros Ht Hl.
  pose proof (Forall_cons_1 _ _ _ Hl) as [Hh _].
  pose proof (closest_fold t h (h :: l) Ht Hh Hl) as H. cbn zeta in H.
  change (foldl _ h (h :: l)) with (daemon.closest t (h :: l)) in H.
  destruct H as [[E Hmin]|(k & Hk & _ & Hmin & Hpre)].
  - rewrite E. exists 0%nat. split; [reflexivity|]. split; [exact Hmin|].
    intros j a Hj. lia.
  - exists k. auto.
Qed.

Lemma ideal_between percent mn mx :
  0 <= percent <= 100 -> 0 <= mn <= mx -> mn <= ideal percent mn mx <= mx.
Proof.
  intros Hp Hm. unfold ideal.
  assert (0 <= (mx - mn) * percent <= (mx - mn) * 100) as Hprod by nia.
  rewrite Z.quot_div_nonneg by lia.
  assert (0 <= (mx - mn) * percent / 100) by (apply Z.div_pos; lia).
  assert ((mx - mn) * percent / 100 <= mx - mn).
  { apply Z.div_le_upper_bound; lia. }
  lia.
Qed.

(** The second loop of [setGovernor] pins every domain in turn. *)
Lemma setGovernor_apply_pins percent ds hw :
  (forall d h, sane_range (AvailableRange d h)) -> 0 <= percent <= 100 ->
  pins AvailableRange SetRange percent ds hw
    (fst (daemon.setGovernor_apply AvailableRange SetRange ds percent hw))
    (snd (daemon.setGovernor_apply AvailableRange SetRange ds percent hw)).
Proof.
  intros Hsane Hp. revert hw. induction ds as [|d ds IH]; intros hw; [constructor|].
  cbn [daemon.setGovernor_apply].
  pose proof (Hsane d hw) as Hs.
  destruct (AvailableRange d hw) as [[mn mx] avail] eqn:EA.
  destruct Hs as (Hm & Hx & Ha). cbn [fst snd] in Hm, Hx, Ha.
  pose proof (ideal_between percent mn mx Hp Hm) as Hid.
  assert (0 <= (mx - mn) * percent <= (mx - mn) * 100) as Hprod by nia.
  assert (daemon.int64 (Z.quot (daemon.int64 (daemon.int64 (mx - mn) * percent)) 100 + mn)
          = ideal percent mn mx) as Et.
  { rewrite (int64_small (mx - mn)) by lia.
    rewrite (int64_small ((mx - mn) * percent)) by lia.
    fold (ideal percent mn mx). apply int64_small. lia. }
  rewrite Et.
  set (t := if (length avail =? 0)%nat then ideal percent mn mx
            else daemon.closest (ideal percent mn mx) avail).
  assert (target_ok percent mn mx avail t) as Htok.
  { subst t. destruct avail as [|h l]; cbn [length Nat.eqb target_ok]; [auto|].
    apply closest_nearest; [lia|exact Ha]. }
  destruct (SetRange d t t hw) as [hw' [e|]] eqn:ES.
  - cbn [fst snd]. eapply pins_fail; eauto.
  - eapply pins_step; eauto.
Qed.

(** ** Machines that read back what was written *)

Section laws.

Hypothesis set_get : forall d mn mx h h',
  SetRange d mn mx h = (h', None) -> CurrentRange d h' = (mn, mx, None).
Hypothesis set_other : forall d d' mn mx h,
  d' <> d -> CurrentRange d' (fst (SetRange d mn mx h)) = CurrentRange d' h.

Lemma restore_other olds h d :
  d ∉ map daemon.domain olds ->
  CurrentRange d (restore_hw SetRange olds h) = CurrentRange d h.
Proof.
  revert h. induction olds as [|g olds IH]; intros h Hn; [reflexivity|].
  cbn [map] in Hn. apply not_elem_of_cons in Hn as [Hne Hn].
  cbn [restore_hw]. rewrite IH by exact Hn. apply set_other. exact Hne.
Qed.

Lemma restore_reads olds h :
  NoDup (map daemon.domain olds) ->
  first_error (restore_calls SetRange olds h) = None ->
  forall g, g ∈ olds ->
    CurrentRange (daemon.domain g) (restore_hw SetRange olds h)
    = (daemon.min g, daemon.max g, None).
Proof.
  revert h. induction olds as [|g0 olds IH]; intros h Hnd Hok g Hg.
  { apply not_elem_of_nil in Hg. contradiction. }
  cbn [map] in Hnd. apply NoDup_cons in Hnd as [Hn0 Hnd].
  cbn [restore_calls restore_hw] in *.
  destruct (SetRange (daemon.domain g0) (daemon.min g0) (daemon.max g0) h) as [h' e] eqn:ES.
  cbn [fst]. destruct e as [e|]; [discriminate|]. cbn [first_error] in Hok.
  apply elem_of_cons in Hg as [->|Hg].
  - rewrite restore_other by exact Hn0. eapply set_get; eauto.
  - apply IH; assumption.
Qed.

Lemma apply_other percent ds h d :
  d ∉ ds ->
  CurrentRange d (fst (daemon.setGovernor_apply AvailableRange SetRange ds percent h))
  = CurrentRange d h.
Proof.
  revert h. induction ds as [|d0 ds IH]; intros h Hn; [reflexivity|].
  apply not_elem_of_cons in Hn as [Hne Hn]. cbn [daemon.setGovernor_apply].
  destruct (AvailableRange d0 h) as [[mn mx] avail].
  match goal with |- context [SetRange d0 ?t ?t h] =>
    pose proof (set_other d0 d t t h Hne) as Ho;
    destruct (SetRange d0 t t h) as [h' [e|]] end.
  - cbn [fst] in *. exact Ho.
  - cbn [fst] in Ho. rewrite IH by exact Hn. exact Ho.
Qed.

Lemma apply_reads percent ds h h' :
  NoDup ds ->
  daemon.setGovernor_apply AvailableRange SetRange ds percent h = (h', None) ->
  forall d, d ∈ ds -> exists t, CurrentRange d h' = (t, t, None).
Proof.
  revert h. induction ds as [|d0 ds IH]; intros h Hnd H d Hd.
  { apply not_elem_of_nil in Hd. contradiction. }
  apply NoDup_cons in Hnd as [Hn0 Hnd]. cbn [daemon.setGovernor_apply] in H.
  destruct (AvailableRange d0 h) as [[mn mx] avail].
  match type of H with context [SetRange d0 ?t ?t h] => set (t0 := t) in * end.
  destruct (SetRange d0 t0 t0 h) as [h1 [e|]] eqn:ES; [discriminate|].
  pose proof (set_get _ _ _ _ _ ES) as Hget.
  apply elem_of_cons in Hd as [->|Hd].
  - exists t0. rewrite <- Hget.
    replace h' with (fst (daemon.setGovernor_apply AvailableRange SetRange ds percent h1))
      by (rewrite H; reflexivity).
    apply apply_other. exact Hn0.
  - eapply IH; eauto.
Qed.

End laws.

End governor_more.

(** X18. The nearest available frequency. For frequencies in the range of
    cpufreq, [closest] returns an element of the list that is at least
    as near to the target as every other element, and of several
    equally near elements the first one. *)
Theorem X18_closest_is_nearest (target : Z) (avail : list Z) :
  avail <> [] -> - 2 ^ 62 < target < 2 ^ 62 ->
  Forall (fun a => 0 <= a < 2 ^ 62) avail ->
  exists k, avail !! k = Some (daemon.closest target avail) /\
    (forall a, a ∈ avail ->
       Z.abs (target - daemon.closest target avail) <= Z.abs (target - a)) /\
    (forall j a, (j < k)%nat -> avail !! j = Some a ->
       Z.abs (target - daemon.closest target avail) < Z.abs (target - a)).
Proof.
  intros Hne Ht Ha. destruct avail as [|h l]; [contradiction|].
  apply closest_nearest; assumption.
Qed.

Lemma X18_closest_is_nearest_witness :
  daemon.closest 1850 [800; 1500; 2200; 3000] = 1500 /\
  exists k, [800; 1500; 2200; 3000] !! k = Some (daemon.closest 1850 [800; 1500; 2200; 3000]).
Proof.
  split; [reflexivity|].
  destruct (X18_closest_is_nearest 1850 [800; 1500; 2200; 3000]) as (k & Hk & _).
  - discriminate.
  - lia.
  - repeat constructor; lia.
  - exists k. exact Hk.
Defined.

(** X19. The outcome of [setGovernor], for a percentage between 0 and 100
    and frequencies in the range of cpufreq. Either it fails before it
    writes anything, and the session and the machine are as before; or
    it has saved the current range of every domain in the session, and
    has then pinned the domains one after the other, minimum and maximum
    alike, to the frequency [percent] of the way from the lowest to the
    highest one, or to the nearest listed frequency, up to the first
    write that fails. *)
Theorem X19_setGovernor_outcome
    {Domain HW : Type}
    (Domains : HW -> list Domain * option error)
    (CurrentRange : Domain -> HW -> Z * Z * option error)
    (AvailableRange : Domain -> HW -> Z * Z * list Z)
    (SetRange : Domain -> Z -> Z -> HW -> HW * option error)
    (percent : Z) (s : daemon.Server Domain) (hw : HW) :
  (forall d h, sane_range (AvailableRange d h)) -> 0 <= percent <= 100 ->
  exists s' hw' err,
    daemon.setGovernor Domains CurrentRange AvailableRange SetRange percent s hw
      = (s', hw', err) /\
    ((s' = s /\ hw' = hw /\ err <> None) \/
     (exists ds, Domains hw = (ds, None) /\ ds <> [] /\
        Forall (fun d => snd (CurrentRange d hw) = None) ds /\
        s' = daemon.mkServer (daemon.userName s) (daemon.locker s) (daemon.acquiring s)
               (Some (map (saved CurrentRange hw) ds)) /\
        pins AvailableRange SetRange percent ds hw hw' err)).
Proof.
  intros Hsane Hp. unfold daemon.setGovernor.
  destruct (Domains hw) as [ds [e|]] eqn:ED.
  { exists s, hw, (Some e). split; [reflexivity|]. left. repeat split. discriminate. }
  destruct ds as [|d0 ds'] eqn:Eds.
  { cbn [length Nat.eqb]. eexists s, hw, _. split; [reflexivity|]. left.
    repeat split. discriminate. }
  rewrite <- Eds in *. assert ((length ds =? 0)%nat = false) as -> by (subst ds; reflexivity).
  destruct (daemon.setGovernor_save CurrentRange ds hw []) as [old|e] eqn:ES.
  2:{ exists s, hw, (Some e). split; [reflexivity|]. left. repeat split. discriminate. }
  destruct (setGovernor_save_ok CurrentRange ds hw [] old ES) as [Hok ->].
  pose proof (setGovernor_apply_pins AvailableRange SetRange percent ds hw Hsane Hp) as HP.
  destruct (daemon.setGovernor_apply AvailableRange SetRange ds percent hw) as [hw' err].
  eexists _, hw', err. split; [reflexivity|]. right.
  exists ds. split; [reflexivity|]. split; [subst ds; discriminate|].
  split; [exact Hok|]. split; [reflexivity|exact HP].
Qed.

Lemma box_sane d h : sane_range (box_AvailableRange d h).
Proof.
  unfold sane_range, box_AvailableRange. cbn [fst snd].
  split; [lia|]. split; [lia|]. destruct (d =? 1)%nat; repeat constructor; lia.
Qed.

Lemma X19_setGovernor_outcome_witness :
  ((forall d h, sane_range (box_AvailableRange d h)) /\ 0 <= 50 <= 100) /\
  exists s' hw' err,
    daemon.setGovernor box_Domains box_CurrentRange box_AvailableRange box_SetRange 50
      (daemon.mkServer "alice" (Some 0%nat) false None) box0 = (s', hw', err) /\
    (hw' 0%nat, hw' 1%nat, err) = ((1900, 1900), (2200, 2200), None).
Proof.
  split; [split; [exact box_sane|lia]|].
  destruct (X19_setGovernor_outcome box_Domains box_CurrentRange box_AvailableRange
              box_SetRange 50 (daemon.mkServer "alice" (Some 0%nat) false None) box0
              box_sane ltac:(lia)) as (s' & hw' & err & H & _).
  exists s', hw', err. split; [exact H|].
  vm_compute in H. injection H as _ <- <-. reflexivity.
Defined.

(** X20. Governor round trip. On a machine that reads back what was
    written (a successful [SetRange] of a domain is what [CurrentRange]
    of that domain returns afterwards, and it leaves the other domains
    alone), a session without saved settings that calls [setGovernor]
    and is then dropped leaves every domain with the range it had before
    the call, provided that the restoring writes succeed; this holds
    also when [setGovernor] itself failed half way. *)
Theorem X20_governor_round_trip
    {Domain HW : Type}
    (Domains : HW -> list Domain * option error)
    (CurrentRange : Domain -> HW -> Z * Z * option error)
    (AvailableRange : Domain -> HW -> Z * Z * list Z)
    (SetRange : Domain -> Z -> Z -> HW -> HW * option error)
    (percent : Z) (s s1 : daemon.Server Domain) (hw hw1 : HW) (err : option error)
    (ds : list Domain) (st : lock.state)
    (s2 : daemon.Server Domain) (hw2 : HW) (st2 : lock.state) :
  (forall d mn mx h h', SetRange d mn mx h = (h', None) ->
                        CurrentRange d h' = (mn, mx, None)) ->
  (forall d d' mn mx h, d' <> d ->
                        CurrentRange d' (fst (SetRange d mn mx h)) = CurrentRange d' h) ->
  Domains hw = (ds, None) -> NoDup ds -> daemon.oldGovernors s = None ->
  daemon.setGovernor Domains CurrentRange AvailableRange SetRange percent s hw
    = (s1, hw1, err) ->
  snd (daemon.restoreGovernor SetRange s1 hw1) = None ->
  daemon.drop SetRange s1 hw1 st = Ok (s2, hw2, st2) ->
  daemon.oldGovernors s2 = None /\
  forall d, d ∈ ds -> CurrentRange d hw2 = CurrentRange d hw.
Proof.
  intros Hget Hother HD Hnd Hnone HS Hrest Hdrop.
  unfold daemon.setGovernor in HS. rewrite HD in HS.
  assert (forall (x : daemon.Server Domain) h,
            daemon.oldGovernors x = None ->
            daemon.drop SetRange x h st = Ok (s2, hw2, st2) ->
            daemon.oldGovernors s2 = None /\ hw2 = h) as Hnodrop.
  { intros x h Hx. unfold daemon.drop. rewrite Hx.
    destruct (daemon.locker x) as [p|].
    - destruct (lock.Dequeue p st); [|discriminate]. cbn [mbind result_bind].
      intros [= <- <- <-]. cbn. auto.
    - intros [= <- <- <-]. auto. }
  destruct (length ds =? 0)%nat.
  { injection HS as <- <- <-. destruct (Hnodrop s hw Hnone Hdrop) as [H1 ->]. auto. }
  destruct (daemon.setGovernor_save CurrentRange ds hw []) as [old|e] eqn:ES.
  2:{ injection HS as <- <- <-. destruct (Hnodrop s hw Hnone Hdrop) as [H1 ->]. auto. }
  destruct (setGovernor_save_ok CurrentRange ds hw [] old ES) as [Hok ->].
  cbn [app] in *.
  destruct (daemon.setGovernor_apply AvailableRange SetRange ds percent hw)
    as [hwa erra] eqn:EA.
  injection HS as <- <- <-.
  unfold daemon.restoreGovernor in Hrest. cbn [daemon.oldGovernors default] in Hrest.
  rewrite restoreGovernor_foldl in Hrest. cbn [snd] in Hrest.
  unfold daemon.drop in Hdrop. cbn [daemon.oldGovernors daemon.locker] in Hdrop.
  unfold daemon.restoreGovernor in Hdrop. cbn [daemon.oldGovernors default] in Hdrop.
  rewrite restoreGovernor_foldl in Hdrop. cbn [fst] in Hdrop.
  set (olds := map (fun d' => daemon.mkGovernorSettings d'
                                (fst (fst (CurrentRange d' hw)))
                                (snd (fst (CurrentRange d' hw)))) ds) in *.
  assert (daemon.oldGovernors s2 = None /\ hw2 = restore_hw SetRange olds hwa) as [H1 ->].
  { destruct (daemon.locker s) as [p|].
    - destruct (lock.Dequeue p st); [|discriminate]. cbn [mbind result_bind] in Hdrop.
      injection Hdrop as <- <- <-. cbn. auto.
    - injection Hdrop as <- <- <-. cbn. auto. }
  split; [exact H1|]. intros d Hd.
  assert (map daemon.domain olds = ds) as Edom.
  { subst olds. rewrite map_map. cbn [daemon.domain]. apply map_id. }
  set (g := daemon.mkGovernorSettings d (fst (fst (CurrentRange d hw)))
              (snd (fst (CurrentRange d hw)))).
  assert (g ∈ olds) as Hg.
  { subst olds g. apply list_elem_of_In, in_map_iff. exists d.
    split; [reflexivity|]. apply list_elem_of_In. exact Hd. }
  pose proof (restore_reads CurrentRange SetRange Hget Hother olds hwa
                ltac:(rewrite Edom; exact Hnd) Hrest g Hg) as Hr.
  cbn [daemon.domain daemon.min daemon.max g] in Hr. rewrite Hr.
  rewrite Forall_forall in Hok. specialize (Hok d Hd).
  destruct (CurrentRange d hw) as [[mn mx] e]. cbn [snd] in Hok. subst e. reflexivity.
Qed.

Lemma box_set_get d mn mx (h h' : nat -> Z * Z) :
  box_SetRange d mn mx h = (h', None) -> box_CurrentRange d h' = (mn, mx, None).
Proof.
  unfold box_SetRange, box_CurrentRange. intros [= <-]. rewrite Nat.eqb_refl. reflexivity.
Qed.

Lemma box_set_other d d' mn mx (h : nat -> Z * Z) :
  d' <> d -> box_CurrentRange d' (fst (box_SetRange d mn mx h)) = box_CurrentRange d' h.
Proof.
  intros Hne. unfold box_SetRange, box_CurrentRange. cbn [fst].
  destruct (Nat.eqb_spec d' d); [contradiction|reflexivity].
Qed.

Lemma NoDup_box : NoDup [0; 1]%nat.
Proof.
  apply NoDup_cons. split; [|apply NoDup_singleton].
  rewrite list_elem_of_singleton. discriminate.
Qed.

Lemma X20_governor_round_trip_witness :
  let s := daemon.mkServer "alice" None false None in
  exists s1 hw1 s2 hw2,
    daemon.setGovernor box_Domains box_CurrentRange box_AvailableRange box_SetRange 50 s box0
      = (s1, hw1, None) /\
    box_CurrentRange 1%nat hw1 = (2200, 2200, None) /\
    daemon.drop box_SetRange s1 hw1 (lock.init all8) = Ok (s2, hw2, lock.init all8) /\
    box_CurrentRange 1%nat hw2 = (1000, 2000, None).
Proof.
  intros s.
  destruct (daemon.setGovernor box_Domains box_CurrentRange box_AvailableRange box_SetRange
              50 s box0) as [[s1 hw1] err] eqn:HS.
  destruct (daemon.drop box_SetRange s1 hw1 (lock.init all8)) as [[[s2 hw2] st2]|] eqn:HD.
  2:{ exfalso. vm_compute in HS. injection HS as <- <- <-. vm_compute in HD. discriminate. }
  assert (err = None) as ->.
  { pose proof HS as HS'. vm_compute in HS'. injection HS' as _ _ <-. reflexivity. }
  assert (st2 = lock.init all8) as ->.
  { pose proof HS as HS'. vm_compute in HS'. injection HS' as <- <-.
    pose proof HD as HD'. vm_compute in HD'. injection HD' as _ _ <-. reflexivity. }
  assert (snd (daemon.restoreGovernor box_SetRange s1 hw1) = None) as Hrest.
  { pose proof HS as HS'. vm_compute in HS'. injection HS' as <- <-. reflexivity. }
  assert (box_CurrentRange 1%nat hw1 = (2200, 2200, None)) as Hpin.
  { pose proof HS as HS'. vm_compute in HS'. injection HS' as _ <-. reflexivity. }
  exists s1, hw1, s2, hw2. split; [first [exact HS|reflexivity]|].
  split; [exact Hpin|]. split; [first [exact HD|reflexivity]|].
  destruct (X20_governor_round_trip box_Domains box_CurrentRange box_AvailableRange
              box_SetRange 50 s s1 box0 hw1 None [0; 1]%nat (lock.init all8) s2 hw2
              (lock.init all8) box_set_get box_set_other eq_refl
              NoDup_box eq_refl HS Hrest HD) as [_ H].
  apply (H 1%nat). right. left.
Defined.

(** X21. A second [setGovernor] in the same session. On a machine that
    reads back what was written, after one successful [setGovernor] a
    second call that gets past its save phase has replaced the saved
    settings by the pinned ones: in every saved entry minimum and maximum
    are equal, so the ranges from before the first call are no longer
    known to the session. *)
Theorem X21_second_setGovernor_saves_pinned
    {Domain HW : Type}
    (Domains : HW -> list Domain * option error)
    (CurrentRange : Domain -> HW -> Z * Z * option error)
    (AvailableRange : Domain -> HW -> Z * Z * list Z)
    (SetRange : Domain -> Z -> Z -> HW -> HW * option error)
    (p1 p2 : Z) (s s1 s2 : daemon.Server Domain) (hw hw1 hw2 : HW) (err2 : option error)
    (ds : list Domain) :
  (forall d mn mx h h', SetRange d mn mx h = (h', None) ->
                        CurrentRange d h' = (mn, mx, None)) ->
  (forall d d' mn mx h, d' <> d ->
                        CurrentRange d' (fst (SetRange d mn mx h)) = CurrentRange d' h) ->
  Domains hw = (ds, None) -> Domains hw1 = (ds, None) -> NoDup ds ->
  daemon.setGovernor Domains CurrentRange AvailableRange SetRange p1 s hw
    = (s1, hw1, None) ->
  daemon.setGovernor Domains CurrentRange AvailableRange SetRange p2 s1 hw1
    = (s2, hw2, err2) ->
  daemon.oldGovernors s2 <> daemon.oldGovernors s1 ->
  exists olds, daemon.oldGovernors s2 = Some olds /\
    map daemon.domain olds = ds /\
    forall g, g ∈ olds ->
      daemon.min g = daemon.max g /\
      CurrentRange (daemon.domain g) hw1 = (daemon.min g, daemon.max g, None).
Proof.
  intros Hget Hother HD HD1 Hnd H1 H2 Hchg.
  unfold daemon.setGovernor in H1. rewrite HD in H1.
  destruct (length ds =? 0)%nat eqn:El; [discriminate|].
  destruct (daemon.setGovernor_save CurrentRange ds hw []) as [old|e]; [|discriminate].
  destruct (daemon.setGovernor_apply AvailableRange SetRange ds p1 hw) as [hwa erra] eqn:EA.
  injection H1 as <- Eh ->. subst hwa.
  pose proof (apply_reads CurrentRange AvailableRange SetRange Hget Hother p1 ds hw hw1
                Hnd EA) as Hpin.
  unfold daemon.setGovernor in H2. rewrite HD1, El in H2.
  destruct (daemon.setGovernor_save CurrentRange ds hw1 []) as [old2|e] eqn:ES2.
  2:{ injection H2 as <- _ _. contradiction. }
  destruct (setGovernor_save_ok CurrentRange ds hw1 [] old2 ES2) as [Hok ->].
  cbn [app] in *.
  destruct (daemon.setGovernor_apply AvailableRange SetRange ds p2 hw1) as [hwb errb].
  injection H2 as <- _ _. cbn [daemon.oldGovernors].
  eexists. split; [reflexivity|]. split.
  { rewrite map_map. cbn [daemon.domain]. apply map_id. }
  intros g Hg. apply list_elem_of_In, in_map_iff in Hg as (d & <- & Hd).
  apply list_elem_of_In in Hd. cbn [daemon.min daemon.max daemon.domain].
  destruct (Hpin d Hd) as [t Ht]. rewrite Ht. cbn [fst snd]. auto.
Qed.

Lemma X21_second_setGovernor_saves_pinned_witness :
  let s := daemon.mkServer "alice" (Some 0%nat) false None in
  exists s1 hw1 s2 hw2 olds,
    daemon.setGovernor box_Domains box_CurrentRange box_AvailableRange box_SetRange 50 s box0
      = (s1, hw1, None) /\
    daemon.setGovernor box_Domains box_CurrentRange box_AvailableRange box_SetRange 90 s1 hw1
      = (s2, hw2, None) /\
    daemon.oldGovernors s2 = Some olds /\
    forall g, g ∈ olds -> daemon.min g = daemon.max g.
Proof.
  intros s.
  destruct (daemon.setGovernor box_Domains box_CurrentRange box_AvailableRange box_SetRange
              50 s box0) as [[s1 hw1] err1] eqn:H1.
  assert (err1 = None) as ->.
  { pose proof H1 as H1'. vm_compute in H1'. injection H1' as _ _ <-. reflexivity. }
  destruct (daemon.setGovernor box_Domains box_CurrentRange box_AvailableRange box_SetRange
              90 s1 hw1) as [[s2 hw2] err2] eqn:H2.
  assert (err2 = None /\ daemon.oldGovernors s2 <> daemon.oldGovernors s1) as [-> Hchg].
  { pose proof H1 as H1'. vm_compute in H1'. injection H1' as <- <-.
    pose proof H2 as H2'. vm_compute in H2'. injection H2' as <- _ <-.
    split; [reflexivity|discriminate]. }
  destruct (X21_second_setGovernor_saves_pinned box_Domains box_CurrentRange
              box_AvailableRange box_SetRange 50 90 s s1 s2 box0 hw1 hw2 None [0; 1]%nat
              box_set_get box_set_other eq_refl eq_refl
              NoDup_box H1 H2 Hchg) as (olds & Ho & _ & Hg).
  exists s1, hw1, s2, hw2, olds. split; [first [exact H1|reflexivity]|].
  split; [first [exact H2|reflexivity]|].
  split; [exact Ho|]. intros g Hin. apply (Hg g Hin).
Defined.

(** * The daemon and its sessions *)

Section daemon_theory.

Context {Domain HW : Type}.
Variable Domains : HW -> list Domain * option error.
Variable CurrentRange : Domain -> HW -> Z * Z * option error.
Variable AvailableRange : Domain -> HW -> Z * Z * list Z.
Variable SetRange : Domain -> Z -> Z -> HW -> HW * option error.
Variable allowedList : Z -> string * option error.
Variable now : string.
Variable Encode : daemon.message -> bool.
Variable allCores : unix.CPUSet.
Variable Error : error -> string.

Import daemon.

Local Abbreviation Select := (Serve_select Domains CurrentRange AvailableRange SetRange
                              allowedList now Encode allCores Error).
Local Abbreviation Step := (daemon_step Domains CurrentRange AvailableRange SetRange
                            allowedList now Encode allCores Error).
Local Abbreviation Runs := (runs Domains CurrentRange AvailableRange SetRange
                            allowedList now Encode allCores Error).

(** The outcomes of the case [ActionAcquire]. *)
Lemma serveAcquire_cases a (s : Server Domain) st s' st' out fl :
  serveAcquire allowedList now Encode allCores a s st = Ok (s', st', out, fl) ->
  (s' = s /\ st' = st /\ fl = Return) \/
  (exists set msg r,
     wf_set set /\ acquiring s = false /\ locker s = None /\
     lock.Enqueue (Shared a) (NonBlocking a) (Cores a) set msg st = Ok (st', r) /\
     locker s' = r /\ userName s' = userName s /\ oldGovernors s' = oldGovernors s /\
     match r with
     | Some _ => acquiring s' = true /\ fl = Continue /\ out = []
     | None => acquiring s' = false
     end).
Proof.
  unfold serveAcquire.
  destruct (acquiring s) eqn:Ea; [intros [= <- <- <- <-]; auto|].
  destruct (locker s) as [p|] eqn:El; [intros [= <- <- <- <-]; auto|].
  destruct (cpuset_parse.CPUSetOfPid allowedList (Pid a)) as [[avail [e|]]|] eqn:EC;
    cbn [mbind result_bind]; [intros [= <- <- <- <-]; auto| |discriminate].
  apply CPUSetOfPid_wf in EC.
  destruct (lock.uint (unix.CPUSet_Count avail) <? Cores a)%N.
  { unfold send. intros [= <- <- <- <-]. auto. }
  match goal with |- context [lock.Enqueue ?sh ?nb ?c ?set ?m st] =>
    destruct (lock.Enqueue sh nb c set m st) as [[st1 r]|] eqn:EE; [|discriminate];
    set (themsg := m) in * end.
  cbn [mbind result_bind]. intros H. right. exists avail, themsg, r.
  split; [exact EC|]. split; [reflexivity|]. split; [reflexivity|].
  destruct r as [p|].
  - injection H as <- <- <- <-. cbn. auto 10.
  - unfold send in H. injection H as <- <- <- <-. cbn. auto 10.
Qed.

Lemma setGovernor_keeps percent (s : Server Domain) hw s' hw' err :
  setGovernor Domains CurrentRange AvailableRange SetRange percent s hw = (s', hw', err) ->
  locker s' = locker s /\ acquiring s' = acquiring s /\ userName s' = userName s.
Proof.
  unfold setGovernor. destruct (Domains hw) as [ds [e|]]; [intros [= <- _ _]; auto|].
  destruct (length ds =? 0)%nat; [intros [= <- _ _]; auto|].
  destruct (setGovernor_save CurrentRange ds hw []) as [old|e]; [|intros [= <- _ _]; auto].
  destruct (setGovernor_apply AvailableRange SetRange ds percent hw) as [hwa erra].
  intros [= <- _ _]. cbn. auto.
Qed.

Lemma Select_kind ev (s : Server Domain) st hw s' st' hw' out fl :
  Select ev s st hw = Some (Ok (s', st', hw', out, fl)) ->
  turn_kind s st s' st' fl.
Proof.
  destruct ev as [action| |]; cbn [Serve_select].
  - intros [= H]. unfold serveAction in H.
    destruct (acquiring s) eqn:Ea; [injection H as <- <- _ _ _; constructor 1; auto|].
    destruct action as [a| |percent|].
    + destruct (serveAcquire allowedList now Encode allCores a s st)
        as [[[[s1 st1] out1] fl1]|] eqn:ES; [|discriminate].
      cbn [mbind result_bind] in H. injection H as <- <- _ _ <-.
      destruct (serveAcquire_cases _ _ _ _ _ _ _ ES)
        as [(-> & -> & _)|(set & msg & r & Hw & _ & Hl & HE & Hr & _ & _ & Hm)].
      * constructor 1; auto.
      * eapply turn_enqueue; eauto.
        destruct r; [destruct Hm as (-> & _); split; [discriminate|reflexivity]|].
        rewrite Hm. split; [discriminate|contradiction].
    + destruct (lock.Queue st) as [list|]; [|discriminate]. cbn [mbind result_bind] in H.
      unfold send in H. injection H as <- <- _ _ _. constructor 1; auto.
    + destruct (locker s) as [p|] eqn:El; [|injection H as <- <- _ _ _; constructor 1; auto].
      destruct (setGovernor Domains CurrentRange AvailableRange SetRange percent s hw)
        as [[s1 hw1] err] eqn:EG.
      apply setGovernor_keeps in EG as (Hl & Ha & _).
      unfold send in H. injection H as <- <- _ _ _.
      constructor 1; [reflexivity|congruence|congruence].
    + injection H as <- <- _ _ _. constructor 1; auto.
  - intros [= <- <- _ _ _]. constructor 1; auto.
  - unfold serveGrant.
    destruct (acquiring s) eqn:Ea; [|discriminate].
    destruct (locker s) as [p|] eqn:El; [|discriminate].
    destruct (lock.recv p st) as [[v st1]|] eqn:ER; [|discriminate].
    destruct (lock.deref st1 p) as [l|]; [|discriminate]. cbn [mbind result_bind].
    unfold send. intros [= <- <- _ _ _].
    eapply turn_grant; eauto.
Qed.

Lemma drop_cases (s : Server Domain) hw st s' hw' st' :
  drop SetRange s hw st = Ok (s', hw', st') ->
  locker s' = None /\ oldGovernors s' = None /\
  ((locker s = None /\ st' = st) \/
   (exists p, locker s = Some p /\ lock.Dequeue p st = Ok st')).
Proof.
  unfold drop. destruct (oldGovernors s) as [olds|] eqn:Eo; cbn [locker].
  - destruct (locker s) as [p|] eqn:El.
    + destruct (lock.Dequeue p st) as [st1|] eqn:ED; [|discriminate].
      cbn [mbind result_bind]. intros [= <- _ <-]. cbn. eauto 10.
    + intros [= <- _ <-]. cbn. auto.
  - destruct (locker s) as [p|] eqn:El.
    + destruct (lock.Dequeue p st) as [st1|] eqn:ED; [|discriminate].
      cbn [mbind result_bind]. intros [= <- _ <-]. cbn. eauto 10.
    + intros [= <- _ <-]. auto.
Qed.

(** ** The invariant *)

Lemma live_insert (d : daemon_state Domain HW) i o st' (hw' : HW) j x :
  (i < length (sessions d))%nat ->
  live (mkDaemon (<[i := o]> (sessions d)) st' hw') j x <->
  (j = i /\ o = Some x) \/ (j <> i /\ live d j x).
Proof.
  intros Hi. unfold live. cbn [sessions].
  destruct (decide (j = i)) as [->|Hne].
  - rewrite list_lookup_insert_eq by exact Hi. split.
    + intros [= ->]. auto.
    + intros [[_ ->]|[Hn _]]; [reflexivity|contradiction].
  - rewrite list_lookup_insert_ne by congruence. split; [auto|].
    intros [[Hj _]|[_ H]]; [contradiction|exact H].
Qed.

Lemma DInv_step (d : daemon_state Domain HW) i s o' st' (hw' : HW) :
  DInv allCores d -> live d i s -> running allCores st' ->
  (forall p, p ∈ lock.q (theLock d) -> locker s <> Some p ->
     p ∈ lock.q st' /\ (wokenb (theLock d) p = true -> wokenb st' p = true)) ->
  (forall s' p, o' = Some s' -> locker s' = Some p ->
     (p ∈ lock.q st' /\ (acquiring s' = false -> wokenb st' p = true)) /\
     (locker s = Some p \/ p ∉ lock.q (theLock d))) ->
  (forall p, p ∈ lock.q st' ->
     (p ∈ lock.q (theLock d) /\ locker s <> Some p) \/
     (exists s', o' = Some s' /\ locker s' = Some p)) ->
  DInv allCores (mkDaemon (<[i := o']> (sessions d)) st' hw').
Proof.
  intros (Hrun & Hin & Hdist & Hown) Hlive Hrun' Hsurv Hself Hnew.
  assert (i < length (sessions d))%nat as Hi by (eapply lookup_lt_Some; exact Hlive).
  assert (forall j x p, j <> i -> live d j x -> locker x = Some p -> locker s <> Some p)
    as Hother.
  { intros j x p Hne Hx Hp Hs. apply Hne. exact (Hdist j i x s p Hx Hlive Hp Hs). }
  split; [exact Hrun'|]. cbn [theLock]. split; [|split].
  - intros j x p Hx Hp. apply live_insert in Hx as [[-> ->]|[Hne Hx]]; [| |exact Hi].
    + apply (Hself x p eq_refl Hp).
    + destruct (Hin j x p Hx Hp) as [Hq Hw].
      destruct (Hsurv p Hq (Hother j x p Hne Hx Hp)) as [Hq' Hw']. split; [exact Hq'|].
      intros Ha. apply Hw', Hw, Ha.
  - intros j k x1 x2 p H1 H2 Hp1 Hp2.
    apply live_insert in H1 as [[-> ->]|[Hne1 H1]]; [| |exact Hi];
      apply live_insert in H2 as [[-> E2]|[Hne2 H2]]; try exact Hi; try reflexivity.
    + exfalso. destruct (Hself x1 p eq_refl Hp1) as [_ [Hs|Hn]].
      * exact (Hother k x2 p Hne2 H2 Hp2 Hs).
      * apply Hn. apply (Hin k x2 p H2 Hp2).
    + exfalso. destruct (Hself x2 p E2 Hp2) as [_ [Hs|Hn]].
      * exact (Hother j x1 p Hne1 H1 Hp1 Hs).
      * apply Hn. apply (Hin j x1 p H1 Hp1).
    + exact (Hdist j k x1 x2 p H1 H2 Hp1 Hp2).
  - intros p Hp. destruct (Hnew p Hp) as [[Hq Hs]|(s' & -> & Hl)].
    + destruct (Hown p Hq) as (j & x & Hx & Hl).
      assert (j <> i) as Hne.
      { intros ->. unfold live in Hx, Hlive. rewrite Hlive in Hx. injection Hx as <-.
        contradiction. }
      exists j, x. split; [|exact Hl]. apply live_insert; [exact Hi|]. right. auto.
    + exists i, s'. split; [|exact Hl]. apply live_insert; [exact Hi|]. left. auto.
Qed.

Lemma wokenb_lookup st st' p :
  lock.heap st' !! p = lock.heap st !! p -> wokenb st' p = wokenb st p.
Proof. intros H. unfold wokenb. rewrite H. reflexivity. Qed.

(** A turn that goes on keeps the invariant. *)
Lemma DInv_turn (d : daemon_state Domain HW) i s s' st' (hw' : HW) fl :
  wf_set allCores -> DInv allCores d -> live d i s ->
  turn_kind s (theLock d) s' st' fl ->
  DInv allCores (mkDaemon (<[i := Some s']> (sessions d)) st' hw').
Proof.
  intros Hall HD Hlive Hk. pose proof HD as (Hrun & Hin & Hdist & Hown).
  destruct (running_Inv allCores _ Hall Hrun) as (HI & ws & us & HS).
  destruct Hk as [-> Hl Ha|sh nb want set msg r Hset Hl Ha HE Hr Hacq|p v Ha Hl HR Hl' Ha'].
  - apply (DInv_step d i s); [exact HD|exact Hlive|exact Hrun| | |].
    + intros p Hp _. auto.
    + intros x p [= <-] Hp. rewrite Hl in Hp. split; [|left; exact Hp].
      destruct (Hin i s p Hlive Hp) as [Hq Hw]. split; [exact Hq|].
      rewrite Ha. exact Hw.
    + intros p Hp. destruct (decide (locker s = Some p)) as [E|E]; [|left; auto].
      right. exists s'. split; [reflexivity|]. congruence.
  - destruct (Enqueue_effect allCores _ _ sh nb want set msg r Hall Hrun Hset HE)
      as (Hold & Hres).
    assert (forall p, p ∈ lock.q (theLock d) -> wokenb (theLock d) p = true ->
                      wokenb st' p = true) as Hmono.
    { intros p Hp Hw. destruct (lookup_lt_is_Some_2 _ _ (inv_valid _ _ HI p Hp)) as [l Hlk].
      unfold wokenb in *. rewrite (Hold p l Hlk). rewrite Hlk in Hw. exact Hw. }
    apply (DInv_step d i s); [exact HD|exact Hlive|eapply run_Enqueue; eauto| | |].
    + intros p Hp _. split; [|apply Hmono; exact Hp].
      destruct r as [pn|]; [destruct Hres as (_ & -> & _); apply elem_of_app; auto|].
      destruct Hres as (_ & -> & _). exact Hp.
    + intros x p [= <-] Hp. rewrite Hr in Hp.
      destruct r as [pn|]; [|discriminate]. injection Hp as ->.
      destruct Hres as (-> & Hq & _). split.
      * split; [rewrite Hq; apply elem_of_app; right; left|].
        intros Hf. exfalso. destruct Hacq as [_ Hacq].
        rewrite Hacq in Hf by discriminate. discriminate.
      * right. eapply fresh_not_queued; eauto.
    + intros p Hp. destruct r as [pn|].
      * destruct Hres as (-> & Hq & _). rewrite Hq in Hp.
        apply elem_of_app in Hp as [Hp|Hp].
        -- left. split; [exact Hp|]. rewrite Hl. discriminate.
        -- apply list_elem_of_singleton in Hp as ->. right. exists s'. auto.
      * destruct Hres as (_ & Hq & _). rewrite Hq in Hp. left.
        split; [exact Hp|]. rewrite Hl. discriminate.
  - destruct (recv_flags p v _ _ (inv_heap _ _ HI) HR) as (Hq & _ & _ & Hwp & Hf & _).
    assert (forall p', wokenb st' p' = wokenb (theLock d) p') as Fw by (intros p'; apply Hf).
    apply (DInv_step d i s); [exact HD|exact Hlive|eapply run_recv; eauto| | |].
    + intros p' Hp' _. rewrite Hq, Fw. auto.
    + intros x p' [= <-] Hp'. rewrite Hl' in Hp'. injection Hp' as <-.
      split; [|left; exact Hl]. rewrite Hq, Fw.
      split; [apply (Hin i s p Hlive Hl)|]. intros _. exact Hwp.
    + intros p' Hp'. rewrite Hq in Hp'.
      destruct (decide (locker s = Some p')) as [E|E]; [|left; auto].
      right. exists s'. split; [reflexivity|]. congruence.
Qed.

(** [drop] at the end of a session keeps the invariant. *)
Lemma DInv_drop (d : daemon_state Domain HW) i s s' (hw1 hw' : HW) st' :
  wf_set allCores -> DInv allCores d -> live d i s ->
  drop SetRange s hw1 (theLock d) = Ok (s', hw', st') ->
  DInv allCores (mkDaemon (<[i := None]> (sessions d)) st' hw').
Proof.
  intros Hall HD Hlive Hdrop. pose proof HD as (Hrun & Hin & Hdist & Hown).
  destruct (running_Inv allCores _ Hall Hrun) as (HI & _).
  destruct (drop_cases _ _ _ _ _ _ Hdrop) as (_ & _ & [[Hl ->]|(p & Hl & HDq)]).
  - apply (DInv_step d i s); [exact HD|exact Hlive|exact Hrun| | |].
    + intros p Hp _. auto.
    + intros x p [=].
    + intros p Hp. left. split; [exact Hp|]. rewrite Hl. discriminate.
  - destruct (Dequeue_effect allCores _ _ p Hall Hrun HDq)
      as ((k & Hk & Hq) & _ & _ & Hkeep & _).
    apply (DInv_step d i s); [exact HD|exact Hlive|eapply run_Dequeue; eauto| | |].
    + intros p' Hp' Hne. split.
      * rewrite Hq. apply (elem_of_delete_NoDup _ k p p' (inv_nodup _ _ HI) Hk).
        split; [exact Hp'|]. congruence.
      * intros Hw. rewrite (wokenb_lookup _ _ _ (Hkeep p' Hw)). exact Hw.
    + intros x p' [=].
    + intros p' Hp'. left. rewrite Hq in Hp'.
      apply (elem_of_delete_NoDup _ k p p' (inv_nodup _ _ HI) Hk) in Hp' as [Hp' Hne].
      split; [exact Hp'|]. congruence.
Qed.

Lemma DInv_ext (d d' : daemon_state Domain HW) :
  sessions d' = sessions d -> theLock d' = theLock d ->
  DInv allCores d -> DInv allCores d'.
Proof.
  intros Hs Hl. unfold DInv, live. rewrite Hs, Hl. auto.
Qed.

(** The invariant holds throughout a run. *)
Lemma runs_DInv d : wf_set allCores -> Runs d -> DInv allCores d.
Proof.
  intros Hall Hr. induction Hr as [hw|d e d' out Hr IH Hstep].
  - split; [constructor|]. unfold live. cbn.
    split; [intros i s p H; rewrite lookup_nil in H; discriminate|].
    split; [intros i j s1 s2 p H; rewrite lookup_nil in H; discriminate|].
    intros p Hp. apply not_elem_of_nil in Hp. contradiction.
  - destruct e as [cred|sid ev]; cbn [daemon_step] in Hstep.
    + injection Hstep as <- _. destruct IH as (Hrun & Hin & Hdist & Hown).
      assert (forall j x, live (mkDaemon (sessions d ++ [Serve_start cred]) (theLock d)
                                  (cpufreq d)) j x ->
                          live d j x \/ locker x = None) as Hl.
      { intros j x Hx. unfold live in *. cbn [sessions] in Hx.
        destruct (decide (j < length (sessions d))%nat) as [Hlt|Hge].
        - rewrite lookup_app_l in Hx by exact Hlt. auto.
        - rewrite lookup_app_r in Hx by lia.
          destruct (j - length (sessions d))%nat; [|cbn in Hx; discriminate].
          cbn in Hx. injection Hx as Hx. right.
          destruct cred as [name|]; [|discriminate]. injection Hx as <-. reflexivity. }
      split; [exact Hrun|]. cbn [theLock]. split; [|split].
      * intros j x p Hx Hp. destruct (Hl j x Hx) as [Hx'|E]; [eauto|congruence].
      * intros j k x1 x2 p H1 H2 Hp1 Hp2.
        destruct (Hl j x1 H1) as [H1'|E]; [|congruence].
        destruct (Hl k x2 H2) as [H2'|E]; [|congruence]. eauto.
      * intros p Hp. destruct (Hown p Hp) as (j & x & Hx & Hlk). exists j, x.
        split; [|exact Hlk]. unfold live in *. cbn [sessions].
        rewrite lookup_app_l; [exact Hx|]. eapply lookup_lt_Some; eauto.
    + destruct (sessions d !! sid) as [[s|]|] eqn:Hs; try discriminate.
      unfold Serve_turn in Hstep.
      destruct (Select ev s (theLock d) (cpufreq d)) as [[[[[[s1 st1] hw1] out1] fl]|]|]
        eqn:HSel; try discriminate; cbn [mbind result_bind] in Hstep.
      pose proof (Select_kind _ _ _ _ _ _ _ _ _ HSel) as Hk.
      pose proof (DInv_turn d sid s s1 st1 hw1 fl Hall IH Hs Hk) as HD1.
      destruct fl.
      * injection Hstep as <- _. exact HD1.
      * destruct (drop SetRange s1 hw1 st1) as [[[s2 hw2] st2]|] eqn:Hdrop; [|discriminate].
        cbn [mbind result_bind] in Hstep. injection Hstep as <- _.
        assert (live (mkDaemon (<[sid := Some s1]> (sessions d)) st1 hw1) sid s1) as Hl1.
        { unfold live. cbn [sessions]. apply list_lookup_insert_eq.
          eapply lookup_lt_Some; eauto. }
        pose proof (DInv_drop _ sid s1 s2 hw1 hw2 st2 Hall HD1 Hl1 Hdrop) as HD2.
        eapply DInv_ext; [| |exact HD2]; cbn [sessions theLock]; [|reflexivity].
        rewrite list_insert_insert_eq. reflexivity.
Qed.

Lemma runs_run_events evs d d' :
  Runs d ->
  run_events Domains CurrentRange AvailableRange SetRange allowedList now Encode allCores
    Error evs d = Some d' ->
  Runs d'.
Proof.
  revert d. induction evs as [|e evs IH]; intros d Hr H.
  - injection H as <-. exact Hr.
  - cbn [run_events] in H.
    destruct (Step e d) as [[[d1 out]|]|] eqn:Hs; try discriminate.
    apply (IH d1); [|exact H]. eapply runs_step; eauto.
Qed.

Lemma Intersect_disjoint a b :
  wf_set a -> wf_set b -> (forall i, bit a i = true -> bit b i = false) ->
  cpuset.Intersect a b = unix.CPUSet_Zero.
Proof.
  intros Wa Wb H. apply bit_ext; [apply wf_set_Intersect; assumption|apply wf_set_Zero|].
  intros i. rewrite bit_Intersect, bit_Zero.
  2:{ destruct Wa as [-> _]. destruct Wb as [-> _]. reflexivity. }
  destruct (bit a i) eqn:E; [|reflexivity]. rewrite (H i E). reflexivity.
Qed.

(** The grant: what [case <-acquireC] sends. *)
Lemma serveGrant_response (s : Server Domain) st r :
  wf_set allCores -> running allCores st ->
  (forall p, locker s = Some p -> p ∈ lock.q st) ->
  serveGrant Encode s st = Some r ->
  exists p st' resp,
    locker s = Some p /\ acquiring s = true /\
    lock.recv p st = Some (true, st') /\
    wokenb st p = true /\
    resp = MsgAcquireResponse
             (mkActionAcquireResponse true (assigned_of st p) EmptyString) /\
    r = Ok (mkServer (userName s) (Some p) false (oldGovernors s), st',
            [(resp, Encode resp)], if Encode resp then Continue else Return) /\
    lock.uint (unix.CPUSet_Count (assigned_of st p)) = want_of st p /\
    (forall i, bit (assigned_of st p) i = true ->
       bit allCores i = true /\ bit (lock.cores st) i = false) /\
    (forall p', p' ∈ lock.q st -> p' <> p ->
       cpuset.Intersect (assigned_of st p') (assigned_of st p) = unix.CPUSet_Zero).
Proof.
  intros Hall Hrun Hq. unfold serveGrant.
  destruct (acquiring s) eqn:Ea; [|discriminate].
  destruct (locker s) as [p|] eqn:El; [|discriminate].
  destruct (lock.recv p st) as [[v st1]|] eqn:ER; [|discriminate].
  destruct (running_Inv allCores st Hall Hrun) as (HI & _).
  destruct (recv_flags p v st st1 (inv_heap _ _ HI) ER) as (_ & _ & _ & Hw & Hf & _).
  pose proof (recv_shape _ _ _ _ ER) as (l & rest & Hl & Hch & E).
  assert (v = true) as ->.
  { pose proof (Forall_lookup_1 _ _ _ _ (running_chan_ok allCores st Hall Hrun) Hl)
      as [Hc|[Hc _]]; rewrite Hc in Hch; [discriminate|]. injection Hch as <- _. reflexivity. }
  assert (lock.heap st1 !! p = Some (lock.set_ch rest l)) as Hl1.
  { subst st1. cbn [lock.heap]. apply list_lookup_insert_eq. eapply lookup_lt_Some; eauto. }
  assert (assigned_of st p = lock.assignedCores l) as Ea'
    by (unfold assigned_of; rewrite Hl; reflexivity).
  rewrite (deref_Some _ _ _ Hl1). cbn [mbind result_bind]. unfold send.
  cbn [lock.set_ch lock.assignedCores]. rewrite <- Ea'.
  intros [= <-].
  exists p, st1, (MsgAcquireResponse
                    (mkActionAcquireResponse true (assigned_of st p) EmptyString)).
  split; [reflexivity|]. split; [reflexivity|]. split; [exact ER|]. split; [exact Hw|].
  split; [reflexivity|]. split; [reflexivity|].
  assert (lock.woken l = true) as Hwl by (unfold wokenb in Hw; rewrite Hl in Hw; exact Hw).
  destruct (Forall_lookup_1 _ _ _ _ (running_holds_ok allCores st Hall Hrun) Hl Hwl)
    as [Hcnt _].
  split; [rewrite Ea'; unfold want_of; rewrite Hl; exact Hcnt|].
  pose proof (Hq p eq_refl) as Hpq.
  split.
  - intros i Hi. destruct (inv_assigned _ _ HI p i Hpq Hi). auto.
  - intros p' Hp' Hne. apply Intersect_disjoint.
    + apply (wf_assigned_of allCores). exact HI.
    + apply (wf_assigned_of allCores). exact HI.
    + intros i Hi. apply (inv_disjoint _ _ HI p' p i Hp' Hpq Hne Hi).
Qed.

(** [drop]: what it leaves behind. *)
Lemma drop_effect (s : Server Domain) hw st s' hw' st' :
  wf_set allCores -> running allCores st ->
  drop SetRange s hw st = Ok (s', hw', st') ->
  locker s' = None /\ oldGovernors s' = None /\
  hw' = match oldGovernors s with
        | Some olds => restore_hw SetRange olds hw
        | None => hw
        end /\
  match locker s with
  | Some p => lock.Dequeue p st = Ok st' /\ (p ∉ lock.q st')
  | None => st' = st
  end /\
  drop SetRange s' hw' st' = Ok (s', hw', st').
Proof.
  intros Hall Hrun Hdrop.
  destruct (drop_cases _ _ _ _ _ _ Hdrop) as (Hl' & Ho' & Hcase).
  split; [exact Hl'|]. split; [exact Ho'|].
  assert (hw' = match oldGovernors s with
                | Some olds => restore_hw SetRange olds hw
                | None => hw
                end) as Eh.
  { unfold drop in Hdrop. destruct (oldGovernors s) as [olds|] eqn:Eo; cbn [locker] in Hdrop.
    - unfold restoreGovernor in Hdrop. rewrite Eo in Hdrop. cbn [default] in Hdrop.
      rewrite restoreGovernor_foldl in Hdrop. cbn [fst] in Hdrop.
      destruct (locker s) as [p|].
      + destruct (lock.Dequeue p st); [|discriminate]. cbn [mbind result_bind] in Hdrop.
        injection Hdrop as _ <- _. reflexivity.
      + injection Hdrop as _ <- _. reflexivity.
    - destruct (locker s) as [p|].
      + destruct (lock.Dequeue p st); [|discriminate]. cbn [mbind result_bind] in Hdrop.
        injection Hdrop as _ <- _. reflexivity.
      + injection Hdrop as _ <- _. reflexivity. }
  split; [exact Eh|]. split.
  - destruct Hcase as [[-> ->]|(p & -> & HD)]; [reflexivity|].
    split; [exact HD|].
    destruct (Dequeue_effect allCores _ _ p Hall Hrun HD) as (_ & Hn & _). exact Hn.
  - unfold drop. rewrite Ho', Hl'. reflexivity.
Qed.

End daemon_theory.

Section daemon_examples.

Lemma runs_ex_daemon :
  runs box_Domains box_CurrentRange box_AvailableRange box_SetRange
    ex_allowedList "Jan  2 15:04:05" ex_Encode all8 ex_Error ex_daemon.
Proof.
  apply (runs_run_events _ _ _ _ _ _ _ _ _ ex_events (daemon.daemon_init all8 box0));
    [apply runs_init|vm_compute; reflexivity].
Qed.

Lemma runs_ex_daemon_granting :
  runs box_Domains box_CurrentRange box_AvailableRange box_SetRange
    ex_allowedList "Jan  2 15:04:05" ex_Encode all8 ex_Error ex_daemon_granting.
Proof.
  apply (runs_run_events _ _ _ _ _ _ _ _ _ (take 3 ex_events) (daemon.daemon_init all8 box0));
    [apply runs_init|vm_compute; reflexivity].
Qed.

End daemon_examples.

(** X22. Mutual exclusion between clients. In every state of a run of the
    daemon, when a session has been granted a lock that is not shared,
    every other session whose [Serve] still runs holds nothing: it has
    no locker, or it is still waiting for its grant. *)
Theorem X22_daemon_exclusive_session_is_alone
    {Domain HW : Type}
    (Domains : HW -> list Domain * option error)
    (CurrentRange : Domain -> HW -> Z * Z * option error)
    (AvailableRange : Domain -> HW -> Z * Z * list Z)
    (SetRange : Domain -> Z -> Z -> HW -> HW * option error)
    (allowedList : Z -> string * option error) (now : string)
    (Encode : daemon.message -> bool) (allCores : unix.CPUSet) (Error : error -> string)
    (d : daemon.daemon_state Domain HW) (i : nat) (s1 : daemon.Server Domain) (p1 : nat) :
  wf_set allCores ->
  runs Domains CurrentRange AvailableRange SetRange allowedList now Encode allCores Error d ->
  live d i s1 -> holding s1 p1 -> sharedb (daemon.theLock d) p1 = false ->
  forall j s2, live d j s2 -> j <> i ->
    daemon.locker s2 = None \/ daemon.acquiring s2 = true.
Proof.
  intros Hall Hr Hl1 [Hp1 Ha1] Hsh j s2 Hl2 Hne.
  destruct (runs_DInv _ _ _ _ _ _ _ _ _ d Hall Hr) as (Hrun & Hin & Hdist & _).
  destruct (daemon.locker s2) as [p2|] eqn:Hp2; [|left; reflexivity].
  destruct (daemon.acquiring s2) eqn:Ha2; [right; reflexivity|]. exfalso.
  destruct (Hin i s1 p1 Hl1 Hp1) as [Hq1 Hw1]. destruct (Hin j s2 p2 Hl2 Hp2) as [Hq2 Hw2].
  destruct (exclusive_alone allCores _ p1 Hall Hrun Hq1 (Hw1 Ha1) Hsh) as [_ Honly].
  pose proof (Honly p2 Hq2 (Hw2 Ha2)) as ->.
  apply Hne. exact (Hdist j i s2 s1 p1 Hl2 Hl1 Hp2 Hp1).
Qed.

Lemma X22_daemon_exclusive_session_is_alone_witness :
  let s1 := daemon.mkServer "alice" (Some 0%nat) false None in
  let s2 := daemon.mkServer "???" (Some 1%nat) true None in
  (wf_set all8 /\
   runs box_Domains box_CurrentRange box_AvailableRange box_SetRange
     ex_allowedList "Jan  2 15:04:05" ex_Encode all8 ex_Error ex_daemon /\
   live ex_daemon 0 s1 /\ holding s1 0 /\ sharedb (daemon.theLock ex_daemon) 0 = false /\
   live ex_daemon 1 s2 /\ 1%nat <> 0%nat) /\
  (daemon.locker s2 = None \/ daemon.acquiring s2 = true).
Proof.
  intros s1 s2.
  assert (live ex_daemon 0 s1) as H1 by reflexivity.
  assert (live ex_daemon 1 s2) as H2 by reflexivity.
  assert (holding s1 0) as H3 by (split; reflexivity).
  split.
  - split; [exact wf_all8|]. split; [exact runs_ex_daemon|]. split; [exact H1|].
    split; [exact H3|]. split; [reflexivity|]. split; [exact H2|]. discriminate.
  - exact (X22_daemon_exclusive_session_is_alone box_Domains box_CurrentRange
             box_AvailableRange box_SetRange ex_allowedList "Jan  2 15:04:05" ex_Encode
             all8 ex_Error ex_daemon 0%nat s1 0%nat wf_all8 runs_ex_daemon H1 H3 eq_refl
             1%nat s2 H2 ltac:(discriminate)).
Defined.

(** X23. No lock is leaked and none is forged. In every state of a run of
    the daemon the queue of the lock holds exactly the lockers of the
    sessions whose [Serve] still runs, each for one session; and a
    session that is no longer waiting for its grant has a woken locker. *)
Theorem X23_daemon_queue_is_the_live_sessions
    {Domain HW : Type}
    (Domains : HW -> list Domain * option error)
    (CurrentRange : Domain -> HW -> Z * Z * option error)
    (AvailableRange : Domain -> HW -> Z * Z * list Z)
    (SetRange : Domain -> Z -> Z -> HW -> HW * option error)
    (allowedList : Z -> string * option error) (now : string)
    (Encode : daemon.message -> bool) (allCores : unix.CPUSet) (Error : error -> string)
    (d : daemon.daemon_state Domain HW) :
  wf_set allCores ->
  runs Domains CurrentRange AvailableRange SetRange allowedList now Encode allCores Error d ->
  (forall p, p ∈ lock.q (daemon.theLock d) ->
     exists i s, live d i s /\ daemon.locker s = Some p) /\
  (forall i s p, live d i s -> daemon.locker s = Some p ->
     p ∈ lock.q (daemon.theLock d) /\
     (daemon.acquiring s = false -> wokenb (daemon.theLock d) p = true)) /\
  (forall i j s1 s2 p, live d i s1 -> live d j s2 ->
     daemon.locker s1 = Some p -> daemon.locker s2 = Some p -> i = j).
Proof.
  intros Hall Hr.
  destruct (runs_DInv _ _ _ _ _ _ _ _ _ d Hall Hr) as (_ & Hin & Hdist & Hown).
  auto.
Qed.

Lemma X23_daemon_queue_is_the_live_sessions_witness :
  (wf_set all8 /\
   runs box_Domains box_CurrentRange box_AvailableRange box_SetRange
     ex_allowedList "Jan  2 15:04:05" ex_Encode all8 ex_Error ex_daemon) /\
  exists i s, live ex_daemon i s /\ daemon.locker s = Some 1%nat.
Proof.
  split; [split; [exact wf_all8|exact runs_ex_daemon]|].
  apply (proj1 (X23_daemon_queue_is_the_live_sessions box_Domains box_CurrentRange
                  box_AvailableRange box_SetRange ex_allowedList "Jan  2 15:04:05"
                  ex_Encode all8 ex_Error ex_daemon wf_all8 runs_ex_daemon)).
  vm_compute. right. left.
Defined.

(** X24. The grant. In every state of a run of the daemon, when the grant
    case of a session fires, the value taken from the channel is [true],
    the locker is woken, and the response that is sent has [Acquired]
    set, no error text, and as [Cores] the cores assigned to the locker:
    as many as were asked for, all of them cores of the daemon that are
    not free, and none of them assigned to another queued locker. *)
Theorem X24_grant_response
    {Domain HW : Type}
    (Domains : HW -> list Domain * option error)
    (CurrentRange : Domain -> HW -> Z * Z * option error)
    (AvailableRange : Domain -> HW -> Z * Z * list Z)
    (SetRange : Domain -> Z -> Z -> HW -> HW * option error)
    (allowedList : Z -> string * option error) (now : string)
    (Encode : daemon.message -> bool) (allCores : unix.CPUSet) (Error : error -> string)
    (d : daemon.daemon_state Domain HW) (i : nat) (s : daemon.Server Domain)
    (r : result (daemon.Server Domain * lock.state * list (daemon.message * bool)
                 * daemon.flow)) :
  wf_set allCores ->
  runs Domains CurrentRange AvailableRange SetRange allowedList now Encode allCores Error d ->
  live d i s -> daemon.serveGrant Encode s (daemon.theLock d) = Some r ->
  let st := daemon.theLock d in
  exists p st' resp,
    daemon.locker s = Some p /\ daemon.acquiring s = true /\
    lock.recv p st = Some (true, st') /\
    wokenb st p = true /\
    resp = daemon.MsgAcquireResponse
             (daemon.mkActionAcquireResponse true (assigned_of st p) EmptyString) /\
    r = Ok (daemon.mkServer (daemon.userName s) (Some p) false (daemon.oldGovernors s), st',
            [(resp, Encode resp)], if Encode resp then daemon.Continue else daemon.Return) /\
    lock.uint (unix.CPUSet_Count (assigned_of st p)) = want_of st p /\
    (forall i, bit (assigned_of st p) i = true ->
       bit allCores i = true /\ bit (lock.cores st) i = false) /\
    (forall p', p' ∈ lock.q st -> p' <> p ->
       cpuset.Intersect (assigned_of st p') (assigned_of st p) = unix.CPUSet_Zero).
Proof.
  intros Hall Hr Hl HG st.
  destruct (runs_DInv _ _ _ _ _ _ _ _ _ d Hall Hr) as (Hrun & Hin & _).
  apply (serveGrant_response Encode allCores s st r Hall Hrun); [|exact HG].
  intros p Hp. apply (Hin i s p Hl Hp).
Qed.

Lemma X24_grant_response_witness :
  let s := daemon.mkServer "alice" (Some 0%nat) true None in
  exists r p st' resp,
    (wf_set all8 /\
     runs box_Domains box_CurrentRange box_AvailableRange box_SetRange
       ex_allowedList "Jan  2 15:04:05" ex_Encode all8 ex_Error ex_daemon_granting /\
     live ex_daemon_granting 0 s /\
     daemon.serveGrant ex_Encode s (daemon.theLock ex_daemon_granting) = Some r) /\
    resp = daemon.MsgAcquireResponse
             (daemon.mkActionAcquireResponse true unix.CPUSet_Zero EmptyString) /\
    r = Ok (daemon.mkServer "alice" (Some p) false None, st',
            [(resp, true)], daemon.Continue).
Proof.
  intros s.
  assert (live ex_daemon_granting 0 s) as Hl by reflexivity.
  destruct (daemon.serveGrant ex_Encode s (daemon.theLock ex_daemon_granting)) as [r|] eqn:HG;
    [|vm_compute in HG; discriminate].
  destruct (X24_grant_response box_Domains box_CurrentRange box_AvailableRange box_SetRange
              ex_allowedList "Jan  2 15:04:05" ex_Encode all8 ex_Error ex_daemon_granting
              0%nat s r wf_all8 runs_ex_daemon_granting Hl HG)
    as (p & st' & resp & Hp & _ & _ & _ & Hresp & Hr & _).
  injection Hp as <-.
  exists r, 0%nat, st', resp.
  split; [split; [exact wf_all8|split; [exact runs_ex_daemon_granting|split;
            [exact Hl|reflexivity]]]|].
  split; [exact Hresp|exact Hr].
Defined.

(** X25. [drop]. In every state of a run of the lock, a [drop] that
    returns leaves the session without locker and without saved
    settings; the machine is the one that the restoring writes leave
    (untouched when nothing was saved); the locker of the session, if it
    had one, has been dequeued and is no longer in the queue; and a
    second [drop] changes nothing. *)
Theorem X25_drop_releases_everything
    {Domain HW : Type} (SetRange : Domain -> Z -> Z -> HW -> HW * option error)
    (all : unix.CPUSet) (s s' : daemon.Server Domain) (hw hw' : HW) (st st' : lock.state) :
  wf_set all -> running all st ->
  daemon.drop SetRange s hw st = Ok (s', hw', st') ->
  daemon.locker s' = None /\ daemon.oldGovernors s' = None /\
  hw' = match daemon.oldGovernors s with
        | Some olds => restore_hw SetRange olds hw
        | None => hw
        end /\
  match daemon.locker s with
  | Some p => lock.Dequeue p st = Ok st' /\ (p ∉ lock.q st')
  | None => st' = st
  end /\
  daemon.drop SetRange s' hw' st' = Ok (s', hw', st').
Proof. apply drop_effect. Qed.

Lemma X25_drop_releases_everything_witness :
  let s := daemon.mkServer "alice" (Some 1%nat) true
             (Some [daemon.mkGovernorSettings 0%nat 1000 2000]) in
  exists s' hw' st',
    (wf_set all8 /\ running all8 ex_shared33 /\
     daemon.drop box_SetRange s box0 ex_shared33 = Ok (s', hw', st')) /\
    daemon.locker s' = None /\ lock.q st' = [0%nat].
Proof.
  intros s.
  destruct (daemon.drop box_SetRange s box0 ex_shared33) as [[[s' hw'] st']|] eqn:HD;
    [|vm_compute in HD; discriminate].
  exists s', hw', st'.
  split; [split; [exact wf_all8|split; [exact running_ex_shared33|reflexivity]]|].
  split.
  - exact (proj1 (X25_drop_releases_everything box_SetRange all8 s s' box0 hw' ex_shared33 st'
                    wf_all8 running_ex_shared33 HD)).
  - vm_compute in HD. injection HD as _ _ <-. reflexivity.
Defined.

(** X26. Protocol errors. A message that arrives while the session waits
    for its grant, a second [ActionAcquire], an [ActionSetGovernor]
    without a locker, and a message of no known type all end the
    session: no reply is sent, and what remains of the turn is [drop]. *)
Theorem X26_protocol_errors_end_the_session
    {Domain HW : Type}
    (Domains : HW -> list Domain * option error)
    (CurrentRange : Domain -> HW -> Z * Z * option error)
    (AvailableRange : Domain -> HW -> Z * Z * list Z)
    (SetRange : Domain -> Z -> Z -> HW -> HW * option error)
    (allowedList : Z -> string * option error) (now : string)
    (Encode : daemon.message -> bool) (allCores : unix.CPUSet) (Error : error -> string)
    (action : daemon.PerfLockAction) (s : daemon.Server Domain)
    (st : lock.state) (hw : HW) :
  daemon.acquiring s = true \/
  (exists a, action = daemon.ActAcquire a /\ daemon.locker s <> None) \/
  (exists percent, action = daemon.ActSetGovernor percent /\ daemon.locker s = None) \/
  action = daemon.ActOther ->
  daemon.serveAction Domains CurrentRange AvailableRange SetRange allowedList now Encode
    allCores Error action s st hw = Ok (s, st, hw, [], daemon.Return) /\
  daemon.Serve_turn Domains CurrentRange AvailableRange SetRange allowedList now Encode
    allCores Error (daemon.EvAction action) s st hw
  = Some ('(_, hw', st') ← daemon.drop SetRange s hw st; Ok (None, st', hw', [])).
Proof.
  intros H.
  assert (daemon.serveAction Domains CurrentRange AvailableRange SetRange allowedList now
            Encode allCores Error action s st hw = Ok (s, st, hw, [], daemon.Return)) as E.
  { unfold daemon.serveAction.
    destruct (daemon.acquiring s) eqn:Ea; [reflexivity|].
    destruct H as [H|[(a & -> & Hl)|[(percent & -> & Hl)| ->]]]; [discriminate| | |].
    - unfold daemon.serveAcquire. rewrite Ea.
      destruct (daemon.locker s); [reflexivity|contradiction].
    - rewrite Hl. reflexivity.
    - reflexivity. }
  split; [exact E|].
  unfold daemon.Serve_turn, daemon.Serve_select. rewrite E. reflexivity.
Qed.

Lemma X26_protocol_errors_end_the_session_witness :
  let s := daemon.mkServer "alice" (Some 1%nat) true None in
  daemon.acquiring s = true /\
  daemon.Serve_turn box_Domains box_CurrentRange box_AvailableRange box_SetRange
    ex_allowedList "Jan  2 15:04:05" ex_Encode all8 ex_Error
    (daemon.EvAction daemon.ActList) s ex_shared33 box0
  = Some ('(_, hw', st') ← daemon.drop box_SetRange s box0 ex_shared33;
          Ok (None, st', hw', [])).
Proof.
  intros s. split; [reflexivity|].
  apply (X26_protocol_errors_end_the_session box_Domains box_CurrentRange box_AvailableRange
           box_SetRange ex_allowedList "Jan  2 15:04:05" ex_Encode all8 ex_Error
           daemon.ActList s ex_shared33 box0).
  left. reflexivity.
Defined.

(** * The command line and the governor flag *)

Section main_theory.

Lemma append_assoc_s (a b c : string) : ((a +:+ b) +:+ c = a +:+ (b +:+ c))%string.
Proof.
  induction a as [|x a IH]; [rewrite !append_nil_l; reflexivity|].
  rewrite !append_cons, IH. reflexivity.
Qed.

Lemma append_nil_r_s (a : string) : (a +:+ "" = a)%string.
Proof. induction a as [|x a IH]; [reflexivity|]. rewrite append_cons, IH. reflexivity. Qed.

Lemma append_snoc (a : string) c (b : string) :
  ((a +:+ String c "") +:+ b = a +:+ String c b)%string.
Proof. rewrite append_assoc_s, append_cons, append_nil_l. reflexivity. Qed.

Lemma safe_plain c :
  main.safe c = true ->
  Ascii.eqb c " " = false /\ Ascii.eqb c "'" = false /\ Ascii.eqb c main.dquote = false.
Proof.
  intros H.
  destruct (Ascii.eqb_spec c " ") as [->|_]; [vm_compute in H; discriminate|].
  destruct (Ascii.eqb_spec c "'") as [->|_]; [vm_compute in H; discriminate|].
  destruct (Ascii.eqb_spec c main.dquote) as [->|_]; [vm_compute in H; discriminate|].
  auto.
Qed.

Lemma length_append_s (a b : string) :
  String.length (a +:+ b) = (String.length a + String.length b)%nat.
Proof.
  induction a as [|x a IH]; [rewrite append_nil_l; reflexivity|].
  rewrite append_cons. cbn [String.length]. rewrite IH. reflexivity.
Qed.

Lemma Replace_length y :
  (String.length y <= String.length (main.Replace y "'" main.quote_escape))%nat.
Proof.
  induction y as [|c y IH]; [reflexivity|]. cbn [main.Replace].
  destruct (Ascii.eqb c "'").
  - rewrite length_append_s. cbn [String.length main.quote_escape]. lia.
  - cbn [String.length]. lia.
Qed.

(** The loop of [shellEscape] returns its argument when every byte is
    safe, and the quoted form otherwise. *)
Lemma shellEscape_loop_spec rest x :
  main.shellEscape_loop rest x =
  if all_safe rest then x
  else ("'" +:+ main.Replace x "'" main.quote_escape +:+ "'")%string.
Proof.
  induction rest as [|c rest IH]; [reflexivity|].
  cbn [main.shellEscape_loop all_safe]. destruct (main.safe c); [exact IH|reflexivity].
Qed.

Lemma shellEscape_spec x :
  main.shellEscape x =
  if all_safe x && negb (String.eqb x "") then x
  else ("'" +:+ main.Replace x "'" main.quote_escape +:+ "'")%string.
Proof.
  unfold main.shellEscape. destruct x as [|c x]; [reflexivity|].
  cbn [String.length Nat.eqb]. rewrite shellEscape_loop_spec.
  change (String.eqb (String c x) "") with false. cbn [negb]. rewrite andb_true_r.
  reflexivity.
Qed.

(** A run of safe bytes is read as it stands. *)
Lemma sh_words_safe x rest started cur :
  all_safe x = true ->
  sh_words (x +:+ rest) Unquoted started cur =
  sh_words rest Unquoted (started || negb (String.eqb x "")) (cur +:+ x).
Proof.
  revert started cur. induction x as [|c x IH]; intros started cur Hs.
  - rewrite append_nil_l, append_nil_r_s, orb_false_r. reflexivity.
  - cbn [all_safe] in Hs. apply andb_prop in Hs as [Hc Hx].
    destruct (safe_plain c Hc) as (E1 & E2 & E3).
    rewrite append_cons. cbn [sh_words]. rewrite E1, E2, E3.
    rewrite IH by exact Hx. rewrite append_snoc.
    change (String.eqb (String c x) "") with false. cbn [negb].
    rewrite !orb_true_r. reflexivity.
Qed.

(** The body of the quoted form is read back as the argument. *)
Lemma sh_words_quoted x rest cur :
  sh_words (main.Replace x "'" main.quote_escape +:+ String "'" rest) SingleQuoted true cur =
  sh_words rest Unquoted true (cur +:+ x).
Proof.
  revert cur. induction x as [|c x IH]; intros cur.
  - cbn [main.Replace]. rewrite append_nil_l, append_nil_r_s. reflexivity.
  - cbn [main.Replace]. destruct (Ascii.eqb_spec c "'") as [->|Hne].
    + unfold main.quote_escape. rewrite append_assoc_s, !append_cons, append_nil_l.
      cbn [sh_words].
      change (Ascii.eqb "'" "'") with true.
      change (Ascii.eqb main.dquote " ") with false.
      change (Ascii.eqb main.dquote "'") with false.
      change (Ascii.eqb "'" main.dquote) with false.
      change (Ascii.eqb "'" " ") with false.
      rewrite Ascii.eqb_refl. cbn iota.
      rewrite IH, append_snoc. reflexivity.
    + rewrite append_cons. cbn [sh_words].
      destruct (Ascii.eqb_spec c "'"); [contradiction|].
      rewrite IH, append_snoc. reflexivity.
Qed.

(** One escaped token, followed by the end or by a space. *)
Lemma sh_words_token x rest :
  sh_words (main.shellEscape x +:+ rest) Unquoted false EmptyString =
  sh_words rest Unquoted true x.
Proof.
  rewrite shellEscape_spec.
  destruct (all_safe x && negb (String.eqb x "")) eqn:E.
  - apply andb_prop in E as [Hs Hne]. rewrite sh_words_safe by exact Hs.
    rewrite Hne, append_nil_l. reflexivity.
  - rewrite (append_cons "'" EmptyString), append_nil_l, append_cons. cbn [sh_words].
    change (Ascii.eqb "'" " ") with false. change (Ascii.eqb "'" "'") with true. cbn iota.
    rewrite append_assoc_s, (append_cons "'" EmptyString), append_nil_l.
    rewrite sh_words_quoted, append_nil_l. reflexivity.
Qed.

Lemma sh_words_list xs :
  sh_words (main.shellEscapeList xs) Unquoted false EmptyString = Some xs.
Proof.
  unfold main.shellEscapeList. induction xs as [|x xs IH]; [reflexivity|].
  cbn [map]. destruct xs as [|y ys].
  - cbn [map main.Join].
    rewrite <- (append_nil_r_s (main.shellEscape x)), sh_words_token. reflexivity.
  - cbn [map] in *. rewrite Join_cons2, sh_words_token, append_cons, append_nil_l.
    cbn [sh_words]. change (Ascii.eqb " " " ") with true. cbn iota.
    rewrite IH. reflexivity.
Qed.

(** ** Decimal numbers *)

Lemma pretty_N_char_digit d :
  (d < 10)%N ->
  strconv.isDigit (pretty_N_char d) = true /\
  Z.of_nat (nat_of_ascii (pretty_N_char d)) - 48 = Z.of_N d.
Proof.
  intros H.
  assert (d = 0 \/ d = 1 \/ d = 2 \/ d = 3 \/ d = 4 \/ d = 5 \/ d = 6 \/ d = 7 \/ d = 8
          \/ d = 9)%N as Hd by lia.
  repeat (destruct Hd as [->|Hd]; [split; reflexivity|]). subst d. split; reflexivity.
Qed.

(** The decimal digits that [pretty] writes for a natural number. *)
Lemma pretty_N_go_spec x :
  forall s n,
    all_digits (pretty_N_go x s) = all_digits s /\
    (exists k, 0 <= Z.of_N x < 10 ^ k /\ 0 <= k /\
       value_from n (pretty_N_go x s) = value_from (n * 10 ^ k + Z.of_N x) s) /\
    ((0 < x)%N -> pretty_N_go x s <> EmptyString).
Proof.
  induction x as [x IH] using (well_founded_ind N.lt_wf_0). intros s n.
  destruct (N.eq_dec x 0%N) as [->|Hx].
  - rewrite pretty_N_go_0. split; [reflexivity|]. split; [|lia].
    exists 0. split; [cbn; lia|]. split; [lia|]. f_equal. cbn. lia.
  - assert (0 < x)%N as Hpos by lia.
    rewrite pretty_N_go_step by exact Hpos.
    assert (x `div` 10 < x)%N as Hlt by (apply N.div_lt; lia).
    assert (x `mod` 10 < 10)%N as Hm by (apply N.mod_lt; lia).
    destruct (pretty_N_char_digit _ Hm) as [Hd Hv].
    destruct (IH _ Hlt (String (pretty_N_char (x `mod` 10)%N) s) n)
      as (Ha & (k & Hk & Hk0 & Hval) & Hne).
    pose proof (N.div_mod x 10%N ltac:(lia)) as Hdm.
    assert (Z.of_N x = 10 * Z.of_N (x `div` 10)%N + Z.of_N (x `mod` 10)%N) as Hz by lia.
    split; [|split].
    + rewrite Ha. cbn [all_digits]. rewrite Hd. reflexivity.
    + exists (k + 1). split; [|split; [lia|]].
      * rewrite Z.pow_add_r, Z.pow_1_r by lia. lia.
      * rewrite Hval. cbn [value_from]. rewrite Hv. f_equal.
        rewrite Z.pow_add_r, Z.pow_1_r by lia. lia.
    + intros _. destruct (N.eq_dec (x `div` 10)%N 0%N) as [E|E].
      * rewrite E, pretty_N_go_0. discriminate.
      * apply Hne. lia.
Qed.

Lemma pretty_Z_uint p :
  0 <= p -> is_uint (pretty p) = true /\ value (pretty p) = p.
Proof.
  intros Hp. destruct p as [|q|q]; [split; reflexivity| |lia].
  change (pretty (Z.pos q)) with (pretty (N.pos q)).
  unfold pretty, pretty_N. destruct (decide (N.pos q = 0%N)) as [E|_]; [discriminate|].
  destruct (pretty_N_go_spec (N.pos q) EmptyString 0) as (Ha & (k & _ & _ & Hv) & Hne).
  split.
  - unfold is_uint. rewrite Ha. cbn [all_digits]. rewrite andb_true_r.
    apply negb_true_iff. destruct (pretty_N_go (N.pos q) ""); [|reflexivity].
    exfalso. apply Hne; [lia|reflexivity].
  - unfold value. rewrite Hv. cbn [value_from]. lia.
Qed.

(** ** [Atoi] on digits *)

Lemma ParseUint_loop_overflow t n :
  all_digits t = true -> 0 <= n <= strconv.maxUint64 ->
  strconv.maxUint64 < value_from n t ->
  strconv.ParseUint_loop t n = inr ErrRange.
Proof.
  revert n. induction t as [|c t IH]; intros n Hd Hn Hv; [cbn in Hv; lia|].
  cbn [all_digits] in Hd. apply andb_prop in Hd as [Hc Hd].
  cbn [strconv.ParseUint_loop]. rewrite Hc.
  destruct (n >=? strconv.maxUint64 `quot` 10 + 1); [reflexivity|].
  pose proof (isDigit_value c Hc) as Hdig.
  destruct (Z.gtb_spec (n * 10 + (Z.of_nat (nat_of_ascii c) - 48)) strconv.maxUint64);
    [reflexivity|].
  apply IH; [exact Hd|lia|exact Hv].
Qed.

(** [Atoi] of a string of digits is its value, or the largest [int]
    when the value does not fit. *)
Lemma Atoi_digits t :
  is_uint t = true -> fst (strconv.Atoi t) = Z.min (value t) strconv.maxInt64.
Proof.
  intros Hu. destruct (Z.lt_ge_cases (value t) (2 ^ 63)) as [Hlt|Hge].
  - rewrite (Atoi_uint t Hu Hlt). cbn [fst]. unfold strconv.maxInt64. lia.
  - apply is_uint_digits in Hu as [Hne Hd].
    destruct t as [|c0 rest]; [contradiction|].
    assert (strconv.isDigit c0 = true) as Hc0
      by (cbn [all_digits] in Hd; apply andb_prop in Hd as [H _]; exact H).
    unfold strconv.Atoi.
    destruct (Ascii.eqb_spec c0 "-") as [->|_]; [discriminate|].
    destruct (Ascii.eqb_spec c0 "+") as [->|_]; [discriminate|].
    cbn [orb negb andb].
    fold (value (String c0 rest)) in *.
    destruct (Z.le_gt_cases (value (String c0 rest)) strconv.maxUint64) as [Hfit|Hover].
    + rewrite ParseUint_loop_digits; [|exact Hd|lia|exact Hfit].
      fold (value (String c0 rest)).
      destruct (Z.geb_spec (value (String c0 rest)) (2 ^ 63)); [|lia].
      cbn [fst]. unfold strconv.maxInt64. lia.
    + rewrite ParseUint_loop_overflow; [|exact Hd|unfold strconv.maxUint64; lia|exact Hover].
      cbn [fst]. unfold strconv.maxInt64 in *. lia.
Qed.

(** ** The governor flag *)

Lemma digits_percent_digits t :
  all_digits t = true -> main.digits_percent (t +:+ "%") = Some t.
Proof.
  induction t as [|c t IH]; intros Hd; [reflexivity|].
  cbn [all_digits] in Hd. apply andb_prop in Hd as [Hc Hd].
  rewrite append_cons. cbn [main.digits_percent].
  destruct (Ascii.eqb_spec c "%") as [->|_]; [discriminate|].
  rewrite Hc, IH by exact Hd. reflexivity.
Qed.

Lemma digits_percent_Some v t :
  main.digits_percent v = Some t -> all_digits t = true /\ v = (t +:+ "%")%string.
Proof.
  revert t. induction v as [|c v IH]; intros t; [discriminate|].
  cbn [main.digits_percent]. destruct (Ascii.eqb_spec c "%") as [->|_].
  - destruct v; [|discriminate]. intros [= <-]. split; reflexivity.
  - destruct (strconv.isDigit c) eqn:Hc; [|discriminate].
    destruct (main.digits_percent v) as [t'|]; [|discriminate].
    intros [= <-]. destruct (IH t' eq_refl) as [Hd ->].
    split; [cbn [all_digits]; rewrite Hc, Hd; reflexivity|].
    rewrite append_cons. reflexivity.
Qed.

Lemma FindStringSubmatch_spec v :
  match main.FindStringSubmatch v with
  | Some t => is_uint t = true /\ v = (t +:+ "%")%string
  | None => forall t, is_uint t = true -> v <> (t +:+ "%")%string
  end.
Proof.
  unfold main.FindStringSubmatch.
  destruct (main.digits_percent v) as [t|] eqn:E.
  - apply digits_percent_Some in E as [Hd ->]. destruct t as [|c t].
    + intros t Hu E. apply is_uint_digits in Hu as [Hne Hd'].
      destruct t as [|c' t]; [contradiction|].
      rewrite append_cons, append_nil_l in E. injection E as <- E.
      cbn [all_digits] in Hd'. discriminate.
    + split; [|reflexivity]. unfold is_uint. rewrite Hd. reflexivity.
  - intros t Hu ->. apply is_uint_digits in Hu as [_ Hd].
    rewrite digits_percent_digits in E by exact Hd. discriminate.
Qed.

Lemma none_not_percent t : "none"%string <> (t +:+ "%")%string.
Proof.
  destruct t as [|a [|b [|c [|d [|e t]]]]]; rewrite ?append_cons, ?append_nil_l;
    discriminate.
Qed.

End main_theory.

(** X27. [shellEscapeList] writes a command line that the shell reads back
    as the same arguments: read by the quoting rules of the shell, its
    result is the list it was given. Hence two lists of arguments with
    the same escaped text are the same list. *)
Theorem X27_shellEscapeList_reads_back (xs : list string) :
  sh_words (main.shellEscapeList xs) Unquoted false EmptyString = Some xs /\
  forall ys, main.shellEscapeList ys = main.shellEscapeList xs -> ys = xs.
Proof.
  split; [apply sh_words_list|].
  intros ys E. pose proof (sh_words_list ys) as Hy. rewrite E, sh_words_list in Hy.
  injection Hy as ->. reflexivity.
Qed.

(** X28. What [shellEscape] does to one token: a token that is not empty
    and consists of letters, digits and the bytes [@%_-+:,./] only is
    returned as it is; every other token is put between single quotes,
    with each single quote of the token replaced by a quote, a single
    quote in double quotes, and a quote. The empty token gives two single
    quotes. *)
Theorem X28_shellEscape_quotes_unsafe_tokens (x : string) :
  main.shellEscape x =
    (if all_safe x && negb (String.eqb x "") then x
     else ("'" +:+ main.Replace x "'" main.quote_escape +:+ "'")%string) /\
  (main.shellEscape x = x <-> all_safe x = true /\ x <> EmptyString) /\
  sh_words (main.shellEscape x) Unquoted false EmptyString = Some [x].
Proof.
  split; [apply shellEscape_spec|]. split.
  - rewrite shellEscape_spec. destruct (all_safe x) eqn:Hs; cbn [andb].
    + destruct x as [|c x]; cbn [String.eqb negb].
      * split; [discriminate|]. intros [_ H]. contradiction.
      * split; [intros _; split; [reflexivity|discriminate]|reflexivity].
    + split; [|intros [H _]; discriminate].
      intros E. exfalso. apply (f_equal String.length) in E.
      rewrite !length_append_s in E. cbn [String.length] in E.
      pose proof (Replace_length x) as Hlen. lia.
  - pose proof (sh_words_list [x]) as H. exact H.
Qed.

(** X29. The governor flag. [Set] accepts the text [none], which gives -1,
    and a non-empty string of decimal digits followed by a percent sign,
    which gives the value of the digits, or the largest [int] when they
    do not fit one; values above 100 are accepted. Every other text is
    refused and leaves the flag as it was. *)
Theorem X29_governorFlag_Set (v : string) (f : main.governorFlag) :
  (v = "none"%string -> main.governorFlag_Set v f = (main.mkGovernorFlag (-1), None)) /\
  (forall t, is_uint t = true -> v = (t +:+ "%")%string ->
     main.governorFlag_Set v f
     = (main.mkGovernorFlag (Z.min (value t) strconv.maxInt64), None)) /\
  (v <> "none"%string -> (forall t, is_uint t = true -> v <> (t +:+ "%")%string) ->
     exists e, main.governorFlag_Set v f = (f, Some e)).
Proof.
  unfold main.governorFlag_Set. split; [intros ->; reflexivity|]. split.
  - intros t Hu ->.
    destruct (String.eqb_spec (t +:+ "%") "none") as [E|_];
      [symmetry in E; apply none_not_percent in E; contradiction|].
    pose proof (FindStringSubmatch_spec (t +:+ "%")) as HF.
    destruct (main.FindStringSubmatch (t +:+ "%")) as [t'|].
    + destruct HF as [Hu' E].
      assert (t' = t) as ->.
      { clear -E. revert t' E. induction t as [|c t IH]; intros [|c' t'] E;
          rewrite ?append_cons, ?append_nil_l in E.
        - reflexivity.
        - injection E as <- E. destruct t'; rewrite ?append_cons, ?append_nil_l in E;
            discriminate.
        - injection E as <- E. destruct t; rewrite ?append_cons, ?append_nil_l in E;
            discriminate.
        - injection E as <- E. f_equal. apply IH. exact E. }
      rewrite (Atoi_digits t Hu). reflexivity.
    + exfalso. exact (HF t Hu eq_refl).
  - intros Hn Hp. destruct (String.eqb_spec v "none") as [E|_]; [contradiction|].
    pose proof (FindStringSubmatch_spec v) as HF.
    destruct (main.FindStringSubmatch v) as [t'|]; [|eauto].
    destruct HF as [Hu' E]. exfalso. exact (Hp t' Hu' E).
Qed.

(** X30. Round trip of the governor flag. [Set] reads the text that
    [String] writes: for a percentage from 0 up to the largest [int] it
    gives the percentage back, and for every negative value, which
    [String] writes as [none], it gives -1. *)
Theorem X30_governorFlag_round_trip (f g : main.governorFlag) :
  main.percent f <= strconv.maxInt64 ->
  main.governorFlag_Set (main.governorFlag_String f) g
  = (main.mkGovernorFlag (if main.percent f <? 0 then -1 else main.percent f), None).
Proof.
  intros Hmax. unfold main.governorFlag_String.
  destruct (Z.ltb_spec (main.percent f) 0) as [Hneg|Hpos]; [reflexivity|].
  destruct (pretty_Z_uint (main.percent f) Hpos) as [Hu Hv].
  unfold main.governorFlag_Set.
  destruct (String.eqb_spec (pretty (main.percent f) +:+ "%") "none") as [E|_];
    [symmetry in E; apply none_not_percent in E; contradiction|].
  pose proof (FindStringSubmatch_spec (pretty (main.percent f) +:+ "%")) as HF.
  destruct (main.FindStringSubmatch (pretty (main.percent f) +:+ "%")) as [t'|].
  - destruct HF as [Hu' E].
    assert (t' = pretty (main.percent f)) as ->.
    { clear -E. revert E. generalize (pretty (main.percent f)) as t. intros t. revert t'.
      induction t as [|c t IH]; intros [|c' t'] E;
        rewrite ?append_cons, ?append_nil_l in E.
      - reflexivity.
      - injection E as <- E. destruct t'; rewrite ?append_cons, ?append_nil_l in E;
          discriminate.
      - injection E as <- E. destruct t; rewrite ?append_cons, ?append_nil_l in E;
          discriminate.
      - injection E as <- E. f_equal. apply IH. exact E. }
    rewrite (Atoi_digits _ Hu), Hv. f_equal. f_equal. lia.
  - exfalso. exact (HF _ Hu eq_refl).
Qed.

Lemma X30_governorFlag_round_trip_witness :
  (90 <= strconv.maxInt64) /\
  main.governorFlag_Set (main.governorFlag_String (main.mkGovernorFlag 90))
    (main.mkGovernorFlag 0)
  = (main.mkGovernorFlag 90, None).
Proof.
  split; [vm_compute; discriminate|].
  apply (X30_governorFlag_round_trip (main.mkGovernorFlag 90) (main.mkGovernorFlag 0)).
  vm_compute. discriminate.
Defined.
